(** * Feature tracker of VINS-Fusion (vins_estimator/src/featureTracker)

    A shallow embedding of [feature_tracker.cpp] and the properties of its
    track table: border filtering, coverage mask selection, forward-backward
    gating, outlier feedback, velocity estimation, stereo correspondence,
    prediction-seeded flow, identity allocation and backend dispatch.

    Conventions of the embedding:
    - [cv::Point2f] coordinates, [double] timestamps and the entries of the
      report are rationals ([Q]): every finite floating-point value is a
      rational, and arithmetic on them is taken exactly (rounding is outside
      the model); a division by a computed value goes through [double_div],
      which leaves open what a division by zero gives, an infinity or a NaN
      in the source;
    - [int] is [Z]; an increment past [INT_MAX] is an error of the model;
    - [vector<T>] is [list T]; an access [v[i]] outside the vector is an
      error of the model ([None]);
    - [std::map<int, T>] is [gmap Z T];
    - OpenCV, the camera model and the C++ library are collaborators: they
      are the fields of the class [Collaborators], and the part of their
      contract a proof needs is a hypothesis of the statement
      ([flow_contract], [detector_contract], [sort_contract]); the concrete
      runs use collaborators written out in [Demo] and [Scenes], among them
      [std::sort] as libstdc++ implements it ([libstdcxx]). *)

From Stdlib Require Import ZArith QArith Qround Lia.
From stdpp Require Import base option list sorting gmap.

Local Open Scope Z_scope.

(** ** Scalars *)

(** [uchar] status flags: zero is failure, anything else success. *)
Abbreviation uchar := Z (only parsing).

Definition truthy (s : uchar) : bool := negb (s =? 0).

(** Plain [int]; [x++] overflows (undefined behaviour) at [INT_MAX]. *)
Definition INT_MAX : Z := 2147483647.

Definition int_incr (x : Z) : option Z :=
  if x <? INT_MAX then Some (x + 1) else None.

(** ** Points *)

Record Point2f := mkPoint2f { pt_x : Q; pt_y : Q }.

(** [cv::Point2f(0, 0)] *)
Definition Point2f_zero : Point2f := mkPoint2f 0 0.

(** [cv::Point] (integer pixel): (x, y). *)
Definition Point2i : Type := Z * Z.

(** [cvRound]: nearest integer, a tie goes to the even neighbour. *)
Definition cvRound (v : Q) : Z :=
  let f := Qfloor (v + (1 # 2)) in
  if Qeq_bool (inject_Z f) (v + (1 # 2)) && Z.odd f then f - 1 else f.

(** Conversion [cv::Point2f -> cv::Point] (saturate_cast rounds). *)
Definition toPoint2i (p : Point2f) : Point2i := (cvRound (pt_x p), cvRound (pt_y p)).

(** [FeatureTracker::inBorder], lines 40-46; [row] and [col] are members. *)
Definition BORDER_SIZE : Z := 1.

Definition inBorder (row col : Z) (pt : Point2f) : bool :=
  let img_x := cvRound (pt_x pt) in
  let img_y := cvRound (pt_y pt) in
  (BORDER_SIZE <=? img_x) && (img_x <? col - BORDER_SIZE)
  && (BORDER_SIZE <=? img_y) && (img_y <? row - BORDER_SIZE).

(** [distance], lines 48-54 and 218-224, returns [sqrt (dx*dx + dy*dy)].
    The square root of a rational need not be rational, so the embedding
    keeps the radicand and compares it with the square of the bound:
    for [0 <= r], [sqrt d <= r] exactly when [d <= r * r]. *)
Definition distance_sq (pt1 pt2 : Point2f) : Q :=
  let dx := (pt_x pt1 - pt_x pt2)%Q in
  let dy := (pt_y pt1 - pt_y pt2)%Q in
  (dx * dx + dy * dy)%Q.

(** [distance(pt1, pt2) <= r] for a non-negative literal [r]. *)
Definition distance_le (pt1 pt2 : Point2f) (r : Q) : bool :=
  Qle_bool (distance_sq pt1 pt2) (r * r).

(** ** Loops and vectors *)

(** [for (i = start; i < start + count; i++) s = body(i, s)], stopping at
    the first error. *)
Fixpoint for_loop {S : Type} (start count : nat) (body : nat → S → option S)
    (s : S) : option S :=
  match count with
  | O => Some s
  | Datatypes.S c => s' ← body start s; for_loop (Datatypes.S start) c body s'
  end.

(** One iteration of [reduceVector]: [if (status[i]) v[j++] = v[i];]. *)
Definition reduce_body {A : Type} (status : list uchar) (i : nat)
    (vj : list A * nat) : option (list A * nat) :=
  let '(v, j) := vj in
  s ← status !! i;
  if truthy s then x ← v !! i; Some (<[j := x]> v, Datatypes.S j)
  else Some (v, j).

(** [reduceVector], lines 56-72 (both overloads): in-place compaction
    followed by [v.resize(j)]. *)
Definition reduceVector {A : Type} (v : list A) (status : list uchar)
    : option (list A) :=
  vj ← for_loop 0 (length v) (reduce_body status) (v, 0%nat);
  Some (take (snd vj) (fst vj)).

(** The elements whose flag is set, in order: what [reduceVector] leaves. *)
Fixpoint compact {A : Type} (v : list A) (status : list uchar) : list A :=
  match v, status with
  | x :: v', s :: status' =>
      if truthy s then x :: compact v' status' else compact v' status'
  | _, _ => []
  end.

(** ** Configuration

    The globals of [parameters.h] that [feature_tracker.cpp] reads; they are
    plain [int]s, tested for truth like any C++ integer. *)
Record Config : Type := mkConfig {
  USE_GPU : Z;
  USE_GPU_ACC_FLOW : Z;
  USE_VPI : Z;
  FLOW_BACK : Z;
  MAX_CNT : Z;
  MIN_DIST : Z
}.

Definition set_USE_VPI (v : Z) (cfg : Config) : Config :=
  mkConfig (USE_GPU cfg) (USE_GPU_ACC_FLOW cfg) v (FLOW_BACK cfg) (MAX_CNT cfg)
    (MIN_DIST cfg).

(** [if (x)] on an [int]. *)
Definition int_true (x : Z) : bool := negb (x =? 0).

(** The element type of [cnt_pts_id] in [setMask]:
    [pair<int, pair<cv::Point2f, int>>], that is (track count, (point, id)). *)
Definition CntPtsId : Type := Z * (Point2f * Z).

(** The comparator handed to [sort] in [setMask]: [a.first > b.first]. *)
Definition cnt_gt (a b : CntPtsId) : bool := b.1 <? a.1.

(** One observation of the report: [(camera_id, xyz_uv_velocity)]. *)
Definition Observation : Type := Z * list Q.

(** [map<int, vector<pair<int, Eigen::Matrix<double, 7, 1>>>>] *)
Abbreviation FeatureFrame := (gmap Z (list Observation)).

(** [std::map::insert]: an existing key keeps its value. *)
Definition map_insert_new {V : Type} (k : Z) (v : V) (m : gmap Z V) : gmap Z V :=
  match m !! k with
  | Some _ => m
  | None => <[k := v]> m
  end.

(** [featureFrame[feature_id].emplace_back(camera_id, xyz_uv_velocity)]:
    [operator[]] creates an empty vector for a new key. *)
Definition frame_emplace (feature_id : Z) (o : Observation) (ff : FeatureFrame)
    : FeatureFrame :=
  <[feature_id := default [] (ff !! feature_id) ++ [o]]> ff.

Section Model.

(** [cv::Mat] (images and the coverage mask) and the camera model
    ([camodocal::CameraPtr]) are opaque to the tracker. *)
Context {Mat Camera : Type}.

(** The tracker state has many members; with primitive projections reading
    a member back after a chain of assignments stays cheap. *)
#[local] Set Primitive Projections.

(** The members of [FeatureTracker] that the tracking code reads or writes
    (the visualisation buffer [imTrack] and the unused [sum_n] are left out). *)
Record State : Type := mkState {
  row : Z;
  col : Z;
  cur_img : Mat;
  prev_img : Mat;
  mask : Mat;
  n_pts : list Point2f;
  predict_pts : list Point2f;
  prev_pts : list Point2f;
  cur_pts : list Point2f;
  cur_right_pts : list Point2f;
  prev_un_pts : list Point2f;
  cur_un_pts : list Point2f;
  cur_un_right_pts : list Point2f;
  pts_velocity : list Point2f;
  right_pts_velocity : list Point2f;
  ids : list Z;
  ids_right : list Z;
  track_cnt : list Z;
  cur_un_pts_map : gmap Z Point2f;
  prev_un_pts_map : gmap Z Point2f;
  cur_un_right_pts_map : gmap Z Point2f;
  prev_un_right_pts_map : gmap Z Point2f;
  prevLeftPtsMap : gmap Z Point2f;
  m_camera : list Camera;
  cur_time : Q;
  prev_time : Q;
  stereo_cam : bool;
  n_id : Z;
  hasPrediction : bool
}.

(** Member assignments, one per member. *)
Definition set_row (v : Z) (st : State) : State :=
  mkState v (col st) (cur_img st) (prev_img st) (mask st) (n_pts st)
    (predict_pts st) (prev_pts st) (cur_pts st) (cur_right_pts st)
    (prev_un_pts st) (cur_un_pts st) (cur_un_right_pts st) (pts_velocity st)
    (right_pts_velocity st) (ids st) (ids_right st) (track_cnt st)
    (cur_un_pts_map st) (prev_un_pts_map st) (cur_un_right_pts_map st)
    (prev_un_right_pts_map st) (prevLeftPtsMap st) (m_camera st) (cur_time st)
    (prev_time st) (stereo_cam st) (n_id st) (hasPrediction st).
Definition set_col (v : Z) (st : State) : State :=
  mkState (row st) v (cur_img st) (prev_img st) (mask st) (n_pts st)
    (predict_pts st) (prev_pts st) (cur_pts st) (cur_right_pts st)
    (prev_un_pts st) (cur_un_pts st) (cur_un_right_pts st) (pts_velocity st)
    (right_pts_velocity st) (ids st) (ids_right st) (track_cnt st)
    (cur_un_pts_map st) (prev_un_pts_map st) (cur_un_right_pts_map st)
    (prev_un_right_pts_map st) (prevLeftPtsMap st) (m_camera st) (cur_time st)
    (prev_time st) (stereo_cam st) (n_id st) (hasPrediction st).
Definition set_cur_img (v : Mat) (st : State) : State :=
  mkState (row st) (col st) v (prev_img st) (mask st) (n_pts st)
    (predict_pts st) (prev_pts st) (cur_pts st) (cur_right_pts st)
    (prev_un_pts st) (cur_un_pts st) (cur_un_right_pts st) (pts_velocity st)
    (right_pts_velocity st) (ids st) (ids_right st) (track_cnt st)
    (cur_un_pts_map st) (prev_un_pts_map st) (cur_un_right_pts_map st)
    (prev_un_right_pts_map st) (prevLeftPtsMap st) (m_camera st) (cur_time st)
    (prev_time st) (stereo_cam st) (n_id st) (hasPrediction st).
Definition set_prev_img (v : Mat) (st : State) : State :=
  mkState (row st) (col st) (cur_img st) v (mask st) (n_pts st)
    (predict_pts st) (prev_pts st) (cur_pts st) (cur_right_pts st)
    (prev_un_pts st) (cur_un_pts st) (cur_un_right_pts st) (pts_velocity st)
    (right_pts_velocity st) (ids st) (ids_right st) (track_cnt st)
    (cur_un_pts_map st) (prev_un_pts_map st) (cur_un_right_pts_map st)
    (prev_un_right_pts_map st) (prevLeftPtsMap st) (m_camera st) (cur_time st)
    (prev_time st) (stereo_cam st) (n_id st) (hasPrediction st).
Definition set_mask (v : Mat) (st : State) : State :=
  mkState (row st) (col st) (cur_img st) (prev_img st) v (n_pts st)
    (predict_pts st) (prev_pts st) (cur_pts st) (cur_right_pts st)
    (prev_un_pts st) (cur_un_pts st) (cur_un_right_pts st) (pts_velocity st)
    (right_pts_velocity st) (ids st) (ids_right st) (track_cnt st)
    (cur_un_pts_map st) (prev_un_pts_map st) (cur_un_right_pts_map st)
    (prev_un_right_pts_map st) (prevLeftPtsMap st) (m_camera st) (cur_time st)
    (prev_time st) (stereo_cam st) (n_id st) (hasPrediction st).
Definition set_n_pts (v : list Point2f) (st : State) : State :=
  mkState (row st) (col st) (cur_img st) (prev_img st) (mask st) v
    (predict_pts st) (prev_pts st) (cur_pts st) (cur_right_pts st)
    (prev_un_pts st) (cur_un_pts st) (cur_un_right_pts st) (pts_velocity st)
    (right_pts_velocity st) (ids st) (ids_right st) (track_cnt st)
    (cur_un_pts_map st) (prev_un_pts_map st) (cur_un_right_pts_map st)
    (prev_un_right_pts_map st) (prevLeftPtsMap st) (m_camera st) (cur_time st)
    (prev_time st) (stereo_cam st) (n_id st) (hasPrediction st).
Definition set_predict_pts (v : list Point2f) (st : State) : State :=
  mkState (row st) (col st) (cur_img st) (prev_img st) (mask st) (n_pts st) v
    (prev_pts st) (cur_pts st) (cur_right_pts st) (prev_un_pts st)
    (cur_un_pts st) (cur_un_right_pts st) (pts_velocity st)
    (right_pts_velocity st) (ids st) (ids_right st) (track_cnt st)
    (cur_un_pts_map st) (prev_un_pts_map st) (cur_un_right_pts_map st)
    (prev_un_right_pts_map st) (prevLeftPtsMap st) (m_camera st) (cur_time st)
    (prev_time st) (stereo_cam st) (n_id st) (hasPrediction st).
Definition set_prev_pts (v : list Point2f) (st : State) : State :=
  mkState (row st) (col st) (cur_img st) (prev_img st) (mask st) (n_pts st)
    (predict_pts st) v (cur_pts st) (cur_right_pts st) (prev_un_pts st)
    (cur_un_pts st) (cur_un_right_pts st) (pts_velocity st)
    (right_pts_velocity st) (ids st) (ids_right st) (track_cnt st)
    (cur_un_pts_map st) (prev_un_pts_map st) (cur_un_right_pts_map st)
    (prev_un_right_pts_map st) (prevLeftPtsMap st) (m_camera st) (cur_time st)
    (prev_time st) (stereo_cam st) (n_id st) (hasPrediction st).
Definition set_cur_pts (v : list Point2f) (st : State) : State :=
  mkState (row st) (col st) (cur_img st) (prev_img st) (mask st) (n_pts st)
    (predict_pts st) (prev_pts st) v (cur_right_pts st) (prev_un_pts st)
    (cur_un_pts st) (cur_un_right_pts st) (pts_velocity st)
    (right_pts_velocity st) (ids st) (ids_right st) (track_cnt st)
    (cur_un_pts_map st) (prev_un_pts_map st) (cur_un_right_pts_map st)
    (prev_un_right_pts_map st) (prevLeftPtsMap st) (m_camera st) (cur_time st)
    (prev_time st) (stereo_cam st) (n_id st) (hasPrediction st).
Definition set_cur_right_pts (v : list Point2f) (st : State) : State :=
  mkState (row st) (col st) (cur_img st) (prev_img st) (mask st) (n_pts st)
    (predict_pts st) (prev_pts st) (cur_pts st) v (prev_un_pts st)
    (cur_un_pts st) (cur_un_right_pts st) (pts_velocity st)
    (right_pts_velocity st) (ids st) (ids_right st) (track_cnt st)
    (cur_un_pts_map st) (prev_un_pts_map st) (cur_un_right_pts_map st)
    (prev_un_right_pts_map st) (prevLeftPtsMap st) (m_camera st) (cur_time st)
    (prev_time st) (stereo_cam st) (n_id st) (hasPrediction st).
Definition set_prev_un_pts (v : list Point2f) (st : State) : State :=
  mkState (row st) (col st) (cur_img st) (prev_img st) (mask st) (n_pts st)
    (predict_pts st) (prev_pts st) (cur_pts st) (cur_right_pts st) v
    (cur_un_pts st) (cur_un_right_pts st) (pts_velocity st)
    (right_pts_velocity st) (ids st) (ids_right st) (track_cnt st)
    (cur_un_pts_map st) (prev_un_pts_map st) (cur_un_right_pts_map st)
    (prev_un_right_pts_map st) (prevLeftPtsMap st) (m_camera st) (cur_time st)
    (prev_time st) (stereo_cam st) (n_id st) (hasPrediction st).
Definition set_cur_un_pts (v : list Point2f) (st : State) : State :=
  mkState (row st) (col st) (cur_img st) (prev_img st) (mask st) (n_pts st)
    (predict_pts st) (prev_pts st) (cur_pts st) (cur_right_pts st)
    (prev_un_pts st) v (cur_un_right_pts st) (pts_velocity st)
    (right_pts_velocity st) (ids st) (ids_right st) (track_cnt st)
    (cur_un_pts_map st) (prev_un_pts_map st) (cur_un_right_pts_map st)
    (prev_un_right_pts_map st) (prevLeftPtsMap st) (m_camera st) (cur_time st)
    (prev_time st) (stereo_cam st) (n_id st) (hasPrediction st).
Definition set_cur_un_right_pts (v : list Point2f) (st : State) : State :=
  mkState (row st) (col st) (cur_img st) (prev_img st) (mask st) (n_pts st)
    (predict_pts st) (prev_pts st) (cur_pts st) (cur_right_pts st)
    (prev_un_pts st) (cur_un_pts st) v (pts_velocity st)
    (right_pts_velocity st) (ids st) (ids_right st) (track_cnt st)
    (cur_un_pts_map st) (prev_un_pts_map st) (cur_un_right_pts_map st)
    (prev_un_right_pts_map st) (prevLeftPtsMap st) (m_camera st) (cur_time st)
    (prev_time st) (stereo_cam st) (n_id st) (hasPrediction st).
Definition set_pts_velocity (v : list Point2f) (st : State) : State :=
  mkState (row st) (col st) (cur_img st) (prev_img st) (mask st) (n_pts st)
    (predict_pts st) (prev_pts st) (cur_pts st) (cur_right_pts st)
    (prev_un_pts st) (cur_un_pts st) (cur_un_right_pts st) v
    (right_pts_velocity st) (ids st) (ids_right st) (track_cnt st)
    (cur_un_pts_map st) (prev_un_pts_map st) (cur_un_right_pts_map st)
    (prev_un_right_pts_map st) (prevLeftPtsMap st) (m_camera st) (cur_time st)
    (prev_time st) (stereo_cam st) (n_id st) (hasPrediction st).
Definition set_right_pts_velocity (v : list Point2f) (st : State) : State :=
  mkState (row st) (col st) (cur_img st) (prev_img st) (mask st) (n_pts st)
    (predict_pts st) (prev_pts st) (cur_pts st) (cur_right_pts st)
    (prev_un_pts st) (cur_un_pts st) (cur_un_right_pts st) (pts_velocity st) v
    (ids st) (ids_right st) (track_cnt st) (cur_un_pts_map st)
    (prev_un_pts_map st) (cur_un_right_pts_map st) (prev_un_right_pts_map st)
    (prevLeftPtsMap st) (m_camera st) (cur_time st) (prev_time st)
    (stereo_cam st) (n_id st) (hasPrediction st).
Definition set_ids (v : list Z) (st : State) : State :=
  mkState (row st) (col st) (cur_img st) (prev_img st) (mask st) (n_pts st)
    (predict_pts st) (prev_pts st) (cur_pts st) (cur_right_pts st)
    (prev_un_pts st) (cur_un_pts st) (cur_un_right_pts st) (pts_velocity st)
    (right_pts_velocity st) v (ids_right st) (track_cnt st)
    (cur_un_pts_map st) (prev_un_pts_map st) (cur_un_right_pts_map st)
    (prev_un_right_pts_map st) (prevLeftPtsMap st) (m_camera st) (cur_time st)
    (prev_time st) (stereo_cam st) (n_id st) (hasPrediction st).
Definition set_ids_right (v : list Z) (st : State) : State :=
  mkState (row st) (col st) (cur_img st) (prev_img st) (mask st) (n_pts st)
    (predict_pts st) (prev_pts st) (cur_pts st) (cur_right_pts st)
    (prev_un_pts st) (cur_un_pts st) (cur_un_right_pts st) (pts_velocity st)
    (right_pts_velocity st) (ids st) v (track_cnt st) (cur_un_pts_map st)
    (prev_un_pts_map st) (cur_un_right_pts_map st) (prev_un_right_pts_map st)
    (prevLeftPtsMap st) (m_camera st) (cur_time st) (prev_time st)
    (stereo_cam st) (n_id st) (hasPrediction st).
Definition set_track_cnt (v : list Z) (st : State) : State :=
  mkState (row st) (col st) (cur_img st) (prev_img st) (mask st) (n_pts st)
    (predict_pts st) (prev_pts st) (cur_pts st) (cur_right_pts st)
    (prev_un_pts st) (cur_un_pts st) (cur_un_right_pts st) (pts_velocity st)
    (right_pts_velocity st) (ids st) (ids_right st) v (cur_un_pts_map st)
    (prev_un_pts_map st) (cur_un_right_pts_map st) (prev_un_right_pts_map st)
    (prevLeftPtsMap st) (m_camera st) (cur_time st) (prev_time st)
    (stereo_cam st) (n_id st) (hasPrediction st).
Definition set_cur_un_pts_map (v : gmap Z Point2f) (st : State) : State :=
  mkState (row st) (col st) (cur_img st) (prev_img st) (mask st) (n_pts st)
    (predict_pts st) (prev_pts st) (cur_pts st) (cur_right_pts st)
    (prev_un_pts st) (cur_un_pts st) (cur_un_right_pts st) (pts_velocity st)
    (right_pts_velocity st) (ids st) (ids_right st) (track_cnt st) v
    (prev_un_pts_map st) (cur_un_right_pts_map st) (prev_un_right_pts_map st)
    (prevLeftPtsMap st) (m_camera st) (cur_time st) (prev_time st)
    (stereo_cam st) (n_id st) (hasPrediction st).
Definition set_prev_un_pts_map (v : gmap Z Point2f) (st : State) : State :=
  mkState (row st) (col st) (cur_img st) (prev_img st) (mask st) (n_pts st)
    (predict_pts st) (prev_pts st) (cur_pts st) (cur_right_pts st)
    (prev_un_pts st) (cur_un_pts st) (cur_un_right_pts st) (pts_velocity st)
    (right_pts_velocity st) (ids st) (ids_right st) (track_cnt st)
    (cur_un_pts_map st) v (cur_un_right_pts_map st) (prev_un_right_pts_map st)
    (prevLeftPtsMap st) (m_camera st) (cur_time st) (prev_time st)
    (stereo_cam st) (n_id st) (hasPrediction st).
Definition set_cur_un_right_pts_map (v : gmap Z Point2f) (st : State) : State :=
  mkState (row st) (col st) (cur_img st) (prev_img st) (mask st) (n_pts st)
    (predict_pts st) (prev_pts st) (cur_pts st) (cur_right_pts st)
    (prev_un_pts st) (cur_un_pts st) (cur_un_right_pts st) (pts_velocity st)
    (right_pts_velocity st) (ids st) (ids_right st) (track_cnt st)
    (cur_un_pts_map st) (prev_un_pts_map st) v (prev_un_right_pts_map st)
    (prevLeftPtsMap st) (m_camera st) (cur_time st) (prev_time st)
    (stereo_cam st) (n_id st) (hasPrediction st).
Definition set_prev_un_right_pts_map (v : gmap Z Point2f) (st : State) : State :=
  mkState (row st) (col st) (cur_img st) (prev_img st) (mask st) (n_pts st)
    (predict_pts st) (prev_pts st) (cur_pts st) (cur_right_pts st)
    (prev_un_pts st) (cur_un_pts st) (cur_un_right_pts st) (pts_velocity st)
    (right_pts_velocity st) (ids st) (ids_right st) (track_cnt st)
    (cur_un_pts_map st) (prev_un_pts_map st) (cur_un_right_pts_map st) v
    (prevLeftPtsMap st) (m_camera st) (cur_time st) (prev_time st)
    (stereo_cam st) (n_id st) (hasPrediction st).
Definition set_prevLeftPtsMap (v : gmap Z Point2f) (st : State) : State :=
  mkState (row st) (col st) (cur_img st) (prev_img st) (mask st) (n_pts st)
    (predict_pts st) (prev_pts st) (cur_pts st) (cur_right_pts st)
    (prev_un_pts st) (cur_un_pts st) (cur_un_right_pts st) (pts_velocity st)
    (right_pts_velocity st) (ids st) (ids_right st) (track_cnt st)
    (cur_un_pts_map st) (prev_un_pts_map st) (cur_un_right_pts_map st)
    (prev_un_right_pts_map st) v (m_camera st) (cur_time st) (prev_time st)
    (stereo_cam st) (n_id st) (hasPrediction st).
Definition set_m_camera (v : list Camera) (st : State) : State :=
  mkState (row st) (col st) (cur_img st) (prev_img st) (mask st) (n_pts st)
    (predict_pts st) (prev_pts st) (cur_pts st) (cur_right_pts st)
    (prev_un_pts st) (cur_un_pts st) (cur_un_right_pts st) (pts_velocity st)
    (right_pts_velocity st) (ids st) (ids_right st) (track_cnt st)
    (cur_un_pts_map st) (prev_un_pts_map st) (cur_un_right_pts_map st)
    (prev_un_right_pts_map st) (prevLeftPtsMap st) v (cur_time st)
    (prev_time st) (stereo_cam st) (n_id st) (hasPrediction st).
Definition set_cur_time (v : Q) (st : State) : State :=
  mkState (row st) (col st) (cur_img st) (prev_img st) (mask st) (n_pts st)
    (predict_pts st) (prev_pts st) (cur_pts st) (cur_right_pts st)
    (prev_un_pts st) (cur_un_pts st) (cur_un_right_pts st) (pts_velocity st)
    (right_pts_velocity st) (ids st) (ids_right st) (track_cnt st)
    (cur_un_pts_map st) (prev_un_pts_map st) (cur_un_right_pts_map st)
    (prev_un_right_pts_map st) (prevLeftPtsMap st) (m_camera st) v
    (prev_time st) (stereo_cam st) (n_id st) (hasPrediction st).
Definition set_prev_time (v : Q) (st : State) : State :=
  mkState (row st) (col st) (cur_img st) (prev_img st) (mask st) (n_pts st)
    (predict_pts st) (prev_pts st) (cur_pts st) (cur_right_pts st)
    (prev_un_pts st) (cur_un_pts st) (cur_un_right_pts st) (pts_velocity st)
    (right_pts_velocity st) (ids st) (ids_right st) (track_cnt st)
    (cur_un_pts_map st) (prev_un_pts_map st) (cur_un_right_pts_map st)
    (prev_un_right_pts_map st) (prevLeftPtsMap st) (m_camera st) (cur_time st)
    v (stereo_cam st) (n_id st) (hasPrediction st).
Definition set_stereo_cam (v : bool) (st : State) : State :=
  mkState (row st) (col st) (cur_img st) (prev_img st) (mask st) (n_pts st)
    (predict_pts st) (prev_pts st) (cur_pts st) (cur_right_pts st)
    (prev_un_pts st) (cur_un_pts st) (cur_un_right_pts st) (pts_velocity st)
    (right_pts_velocity st) (ids st) (ids_right st) (track_cnt st)
    (cur_un_pts_map st) (prev_un_pts_map st) (cur_un_right_pts_map st)
    (prev_un_right_pts_map st) (prevLeftPtsMap st) (m_camera st) (cur_time st)
    (prev_time st) v (n_id st) (hasPrediction st).
Definition set_n_id (v : Z) (st : State) : State :=
  mkState (row st) (col st) (cur_img st) (prev_img st) (mask st) (n_pts st)
    (predict_pts st) (prev_pts st) (cur_pts st) (cur_right_pts st)
    (prev_un_pts st) (cur_un_pts st) (cur_un_right_pts st) (pts_velocity st)
    (right_pts_velocity st) (ids st) (ids_right st) (track_cnt st)
    (cur_un_pts_map st) (prev_un_pts_map st) (cur_un_right_pts_map st)
    (prev_un_right_pts_map st) (prevLeftPtsMap st) (m_camera st) (cur_time st)
    (prev_time st) (stereo_cam st) v (hasPrediction st).
Definition set_hasPrediction (v : bool) (st : State) : State :=
  mkState (row st) (col st) (cur_img st) (prev_img st) (mask st) (n_pts st)
    (predict_pts st) (prev_pts st) (cur_pts st) (cur_right_pts st)
    (prev_un_pts st) (cur_un_pts st) (cur_un_right_pts st) (pts_velocity st)
    (right_pts_velocity st) (ids st) (ids_right st) (track_cnt st)
    (cur_un_pts_map st) (prev_un_pts_map st) (cur_un_right_pts_map st)
    (prev_un_right_pts_map st) (prevLeftPtsMap st) (m_camera st) (cur_time st)
    (prev_time st) (stereo_cam st) (n_id st) v.

#[local] Unset Primitive Projections.

(** *** Collaborators

    OpenCV, VPI, the camera model and [std::sort], at the interface the
    tracker uses them through. *)
Class Collaborators : Type := {
  Mat_rows : Mat → Z;
  Mat_cols : Mat → Z;
  Mat_empty : Mat → bool;
  (** [cv::Mat(rows, cols, CV_8UC1, cv::Scalar(v))] *)
  Mat_fill : Z → Z → uchar → Mat;
  (** [m.at<uchar>(pt)] *)
  Mat_at : Mat → Point2i → uchar;
  (** [cv::circle(m, center, radius, color, -1)], returning the drawn image. *)
  cv_circle : Mat → Point2i → Z → uchar → Mat;
  (** [cv::calcOpticalFlowPyrLK(prevImg, nextImg, prevPts, nextPts, status,
      err, winSize, maxLevel, criteria, flags)]: the arguments are the two
      images, [prevPts], the content of [nextPts] on entry, [maxLevel] and
      whether [OPTFLOW_USE_INITIAL_FLOW] is set; the result is [nextPts] and
      [status] on return. *)
  calcOpticalFlowPyrLK :
    Mat → Mat → list Point2f → list Point2f → Z → bool
    → list Point2f * list uchar;
  (** [cv::cuda::SparsePyrLKOpticalFlow::create(winSize, maxLevel, iters,
      useInitialFlow)->calc(prevImg, nextImg, prevPts, nextPts, status)]
      followed by the two downloads. *)
  cuda_SparsePyrLK :
    Mat → Mat → list Point2f → list Point2f → Z → bool
    → list Point2f * list uchar;
  (** [cv::goodFeaturesToTrack(image, corners, maxCorners, 0.01,
      minDistance, mask)] and the CUDA detector: image, [maxCorners],
      [minDistance], mask. *)
  goodFeaturesToTrack : Mat → Z → Z → Mat → list Point2f;
  cuda_GoodFeaturesToTrack : Mat → Z → Z → Mat → list Point2f;
  (** [camodocal::Camera::liftProjective] and [spaceToPlane]. *)
  liftProjective : Camera → Q * Q → Q * Q * Q;
  spaceToPlane : Camera → Q * Q * Q → Q * Q;
  (** [std::sort(first, last, comp)] on [cnt_pts_id]. *)
  std_sort : (CntPtsId → CntPtsId → bool) → list CntPtsId → list CntPtsId;
  (** [x / 0.0] on doubles is an infinity or a NaN, which no rational stands
      for.  The tracker only stores such a quotient and copies it into the
      report; the model keeps it as the value this field gives for the
      dividend [x], about which nothing is assumed. *)
  double_div_zero : Q → Q;
  (** The [USE_VPI] arms of [trackImage] only call into VPI and CUDA; what
      the flow arm (lines 373-498) leaves in [cur_pts] and [status], and
      which key points the Harris arm (lines 576-660) reads back, is left
      open. *)
  vpi_optical_flow : Config → State → list Point2f * list uchar;
  vpi_harris_keypoints : Config → State → list Point2f
}.

Context {collab : Collaborators}.

(** [for (auto &x : l) s = body(x, s)], stopping at the first error. *)
Fixpoint for_each {A S : Type} (body : A → S → option S) (l : list A) (s : S)
    : option S :=
  match l with
  | [] => Some s
  | x :: l' => s' ← body x s; for_each body l' s'
  end.

(** *** The constructor and calibration intake *)

(** [FeatureTracker::FeatureTracker], lines 169-175.  Containers start
    empty; the members the constructor leaves uninitialised are arguments. *)
Definition FeatureTracker_new (img0 : Mat) (row0 col0 : Z) (t0 t1 : Q) : State :=
  mkState row0 col0 img0 img0 img0 [] [] [] [] [] [] [] [] [] [] [] [] []
    ∅ ∅ ∅ ∅ ∅ [] t0 t1 false 0 false.

(** [readIntrinsicParameter], lines 863-873; [cams] are the cameras the
    factory generated from the calibration files. *)
Definition readIntrinsicParameter (cams : list Camera) (st : State) : State :=
  let st1 := set_m_camera (m_camera st ++ cams) st in
  if (length cams =? 2)%nat then set_stereo_cam true st1 else st1.

(** *** Correspondence propagation *)

(** The success counter of lines 258-263 and 312-317. *)
Definition count_succ (status : list uchar) : Z :=
  foldl (λ succ_num s, if truthy s then succ_num + 1 else succ_num) 0 status.

(** The forward pass on the CPU, lines 252-268. *)
Definition forward_cpu (st : State) : list Point2f * list uchar :=
  if hasPrediction st then
    let r := calcOpticalFlowPyrLK (prev_img st) (cur_img st) (prev_pts st)
               (predict_pts st) 1 true in
    if count_succ r.2 <? 10 then
      calcOpticalFlowPyrLK (prev_img st) (cur_img st) (prev_pts st) r.1 3 false
    else r
  else
    calcOpticalFlowPyrLK (prev_img st) (cur_img st) (prev_pts st) (cur_pts st)
      3 false.

(** The forward pass on the GPU, lines 292-346. *)
Definition forward_gpu (st : State) : list Point2f * list uchar :=
  if hasPrediction st then
    let r := cuda_SparsePyrLK (prev_img st) (cur_img st) (prev_pts st)
               (predict_pts st) 1 true in
    if count_succ r.2 <? 10 then
      cuda_SparsePyrLK (prev_img st) (cur_img st) (prev_pts st) r.1 3 false
    else r
  else
    cuda_SparsePyrLK (prev_img st) (cur_img st) (prev_pts st) (cur_pts st)
      3 false.

(** One iteration of the reverse check, lines 277-285 and 361-369:
    [status[i] && reverse_status[i] && distance(...) <= 0.5], evaluated
    left to right, decides between 1 and 0. *)
Definition fb_body (reverse_status : list uchar)
    (prev reverse_pts : list Point2f) (i : nat) (status : list uchar)
    : option (list uchar) :=
  s ← status !! i;
  ok ← (if truthy s then
          r ← reverse_status !! i;
          if truthy r then
            p ← prev !! i; q ← reverse_pts !! i;
            Some (distance_le p q (1 # 2))
          else Some false
        else Some false);
  Some (<[i := if ok : bool then 1 else 0]> status).

Definition fb_check (status reverse_status : list uchar)
    (prev reverse_pts : list Point2f) : option (list uchar) :=
  for_loop 0 (length status) (fb_body reverse_status prev reverse_pts) status.

(** The CPU arm, lines 247-288. *)
Definition flow_cpu (cfg : Config) (st : State)
    : option (list Point2f * list uchar) :=
  let fwd := forward_cpu st in
  if int_true (FLOW_BACK cfg) then
    let rev := calcOpticalFlowPyrLK (cur_img st) (prev_img st) fwd.1
                 (prev_pts st) 1 true in
    status ← fb_check fwd.2 rev.2 (prev_pts st) rev.1;
    Some (fwd.1, status)
  else Some fwd.

(** The GPU arm, lines 289-372. *)
Definition flow_gpu (cfg : Config) (st : State)
    : option (list Point2f * list uchar) :=
  let fwd := forward_gpu st in
  if int_true (FLOW_BACK cfg) then
    let rev := cuda_SparsePyrLK (cur_img st) (prev_img st) fwd.1
                 (prev_pts st) 1 true in
    status ← fb_check fwd.2 rev.2 (prev_pts st) rev.1;
    Some (fwd.1, status)
  else Some fwd.

(** The chain [if (!USE_GPU_ACC_FLOW) .. else if (USE_GPU_ACC_FLOW) ..
    else if (USE_VPI) ..], lines 247-498; with no arm taken [cur_pts] keeps
    its content and [status] stays empty. *)
Definition flow_dispatch (cfg : Config) (st : State)
    : option (list Point2f * list uchar) :=
  if negb (int_true (USE_GPU_ACC_FLOW cfg)) then flow_cpu cfg st
  else if int_true (USE_GPU_ACC_FLOW cfg) then flow_gpu cfg st
  else if int_true (USE_VPI cfg) then Some (vpi_optical_flow cfg st)
  else Some (cur_pts st, []).

(** One iteration of the border loop, lines 500-502. *)
Definition border_body (row col : Z) (cur : list Point2f) (i : nat)
    (status : list uchar) : option (list uchar) :=
  s ← status !! i;
  if truthy s then
    p ← cur !! i;
    if negb (inBorder row col p) then Some (<[i := 0]> status) else Some status
  else Some status.

Definition border_filter (row col : Z) (cur : list Point2f)
    (status : list uchar) : option (list uchar) :=
  for_loop 0 (length cur) (border_body row col cur) status.

(** The propagation stage, lines 244-510. *)
Definition propagate (cfg : Config) (st : State) : option State :=
  if (0 <? length (prev_pts st))%nat then
    fl ← flow_dispatch cfg st;
    status ← border_filter (row st) (col st) fl.1 fl.2;
    prev_pts' ← reduceVector (prev_pts st) status;
    cur_pts' ← reduceVector fl.1 status;
    ids' ← reduceVector (ids st) status;
    track_cnt' ← reduceVector (track_cnt st) status;
    Some (set_track_cnt track_cnt' (set_ids ids' (set_cur_pts cur_pts'
           (set_prev_pts prev_pts' st))))
  else Some st.

(** *** Coverage mask selection *)

(** The loop of lines 184-185. *)
Definition cnt_pts_id_body (st : State) (i : nat) (acc : list CntPtsId)
    : option (list CntPtsId) :=
  c ← track_cnt st !! i; p ← cur_pts st !! i; d ← ids st !! i;
  Some (acc ++ [(c, (p, d))]).

Definition build_cnt_pts_id (st : State) : option (list CntPtsId) :=
  for_loop 0 (length (cur_pts st)) (cnt_pts_id_body st) [].

(** What the walk of lines 196-205 carries: the mask and the three vectors
    being rebuilt. *)
Definition Walk : Type := Mat * (list Point2f * list Z * list Z).

(** One iteration of the walk. *)
Definition mask_visit (min_dist : Z) (w : Walk) (it : CntPtsId) : Walk :=
  let '(m, (pts, idl, cnts)) := w in
  if Mat_at m (toPoint2i it.2.1) =? 255 then
    (cv_circle m (toPoint2i it.2.1) min_dist 0,
     (pts ++ [it.2.1], idl ++ [it.2.2], cnts ++ [it.1]))
  else w.

(** [FeatureTracker::setMask], lines 177-206. *)
Definition setMask (cfg : Config) (st : State) : option State :=
  let mask0 := Mat_fill (row st) (col st) 255 in
  cnt_pts_id ← build_cnt_pts_id st;
  let sorted := std_sort cnt_gt cnt_pts_id in
  let w := foldl (mask_visit (MIN_DIST cfg)) (mask0, ([], [], [])) sorted in
  Some (set_track_cnt w.2.2 (set_ids w.2.1.2 (set_cur_pts w.2.1.1
         (set_mask w.1 st)))).

(** *** Detection and track creation *)

(** The detector chain, lines 525-660. *)
Definition detect (cfg : Config) (st : State) : State :=
  let n_max_cnt := MAX_CNT cfg - Z.of_nat (length (cur_pts st)) in
  if negb (int_true (USE_GPU cfg)) then
    if 0 <? n_max_cnt then
      set_n_pts (goodFeaturesToTrack (cur_img st) n_max_cnt (MIN_DIST cfg)
                   (mask st)) st
    else set_n_pts [] st
  else if int_true (USE_GPU cfg) then
    if 0 <? n_max_cnt then
      let d_prevPts := cuda_GoodFeaturesToTrack (cur_img st) n_max_cnt
                         (MIN_DIST cfg) (mask st) in
      match d_prevPts with
      | [] => set_n_pts [] st
      | _ => set_n_pts d_prevPts st
      end
    else set_n_pts [] st
  else if int_true (USE_VPI cfg) then
    if 0 <? n_max_cnt then
      set_n_pts (n_pts st ++ vpi_harris_keypoints cfg st) st
    else set_n_pts [] st
  else st.

(** One iteration of [addPoints]. *)
Definition addPoints_body (p : Point2f) (st : State) : option State :=
  n' ← int_incr (n_id st);
  Some (set_n_id n' (set_track_cnt (track_cnt st ++ [1])
         (set_ids (ids st ++ [n_id st]) (set_cur_pts (cur_pts st ++ [p]) st)))).

(** [FeatureTracker::addPoints], lines 208-216. *)
Definition addPoints (st : State) : option State :=
  for_each addPoints_body (n_pts st) st.

(** *** Normalised positions and velocity *)

(** [a / b] on doubles: the quotient for a divisor other than 0; for the
    divisor 0 the source gets an infinity or a NaN, and the model the value
    [double_div_zero] stands in with. *)
Definition double_div (a b : Q) : Q :=
  if Qeq_bool b 0 then double_div_zero a else (a / b)%Q.

(** [FeatureTracker::undistortedPts], lines 911-922. *)
Definition undistortedPts (pts : list Point2f) (cam : Camera) : list Point2f :=
  map (λ p, let b := liftProjective cam (pt_x p, pt_y p) in
            mkPoint2f (double_div b.1.1 b.2) (double_div b.1.2 b.2)) pts.

(** The loop of lines 929-932. *)
Definition cur_id_body (ids : list Z) (pts : list Point2f) (i : nat)
    (m : gmap Z Point2f) : option (gmap Z Point2f) :=
  d ← ids !! i; p ← pts !! i; Some (map_insert_new d p m).

(** The loop of lines 939-952.  Nothing keeps [dt] from being 0: two frames
    with one timestamp give every track of the previous map a velocity that
    is not finite. *)
Definition velocity_body (dt : Q) (ids : list Z) (pts : list Point2f)
    (prev_id_pts : gmap Z Point2f) (i : nat) (vel : list Point2f)
    : option (list Point2f) :=
  d ← ids !! i;
  match prev_id_pts !! d with
  | Some it =>
      p ← pts !! i;
      let v_x := double_div (pt_x p - pt_x it) dt in
      let v_y := double_div (pt_y p - pt_y it) dt in
      Some (vel ++ [mkPoint2f v_x v_y])
  | None => Some (vel ++ [Point2f_zero])
  end.

(** [FeatureTracker::ptsVelocity], lines 924-962: the velocities and the
    new content of [cur_id_pts].  The members [cur_time], [prev_time] and
    [cur_pts] are read from [st]. *)
Definition ptsVelocity (st : State) (ids : list Z) (pts : list Point2f)
    (prev_id_pts : gmap Z Point2f) : option (list Point2f * gmap Z Point2f) :=
  cur_id_pts ← for_loop 0 (length ids) (cur_id_body ids pts) ∅;
  if negb (size prev_id_pts =? 0)%nat then
    let dt := (cur_time st - prev_time st)%Q in
    vel ← for_loop 0 (length pts) (velocity_body dt ids pts prev_id_pts) [];
    Some (vel, cur_id_pts)
  else
    vel ← for_loop 0 (length (cur_pts st))
            (λ _ vel, Some (vel ++ [Point2f_zero])) [];
    Some (vel, cur_id_pts).

(** *** Stereo correspondence *)

(** One iteration of the left-right check, lines 695-701 and 740-746. *)
Definition stereo_body (row col : Z) (statusRightLeft : list uchar)
    (right left reverseLeftPts : list Point2f) (i : nat) (status : list uchar)
    : option (list uchar) :=
  s ← status !! i;
  ok ← (if truthy s then
          r ← statusRightLeft !! i;
          if truthy r then
            pr ← right !! i;
            if inBorder row col pr then
              p ← left !! i; q ← reverseLeftPts !! i;
              Some (distance_le p q (1 # 2))
            else Some false
          else Some false
        else Some false);
  Some (<[i := if ok : bool then 1 else 0]> status).

(** The two flow arms of the stereo stage, lines 685-749. *)
Definition stereo_flow (cfg : Config) (rightImg : Mat) (st : State)
    : option (list Point2f * list uchar) :=
  let lk := if negb (int_true (USE_GPU_ACC_FLOW cfg))
            then calcOpticalFlowPyrLK else cuda_SparsePyrLK in
  let fwd := lk (cur_img st) rightImg (cur_pts st) (cur_right_pts st) 3 false in
  if int_true (FLOW_BACK cfg) then
    let rev := lk rightImg (cur_img st) fwd.1 [] 3 false in
    status ← for_loop 0 (length fwd.2)
               (stereo_body (row st) (col st) rev.2 fwd.1 (cur_pts st) rev.1)
               fwd.2;
    Some (fwd.1, status)
  else Some fwd.

(** The stereo stage, lines 672-766. *)
Definition stereo_stage (cfg : Config) (_img1 : Mat) (st : State)
    : option State :=
  if negb (Mat_empty _img1) && stereo_cam st then
    let st1 := set_cur_un_right_pts_map ∅ (set_right_pts_velocity []
                 (set_cur_un_right_pts [] (set_cur_right_pts []
                   (set_ids_right [] st)))) in
    st2 ← (if negb (length (cur_pts st1) =? 0)%nat then
             fl ← stereo_flow cfg _img1 st1;
             cur_right_pts' ← reduceVector fl.1 fl.2;
             ids_right' ← reduceVector (ids st1) fl.2;
             cam1 ← m_camera st1 !! 1%nat;
             let un := undistortedPts cur_right_pts' cam1 in
             vm ← ptsVelocity st1 ids_right' un (prev_un_right_pts_map st1);
             Some (set_cur_un_right_pts_map vm.2 (set_right_pts_velocity vm.1
                    (set_cur_un_right_pts un (set_cur_right_pts cur_right_pts'
                      (set_ids_right ids_right' st1)))))
           else Some st1);
    Some (set_prev_un_right_pts_map (cur_un_right_pts_map st2) st2)
  else Some st.

(** *** Rolling forward and the report *)

(** The loop of lines 778-779: [prevLeftPtsMap[ids[i]] = cur_pts[i]]. *)
Definition prev_left_body (st : State) (i : nat) (m : gmap Z Point2f)
    : option (gmap Z Point2f) :=
  d ← ids st !! i; p ← cur_pts st !! i; Some (<[d := p]> m).

(** Lines 770-779. *)
Definition roll_forward (st : State) : option State :=
  let st1 := set_hasPrediction false (set_prev_time (cur_time st)
               (set_prev_un_pts_map (cur_un_pts_map st)
                 (set_prev_un_pts (cur_un_pts st)
                   (set_prev_pts (cur_pts st) (set_prev_img (cur_img st) st))))) in
  m ← for_loop 0 (length (cur_pts st1)) (prev_left_body st1) ∅;
  Some (set_prevLeftPtsMap m st1).

(** The 7-vector [x, y, z, p_u, p_v, velocity_x, velocity_y]. *)
Definition xyz_uv_velocity (un p vel : Point2f) : list Q :=
  [pt_x un; pt_y un; 1%Q; pt_x p; pt_y p; pt_x vel; pt_y vel].

(** One iteration of the report loops, lines 782-800 and 804-822. *)
Definition report_body (camera_id : Z) (ids : list Z)
    (un pts vel : list Point2f) (i : nat) (ff : FeatureFrame)
    : option FeatureFrame :=
  feature_id ← ids !! i;
  u ← un !! i; p ← pts !! i; v ← vel !! i;
  Some (frame_emplace feature_id (camera_id, xyz_uv_velocity u p v) ff).

(** Lines 781-823. *)
Definition report (_img1 : Mat) (st : State) : option FeatureFrame :=
  ff ← for_loop 0 (length (ids st))
         (report_body 0 (ids st) (cur_un_pts st) (cur_pts st) (pts_velocity st))
         ∅;
  if negb (Mat_empty _img1) && stereo_cam st then
    for_loop 0 (length (ids_right st))
      (report_body 1 (ids_right st) (cur_un_right_pts st) (cur_right_pts st)
         (right_pts_velocity st)) ff
  else Some ff.

(** *** The frame pipeline *)

(** Lines 229-242: the members set on entry. *)
Definition begin_frame (_cur_time : Q) (_img : Mat) (st : State) : State :=
  set_cur_pts [] (set_col (Mat_cols _img) (set_row (Mat_rows _img)
    (set_cur_img _img (set_cur_time _cur_time st)))).

(** Lines 512-513: [for (auto &n : track_cnt) n++;]. *)
Definition age_tracks (st : State) : option State :=
  tc ← mapM int_incr (track_cnt st); Some (set_track_cnt tc st).

(** Lines 669-670. *)
Definition left_velocity (st : State) : option State :=
  cam0 ← m_camera st !! 0%nat;
  let st1 := set_cur_un_pts (undistortedPts (cur_pts st) cam0) st in
  vm ← ptsVelocity st1 (ids st1) (cur_un_pts st1) (prev_un_pts_map st1);
  Some (set_pts_velocity vm.1 (set_cur_un_pts_map vm.2 st1)).

(** The stages of [trackImage] up to the stereo stage, lines 229-670. *)
Definition track_left (cfg : Config) (_cur_time : Q) (_img : Mat) (st : State)
    : option State :=
  st1 ← propagate cfg (begin_frame _cur_time _img st);
  st2 ← age_tracks st1;
  st3 ← setMask cfg st2;
  st4 ← addPoints (detect cfg st3);
  left_velocity st4.

(** [FeatureTracker::trackImage], lines 226-827. *)
Definition trackImage (cfg : Config) (_cur_time : Q) (_img _img1 : Mat)
    (st : State) : option (State * FeatureFrame) :=
  st5 ← track_left cfg _cur_time _img st;
  st6 ← stereo_stage cfg _img1 st5;
  st7 ← roll_forward st6;
  featureFrame ← report _img1 st7;
  Some (st7, featureFrame).

(** *** Feedback from the estimator *)

(** One iteration of [setPrediction]. *)
Definition prediction_body (predictPts : gmap Z (Q * Q * Q)) (i : nat)
    (st : State) : option State :=
  id ← ids st !! i;
  match predictPts !! id with
  | Some ray =>
      cam0 ← m_camera st !! 0%nat;
      let tmp_uv := spaceToPlane cam0 ray in
      Some (set_predict_pts (predict_pts st ++ [mkPoint2f tmp_uv.1 tmp_uv.2]) st)
  | None =>
      p ← prev_pts st !! i;
      Some (set_predict_pts (predict_pts st ++ [p]) st)
  end.

(** [FeatureTracker::setPrediction], lines 1024-1045. *)
Definition setPrediction (predictPts : gmap Z (Q * Q * Q)) (st : State)
    : option State :=
  let st1 := set_predict_pts [] (set_hasPrediction true st) in
  for_loop 0 (length (ids st1)) (prediction_body predictPts) st1.

(** The status vector of lines 1052-1059. *)
Definition outlier_status (removePtsIds : gset Z) (ids : list Z) : list uchar :=
  foldl (λ status id, status ++ [if bool_decide (id ∈ removePtsIds) then 0 else 1])
    [] ids.

(** [FeatureTracker::removeOutliers], lines 1048-1064. *)
Definition removeOutliers (removePtsIds : gset Z) (st : State) : option State :=
  let status := outlier_status removePtsIds (ids st) in
  prev_pts' ← reduceVector (prev_pts st) status;
  ids' ← reduceVector (ids st) status;
  track_cnt' ← reduceVector (track_cnt st) status;
  Some (set_track_cnt track_cnt' (set_ids ids' (set_prev_pts prev_pts' st))).

(** *** Names for the statements below *)

(** The forward pass and the backend of the arm that [cfg] selects. *)
Definition selected_forward (cfg : Config) (st : State) : list Point2f * list uchar :=
  if negb (int_true (USE_GPU_ACC_FLOW cfg)) then forward_cpu st
  else forward_gpu st.

Definition selected_lk (cfg : Config) :
    Mat → Mat → list Point2f → list Point2f → Z → bool
    → list Point2f * list uchar :=
  if negb (int_true (USE_GPU_ACC_FLOW cfg)) then calcOpticalFlowPyrLK
  else cuda_SparsePyrLK.

(** The tracks of a tracker, entry by entry, as [setMask] pairs them up. *)
Definition tracks (st : State) : list CntPtsId :=
  zip (track_cnt st) (zip (cur_pts st) (ids st)).

(** The walk of [setMask] over a visiting order, from the all-255 mask. *)
Definition walk (cfg : Config) (st : State) (visited : list CntPtsId) : Walk :=
  foldl (mask_visit (MIN_DIST cfg))
    (Mat_fill (row st) (col st) 255, ([], [], [])) visited.

(** The tracks a walk has retained. *)
Definition walk_entries (w : Walk) : list CntPtsId :=
  zip w.2.2 (zip w.2.1.1 w.2.1.2).

(** The three vectors of a walk have one length. *)
Definition walk_aligned (w : Walk) : Prop :=
  length w.2.1.1 = length w.2.2 ∧ length w.2.1.2 = length w.2.2.

(** The invariant of the track table between two calls: the vectors carried
    to the next frame have one length, no id occurs twice, and every id in
    the table or in the previous id-to-position map is below the counter. *)
Definition tracker_inv (st : State) : Prop :=
  length (prev_pts st) = length (ids st)
  ∧ length (track_cnt st) = length (ids st)
  ∧ NoDup (ids st)
  ∧ (∀ id, id ∈ ids st → id < n_id st)
  ∧ (∀ id, is_Some (prev_un_pts_map st !! id) → id < n_id st).

(** The cameras the tracker needs are there. *)
Definition calibrated (st : State) : Prop :=
  (1 ≤ length (m_camera st))%nat
  ∧ (stereo_cam st = true → (2 ≤ length (m_camera st))%nat).

(** *** Sessions

    One call of a public method that returned; the configuration globals
    may differ from call to call. *)
Inductive step : State → State → Prop :=
  | step_readIntrinsicParameter (cams : list Camera) (st : State) :
      step st (readIntrinsicParameter cams st)
  | step_trackImage (cfg : Config) (_cur_time : Q) (_img _img1 : Mat)
      (st st' : State) (featureFrame : FeatureFrame) :
      trackImage cfg _cur_time _img _img1 st = Some (st', featureFrame) →
      step st st'
  | step_setPrediction (predictPts : gmap Z (Q * Q * Q)) (st st' : State) :
      setPrediction predictPts st = Some st' → step st st'
  | step_removeOutliers (removePtsIds : gset Z) (st st' : State) :
      removeOutliers removePtsIds st = Some st' → step st st'.

(** The states of a session: a freshly constructed tracker and whatever
    calls lead to from there. *)
Inductive reachable : State → Prop :=
  | reachable_new (img0 : Mat) (row0 col0 : Z) (t0 t1 : Q) :
      reachable (FeatureTracker_new img0 row0 col0 t0 t1)
  | reachable_step (st st' : State) :
      reachable st → step st st' → reachable st'.

End Model.

Arguments State : clear implicits.
Arguments Collaborators : clear implicits.

(** The operations are unfolded by name in the proofs, not by [cbn]. *)
Arguments reduceVector : simpl never.
Arguments fb_check : simpl never.
Arguments border_filter : simpl never.
Arguments flow_dispatch : simpl never.
Arguments propagate : simpl never.
Arguments build_cnt_pts_id : simpl never.
Arguments setMask : simpl never.
Arguments detect : simpl never.
Arguments addPoints : simpl never.
Arguments undistortedPts : simpl never.
Arguments ptsVelocity : simpl never.
Arguments stereo_flow : simpl never.
Arguments stereo_stage : simpl never.
Arguments roll_forward : simpl never.
Arguments report : simpl never.
Arguments age_tracks : simpl never.
Arguments left_velocity : simpl never.
Arguments track_left : simpl never.
Arguments trackImage : simpl never.
Arguments setPrediction : simpl never.
Arguments removeOutliers : simpl never.

(** ** Contracts of the collaborators *)

(** A flow backend returns one point and one status flag per input point
    (OpenCV documents [nextPts] and [status] as having the size of
    [prevPts]). *)
Definition flow_contract {Mat : Type}
    (lk : Mat → Mat → list Point2f → list Point2f → Z → bool
          → list Point2f * list uchar) : Prop :=
  ∀ a b prevPts nextPts maxLevel useInitialFlow,
    length (lk a b prevPts nextPts maxLevel useInitialFlow).1 = length prevPts
    ∧ length (lk a b prevPts nextPts maxLevel useInitialFlow).2 = length prevPts.

(** A detector returns at most [maxCorners] corners. *)
Definition detector_contract {Mat : Type}
    (detect : Mat → Z → Z → Mat → list Point2f) : Prop :=
  ∀ img maxCorners minDistance mask,
    0 < maxCorners →
    Z.of_nat (length (detect img maxCorners minDistance mask)) ≤ maxCorners.

(** What the C++ standard promises of [std::sort] for the comparator of
    [setMask]: the result is a rearrangement of the input in which no
    element compares before an element in front of it.  The order of
    elements that compare equivalent is not specified. *)
Definition sort_contract
    (sort : (CntPtsId → CntPtsId → bool) → list CntPtsId → list CntPtsId)
    : Prop :=
  ∀ l, sort cnt_gt l ≡ₚ l
       ∧ StronglySorted (λ a b, cnt_gt b a = false) (sort cnt_gt l).

(** The order the specification describes: insertion sort that never
    moves an element past one of equal count. *)
Fixpoint stable_insert (comp : CntPtsId → CntPtsId → bool) (x : CntPtsId)
    (l : list CntPtsId) : list CntPtsId :=
  match l with
  | [] => [x]
  | y :: l' => if comp y x then y :: stable_insert comp x l' else x :: y :: l'
  end.

Definition stable_sort (comp : CntPtsId → CntPtsId → bool) (l : list CntPtsId)
    : list CntPtsId :=
  foldr (stable_insert comp) [] l.

(** ** A concrete set of collaborators

    Used to run the tracker on explicit inputs.  No run below divides by
    zero, so the stand-in for such a quotient is never read. *)
Module Demo.

(** An image: its size and its pixels. *)
Record DMat : Type := mkDMat {
  d_rows : Z;
  d_cols : Z;
  d_pix : Point2i → uchar
}.

Definition d_empty (m : DMat) : bool := (d_rows m =? 0) || (d_cols m =? 0).

Definition d_fill (rows cols : Z) (v : uchar) : DMat := mkDMat rows cols (λ _, v).

(** A filled disc. *)
Definition d_circle (m : DMat) (c : Point2i) (radius : Z) (color : uchar) : DMat :=
  mkDMat (d_rows m) (d_cols m)
    (λ p, if (p.1 - c.1) * (p.1 - c.1) + (p.2 - c.2) * (p.2 - c.2)
             <=? radius * radius
          then color else d_pix m p).

(** A flow that moves every point by [move] and reports success. *)
Definition d_flow (move : Point2f → Point2f) (a b : DMat)
    (prevPts nextPts : list Point2f) (maxLevel : Z) (useInitialFlow : bool)
    : list Point2f * list uchar :=
  (map move prevPts, map (λ _, 1) prevPts).

(** A quarter of a pixel to the left. *)
Definition drift (p : Point2f) : Point2f :=
  mkPoint2f (pt_x p - (1 # 4)) (pt_y p).

(** Half of the way towards the column 50. *)
Definition squeeze (p : Point2f) : Point2f :=
  mkPoint2f ((pt_x p + 50) / 2) (pt_y p).

(** A detector that proposes the first [maxCorners] of fixed candidates on
    which the mask is not 0. *)
Definition d_detect (candidates : list Point2f) (img : DMat)
    (maxCorners minDistance : Z) (mask : DMat) : list Point2f :=
  take (Z.to_nat maxCorners)
    (filter (λ p, d_pix mask (toPoint2i p) ≠ 0) candidates).

(** A pinhole camera with unit focal length. *)
Definition d_lift (cam : unit) (a : Q * Q) : Q * Q * Q := (a.1, a.2, 1%Q).
Definition d_project (cam : unit) (b : Q * Q * Q) : Q * Q :=
  ((b.1.1 / b.2)%Q, (b.1.2 / b.2)%Q).

Definition collaborators (move : Point2f → Point2f)
    (candidates : list Point2f)
    (sort : (CntPtsId → CntPtsId → bool) → list CntPtsId → list CntPtsId)
    : Collaborators DMat unit :=
  {| Mat_rows := d_rows;
     Mat_cols := d_cols;
     Mat_empty := d_empty;
     Mat_fill := d_fill;
     Mat_at := d_pix;
     cv_circle := d_circle;
     calcOpticalFlowPyrLK := d_flow move;
     cuda_SparsePyrLK := d_flow move;
     goodFeaturesToTrack := d_detect candidates;
     cuda_GoodFeaturesToTrack := d_detect candidates;
     liftProjective := d_lift;
     spaceToPlane := d_project;
     std_sort := sort;
     double_div_zero := λ x, x;
     vpi_optical_flow := λ _ _, ([], []);
     vpi_harris_keypoints := λ _ _, [] |}.

(** A 100 x 100 image and a monocular configuration on the CPU. *)
Definition image : DMat := d_fill 100 100 128.
Definition no_image : DMat := d_fill 0 0 0.

Definition config : Config :=
  {| USE_GPU := 0; USE_GPU_ACC_FLOW := 0; USE_VPI := 0; FLOW_BACK := 1;
     MAX_CNT := 150; MIN_DIST := 30 |}.

(** The same without the forward-backward check. *)
Definition config_forward : Config :=
  {| USE_GPU := 0; USE_GPU_ACC_FLOW := 0; USE_VPI := 0; FLOW_BACK := 0;
     MAX_CNT := 150; MIN_DIST := 30 |}.

(** A tracker right after construction and calibration with [cams]. *)
Definition fresh (cams : list unit) : State DMat unit :=
  readIntrinsicParameter cams (FeatureTracker_new no_image 0 0 0 0).

(** Three corners, and two worlds that show them: one in which the scene
    drifts to the left, and one in which it contracts towards the column
    50. *)
Definition corners : list Point2f :=
  [mkPoint2f 1 5; mkPoint2f 50 50; mkPoint2f 85 50].

Definition drifting : Collaborators DMat unit :=
  collaborators drift corners stable_sort.

Definition squeezing_stable : Collaborators DMat unit :=
  collaborators squeeze corners stable_sort.

(** The first monocular frame, at time 1/10.  No track exists yet, so
    neither the flow nor the sort sees a track and the worlds agree on the
    result. *)
Definition first_frame : option (State DMat unit * FeatureFrame) :=
  trackImage (collab := drifting) config (1 # 10) image no_image (fresh [tt]).

Definition after_first : State DMat unit :=
  default (fresh [tt]) (fst <$> first_frame).

Definition first_report : FeatureFrame := default ∅ (snd <$> first_frame).

(** The second frame, at time 2/10, in the drifting world. *)
Definition second_drifting : option (State DMat unit * FeatureFrame) :=
  trackImage (collab := drifting) config (2 # 10) image no_image after_first.

(** The tracker of the second frame when [setMask] is entered. *)
Definition before_mask : State DMat unit :=
  default (fresh [tt])
    (st1 ← propagate (collab := squeezing_stable) config_forward
             (begin_frame (collab := squeezing_stable) (2 # 10) image
                after_first);
     age_tracks st1).

End Demo.

(** * The other functions of the file *)

(** ** Conversions of the C++ library *)

(** [round] of [<cmath>]: the nearest integer, a tie goes away from zero. *)
Definition c_round (v : Q) : Z :=
  if Qle_bool 0 v then Qfloor (v + (1 # 2)) else Qceiling (v - (1 # 2)).

(** Conversion of a floating-point value to [int]: toward zero. *)
Definition c_trunc (v : Q) : Z :=
  if Qle_bool 0 v then Qfloor v else Qceiling v.

Definition Qlt_bool (a b : Q) : bool := negb (Qle_bool b a).

(** [v[i] = x]; outside the vector it is an error. *)
Definition vector_set {A : Type} (i : nat) (x : A) (v : list A)
    : option (list A) :=
  if (i <? length v)%nat then Some (<[i := x]> v) else None.

(** [cv::Scalar] as a colour. *)
Definition Scalar : Type := Q * Q * Q.

Section Auxiliary.

Context {Mat Camera : Type} {collab : Collaborators Mat Camera}.

(** The flag that the left-right check of lines 697 and 742 leaves for
    position [i], from the flag [s] of the left-to-right flow:
    [status[i] && statusRightLeft[i] && inBorder(cur_right_pts[i]) &&
    distance(cur_pts[i], reverseLeftPts[i]) <= 0.5]. *)
Definition stereo_flag (row col : Z) (statusRightLeft : list uchar)
    (right left reverseLeftPts : list Point2f) (i : nat) (s : uchar)
    : option uchar :=
  if truthy s then
    r ← statusRightLeft !! i;
    if truthy r then
      pr ← right !! i;
      if inBorder row col pr then
        p ← left !! i; q ← reverseLeftPts !! i;
        Some (if distance_le p q (1 # 2) then 1 else 0)
      else Some 0
    else Some 0
  else Some 0.

(** [cv::Mat(rows, cols, CV_8UC1, cv::Scalar(v))] reads [v] at every pixel
    of the image. *)
Definition fill_contract : Prop :=
  ∀ (rows cols : Z) (v : uchar) (p : Point2i),
    0 ≤ p.1 < cols → 0 ≤ p.2 < rows → Mat_at (Mat_fill rows cols v) p = v.

(** ** [rejectWithF] *)

Section RejectWithF.

(** [FOCAL_LENGTH] and [F_THRESHOLD] of [parameters.h], and
    [cv::findFundamentalMat(points1, points2, cv::FM_RANSAC, F_THRESHOLD,
    0.99, status)]: the two point vectors and the threshold; the result is
    [status]. *)
Variables (FOCAL_LENGTH F_THRESHOLD : Q).
Variable findFundamentalMat : list Point2f → list Point2f → Q → list uchar.

(** Lines 839-842 and 844-847: the ray of a pixel, seen by a pinhole camera
    with focal length [FOCAL_LENGTH] and centre [(col / 2.0, row / 2.0)]. *)
Definition pinhole (row col : Z) (cam : Camera) (p : Point2f) : Point2f :=
  let tmp_p := liftProjective cam (pt_x p, pt_y p) in
  mkPoint2f
    (double_div (FOCAL_LENGTH * tmp_p.1.1) tmp_p.2 + inject_Z col / 2)
    (double_div (FOCAL_LENGTH * tmp_p.1.2) tmp_p.2 + inject_Z row / 2).

(** One iteration of the loop of lines 836-848. *)
Definition rejectWithF_body (st : State Mat Camera) (i : nat)
    (un : list Point2f * list Point2f) : option (list Point2f * list Point2f) :=
  cam0 ← m_camera st !! 0%nat;
  c ← cur_pts st !! i;
  un_cur_pts ← vector_set i (pinhole (row st) (col st) cam0 c) un.1;
  p ← prev_pts st !! i;
  un_prev_pts ← vector_set i (pinhole (row st) (col st) cam0 p) un.2;
  Some (un_cur_pts, un_prev_pts).

(** [FeatureTracker::rejectWithF], lines 829-861. *)
Definition rejectWithF (st : State Mat Camera) : option (State Mat Camera) :=
  if (8 <=? length (cur_pts st))%nat then
    un ← for_loop 0 (length (cur_pts st)) (rejectWithF_body st)
           (replicate (length (cur_pts st)) Point2f_zero,
            replicate (length (prev_pts st)) Point2f_zero);
    let status := findFundamentalMat un.1 un.2 F_THRESHOLD in
    prev_pts' ← reduceVector (prev_pts st) status;
    cur_pts' ← reduceVector (cur_pts st) status;
    cur_un_pts' ← reduceVector (cur_un_pts st) status;
    ids' ← reduceVector (ids st) status;
    track_cnt' ← reduceVector (track_cnt st) status;
    Some (set_track_cnt track_cnt' (set_ids ids'
           (set_cur_un_pts cur_un_pts' (set_cur_pts cur_pts'
             (set_prev_pts prev_pts' st)))))
  else Some st.

(** The mask of [cv::findFundamentalMat] has one flag per point pair. *)
Definition fundamental_contract : Prop :=
  ∀ points1 points2 threshold,
    length points1 = length points2 →
    length (findFundamentalMat points1 points2 threshold) = length points1.

End RejectWithF.

(** ** Drawing *)

Section Drawing.

(** [cv::hconcat(a, b, dst)], [cv::cvtColor(src, dst, CV_GRAY2RGB)],
    [cv::circle(img, center, radius, color, thickness)],
    [cv::arrowedLine(img, pt1, pt2, color, 1, 8, 0, 0.2)] and
    [cv::line(img, pt1, pt2, color, thickness)], each returning the image
    it leaves; a [cv::Point2f] argument is converted to [cv::Point]. *)
Variable cv_hconcat : Mat → Mat → Mat.
Variable cv_cvtColor : Mat → Mat.
Variable cv_circle_color : Mat → Point2i → Z → Scalar → Z → Mat.
Variable cv_arrowedLine : Mat → Point2i → Point2i → Scalar → Mat.
Variable cv_line : Mat → Point2i → Point2i → Scalar → Z → Mat.

(** The colour of a track of count [c], lines 980-981:
    [len = std::min(1.0, 1.0 * track_cnt[j] / 20)] and
    [cv::Scalar(255 * (1 - len), 0, 255 * len)]. *)
Definition track_color (c : Z) : Scalar :=
  let len := if Qle_bool 1 (inject_Z c / 20) then 1%Q
             else (inject_Z c / 20)%Q in
  ((255 * (1 - len))%Q, 0%Q, (255 * len)%Q).

(** [FeatureTracker::drawTrack], lines 964-1021, up to the display: the
    image it leaves in [imTrack]. *)
Definition drawTrack (st : State Mat Camera) (imLeft imRight : Mat)
    (curLeftIds : list Z) (curLeftPts curRightPts : list Point2f)
    (prevLeftPtsMap : gmap Z Point2f) : option Mat :=
  let cols := Mat_cols imLeft in
  let stereo := negb (Mat_empty imRight) && stereo_cam st in
  let im0 := cv_cvtColor (if stereo then cv_hconcat imLeft imRight
                          else imLeft) in
  im1 ← for_loop 0 (length curLeftPts)
          (λ j im, c ← track_cnt st !! j; p ← curLeftPts !! j;
                   Some (cv_circle_color im (toPoint2i p) 2 (track_color c) 2))
          im0;
  im2 ← (if stereo then
           for_loop 0 (length curRightPts)
             (λ i im, p ← curRightPts !! i;
                      let rightPt := mkPoint2f (pt_x p + inject_Z cols)
                                       (pt_y p) in
                      Some (cv_circle_color im (toPoint2i rightPt) 2
                              (0%Q, 255%Q, 0%Q) 2))
             im1
         else Some im1);
  for_loop 0 (length curLeftIds)
    (λ i im, id ← curLeftIds !! i;
             match prevLeftPtsMap !! id with
             | Some q =>
                 p ← curLeftPts !! i;
                 Some (cv_arrowedLine im (toPoint2i p) (toPoint2i q)
                         (0%Q, 255%Q, 0%Q))
             | None => Some im
             end)
    im2.

(** One iteration of the loop of [UpdateMask], lines 139-156: a key point
    with status 0 is tracked; it is drawn and counted. *)
Definition UpdateMask_body (trackColors : list Scalar)
    (prevFeatures : option (list Point2f)) (curFeatures : list Point2f)
    (status : list uchar) (i : nat) (acc : Mat * Z) : option (Mat * Z) :=
  s ← status !! i;
  if s =? 0 then
    cur ← curFeatures !! i;
    let curPoint := (c_round (pt_x cur), c_round (pt_y cur)) in
    m1 ← match prevFeatures with
          | Some prev =>
              prevPoint ← prev !! i; color ← trackColors !! i;
              Some (cv_line acc.1 (toPoint2i prevPoint) curPoint color 2)
          | None => Some acc.1
          end;
    color ← trackColors !! i;
    Some (cv_circle_color m1 curPoint 5 color (-1), acc.2 + 1)
  else Some acc.

(** [UpdateMask], lines 106-167: the mask it leaves and the number it
    returns.  A VPI array is the list of its elements, [prevFeatures] may
    be null, and an element past the end of an array is an error. *)
Definition UpdateMask (cvMask : Mat) (trackColors : list Scalar)
    (prevFeatures : option (list Point2f)) (curFeatures : list Point2f)
    (status : list uchar) : option (Mat * Z) :=
  for_loop 0 (length curFeatures)
    (UpdateMask_body trackColors prevFeatures curFeatures status) (cvMask, 0).

End Drawing.

(** ** [showUndistortion] *)

Section ShowUndistortion.

Variable FOCAL_LENGTH : Q.

(** [m.at<uchar>(i0, i1) = v], returning the image it leaves. *)
Variable Mat_set : Mat → Z → Z → uchar → Mat.

(** The loops of lines 879-888: every pixel [(i, j)] and the normalised
    ray the camera lifts it to. *)
Definition show_lift (st : State Mat Camera)
    : option (list (Q * Q) * list (Q * Q)) :=
  for_loop 0 (Z.to_nat (col st))
    (λ i acc,
       for_loop 0 (Z.to_nat (row st))
         (λ j acc,
            cam0 ← m_camera st !! 0%nat;
            let a := (inject_Z (Z.of_nat i), inject_Z (Z.of_nat j)) in
            let b := liftProjective cam0 a in
            Some (acc.1 ++ [a],
                  acc.2 ++ [(double_div b.1.1 b.2, double_div b.1.2 b.2)]))
         acc)
    ([], []).

(** One iteration of the loop of lines 889-906.  [col / 2] and [row / 2]
    are integer divisions; the two indices of the write are converted to
    [int]; a write outside the image is an error. *)
Definition show_body (st : State Mat Camera)
    (distortedp undistortedp : list (Q * Q)) (i : nat) (img : Mat)
    : option Mat :=
  u ← undistortedp !! i;
  let pp0 := (u.1 * FOCAL_LENGTH + inject_Z (col st ÷ 2))%Q in
  let pp1 := (u.2 * FOCAL_LENGTH + inject_Z (row st ÷ 2))%Q in
  if Qle_bool 0 (pp1 + 300) && Qlt_bool (pp1 + 300) (inject_Z (row st + 600))
     && Qle_bool 0 (pp0 + 300)
     && Qlt_bool (pp0 + 300) (inject_Z (col st + 600)) then
    d ← distortedp !! i;
    let i0 := c_trunc (pp1 + 300) in
    let i1 := c_trunc (pp0 + 300) in
    if (0 <=? i0) && (i0 <? row st + 600) && (0 <=? i1)
       && (i1 <? col st + 600) then
      Some (Mat_set img i0 i1
              (Mat_at (cur_img st) (c_trunc d.1, c_trunc d.2)))
    else None
  else Some img.

(** [FeatureTracker::showUndistortion], lines 875-909, up to the display:
    the image it shows. *)
Definition showUndistortion (st : State Mat Camera) : option Mat :=
  pts ← show_lift st;
  for_loop 0 (length pts.2) (show_body st pts.1 pts.2)
    (Mat_fill (row st + 600) (col st + 600) 0).

End ShowUndistortion.

End Auxiliary.

Arguments rejectWithF : simpl never.
Arguments drawTrack : simpl never.
Arguments UpdateMask : simpl never.
Arguments showUndistortion : simpl never.

(** * [std::sort] as libstdc++ implements it

    [setMask] calls [std::sort]; with GCC that is the introsort of
    [bits/stl_algo.h], which falls back on the heap operations of
    [bits/stl_heap.h] (the line numbers below are those of GCC 12).  The
    functions below are these templates on an array given as the list of
    its elements; an iterator is a position in the array, [first] of the
    whole array being 0.  An access outside the array is an error
    ([None]), and so is a loop that runs past the bound given to it.

    An array of at most 16 elements is sorted by insertion alone, which
    never moves an element past one that compares equivalent.  A longer
    array is first partitioned around the median of three of its elements,
    and the partition swaps elements that compare equivalent to the pivot:
    that is where the order of ties is lost. *)
Module libstdcxx.

Section Sort.

Context {A : Type}.

(** The comparator: [comp a b] is [__comp(a, b)]. *)
Variable comp : A → A → bool.

Implicit Types (a : list A) (first middle last : Z).

(** [*(a + i)], read and written. *)
Definition elem a (i : Z) : option A :=
  if 0 <=? i then a !! Z.to_nat i else None.

Definition assign a (i : Z) (x : A) : option (list A) :=
  if (0 <=? i) && (i <? Z.of_nat (length a)) then Some (<[Z.to_nat i := x]> a)
  else None.

(** [std::iter_swap(a + i, a + j)] *)
Definition iter_swap (i j : Z) a : option (list A) :=
  x ← elem a i; y ← elem a j; a ← assign a i y; assign a j x.

(** [__move_median_to_first(result, a, b, c, comp)], [stl_algo.h] lines
    82-101. *)
Definition move_median_to_first (result ia ib ic : Z) a : option (list A) :=
  x ← elem a ia; y ← elem a ib; z ← elem a ic;
  if comp x y then
    if comp y z then iter_swap result ib a
    else if comp x z then iter_swap result ic a
    else iter_swap result ia a
  else if comp x z then iter_swap result ia a
  else if comp y z then iter_swap result ic a
  else iter_swap result ib a.

(** [while (__comp(__first, __pivot)) ++__first;] *)
Fixpoint skip_before (bound : nat) (first pivot : Z) a : option Z :=
  match bound with
  | O => None
  | S bound =>
      x ← elem a first; p ← elem a pivot;
      if comp x p then skip_before bound (first + 1) pivot a else Some first
  end.

(** [while (__comp(__pivot, __last)) --__last;] *)
Fixpoint skip_after (bound : nat) (last pivot : Z) a : option Z :=
  match bound with
  | O => None
  | S bound =>
      p ← elem a pivot; x ← elem a last;
      if comp p x then skip_after bound (last - 1) pivot a else Some last
  end.

(** [__unguarded_partition(first, last, pivot, comp)], lines 1861-1877; the
    result is the cut and the array. *)
Fixpoint unguarded_partition (bound : nat) (first last pivot : Z) a
    : option (Z * list A) :=
  match bound with
  | O => None
  | S bound =>
      first ← skip_before (S (length a)) first pivot a;
      last ← skip_after (S (length a)) (last - 1) pivot a;
      if negb (first <? last) then Some (first, a)
      else
        a ← iter_swap first last a;
        unguarded_partition bound (first + 1) last pivot a
  end.

(** [__unguarded_partition_pivot(first, last, comp)], lines 1883-1890. *)
Definition unguarded_partition_pivot (first last : Z) a
    : option (Z * list A) :=
  let mid := first + (last - first) ÷ 2 in
  a ← move_median_to_first first (first + 1) mid (last - 1) a;
  unguarded_partition (S (length a)) (first + 1) last first a.

(** The loop of [__unguarded_linear_insert], lines 1788-1794:
    [while (comp(val, next)) { *last = *next; last = next; --next; }
     *last = val;] *)
Fixpoint linear_insert_loop (bound : nat) (val : A) (last : Z) a
    : option (list A) :=
  match bound with
  | O => None
  | S bound =>
      x ← elem a (last - 1);
      if comp val x then
        a ← assign a last x; linear_insert_loop bound val (last - 1) a
      else assign a last val
  end.

(** [__unguarded_linear_insert(last, comp)], lines 1782-1795. *)
Definition unguarded_linear_insert (last : Z) a : option (list A) :=
  val ← elem a last; linear_insert_loop (S (length a)) val last a.

(** [std::move_backward(first, i, i + 1); *first = val;] *)
Definition move_to_front (first i : Z) (val : A) a : list A :=
  take (Z.to_nat first) a
  ++ val :: take (Z.to_nat (i - first)) (drop (Z.to_nat first) a)
  ++ drop (Z.to_nat (i + 1)) a.

(** [__insertion_sort(first, last, comp)], lines 1802-1820. *)
Definition insertion_sort (first last : Z) a : option (list A) :=
  if first =? last then Some a
  else
    for_loop (Z.to_nat (first + 1)) (Z.to_nat (last - (first + 1)))
      (λ i a,
         x ← elem a (Z.of_nat i); f ← elem a first;
         if comp x f then Some (move_to_front first (Z.of_nat i) x a)
         else unguarded_linear_insert (Z.of_nat i) a)
      a.

(** [__unguarded_insertion_sort(first, last, comp)], lines 1826-1832. *)
Definition unguarded_insertion_sort (first last : Z) a : option (list A) :=
  for_loop (Z.to_nat first) (Z.to_nat (last - first))
    (λ i a, unguarded_linear_insert (Z.of_nat i) a) a.

Definition S_threshold : Z := 16.

(** [__final_insertion_sort(first, last, comp)], lines 1844-1855. *)
Definition final_insertion_sort (first last : Z) a : option (list A) :=
  if S_threshold <? last - first then
    a ← insertion_sort first (first + S_threshold) a;
    unguarded_insertion_sort (first + S_threshold) last a
  else insertion_sort first last a.

(** [__push_heap(first, holeIndex, topIndex, value, comp)], [stl_heap.h]
    lines 135-147. *)
Fixpoint push_heap (bound : nat) (first holeIndex topIndex : Z) (value : A) a
    : option (list A) :=
  match bound with
  | O => None
  | S bound =>
      let parent := (holeIndex - 1) ÷ 2 in
      if topIndex <? holeIndex then
        x ← elem a (first + parent);
        if comp x value then
          a ← assign a (first + holeIndex) x;
          push_heap bound first parent topIndex value a
        else assign a (first + holeIndex) value
      else assign a (first + holeIndex) value
  end.

(** The first loop of [__adjust_heap], lines 230-238; the result is
    [holeIndex], [secondChild] and the array. *)
Fixpoint sift_down (bound : nat) (first holeIndex secondChild len : Z) a
    : option (Z * Z * list A) :=
  match bound with
  | O => None
  | S bound =>
      if secondChild <? (len - 1) ÷ 2 then
        let secondChild := 2 * (secondChild + 1) in
        x ← elem a (first + secondChild);
        y ← elem a (first + (secondChild - 1));
        let secondChild := if comp x y then secondChild - 1 else secondChild in
        z ← elem a (first + secondChild);
        a ← assign a (first + holeIndex) z;
        sift_down bound first secondChild secondChild len a
      else Some (holeIndex, secondChild, a)
  end.

(** [__adjust_heap(first, holeIndex, len, value, comp)], lines 224-249. *)
Definition adjust_heap (first holeIndex len : Z) (value : A) a
    : option (list A) :=
  let topIndex := holeIndex in
  r ← sift_down (S (length a)) first holeIndex holeIndex len a;
  let '(holeIndex, secondChild, a) := r in
  r ← (if (Z.land len 1 =? 0) && (secondChild =? (len - 2) ÷ 2) then
         let secondChild := 2 * (secondChild + 1) in
         z ← elem a (first + (secondChild - 1));
         a ← assign a (first + holeIndex) z;
         Some (secondChild - 1, a)
       else Some (holeIndex, a));
  push_heap (S (length a)) first r.1 topIndex value r.2.

(** [__pop_heap(first, last, result, comp)], lines 254-266. *)
Definition pop_heap (first last result : Z) a : option (list A) :=
  value ← elem a result;
  top ← elem a first;
  a ← assign a result top;
  adjust_heap first 0 (last - first) value a.

(** The loop of [__make_heap], lines 352-361, from [parent] down to 0. *)
Fixpoint make_heap_loop (parent : nat) (first len : Z) a : option (list A) :=
  value ← elem a (first + Z.of_nat parent);
  a ← adjust_heap first (Z.of_nat parent) len value a;
  match parent with
  | O => Some a
  | S parent => make_heap_loop parent first len a
  end.

(** [__make_heap(first, last, comp)], lines 340-362. *)
Definition make_heap (first last : Z) a : option (list A) :=
  if last - first <? 2 then Some a
  else
    let len := last - first in
    make_heap_loop (Z.to_nat ((len - 2) ÷ 2)) first len a.

(** [__heap_select(first, middle, last, comp)], [stl_algo.h] lines
    1625-1633. *)
Definition heap_select (first middle last : Z) a : option (list A) :=
  a ← make_heap first middle a;
  for_loop (Z.to_nat middle) (Z.to_nat (last - middle))
    (λ i a,
       x ← elem a (Z.of_nat i); f ← elem a first;
       if comp x f then pop_heap first middle (Z.of_nat i) a else Some a)
    a.

(** [__sort_heap(first, last, comp)], [stl_heap.h] lines 419-428, on a
    range of [n] elements. *)
Fixpoint sort_heap (n : nat) (first : Z) a : option (list A) :=
  match n with
  | S n =>
      if (1 <? S n)%nat then
        let last := first + Z.of_nat n in
        a ← pop_heap first last last a; sort_heap n first a
      else Some a
  | O => Some a
  end.

(** [__partial_sort(first, middle, last, comp)], [stl_algo.h] lines
    1895-1902. *)
Definition partial_sort (first middle last : Z) a : option (list A) :=
  a ← heap_select first middle last a;
  sort_heap (Z.to_nat (middle - first)) first a.

(** [__introsort_loop(first, last, depth_limit, comp)], lines 1908-1925:
    the loop continues on [first, cut) with the decremented limit. *)
Fixpoint introsort_loop (depth_limit : nat) (first last : Z) a
    : option (list A) :=
  if S_threshold <? last - first then
    match depth_limit with
    | O => partial_sort first last last a
    | S depth_limit =>
        r ← unguarded_partition_pivot first last a;
        a ← introsort_loop depth_limit r.1 last r.2;
        introsort_loop depth_limit first r.1 a
    end
  else Some a.

(** [std::sort(first, last, comp)]: [__sort], lines 1932-1942, with
    [__lg(n)] the position of the highest bit of [n]. *)
Definition sort a : option (list A) :=
  let n := Z.of_nat (length a) in
  if n =? 0 then Some a
  else
    a ← introsort_loop (Z.to_nat (Z.log2 n * 2)) 0 n a;
    final_insertion_sort 0 n a.

End Sort.

End libstdcxx.

(** ** More concrete collaborators and trackers *)
Module Scenes.

Import Demo.

(** A fundamental-matrix test for a scene that moves along the rows: a
    pair is an inlier when its two points are on rows at most [threshold]
    apart. *)
Definition d_findF (points1 points2 : list Point2f) (threshold : Q)
    : list uchar :=
  zip_with (λ p q : Point2f,
              if Qle_bool ((pt_y p - pt_y q) * (pt_y p - pt_y q))
                   (threshold * threshold)
              then 1 else 0) points1 points2.

(** Drawing on a one-channel image: every colour is drawn as 255. *)
Definition d_hconcat (a b : DMat) : DMat :=
  mkDMat (d_rows a) (d_cols a + d_cols b)
    (λ p, if p.1 <? d_cols a then d_pix a p
          else d_pix b (p.1 - d_cols a, p.2)).

Definition d_cvtColor (a : DMat) : DMat := a.

Definition d_circle_color (m : DMat) (c : Point2i) (radius : Z)
    (color : Scalar) (thickness : Z) : DMat :=
  d_circle m c radius 255.

(** Lines are drawn by their end points. *)
Definition d_line (m : DMat) (p q : Point2i) (color : Scalar)
    (thickness : Z) : DMat :=
  d_circle (d_circle m p 0 255) q 0 255.

Definition d_arrowedLine (m : DMat) (p q : Point2i) (color : Scalar) : DMat :=
  d_line m p q color 1.

Definition d_set (m : DMat) (i0 i1 : Z) (v : uchar) : DMat :=
  mkDMat (d_rows m) (d_cols m)
    (λ p, if (p.1 =? i1) && (p.2 =? i0) then v else d_pix m p).

(** The tracker and the report after the second frame of the drifting
    world. *)
Definition after_second : State DMat unit :=
  default after_first (fst <$> second_drifting).

Definition second_report : FeatureFrame := default ∅ (snd <$> second_drifting).

(** The first frame of a stereo session: the tracker before and after the
    stereo stage. *)
Definition stereo_left : State DMat unit :=
  default (fresh [tt; tt])
    (track_left (collab := drifting) config (1 # 10) image (fresh [tt; tt])).

Definition stereo_after : State DMat unit :=
  default stereo_left (stereo_stage (collab := drifting) config image
                         stereo_left).

(** A tracker between two frames with eight tracks on two rows, and the
    same with one more entry in [cur_un_pts]. *)
Definition eight : list Point2f :=
  [mkPoint2f 10 10; mkPoint2f 20 10; mkPoint2f 30 10; mkPoint2f 40 10;
   mkPoint2f 10 60; mkPoint2f 20 60; mkPoint2f 30 60; mkPoint2f 40 60].

Definition eight_before : list Point2f :=
  [mkPoint2f 11 10; mkPoint2f 21 10; mkPoint2f 31 10; mkPoint2f 41 14;
   mkPoint2f 11 60; mkPoint2f 21 60; mkPoint2f 31 60; mkPoint2f 41 60].

Definition crowded : State DMat unit :=
  set_n_id 8 (set_track_cnt [3; 3; 3; 3; 2; 2; 2; 2]
    (set_ids [0; 1; 2; 3; 4; 5; 6; 7]
      (set_cur_un_pts eight (set_cur_pts eight
        (set_prev_pts eight_before
          (set_col 100 (set_row 100 (fresh [tt])))))))).

Definition crowded_stale : State DMat unit :=
  set_cur_un_pts (eight ++ [mkPoint2f 50 60]) crowded.

(** A fresh tracker with new points waiting for [addPoints]. *)
Definition with_corners : State DMat unit := set_n_pts corners (fresh [tt]).

(** Collaborators over a flow backend, the candidates of the detector and
    a sort. *)
Definition world
    (lk : DMat → DMat → list Point2f → list Point2f → Z → bool
          → list Point2f * list uchar)
    (candidates : list Point2f)
    (sort : (CntPtsId → CntPtsId → bool) → list CntPtsId → list CntPtsId)
    : Collaborators DMat unit :=
  {| Mat_rows := d_rows;
     Mat_cols := d_cols;
     Mat_empty := d_empty;
     Mat_fill := d_fill;
     Mat_at := d_pix;
     cv_circle := d_circle;
     calcOpticalFlowPyrLK := lk;
     cuda_SparsePyrLK := lk;
     goodFeaturesToTrack := d_detect candidates;
     cuda_GoodFeaturesToTrack := d_detect candidates;
     liftProjective := d_lift;
     spaceToPlane := d_project;
     std_sort := sort;
     double_div_zero := λ x, x;
     vpi_optical_flow := λ _ _, ([], []);
     vpi_harris_keypoints := λ _ _, [] |}.

(** *** Seventeen tracks of one age, sorted by libstdc++

    [std::sort] of libstdc++ as the sort of [setMask]; where the model of
    the library gives no result the array is left as it is. *)
Definition gnu_sort (comp : CntPtsId → CntPtsId → bool) (l : list CntPtsId)
    : list CntPtsId :=
  default l (libstdcxx.sort comp l).

(** A 200 x 200 image with seventeen corners on a grid of 40 pixels. *)
Definition wide : DMat := d_fill 200 200 128.

Definition grid : list Point2f :=
  [mkPoint2f 20 20; mkPoint2f 60 20; mkPoint2f 100 20; mkPoint2f 140 20;
   mkPoint2f 180 20;
   mkPoint2f 20 60; mkPoint2f 60 60; mkPoint2f 100 60; mkPoint2f 140 60;
   mkPoint2f 180 60;
   mkPoint2f 20 100; mkPoint2f 60 100; mkPoint2f 100 100; mkPoint2f 140 100;
   mkPoint2f 180 100;
   mkPoint2f 20 140; mkPoint2f 60 140].

(** Between two frames the corner at (100, 20) moves to (70, 20), 10 pixels
    from the corner at (60, 20); the other corners stay. *)
Definition nudge (p : Point2f) : Point2f :=
  if Qeq_bool (pt_x p) 100 && Qeq_bool (pt_y p) 20 then mkPoint2f 70 20 else p.

Definition grid_gnu : Collaborators DMat unit :=
  world (d_flow nudge) grid gnu_sort.

Definition grid_stable : Collaborators DMat unit :=
  world (d_flow nudge) grid stable_sort.

(** The first frame detects the seventeen corners, the ids 0 to 16. *)
Definition after_grid : State DMat unit :=
  default (fresh [tt])
    (fst <$> trackImage (collab := grid_gnu) config_forward (1 # 10) wide
               no_image (fresh [tt])).

(** The tracker of the second frame when [setMask] is entered. *)
Definition grid_before_mask : State DMat unit :=
  default (fresh [tt])
    (st1 ← propagate (collab := grid_gnu) config_forward
             (begin_frame (collab := grid_gnu) (2 # 10) wide after_grid);
     age_tracks st1).

(** *** The third frame of the drifting world *)
Definition third_start : State DMat unit :=
  begin_frame (collab := drifting) (3 # 10) image after_second.

(** *** The second frame of the contracting world, with the reverse check *)
Definition squeezed_start : State DMat unit :=
  begin_frame (collab := squeezing_stable) (2 # 10) image after_first.

(** *** Searches with a reach

    OpenCV documents [maxLevel] as the 0-based number of the highest
    pyramid level: with 0 no pyramid is used (a single level), with 1 two
    levels are used.  The backend below searches in the manner of such a
    pyramid with the window of 21 pixels the tracker asks for: it starts
    from the initial flow, or from the previous position when none is
    used, and reaches [10 * 2 ^ maxLevel] pixels from there (half a window
    on the coarsest of [maxLevel + 1] levels).  A point whose position in
    the second image, [target p], is within reach is found; another point
    stays where the search started and is flagged as lost. *)
Definition d_search (target : Point2f → Point2f) (a b : DMat)
    (prevPts nextPts : list Point2f) (maxLevel : Z) (useInitialFlow : bool)
    : list Point2f * list uchar :=
  let found :=
    imap (λ i p,
            let start := if useInitialFlow then default p (nextPts !! i)
                         else p in
            if distance_le start (target p) (inject_Z (10 * 2 ^ maxLevel))
            then (target p, 1) else (start, 0))
      prevPts in
  (found.*1, found.*2).

(** Ten corners in a column of a 640 x 480 image, and two scenes: one that
    moves 100 pixels to the right between two frames, and one that moves
    50 pixels. *)
Definition big : DMat := d_fill 480 640 128.

Definition column : list Point2f :=
  [mkPoint2f 20 40; mkPoint2f 20 80; mkPoint2f 20 120; mkPoint2f 20 160;
   mkPoint2f 20 200; mkPoint2f 20 240; mkPoint2f 20 280; mkPoint2f 20 320;
   mkPoint2f 20 360; mkPoint2f 20 400].

Definition far (p : Point2f) : Point2f := mkPoint2f (pt_x p + 100) (pt_y p).
Definition near (p : Point2f) : Point2f := mkPoint2f (pt_x p + 50) (pt_y p).

Definition searching (target : Point2f → Point2f) : Collaborators DMat unit :=
  world (d_search target) column stable_sort.

(** The first frame detects the ten corners, the ids 0 to 9. *)
Definition after_column : State DMat unit :=
  default (fresh [tt])
    (fst <$> trackImage (collab := searching far) config_forward (1 # 10) big
               no_image (fresh [tt])).

(** A prediction that puts every track at the column [x] of the image. *)
Definition guess (x : Q) : gmap Z (Q * Q * Q) :=
  list_to_map (imap (λ i p, (Z.of_nat i, (x, pt_y p, 1%Q))) column).

(** The second frame when the propagation stage is entered: in the scene
    that moves 100 pixels after a prediction 15 pixels short of the true
    column 120, and in the scene that moves 50 pixels after a prediction
    at the column 300, far from the true column 70. *)
Definition guessed_well : State DMat unit :=
  begin_frame (collab := searching far) (2 # 10) big
    (default after_column
       (setPrediction (collab := searching far) (guess 105) after_column)).

Definition guessed_badly : State DMat unit :=
  begin_frame (collab := searching near) (2 # 10) big
    (default after_column
       (setPrediction (collab := searching near) (guess 300) after_column)).

End Scenes.

(** * Proof support *)

(** Taking a successful chain of fallible steps apart: every step of
    [x ← m; k] that a hypothesis [H : ... = Some _] runs through has
    succeeded. *)
Ltac inv_bind H :=
  repeat match type of H with
  | mbind _ ?m = Some _ =>
      let E := fresh "E" in
      destruct m eqn:E; cbn [mbind option_bind] in H; [|discriminate H]
  end.

(** * Properties *)

(** Reading a member back after a chain of assignments. *)
Ltac state_simpl :=
  cbn [set_row set_col set_cur_img set_prev_img set_mask set_n_pts
       set_predict_pts set_prev_pts set_cur_pts set_cur_right_pts
       set_prev_un_pts set_cur_un_pts set_cur_un_right_pts set_pts_velocity
       set_right_pts_velocity set_ids set_ids_right set_track_cnt
       set_cur_un_pts_map set_prev_un_pts_map set_cur_un_right_pts_map
       set_prev_un_right_pts_map set_prevLeftPtsMap set_m_camera set_cur_time
       set_prev_time set_stereo_cam set_n_id set_hasPrediction
       row col cur_img prev_img mask n_pts predict_pts prev_pts cur_pts
       cur_right_pts prev_un_pts cur_un_pts cur_un_right_pts pts_velocity
       right_pts_velocity ids ids_right track_cnt cur_un_pts_map
       prev_un_pts_map cur_un_right_pts_map prev_un_right_pts_map
       prevLeftPtsMap m_camera cur_time prev_time stereo_cam n_id
       hasPrediction].

Tactic Notation "state_simpl" "in" hyp(H) :=
  cbn [set_row set_col set_cur_img set_prev_img set_mask set_n_pts
       set_predict_pts set_prev_pts set_cur_pts set_cur_right_pts
       set_prev_un_pts set_cur_un_pts set_cur_un_right_pts set_pts_velocity
       set_right_pts_velocity set_ids set_ids_right set_track_cnt
       set_cur_un_pts_map set_prev_un_pts_map set_cur_un_right_pts_map
       set_prev_un_right_pts_map set_prevLeftPtsMap set_m_camera set_cur_time
       set_prev_time set_stereo_cam set_n_id set_hasPrediction
       row col cur_img prev_img mask n_pts predict_pts prev_pts cur_pts
       cur_right_pts prev_un_pts cur_un_pts cur_un_right_pts pts_velocity
       right_pts_velocity ids ids_right track_cnt cur_un_pts_map
       prev_un_pts_map cur_un_right_pts_map prev_un_right_pts_map
       prevLeftPtsMap m_camera cur_time prev_time stereo_cam n_id
       hasPrediction] in H.

(** ** Loops *)

(** The rule for a counted loop: an invariant that every iteration
    re-establishes, without failing, holds when the loop ends. *)
Lemma for_loop_inv {S : Type} (P : nat → S → Prop) (body : nat → S → option S)
    (count start : nat) (s : S) :
  P start s →
  (∀ i t, (start ≤ i < start + count)%nat → P i t →
     ∃ t', body i t = Some t' ∧ P (Datatypes.S i) t') →
  ∃ s', for_loop start count body s = Some s' ∧ P (start + count)%nat s'.
Proof.
  revert start s. induction count as [|c IH]; intros start s H0 Hstep.
  - exists s. split; [done|]. by rewrite Nat.add_0_r.
  - destruct (Hstep start s) as (t' & Hb & Ht'); [lia|done|].
    destruct (IH (Datatypes.S start) t') as (s' & Hl & Hs'); [done| |].
    + intros i t Hi. apply Hstep. lia.
    + exists s'. split.
      * cbn [for_loop]. by rewrite Hb.
      * by replace (start + Datatypes.S c)%nat with (Datatypes.S start + c)%nat by lia.
Qed.

(** A failing iteration makes the loop fail. *)
Lemma for_loop_fail {S : Type} (P : nat → S → Prop) (body : nat → S → option S)
    (count start k : nat) (s : S) :
  (start ≤ k < start + count)%nat →
  P start s →
  (∀ i t, (start ≤ i < k)%nat → P i t →
     ∃ t', body i t = Some t' ∧ P (Datatypes.S i) t') →
  (∀ t, P k t → body k t = None) →
  for_loop start count body s = None.
Proof.
  revert start s. induction count as [|c IH]; intros start s Hk H0 Hstep Hfail.
  - lia.
  - cbn [for_loop]. destruct (decide (start = k)) as [->|Hne].
    + by rewrite (Hfail s H0).
    + destruct (Hstep start s) as (t' & Hb & Ht'); [lia|done|].
      rewrite Hb. cbn. apply IH; [lia|done| |done].
      intros i t Hi. apply Hstep. lia.
Qed.

Lemma for_each_app {A S : Type} (body : A → S → option S) (l1 l2 : list A) (s : S) :
  for_each body (l1 ++ l2) s = s' ← for_each body l1 s; for_each body l2 s'.
Proof.
  revert s. induction l1 as [|x l1 IH]; intros s; cbn; [done|].
  destruct (body x s); cbn; [apply IH|done].
Qed.

(** ** Compaction *)

Lemma compact_nil_r {A : Type} (v : list A) : compact v [] = [].
Proof. by destruct v. Qed.

Lemma compact_take_S {A : Type} (v : list A) (status : list uchar) (i : nat)
    (x : A) (s : uchar) :
  v !! i = Some x → status !! i = Some s →
  compact (take (Datatypes.S i) v) status
  = compact (take i v) status ++ (if truthy s then [x] else []).
Proof.
  revert status i. induction v as [|x0 v IH]; intros status i Hv Hs; [done|].
  destruct status as [|s0 status]; [done|].
  destruct i as [|i]; cbn in Hv, Hs.
  - simplify_eq. cbn. rewrite take_0. cbn. by destruct (truthy s).
  - cbn [take compact]. rewrite (IH status i Hv Hs).
    by destruct (truthy s0).
Qed.

Lemma compact_length_le {A : Type} (v : list A) (status : list uchar) :
  (length (compact v status) ≤ length v)%nat.
Proof.
  revert status. induction v as [|x v IH]; intros [|s status]; cbn; try lia.
  specialize (IH status). destruct (truthy s); cbn; lia.
Qed.

(** Vectors of one length compacted by one status stay of one length. *)
Lemma compact_length_eq {A B : Type} (v : list A) (w : list B) (status : list uchar) :
  length v = length w → length (compact v status) = length (compact w status).
Proof.
  revert w status. induction v as [|x v IH]; intros [|y w] [|s status] Hl;
    cbn in *; try done.
  destruct (truthy s); cbn; auto.
Qed.

Lemma compact_sublist {A : Type} (v : list A) (status : list uchar) :
  compact v status `sublist_of` v.
Proof.
  revert status. induction v as [|x v IH]; intros [|s status]; cbn.
  - done.
  - done.
  - apply sublist_nil_l.
  - destruct (truthy s); [by apply sublist_skip|by apply sublist_cons].
Qed.

(** An all-success status keeps everything. *)
Lemma compact_all {A : Type} (v : list A) (status : list uchar) :
  (length v ≤ length status)%nat → Forall (λ s, truthy s = true) status →
  compact v status = v.
Proof.
  revert status. induction v as [|x v IH]; intros [|s status] Hl Hall;
    cbn in *; try done; try lia.
  inversion Hall as [|? ? Hs Hall']; subst. rewrite Hs. f_equal.
  apply IH; [lia|done].
Qed.

(** Position [k] of the compacted vector comes from a position of the
    original with its flag set, and the same position for every vector
    compacted by this status. *)
Lemma compact_lookup {A : Type} (v : list A) (status : list uchar) (k : nat) (x : A) :
  compact v status !! k = Some x →
  ∃ i s, v !! i = Some x ∧ status !! i = Some s ∧ truthy s = true
         ∧ ∀ (B : Type) (w : list B), length w = length v →
             compact w status !! k = w !! i.
Proof.
  revert status k. induction v as [|x0 v IH]; intros [|s0 status] k Hk;
    cbn in Hk; try done.
  destruct (truthy s0) eqn:Hs0.
  - destruct k as [|k]; cbn in Hk.
    + simplify_eq. exists 0%nat, s0. repeat split; try done.
      intros B [|y w] Hl; cbn in *; [done|]. by rewrite Hs0.
    + destruct (IH status k Hk) as (i & s & Hv & Hs & Ht & Hw).
      exists (Datatypes.S i), s. repeat split; try done.
      intros B [|y w] Hl; cbn in *; [done|]. rewrite Hs0. cbn.
      apply Hw. lia.
  - destruct (IH status k Hk) as (i & s & Hv & Hs & Ht & Hw).
    exists (Datatypes.S i), s. repeat split; try done.
    intros B [|y w] Hl; cbn in *; [done|]. rewrite Hs0.
    apply Hw. lia.
Qed.

(** Conversely a position with its flag set survives. *)
Lemma compact_elem_of {A : Type} (v : list A) (status : list uchar) (i : nat)
    (x : A) (s : uchar) :
  v !! i = Some x → status !! i = Some s → truthy s = true →
  x ∈ compact v status.
Proof.
  revert status i. induction v as [|x0 v IH]; intros [|s0 status] i Hv Hs Ht;
    try done.
  destruct i as [|i]; cbn in *.
  - simplify_eq. rewrite Ht. apply list_elem_of_here.
  - destruct (truthy s0); [apply list_elem_of_further|]; by eapply IH.
Qed.

(** [reduceVector] compacts, and does not fail when [status] covers [v]. *)
Lemma reduceVector_spec {A : Type} (v : list A) (status : list uchar) :
  (length v ≤ length status)%nat →
  reduceVector v status = Some (compact v status).
Proof.
  intros Hlen. unfold reduceVector.
  destruct (for_loop_inv
    (λ i (wj : list A * nat),
       length wj.1 = length v ∧ (wj.2 ≤ i)%nat
       ∧ take wj.2 wj.1 = compact (take i v) status
       ∧ drop i wj.1 = drop i v)
    (reduce_body status) (length v) 0 (v, 0%nat)) as (wj & Hrun & Hinv).
  - cbn. by rewrite !take_0.
  - intros i [w j] Hi (Hlw & Hj & Htake & Hdrop). cbn in *.
    destruct (lookup_lt_is_Some_2 status i) as [s Hs]; [lia|].
    destruct (lookup_lt_is_Some_2 v i) as [x Hx]; [lia|].
    assert (w !! i = Some x) as Hwx.
    { rewrite <- (Nat.add_0_r i), <- lookup_drop, Hdrop, lookup_drop.
      by rewrite Nat.add_0_r. }
    rewrite Hs. cbn. rewrite (compact_take_S v status i x s Hx Hs).
    destruct (truthy s).
    + rewrite Hwx. cbn. eexists. split; [done|]. cbn.
      rewrite length_insert. repeat split; [done|lia| |].
      * rewrite (take_S_r _ _ x); [|apply list_lookup_insert_eq; lia].
        rewrite take_insert_ge; [|lia]. by rewrite Htake.
      * rewrite drop_insert_lt; [|lia].
        by rewrite (drop_S _ _ _ Hwx), (drop_S _ _ _ Hx) in Hdrop; simplify_eq.
    + eexists. split; [done|]. cbn. rewrite app_nil_r.
      repeat split; [done|lia|done|].
      by rewrite (drop_S _ _ _ Hwx), (drop_S _ _ _ Hx) in Hdrop; simplify_eq.
  - rewrite Hrun. cbn. destruct Hinv as (_ & _ & Htake & _).
    rewrite Htake. cbn. by rewrite firstn_all.
Qed.

(** A status vector shorter than [v] makes [reduceVector] read outside it. *)
Lemma reduceVector_short {A : Type} (v : list A) (status : list uchar) :
  (length status < length v)%nat → reduceVector v status = None.
Proof.
  intros Hlen. unfold reduceVector.
  rewrite (for_loop_fail (λ i (wj : list A * nat), length wj.1 = length v)
             (reduce_body status) (length v) 0 (length status) (v, 0%nat));
    [done|lia|done| |].
  - intros i [w j] Hi Hl. cbn in *.
    destruct (lookup_lt_is_Some_2 status i) as [s Hs]; [lia|].
    rewrite Hs. cbn. destruct (truthy s).
    + destruct (lookup_lt_is_Some_2 w i) as [x Hx]; [lia|].
      rewrite Hx. cbn. eexists. split; [done|]. cbn. by rewrite length_insert.
    + by eexists.
  - intros [w j] _. cbn. by rewrite (lookup_ge_None_2 status).
Qed.

(** Two trackers are equal when they agree member by member. *)
Lemma State_eq {Mat Camera : Type} (s t : State Mat Camera) :
  row s = row t →
  col s = col t →
  cur_img s = cur_img t →
  prev_img s = prev_img t →
  mask s = mask t →
  n_pts s = n_pts t →
  predict_pts s = predict_pts t →
  prev_pts s = prev_pts t →
  cur_pts s = cur_pts t →
  cur_right_pts s = cur_right_pts t →
  prev_un_pts s = prev_un_pts t →
  cur_un_pts s = cur_un_pts t →
  cur_un_right_pts s = cur_un_right_pts t →
  pts_velocity s = pts_velocity t →
  right_pts_velocity s = right_pts_velocity t →
  ids s = ids t →
  ids_right s = ids_right t →
  track_cnt s = track_cnt t →
  cur_un_pts_map s = cur_un_pts_map t →
  prev_un_pts_map s = prev_un_pts_map t →
  cur_un_right_pts_map s = cur_un_right_pts_map t →
  prev_un_right_pts_map s = prev_un_right_pts_map t →
  prevLeftPtsMap s = prevLeftPtsMap t →
  m_camera s = m_camera t →
  cur_time s = cur_time t →
  prev_time s = prev_time t →
  stereo_cam s = stereo_cam t →
  n_id s = n_id t →
  hasPrediction s = hasPrediction t →
  s = t.
Proof.
  destruct s, t. cbn. intros. by subst.
Qed.

(** Equality of two chains of assignments, member by member. *)
Ltac state_eq := apply State_eq; state_simpl; try reflexivity.

(** The partial-correctness rule: an invariant kept by every successful
    iteration holds of the result of a successful loop. *)
Lemma for_loop_inv_Some {S : Type} (P : nat → S → Prop)
    (body : nat → S → option S) (count start : nat) (s s' : S) :
  P start s →
  (∀ i t t', (start ≤ i < start + count)%nat → P i t → body i t = Some t' →
     P (Datatypes.S i) t') →
  for_loop start count body s = Some s' →
  P (start + count)%nat s'.
Proof.
  revert start s. induction count as [|c IH]; intros start s H0 Hstep Hrun.
  - cbn in Hrun. simplify_eq. by rewrite Nat.add_0_r.
  - cbn [for_loop] in Hrun. destruct (body start s) as [t'|] eqn:Hb; [|done].
    cbn in Hrun.
    replace (start + Datatypes.S c)%nat with (Datatypes.S start + c)%nat by lia.
    apply (IH (Datatypes.S start) t'); [|intros i t t'' Hi; apply Hstep; lia|done].
    apply (Hstep start s); [lia|done|done].
Qed.

(** A loop whose [i]-th iteration rewrites entry [i] of a vector from its
    current value: the result holds [g i] of the old entry at every visited
    position, and the old entry elsewhere. *)
Lemma for_loop_pointwise (body : nat → list uchar → option (list uchar))
    (g : nat → uchar → option uchar) (n : nat) (status : list uchar) :
  (∀ i t s, t !! i = Some s → body i t = y ← g i s; Some (<[i := y]> t)) →
  (n ≤ length status)%nat →
  (∀ i s, (i < n)%nat → status !! i = Some s → is_Some (g i s)) →
  ∃ t, for_loop 0 n body status = Some t
       ∧ length t = length status
       ∧ (∀ i s, (i < n)%nat → status !! i = Some s → t !! i = g i s)
       ∧ (∀ i, (n ≤ i)%nat → t !! i = status !! i).
Proof.
  intros Hbody Hn Hg.
  destruct (for_loop_inv
    (λ k (t : list uchar),
       length t = length status
       ∧ (∀ i s, (i < k)%nat → status !! i = Some s → t !! i = g i s)
       ∧ (∀ i, (k ≤ i)%nat → t !! i = status !! i))
    body n 0 status) as (t & Hrun & Hl & Hlt & Hge).
  - split; [done|]. split; [|done]. intros i s Hi. lia.
  - intros k t Hk (Hl & Hlt & Hge).
    destruct (lookup_lt_is_Some_2 status k) as [s Hs]; [lia|].
    assert (t !! k = Some s) as Hts by (by rewrite Hge).
    destruct (Hg k s) as [y Hy]; [lia|done|].
    rewrite (Hbody k t s Hts), Hy. cbn. eexists. split; [done|].
    rewrite length_insert. repeat split; [done| |].
    + intros i s' Hi Hs'. destruct (decide (i = k)) as [->|Hne].
      * simplify_eq. rewrite list_lookup_insert_eq; [done|lia].
      * rewrite list_lookup_insert_ne; [|done]. apply Hlt; [lia|done].
    + intros i Hi. rewrite list_lookup_insert_ne; [|lia]. apply Hge. lia.
  - exists t. by rewrite Nat.add_0_l in *.
Qed.

(** A loop that appends one element per iteration. *)
Lemma for_loop_collect {B : Type} (body : nat → list B → option (list B))
    (f : nat → option B) (n : nat) :
  (∀ i acc, body i acc = y ← f i; Some (acc ++ [y])) →
  (∀ i, (i < n)%nat → is_Some (f i)) →
  ∃ l, for_loop 0 n body [] = Some l
       ∧ length l = n
       ∧ ∀ i, (i < n)%nat → l !! i = f i.
Proof.
  intros Hbody Hf.
  destruct (for_loop_inv
    (λ k (l : list B), length l = k ∧ ∀ i, (i < k)%nat → l !! i = f i)
    body n 0 []) as (l & Hrun & Hl & Hlk).
  - split; [done|]. intros i Hi. lia.
  - intros k acc Hk (Hl & Hlk). destruct (Hf k) as [y Hy]; [lia|].
    rewrite Hbody, Hy. cbn. eexists. split; [done|].
    rewrite length_app. cbn. split; [lia|].
    intros i Hi. destruct (decide (i = k)) as [->|Hne].
    + rewrite lookup_app_r; [|lia]. rewrite Hl, Nat.sub_diag. by cbn.
    + rewrite lookup_app_l; [|lia]. apply Hlk. lia.
  - exists l. by rewrite Nat.add_0_l in *.
Qed.

(** The same loop read backwards: whatever it returns was collected. *)
Lemma for_loop_collect_Some {B : Type} (body : nat → list B → option (list B))
    (f : nat → option B) (n : nat) (l : list B) :
  (∀ i acc, body i acc = y ← f i; Some (acc ++ [y])) →
  for_loop 0 n body [] = Some l →
  length l = n ∧ ∀ i, (i < n)%nat → l !! i = f i ∧ is_Some (f i).
Proof.
  intros Hbody Hrun.
  refine (for_loop_inv_Some
    (λ k (l : list B),
       length l = k ∧ ∀ i, (i < k)%nat → l !! i = f i ∧ is_Some (f i))
    body n 0 [] l _ _ Hrun).
  - split; [done|]. intros i Hi. lia.
  - intros k acc acc' Hk (Hl & Hlk) Hb. rewrite Hbody in Hb.
    destruct (f k) as [y|] eqn:Hy; [|done]. cbn in Hb. simplify_eq.
    rewrite length_app. cbn. split; [lia|].
    intros i Hi. destruct (decide (i = length acc)) as [->|Hne].
    + rewrite lookup_app_r; [|lia]. rewrite Nat.sub_diag, Hy. by cbn.
    + rewrite lookup_app_l; [|lia]. apply Hlk. lia.
Qed.

(** ** Rounding and the border test *)

Lemma cvRound_bounds (v : Q) :
  (v - (1 # 2) <= inject_Z (cvRound v))%Q ∧ (inject_Z (cvRound v) <= v + (1 # 2))%Q.
Proof.
  unfold cvRound.
  pose proof (Qfloor_le (v + (1 # 2))) as Hlo.
  pose proof (Qlt_floor (v + (1 # 2))) as Hhi.
  set (f := Qfloor (v + (1 # 2))) in *.
  rewrite inject_Z_plus in Hhi.
  destruct (Qeq_bool (inject_Z f) (v + (1 # 2)) && Z.odd f) eqn:Htie.
  - apply andb_prop in Htie as [Heq _]. apply Qeq_bool_eq in Heq.
    unfold Z.sub. rewrite inject_Z_plus, Heq. split.
    + apply Qle_lteq. right.
      change (inject_Z (- (1))) with (- (1))%Q. ring.
    + change (inject_Z (- (1))) with (- (1))%Q.
      apply Qle_minus_iff. ring_simplify. done.
  - split; [|done].
    apply Qlt_le_weak. apply (Qplus_lt_l _ _ 1).
    eapply Qle_lt_trans; [|exact Hhi].
    apply Qle_minus_iff. ring_simplify. done.
Qed.

Lemma inBorder_true (row col : Z) (pt : Point2f) :
  inBorder row col pt = true ↔
  1 ≤ cvRound (pt_x pt) < col - 1 ∧ 1 ≤ cvRound (pt_y pt) < row - 1.
Proof.
  unfold inBorder, BORDER_SIZE. rewrite !andb_true_iff.
  rewrite !Z.leb_le, !Z.ltb_lt. lia.
Qed.

(** What the rounded border test says about the position itself. *)
Lemma inBorder_position (row col : Z) (pt : Point2f) :
  inBorder row col pt = true →
  ((1 # 2 <= pt_x pt)%Q ∧ (pt_x pt < inject_Z (col - 1))%Q)
  ∧ ((1 # 2 <= pt_y pt)%Q ∧ (pt_y pt < inject_Z (row - 1))%Q).
Proof.
  intros [Hx Hy]%inBorder_true.
  assert (∀ (v : Q) (n : Z), 1 ≤ cvRound v < n - 1 →
            (1 # 2 <= v)%Q ∧ (v < inject_Z (n - 1))%Q) as Hcoord.
  { intros v n [Hlo Hhi]. destruct (cvRound_bounds v) as [Hb1 Hb2].
    assert (inject_Z 1 <= inject_Z (cvRound v))%Q as H1
      by (rewrite <- Zle_Qle; lia).
    assert (inject_Z (cvRound v) <= inject_Z (n - 2))%Q as H2
      by (rewrite <- Zle_Qle; lia).
    split.
    - apply (Qplus_le_l _ _ (1 # 2)).
      eapply Qle_trans; [|exact Hb2].
      eapply Qle_trans; [|exact H1]. done.
    - apply (Qplus_lt_l _ _ (- (1 # 2))).
      eapply Qle_lt_trans; [exact Hb1|].
      eapply Qle_lt_trans; [exact H2|].
      replace (n - 1) with ((n - 2) + 1) by lia. rewrite inject_Z_plus.
      apply Qlt_minus_iff. ring_simplify. done. }
  split; by apply Hcoord.
Qed.

Section Properties.

Context {Mat Camera : Type} {collab : Collaborators Mat Camera}.

Implicit Types (st : State Mat Camera) (cfg : Config).

(** ** The status loops of the propagation stage *)

(** The reverse check rewrites every flag to the conjunction of the three
    tests. *)
Lemma fb_check_spec (status reverse_status : list uchar)
    (prev reverse_pts : list Point2f) :
  length reverse_status = length status →
  length prev = length status →
  length reverse_pts = length status →
  ∃ t, fb_check status reverse_status prev reverse_pts = Some t
       ∧ length t = length status
       ∧ ∀ i s r p q,
           status !! i = Some s → reverse_status !! i = Some r →
           prev !! i = Some p → reverse_pts !! i = Some q →
           t !! i = Some (if truthy s && truthy r && distance_le p q (1 # 2)
                          then 1 else 0).
Proof.
  intros Hr Hp Hq. unfold fb_check.
  destruct (for_loop_pointwise
    (fb_body reverse_status prev reverse_pts)
    (λ i s, if truthy s then
              r ← reverse_status !! i;
              if truthy r then
                p ← prev !! i; q ← reverse_pts !! i;
                Some (if distance_le p q (1 # 2) then 1 else 0)
              else Some 0
            else Some 0)
    (length status) status) as (t & Hrun & Hl & Hlt & _).
  - intros i t s Hs. unfold fb_body. rewrite Hs. cbn.
    destruct (truthy s); [|done].
    destruct (reverse_status !! i) as [r|]; [|done]. cbn.
    destruct (truthy r); [|done].
    destruct (prev !! i) as [p|]; [|done]. cbn.
    by destruct (reverse_pts !! i) as [q|].
  - done.
  - intros i s Hi Hs.
    destruct (lookup_lt_is_Some_2 reverse_status i) as [r ->]; [lia|].
    destruct (lookup_lt_is_Some_2 prev i) as [p ->]; [lia|].
    destruct (lookup_lt_is_Some_2 reverse_pts i) as [q ->]; [lia|].
    cbn. destruct (truthy s), (truthy r); by eexists.
  - exists t. split; [done|]. split; [done|].
    intros i s r p q Hs Hrs Hpp Hqq.
    rewrite (Hlt i s); [|by eapply lookup_lt_Some|done].
    rewrite Hrs, Hpp, Hqq. cbn.
    by destruct (truthy s), (truthy r).
Qed.

(** The border loop clears the flag of every point outside the border and
    leaves the other flags as they are. *)
Lemma border_filter_spec (row col : Z) (cur : list Point2f) (status : list uchar) :
  length status = length cur →
  ∃ t, border_filter row col cur status = Some t
       ∧ length t = length status
       ∧ ∀ i s p, status !! i = Some s → cur !! i = Some p →
           t !! i = Some (if truthy s && negb (inBorder row col p) then 0 else s).
Proof.
  intros Hlen. unfold border_filter.
  destruct (for_loop_pointwise
    (border_body row col cur)
    (λ i s, if truthy s then
              p ← cur !! i; Some (if negb (inBorder row col p) then 0 else s)
            else Some s)
    (length cur) status) as (t & Hrun & Hl & Hlt & _).
  - intros i t s Hs. unfold border_body. rewrite Hs. cbn.
    destruct (truthy s); cbn; [|by rewrite list_insert_id].
    destruct (cur !! i) as [p|]; [|done]. cbn.
    destruct (inBorder row col p); cbn; [by rewrite list_insert_id|done].
  - lia.
  - intros i s Hi Hs.
    destruct (lookup_lt_is_Some_2 cur i) as [p ->]; [lia|].
    cbn. destruct (truthy s); by eexists.
  - exists t. split; [done|]. split; [done|].
    intros i s p Hs Hp.
    rewrite (Hlt i s); [|by eapply lookup_lt_Some|done].
    rewrite Hp. cbn. by destruct (truthy s).
Qed.

(** ** The flow arms *)

(** The counter counts the non-zero flags. *)
Lemma count_succ_filter (status : list uchar) :
  count_succ status = Z.of_nat (length (filter (λ s, s ≠ 0) status)).
Proof.
  unfold count_succ.
  assert (∀ n, foldl (λ succ_num s, if truthy s then succ_num + 1 else succ_num)
                 n status
               = n + Z.of_nat (length (filter (λ s, s ≠ 0) status))) as H.
  { induction status as [|s status IH]; intros n; [cbn; lia|].
    rewrite filter_cons. cbn [foldl]. rewrite IH. unfold truthy.
    destruct (Z.eqb_spec s 0) as [->|Hne]; cbn [negb].
    - rewrite decide_False; [lia|]. intros Hs. by apply Hs.
    - rewrite decide_True; [|done]. cbn [length]. lia. }
  apply H.
Qed.

(** The first two arms of either chain test a flag and its negation. *)
Lemma flow_dispatch_arms cfg st :
  flow_dispatch cfg st
  = if negb (int_true (USE_GPU_ACC_FLOW cfg)) then flow_cpu cfg st
    else flow_gpu cfg st.
Proof. unfold flow_dispatch. by destruct (int_true (USE_GPU_ACC_FLOW cfg)). Qed.

Lemma forward_cpu_length st :
  flow_contract calcOpticalFlowPyrLK →
  length (forward_cpu st).1 = length (prev_pts st)
  ∧ length (forward_cpu st).2 = length (prev_pts st).
Proof.
  intros Hlk. unfold forward_cpu.
  destruct (hasPrediction st); [|apply Hlk].
  match goal with |- context [if ?c then _ else _] => destruct c end; apply Hlk.
Qed.

Lemma forward_gpu_length st :
  flow_contract cuda_SparsePyrLK →
  length (forward_gpu st).1 = length (prev_pts st)
  ∧ length (forward_gpu st).2 = length (prev_pts st).
Proof.
  intros Hlk. unfold forward_gpu.
  destruct (hasPrediction st); [|apply Hlk].
  match goal with |- context [if ?c then _ else _] => destruct c end; apply Hlk.
Qed.

Lemma selected_lk_contract cfg :
  flow_contract calcOpticalFlowPyrLK → flow_contract cuda_SparsePyrLK →
  flow_contract (selected_lk cfg).
Proof. intros H1 H2. unfold selected_lk. by destruct (negb _). Qed.

Lemma selected_forward_length cfg st :
  flow_contract calcOpticalFlowPyrLK → flow_contract cuda_SparsePyrLK →
  length (selected_forward cfg st).1 = length (prev_pts st)
  ∧ length (selected_forward cfg st).2 = length (prev_pts st).
Proof.
  intros H1 H2. unfold selected_forward.
  destruct (negb _); [by apply forward_cpu_length|by apply forward_gpu_length].
Qed.

(** The dispatch, spelled out over the selected arm. *)
Lemma flow_dispatch_unfold cfg st :
  flow_dispatch cfg st
  = let fwd := selected_forward cfg st in
    if int_true (FLOW_BACK cfg) then
      let rev := selected_lk cfg (cur_img st) (prev_img st) fwd.1 (prev_pts st)
                   1 true in
      status ← fb_check fwd.2 rev.2 (prev_pts st) rev.1; Some (fwd.1, status)
    else Some fwd.
Proof.
  rewrite flow_dispatch_arms. unfold selected_forward, selected_lk.
  by destruct (negb (int_true (USE_GPU_ACC_FLOW cfg))).
Qed.

(** The dispatch returns one point and one flag per previous point. *)
Lemma flow_dispatch_ok cfg st :
  flow_contract calcOpticalFlowPyrLK → flow_contract cuda_SparsePyrLK →
  ∃ status, flow_dispatch cfg st = Some ((selected_forward cfg st).1, status)
            ∧ length (selected_forward cfg st).1 = length (prev_pts st)
            ∧ length status = length (prev_pts st).
Proof.
  intros H1 H2. rewrite flow_dispatch_unfold. cbn zeta.
  destruct (selected_forward_length cfg st H1 H2) as [Hf1 Hf2].
  destruct (int_true (FLOW_BACK cfg)).
  - pose proof (selected_lk_contract cfg H1 H2) as Hlk.
    destruct (Hlk (cur_img st) (prev_img st) (selected_forward cfg st).1
                (prev_pts st) 1 true) as [Hr1 Hr2].
    destruct (fb_check_spec (selected_forward cfg st).2
      (selected_lk cfg (cur_img st) (prev_img st) (selected_forward cfg st).1
         (prev_pts st) 1 true).2
      (prev_pts st)
      (selected_lk cfg (cur_img st) (prev_img st) (selected_forward cfg st).1
         (prev_pts st) 1 true).1) as (t & Hrun & Hl & _); [lia..|].
    rewrite Hrun. cbn. exists t. repeat split; [done|lia].
  - exists (selected_forward cfg st).2.
    by destruct (selected_forward cfg st).
Qed.

(** The propagation stage with a previous frame: it returns, and the four
    vectors are compacted by the status vector that the border filter
    leaves. *)
Lemma propagate_spec cfg st :
  flow_contract calcOpticalFlowPyrLK → flow_contract cuda_SparsePyrLK →
  length (ids st) = length (prev_pts st) →
  length (track_cnt st) = length (prev_pts st) →
  (0 < length (prev_pts st))%nat →
  ∃ flow_pts flow_status status st',
    flow_dispatch cfg st = Some (flow_pts, flow_status)
    ∧ propagate cfg st = Some st'
    ∧ length flow_pts = length (prev_pts st)
    ∧ length flow_status = length (prev_pts st)
    ∧ length status = length (prev_pts st)
    ∧ (∀ i s p, flow_status !! i = Some s → flow_pts !! i = Some p →
         status !! i = Some (if truthy s && negb (inBorder (row st) (col st) p)
                             then 0 else s))
    ∧ cur_pts st' = compact flow_pts status
    ∧ prev_pts st' = compact (prev_pts st) status
    ∧ ids st' = compact (ids st) status
    ∧ track_cnt st' = compact (track_cnt st) status.
Proof.
  intros H1 H2 Hids Hcnt Hpos.
  destruct (flow_dispatch_ok cfg st H1 H2) as (fs & Hflow & Hlp & Hls).
  set (fp := (selected_forward cfg st).1) in *.
  destruct (border_filter_spec (row st) (col st) fp fs)
    as (t & Hb & Hlt & Ht); [lia|].
  exists fp, fs, t. eexists.
  split; [done|]. split.
  { unfold propagate. apply Nat.ltb_lt in Hpos. rewrite Hpos, Hflow. cbn.
    rewrite Hb. cbn.
    rewrite !reduceVector_spec by lia. cbn. reflexivity. }
  state_simpl. split; [done|]. split; [done|]. split; [lia|].
  by do 4 (split; [done|]).
Qed.

(** ** Prediction-seeded flow *)

(** The forward pass of the selected arm, spelled out over its backend. *)
Lemma selected_forward_pass cfg st :
  selected_forward cfg st
  = (let lk := selected_lk cfg in
     let fast := lk (prev_img st) (cur_img st) (prev_pts st) (predict_pts st)
                   1 true in
     if hasPrediction st then
       if Z.of_nat (length (filter (λ s, s ≠ 0) fast.2)) <? 10 then
         lk (prev_img st) (cur_img st) (prev_pts st) fast.1 3 false
       else fast
     else lk (prev_img st) (cur_img st) (prev_pts st) (cur_pts st) 3 false).
Proof.
  unfold selected_forward, selected_lk, forward_cpu, forward_gpu. cbn zeta.
  rewrite !count_succ_filter.
  by destruct (negb (int_true (USE_GPU_ACC_FLOW cfg))).
Qed.

Lemma truthy_true (s : uchar) : truthy s = true ↔ s ≠ 0.
Proof.
  unfold truthy. destruct (Z.eqb_spec s 0); cbn; split; intros; done.
Qed.

(** What the flow arms hand to the border loop: the points of the forward
    pass, and its flags, which the reverse check, when it runs, replaces by
    the conjunction of its three tests. *)
Lemma flow_dispatch_flags cfg st :
  flow_contract calcOpticalFlowPyrLK → flow_contract cuda_SparsePyrLK →
  let fwd := selected_forward cfg st in
  let rev := selected_lk cfg (cur_img st) (prev_img st) fwd.1 (prev_pts st)
               1 true in
  ∃ flow_status,
    flow_dispatch cfg st = Some (fwd.1, flow_status)
    ∧ length flow_status = length (prev_pts st)
    ∧ (int_true (FLOW_BACK cfg) = false → flow_status = fwd.2)
    ∧ (int_true (FLOW_BACK cfg) = true →
       ∀ i, (i < length (prev_pts st))%nat →
         ∃ s r p q,
           fwd.2 !! i = Some s ∧ rev.2 !! i = Some r
           ∧ prev_pts st !! i = Some p ∧ rev.1 !! i = Some q
           ∧ flow_status !! i
             = Some (if truthy s && truthy r && distance_le p q (1 # 2)
                     then 1 else 0)).
Proof.
  intros H1 H2 fwd rev.
  destruct (selected_forward_length cfg st H1 H2) as [Hf1 Hf2].
  rewrite flow_dispatch_unfold. cbn zeta. fold fwd. fold rev.
  destruct (int_true (FLOW_BACK cfg)).
  - destruct (selected_lk_contract cfg H1 H2 (cur_img st) (prev_img st)
                fwd.1 (prev_pts st) 1 true) as [Hr1 Hr2].
    destruct (fb_check_spec fwd.2 rev.2 (prev_pts st) rev.1)
      as (t & Hrun & Hl & Ht); [subst fwd rev; lia..|].
    exists t. rewrite Hrun. cbn. split; [done|].
    split; [subst fwd; lia|]. split; [done|]. intros _ i Hi.
    destruct (lookup_lt_is_Some_2 fwd.2 i) as [s Hs]; [subst fwd; lia|].
    destruct (lookup_lt_is_Some_2 rev.2 i) as [r Hr]; [subst fwd rev; lia|].
    destruct (lookup_lt_is_Some_2 (prev_pts st) i) as [p Hp]; [lia|].
    destruct (lookup_lt_is_Some_2 rev.1 i) as [q Hq]; [subst fwd rev; lia|].
    exists s, r, p, q. do 4 (split; [done|]). by apply Ht.
  - exists fwd.2. split; [by destruct fwd|]. split; [subst fwd; lia|].
    split; [done|]. intros ?. done.
Qed.

(** C7, as the code has it.  With a staged prediction the forward pass first
    calls the backend with [maxLevel = 1] (for OpenCV a pyramid of two
    levels, 0 and 1, not a single level) and the predicted points as initial
    flow; exactly when fewer than 10 flags of that call are set it calls the
    backend again with [maxLevel = 3] and without initial flow, and the
    second result replaces the first.  Without a prediction only the
    [maxLevel = 3] call is made.  This is the pass of the CPU and of the
    GPU arm, and the propagation stage keeps its points: the tracks that
    survive are those whose flag the pass set (and the reverse check, when
    it runs, kept) and whose point passes [inBorder], at the positions the
    pass found. *)
Theorem prediction_fallback cfg st :
  flow_contract calcOpticalFlowPyrLK → flow_contract cuda_SparsePyrLK →
  length (ids st) = length (prev_pts st) →
  length (track_cnt st) = length (prev_pts st) →
  (0 < length (prev_pts st))%nat →
  let lk := selected_lk cfg in
  let fast := lk (prev_img st) (cur_img st) (prev_pts st) (predict_pts st)
                1 true in
  let succ_num := Z.of_nat (length (filter (λ s, s ≠ 0) fast.2)) in
  let fwd :=
    if hasPrediction st then
      if succ_num <? 10 then
        lk (prev_img st) (cur_img st) (prev_pts st) fast.1 3 false
      else fast
    else lk (prev_img st) (cur_img st) (prev_pts st) (cur_pts st) 3 false in
  ∃ flow_status status st',
    flow_dispatch cfg st = Some (fwd.1, flow_status)
    ∧ (int_true (FLOW_BACK cfg) = false → flow_status = fwd.2)
    ∧ (∀ i a, flow_status !! i = Some a → a ≠ 0 →
         ∃ s, fwd.2 !! i = Some s ∧ s ≠ 0)
    ∧ propagate cfg st = Some st'
    ∧ length status = length (prev_pts st)
    ∧ (∀ i s p, flow_status !! i = Some s → fwd.1 !! i = Some p →
         status !! i = Some (if truthy s && negb (inBorder (row st) (col st) p)
                             then 0 else s))
    ∧ cur_pts st' = compact fwd.1 status
    ∧ prev_pts st' = compact (prev_pts st) status
    ∧ ids st' = compact (ids st) status
    ∧ track_cnt st' = compact (track_cnt st) status.
Proof.
  intros H1 H2 Hids Hcnt Hpos lk fast succ_num fwd.
  assert (selected_forward cfg st = fwd) as Hfwd
    by apply selected_forward_pass.
  destruct (propagate_spec cfg st H1 H2 Hids Hcnt Hpos)
    as (fp & fs & t & st' & Hflow & Hrun & _ & _ & Hlt & Ht & Hrest).
  destruct (flow_dispatch_flags cfg st H1 H2)
    as (fs' & Hflow' & Hls & Hoff & Hon).
  rewrite Hflow in Hflow'. rewrite Hfwd in *. simplify_eq.
  exists fs', t, st'. split; [done|]. split; [done|]. split.
  { intros i a Ha Hne. destruct (int_true (FLOW_BACK cfg)) eqn:Hfb.
    - destruct (Hon eq_refl i) as (s & r & p & q & Hs & _ & _ & _ & Hflag).
      { rewrite <- Hls. by eapply lookup_lt_Some. }
      exists s. split; [done|]. rewrite Ha in Hflag.
      apply truthy_true. destruct (truthy s); [done|]. cbn in Hflag.
      by simplify_eq.
    - rewrite (Hoff eq_refl) in Ha. by exists a. }
  done.
Qed.

(** ** The forward-backward gate *)

Lemma distance_le_half (p q : Point2f) :
  distance_le p q (1 # 2) = true ↔ (distance_sq p q <= 1 # 4)%Q.
Proof.
  unfold distance_le. rewrite Qle_bool_iff.
  assert ((1 # 2) * (1 # 2) == 1 # 4)%Q as Heq by reflexivity.
  by rewrite Heq.
Qed.

(** C3, as the code has it.  With [FLOW_BACK] set, the propagation stage
    keeps the track at position [i] exactly when the forward pass set its
    flag, the backward pass set its flag, the point mapped back lies within
    0.5 pixel of the point of the previous frame (squared distance at most
    1/4), and the point the forward pass found passes [inBorder]: the border
    loop that follows the reverse check drops a point that passed the three
    tests of the check.  A point mapped back to 1 pixel from the previous
    point is dropped.  The four vectors of the table are compacted by these
    flags. *)
Theorem forward_backward_gate cfg st :
  flow_contract calcOpticalFlowPyrLK → flow_contract cuda_SparsePyrLK →
  length (ids st) = length (prev_pts st) →
  length (track_cnt st) = length (prev_pts st) →
  (0 < length (prev_pts st))%nat →
  int_true (FLOW_BACK cfg) = true →
  let fwd := selected_forward cfg st in
  let rev := selected_lk cfg (cur_img st) (prev_img st) fwd.1 (prev_pts st)
               1 true in
  ∃ status st',
    propagate cfg st = Some st'
    ∧ length status = length (prev_pts st)
    ∧ (∀ i, (i < length (prev_pts st))%nat →
         ∃ s r p q c a,
           fwd.2 !! i = Some s ∧ rev.2 !! i = Some r
           ∧ prev_pts st !! i = Some p ∧ rev.1 !! i = Some q
           ∧ fwd.1 !! i = Some c
           ∧ status !! i = Some a
           ∧ (a = 1 ∨ a = 0)
           ∧ (a = 1 ↔
              s ≠ 0 ∧ r ≠ 0
              ∧ ((pt_x p - pt_x q) * (pt_x p - pt_x q)
                 + (pt_y p - pt_y q) * (pt_y p - pt_y q) <= 1 # 4)%Q
              ∧ inBorder (row st) (col st) c = true)
           ∧ (((pt_x p - pt_x q) * (pt_x p - pt_x q)
               + (pt_y p - pt_y q) * (pt_y p - pt_y q) == 1)%Q → a = 0))
    ∧ cur_pts st' = compact fwd.1 status
    ∧ prev_pts st' = compact (prev_pts st) status
    ∧ ids st' = compact (ids st) status
    ∧ track_cnt st' = compact (track_cnt st) status.
Proof.
  intros H1 H2 Hids Hcnt Hpos Hfb fwd rev.
  destruct (propagate_spec cfg st H1 H2 Hids Hcnt Hpos)
    as (fp & fs & t & st' & Hflow & Hrun & Hlp & _ & Hlt & Ht & Hrest).
  destruct (flow_dispatch_flags cfg st H1 H2)
    as (fs' & Hflow' & Hls & _ & Hon).
  rewrite Hflow in Hflow'. fold fwd in Hflow'. simplify_eq.
  exists t, st'. split; [done|]. split; [done|]. split; [|done].
  intros i Hi.
  destruct (Hon Hfb i Hi) as (s & r & p & q & Hs & Hr & Hp & Hq & Hflag).
  fold fwd in Hs. fold fwd rev in Hr, Hq.
  destruct (lookup_lt_is_Some_2 fwd.1 i) as [c Hc]; [lia|].
  exists s, r, p, q, c. eexists. do 5 (split; [done|]).
  split; [by eapply Ht|].
  pose proof (truthy_true s) as Hts. pose proof (truthy_true r) as Htr.
  pose proof (distance_le_half p q) as Hd.
  unfold distance_sq in Hd. cbn zeta in Hd.
  destruct (truthy s), (truthy r), (distance_le p q (1 # 2)),
    (inBorder (row st) (col st) c); cbn;
    (split; [auto|]);
    (split; [split; [try done; intuition|intros (? & ? & ? & ?);
                     try done; intuition congruence]|]);
    try done.
  all: intros Hone; assert (1 <= 1 # 4)%Q as Hle
         by (rewrite <- Hone; intuition); done.
Qed.

(** ** The border filter *)

(** C1, as the code has it.  After the propagation stage with a previous
    frame, the survivors are the points whose flow flag is set and that pass
    [inBorder]; the four vectors are compacted by one and the same status
    vector, so they stay index-aligned.  [inBorder] tests the rounded
    position: every survivor has [1 <= cvRound x < col - 1] and
    [1 <= cvRound y < row - 1], hence [1/2 <= x < col - 1] and
    [1/2 <= y < row - 1] for the position itself. *)
Theorem propagate_border cfg st :
  flow_contract calcOpticalFlowPyrLK → flow_contract cuda_SparsePyrLK →
  length (ids st) = length (prev_pts st) →
  length (track_cnt st) = length (prev_pts st) →
  (0 < length (prev_pts st))%nat →
  ∃ flow_pts flow_status status st',
    flow_dispatch cfg st = Some (flow_pts, flow_status)
    ∧ propagate cfg st = Some st'
    ∧ length flow_pts = length (prev_pts st)
    ∧ length flow_status = length (prev_pts st)
    ∧ length status = length (prev_pts st)
    ∧ (∀ i s p, flow_status !! i = Some s → flow_pts !! i = Some p →
         status !! i = Some (if truthy s && negb (inBorder (row st) (col st) p)
                             then 0 else s))
    ∧ cur_pts st' = compact flow_pts status
    ∧ prev_pts st' = compact (prev_pts st) status
    ∧ ids st' = compact (ids st) status
    ∧ track_cnt st' = compact (track_cnt st) status
    ∧ Forall (λ p,
        (1 ≤ cvRound (pt_x p) < col st - 1 ∧ 1 ≤ cvRound (pt_y p) < row st - 1)
        ∧ ((1 # 2 <= pt_x p)%Q ∧ (pt_x p < inject_Z (col st - 1))%Q)
        ∧ ((1 # 2 <= pt_y p)%Q ∧ (pt_y p < inject_Z (row st - 1))%Q))
        (cur_pts st').
Proof.
  intros H1 H2 Hids Hcnt Hpos.
  destruct (propagate_spec cfg st H1 H2 Hids Hcnt Hpos)
    as (fp & fs & t & st' & Hflow & Hrun & Hlp & Hls & Hlt & Ht & Hcur & Hrest).
  exists fp, fs, t, st'. do 6 (split; [done|]). split; [done|].
  split; [apply Hrest|]. split; [apply Hrest|]. split; [apply Hrest|].
  rewrite Hcur. apply Forall_forall. intros p Hp.
  apply list_elem_of_lookup in Hp as [k Hk].
  destruct (compact_lookup _ _ _ _ Hk) as (i & s & Hpi & Hsi & Hts & _).
  destruct (lookup_lt_is_Some_2 fs i) as [s0 Hs0].
  { apply lookup_lt_Some in Hpi. lia. }
  rewrite (Ht i s0 p Hs0 Hpi) in Hsi.
  assert (inBorder (row st) (col st) p = true) as Hin.
  { destruct (truthy s0) eqn:Hs0t, (inBorder (row st) (col st) p);
      cbn in Hsi; simplify_eq; try done; try (cbn in Hts; done); congruence. }
  split; [by apply inBorder_true|by apply inBorder_position].
Qed.

(** ** Outlier feedback *)

Lemma outlier_status_map (removePtsIds : gset Z) (l : list Z) :
  outlier_status removePtsIds l
  = map (λ id, if bool_decide (id ∈ removePtsIds) then 0 else 1) l.
Proof.
  unfold outlier_status.
  assert (∀ acc,
    foldl (λ status id,
             status ++ [if bool_decide (id ∈ removePtsIds) then 0 else 1]) acc l
    = acc ++ map (λ id, if bool_decide (id ∈ removePtsIds) then 0 else 1) l)
    as H.
  { induction l as [|id l IH]; intros acc; cbn.
    - by rewrite app_nil_r.
    - by rewrite IH, <- app_assoc. }
  apply H.
Qed.

Lemma compact_zip {A B : Type} (v : list A) (w : list B) (status : list uchar) :
  compact (zip v w) status = zip (compact v status) (compact w status).
Proof.
  revert w status. induction v as [|x v IH]; intros w status; [done|].
  destruct w as [|y w].
  - destruct status as [|s status]; cbn; [done|].
    destruct (truthy s); [done|]. by destruct (compact v status).
  - destruct status as [|s status]; [done|]. cbn.
    destruct (truthy s); cbn; by rewrite IH.
Qed.

(** Compaction by the outlier flags is filtering on the id. *)
Lemma compact_outlier_status {B : Type} (removePtsIds : gset Z) (l : list Z)
    (w : list B) :
  compact (zip l w) (outlier_status removePtsIds l)
  = filter (λ t, t.1 ∉ removePtsIds) (zip l w).
Proof.
  rewrite outlier_status_map.
  revert w. induction l as [|id l IH]; intros [|y w];
    cbn [zip zip_with map compact]; try done.
  - rewrite filter_cons. cbn. rewrite IH.
    destruct (decide (id ∈ removePtsIds)) as [Hin|Hout].
    + rewrite bool_decide_eq_true_2 by done. cbn.
      rewrite decide_False; [done|]. intros Hn. by apply Hn.
    + rewrite bool_decide_eq_false_2 by done. cbn.
      by rewrite decide_True.
Qed.

Lemma compact_outlier_ids (removePtsIds : gset Z) (l : list Z) :
  compact l (outlier_status removePtsIds l) = filter (λ id, id ∉ removePtsIds) l.
Proof.
  rewrite outlier_status_map.
  induction l as [|id l IH]; cbn [map compact]; [done|].
  rewrite filter_cons, <- IH.
  destruct (decide (id ∈ removePtsIds)) as [Hin|Hout].
  - rewrite bool_decide_eq_true_2 by done. cbn.
    rewrite decide_False; [done|]. intros Hn. by apply Hn.
  - rewrite bool_decide_eq_false_2 by done. cbn. by rewrite decide_True.
Qed.

Lemma outlier_status_length (removePtsIds : gset Z) (l : list Z) :
  length (outlier_status removePtsIds l) = length l.
Proof. by rewrite outlier_status_map, length_map. Qed.

(** Members that [removeOutliers] never assigns. *)
Lemma removeOutliers_frame (removePtsIds : gset Z) st st' :
  removeOutliers removePtsIds st = Some st' →
  st' = set_track_cnt (track_cnt st') (set_ids (ids st')
          (set_prev_pts (prev_pts st') st)).
Proof.
  unfold removeOutliers. intros H.
  destruct (reduceVector (prev_pts st) _) as [a|]; [|done]. cbn in H.
  destruct (reduceVector (ids st) _) as [b|]; [|done]. cbn in H.
  destruct (reduceVector (track_cnt st) _) as [c|]; [|done]. cbn in H.
  simplify_eq. by destruct st.
Qed.

(** C4, as the code has it.  On a tracker whose [prev_pts], [ids] and
    [track_cnt] have one length, [removeOutliers] does not fail; it removes
    exactly the entries whose id is in the set from these three vectors,
    which stay index-aligned and keep their order; no other member changes,
    so [cur_pts], [cur_un_pts], [pts_velocity] and the stereo vectors keep
    the removed tracks until the next frame; and when no id of the table is
    in the set the tracker is unchanged. *)
Theorem removeOutliers_spec (removePtsIds : gset Z) st :
  length (prev_pts st) = length (ids st) →
  length (track_cnt st) = length (ids st) →
  ∃ st',
    removeOutliers removePtsIds st = Some st'
    ∧ zip (ids st') (zip (prev_pts st') (track_cnt st'))
      = filter (λ t, t.1 ∉ removePtsIds)
          (zip (ids st) (zip (prev_pts st) (track_cnt st)))
    ∧ ids st' = filter (λ id, id ∉ removePtsIds) (ids st)
    ∧ length (prev_pts st') = length (ids st')
    ∧ length (track_cnt st') = length (ids st')
    ∧ st' = set_track_cnt (track_cnt st') (set_ids (ids st')
              (set_prev_pts (prev_pts st') st))
    ∧ (cur_pts st' = cur_pts st ∧ cur_un_pts st' = cur_un_pts st
       ∧ pts_velocity st' = pts_velocity st ∧ ids_right st' = ids_right st
       ∧ cur_right_pts st' = cur_right_pts st ∧ n_id st' = n_id st)
    ∧ ((∀ id, id ∈ ids st → id ∉ removePtsIds) → st' = st).
Proof.
  intros Hp Hc.
  pose proof (outlier_status_length removePtsIds (ids st)) as Hs.
  eexists. split.
  { unfold removeOutliers. rewrite !reduceVector_spec by lia. cbn. reflexivity. }
  state_simpl. split; [|split; [|split; [|split; [|split; [|split]]]]].
  - rewrite <- !compact_zip. apply compact_outlier_status.
  - apply compact_outlier_ids.
  - by apply compact_length_eq.
  - by apply compact_length_eq.
  - by destruct st.
  - done.
  - intros Hnone.
    assert (Forall (λ s, truthy s = true) (outlier_status removePtsIds (ids st)))
      as Hall.
    { rewrite outlier_status_map. apply Forall_forall. intros s Hin.
      apply list_elem_of_fmap in Hin as (id & -> & Hid).
      rewrite bool_decide_eq_false_2; [done|]. by apply Hnone. }
    rewrite !compact_all by (done || lia). by destruct st.
Qed.

(** ** Velocity *)

(** Away from the divisor 0 the division of doubles is the quotient. *)
Lemma double_div_nonzero (a b : Q) :
  ¬ (b == 0)%Q → double_div a b = (a / b)%Q.
Proof.
  intros Hb. unfold double_div.
  destruct (Qeq_bool b 0) eqn:Heq; [|done].
  apply Qeq_bool_iff in Heq. done.
Qed.

Lemma Qminus_nonzero (a b : Q) : ¬ (a == b)%Q → ¬ (a - b == 0)%Q.
Proof.
  intros Hne Hz. apply Hne.
  apply (Qplus_inj_r a b (- b)). by rewrite Qplus_opp_r.
Qed.

(** At the divisor 0 it is the stand-in for the infinity or NaN. *)
Lemma double_div_by_zero (a b : Q) :
  (b == 0)%Q → double_div a b = double_div_zero a.
Proof.
  intros Hb. unfold double_div.
  destruct (Qeq_bool b 0) eqn:Heq; [done|].
  apply Qeq_bool_neq in Heq. done.
Qed.

Lemma Qminus_zero (a b : Q) : (a == b)%Q → (a - b == 0)%Q.
Proof. intros ->. apply Qplus_opp_r. Qed.

Lemma map_insert_new_is_Some {V : Type} (k : Z) (v : V) (m : gmap Z V) (id : Z) :
  is_Some (map_insert_new k v m !! id) ↔ is_Some (m !! id) ∨ id = k.
Proof.
  unfold map_insert_new. destruct (m !! k) as [w|] eqn:Hk.
  - split; [by left|]. intros [H| ->]; [done|]. by rewrite Hk.
  - destruct (decide (id = k)) as [->|Hne].
    + rewrite lookup_insert_eq. split; [by right|by eexists].
    + rewrite lookup_insert_ne by done. split; [by left|]. by intros [H|H].
Qed.

(** The first loop of [ptsVelocity] records exactly the given ids. *)
Lemma cur_id_loop_spec (l : list Z) (pts : list Point2f) :
  (length l ≤ length pts)%nat →
  ∃ m, for_loop 0 (length l) (cur_id_body l pts) ∅ = Some m
       ∧ ∀ id, is_Some (m !! id) ↔ id ∈ l.
Proof.
  intros Hlen.
  destruct (for_loop_inv
    (λ k (m : gmap Z Point2f), ∀ id, is_Some (m !! id) ↔ id ∈ take k l)
    (cur_id_body l pts) (length l) 0 ∅) as (m & Hrun & Hm).
  - intros id. rewrite lookup_empty, take_0. split.
    + by intros [? ?].
    + by intros ?%elem_of_nil.
  - intros k m Hk Hm.
    destruct (lookup_lt_is_Some_2 l k) as [d Hd]; [lia|].
    destruct (lookup_lt_is_Some_2 pts k) as [p Hp]; [lia|].
    unfold cur_id_body. rewrite Hd, Hp. cbn. eexists. split; [done|].
    intros id. rewrite map_insert_new_is_Some, (take_S_r _ _ d) by done.
    rewrite elem_of_app, list_elem_of_singleton. by rewrite Hm.
  - exists m. split; [done|]. intros id. rewrite Hm.
    by rewrite Nat.add_0_l, firstn_all.
Qed.

Lemma zero_loop_spec (n : nat) :
  for_loop 0 n (λ _ (vel : list Point2f), Some (vel ++ [Point2f_zero])) []
  = Some (replicate n Point2f_zero).
Proof.
  destruct (for_loop_collect
    (λ _ (vel : list Point2f), Some (vel ++ [Point2f_zero]))
    (λ _, Some Point2f_zero) n) as (l & Hrun & Hl & Hlk).
  - done.
  - by eexists.
  - rewrite Hrun. f_equal. apply list_eq. intros i.
    destruct (decide (i < n)%nat) as [Hi|Hi].
    + rewrite Hlk by done. symmetry. by apply lookup_replicate_2.
    + rewrite !lookup_ge_None_2; [done|rewrite length_replicate; lia|lia].
Qed.

(** What [ptsVelocity] returns for vectors of one length. *)
Lemma ptsVelocity_spec st (l : list Z) (pts : list Point2f)
    (prev_id_pts : gmap Z Point2f) :
  length l = length pts →
  ∃ vel m,
    ptsVelocity st l pts prev_id_pts = Some (vel, m)
    ∧ (∀ id, is_Some (m !! id) ↔ id ∈ l)
    ∧ (prev_id_pts = ∅ → vel = replicate (length (cur_pts st)) Point2f_zero)
    ∧ (prev_id_pts ≠ ∅ →
         length vel = length pts
         ∧ ∀ i id p, l !! i = Some id → pts !! i = Some p →
             vel !! i
             = Some (match prev_id_pts !! id with
                     | Some it =>
                         mkPoint2f
                           (double_div (pt_x p - pt_x it)
                              (cur_time st - prev_time st))
                           (double_div (pt_y p - pt_y it)
                              (cur_time st - prev_time st))
                     | None => Point2f_zero
                     end)).
Proof.
  intros Hlen.
  destruct (cur_id_loop_spec l pts) as (m & Hm & Hkeys); [lia|].
  unfold ptsVelocity. rewrite Hm. cbn.
  destruct (Nat.eqb_spec (size prev_id_pts) 0) as [Hz|Hnz]; cbn.
  - apply map_size_empty_iff in Hz. rewrite zero_loop_spec. cbn.
    eexists _, m. split; [done|]. split; [done|]. split; [done|].
    intros Hne. by destruct Hne.
  - destruct (for_loop_collect
      (velocity_body (cur_time st - prev_time st) l pts prev_id_pts)
      (λ i, d ← l !! i;
            match prev_id_pts !! d with
            | Some it =>
                p ← pts !! i;
                Some (mkPoint2f
                        (double_div (pt_x p - pt_x it)
                           (cur_time st - prev_time st))
                        (double_div (pt_y p - pt_y it)
                           (cur_time st - prev_time st)))
            | None => Some Point2f_zero
            end)
      (length pts)) as (vel & Hrun & Hl & Hlk).
    + intros i acc. unfold velocity_body.
      destruct (l !! i) as [d|]; [|done]. cbn.
      destruct (prev_id_pts !! d) as [it|]; [|done].
      by destruct (pts !! i).
    + intros i Hi.
      destruct (lookup_lt_is_Some_2 l i) as [d ->]; [lia|].
      destruct (lookup_lt_is_Some_2 pts i) as [p ->]; [lia|]. cbn.
      destruct (prev_id_pts !! d); by eexists.
    + rewrite Hrun. cbn. exists vel, m. split; [done|]. split; [done|].
      split.
      * intros ->. by rewrite map_size_empty in Hnz.
      * intros _. split; [done|]. intros i id p Hid Hp.
        rewrite Hlk by (by eapply lookup_lt_Some).
        rewrite Hid. cbn. destruct (prev_id_pts !! id); [|done].
        by rewrite Hp.
Qed.

(** ** Coverage mask selection *)

(** The first loop of [setMask] pairs the three vectors up. *)
Lemma build_cnt_pts_id_spec st :
  length (ids st) = length (cur_pts st) →
  length (track_cnt st) = length (cur_pts st) →
  build_cnt_pts_id st = Some (tracks st).
Proof.
  intros Hi Hc. unfold build_cnt_pts_id.
  destruct (for_loop_collect (cnt_pts_id_body st)
    (λ i, c ← track_cnt st !! i; p ← cur_pts st !! i; d ← ids st !! i;
          Some (c, (p, d)))
    (length (cur_pts st))) as (l & Hrun & Hl & Hlk).
  - intros i acc. unfold cnt_pts_id_body.
    destruct (track_cnt st !! i); [|done]. cbn.
    destruct (cur_pts st !! i); [|done]. cbn.
    by destruct (ids st !! i).
  - intros i Hlt.
    destruct (lookup_lt_is_Some_2 (track_cnt st) i) as [c ->]; [lia|].
    destruct (lookup_lt_is_Some_2 (cur_pts st) i) as [p ->]; [lia|].
    destruct (lookup_lt_is_Some_2 (ids st) i) as [d ->]; [lia|].
    by eexists.
  - rewrite Hrun. f_equal. apply list_eq. intros i. unfold tracks.
    rewrite !lookup_zip_with.
    destruct (decide (i < length (cur_pts st))%nat) as [Hlt|Hge].
    + rewrite Hlk by done.
      destruct (track_cnt st !! i); [|done]. cbn.
      destruct (cur_pts st !! i); [|done]. cbn.
      by destruct (ids st !! i).
    + rewrite lookup_ge_None_2 by lia.
      rewrite (lookup_ge_None_2 (track_cnt st)) by lia. done.
Qed.

(** Whatever the first loop returns, its ids are the first
    [cur_pts.size()] ids of the table. *)
Lemma build_cnt_pts_id_ids st (l : list CntPtsId) :
  build_cnt_pts_id st = Some l →
  (λ it : CntPtsId, it.2.2) <$> l = take (length (cur_pts st)) (ids st).
Proof.
  unfold build_cnt_pts_id. intros Hrun.
  apply (for_loop_collect_Some (cnt_pts_id_body st)
    (λ i, c ← track_cnt st !! i; p ← cur_pts st !! i; d ← ids st !! i;
          Some (c, (p, d)))) in Hrun as [Hl Hlk].
  - apply list_eq. intros i. rewrite list_lookup_fmap.
    destruct (decide (i < length (cur_pts st))%nat) as [Hlt|Hge].
    + destruct (Hlk i Hlt) as [Hi [x Hx]]. rewrite Hi, Hx. cbn.
      rewrite lookup_take_lt by done.
      destruct (track_cnt st !! i); [|done]. cbn in Hx.
      destruct (cur_pts st !! i); [|done]. cbn in Hx.
      destruct (ids st !! i); [|done]. cbn in Hx. by simplify_eq.
    + rewrite lookup_ge_None_2 by lia.
      by rewrite lookup_take_ge by lia.
  - intros i acc. unfold cnt_pts_id_body.
    destruct (track_cnt st !! i); [|done]. cbn.
    destruct (cur_pts st !! i); [|done]. cbn.
    by destruct (ids st !! i).
Qed.

(** One visit: a track is retained exactly when the mask is 255 at its
    rounded pixel, and then the disc is drawn. *)
Lemma mask_visit_spec (min_dist : Z) (w : @Walk Mat) (it : CntPtsId) :
  walk_aligned w →
  walk_aligned (mask_visit min_dist w it)
  ∧ walk_entries (mask_visit min_dist w it)
    = walk_entries w
      ++ (if Mat_at w.1 (toPoint2i it.2.1) =? 255 then [it] else [])
  ∧ (mask_visit min_dist w it).1
    = (if Mat_at w.1 (toPoint2i it.2.1) =? 255
       then cv_circle w.1 (toPoint2i it.2.1) min_dist 0 else w.1).
Proof.
  destruct w as [m [[pts idl] cnts]]. destruct it as [c [p d]].
  unfold walk_aligned, walk_entries, mask_visit. cbn. intros [Hp Hi].
  destruct (Mat_at m (toPoint2i p) =? 255); cbn.
  - rewrite !length_app. cbn. split; [lia|]. split; [|done].
    rewrite (zip_with_app pair pts [p] idl [d]) by lia.
    by rewrite zip_with_app by (rewrite length_zip_with; lia).
  - by rewrite app_nil_r.
Qed.

Lemma walk_foldl_spec (min_dist : Z) (l : list CntPtsId) (w : @Walk Mat) :
  walk_aligned w →
  walk_aligned (foldl (mask_visit min_dist) w l)
  ∧ ∃ kept, kept `sublist_of` l
            ∧ walk_entries (foldl (mask_visit min_dist) w l)
              = walk_entries w ++ kept.
Proof.
  revert w. induction l as [|it l IH]; intros w Hw; cbn.
  - split; [done|]. exists []. by rewrite app_nil_r.
  - destruct (mask_visit_spec min_dist w it Hw) as (Hw' & He & _).
    destruct (IH _ Hw') as (Hal & kept & Hsub & Hk).
    split; [done|]. rewrite Hk, He.
    destruct (Mat_at w.1 (toPoint2i it.2.1) =? 255).
    + exists (it :: kept). split; [by apply sublist_skip|].
      by rewrite <- app_assoc.
    + exists kept. split; [by apply sublist_cons|]. by rewrite app_nil_r.
Qed.

(** Taking a zip of three vectors of one length apart again. *)
Lemma unzip_entries (cnts : list Z) (pts : list Point2f) (idl : list Z) :
  length pts = length cnts → length idl = length cnts →
  (λ it : CntPtsId, it.1) <$> zip cnts (zip pts idl) = cnts
  ∧ (λ it : CntPtsId, it.2.1) <$> zip cnts (zip pts idl) = pts
  ∧ (λ it : CntPtsId, it.2.2) <$> zip cnts (zip pts idl) = idl.
Proof.
  revert pts idl. induction cnts as [|c cnts IH]; intros [|p pts] [|d idl] Hp Hi;
    cbn in *; try done.
  destruct (IH pts idl) as (H1 & H2 & H3); [lia|lia|].
  by rewrite H1, H2, H3.
Qed.

Lemma walk_entries_unzip (w : @Walk Mat) :
  walk_aligned w →
  (λ it : CntPtsId, it.1) <$> walk_entries w = w.2.2
  ∧ (λ it : CntPtsId, it.2.1) <$> walk_entries w = w.2.1.1
  ∧ (λ it : CntPtsId, it.2.2) <$> walk_entries w = (w.2.1.2).
Proof.
  destruct w as [m [[pts idl] cnts]]. unfold walk_aligned, walk_entries. cbn.
  intros [Hp Hi]. by apply unzip_entries.
Qed.

Lemma tracks_ids st :
  length (ids st) = length (cur_pts st) →
  length (track_cnt st) = length (cur_pts st) →
  (λ it : CntPtsId, it.2.2) <$> tracks st = ids st.
Proof. intros Hi Hc. unfold tracks. apply unzip_entries; lia. Qed.

(** [setMask] on aligned vectors: it does not fail, the result is the walk
    over the sorted entries, and what it retains is aligned again. *)
Lemma setMask_ok cfg st :
  length (ids st) = length (cur_pts st) →
  length (track_cnt st) = length (cur_pts st) →
  ∃ st',
    setMask cfg st = Some st'
    ∧ (mask st', (cur_pts st', ids st', track_cnt st'))
      = walk cfg st (std_sort cnt_gt (tracks st))
    ∧ st' = set_track_cnt (track_cnt st') (set_ids (ids st')
              (set_cur_pts (cur_pts st') (set_mask (mask st') st)))
    ∧ length (ids st') = length (cur_pts st')
    ∧ length (track_cnt st') = length (cur_pts st')
    ∧ tracks st' `sublist_of` std_sort cnt_gt (tracks st).
Proof.
  intros Hi Hc. unfold setMask. rewrite build_cnt_pts_id_spec by done. cbn.
  eexists. split; [done|]. state_simpl.
  fold (walk cfg st (std_sort cnt_gt (tracks st))).
  set (w := walk cfg st (std_sort cnt_gt (tracks st))).
  destruct (walk_foldl_spec (MIN_DIST cfg) (std_sort cnt_gt (tracks st))
              (Mat_fill (row st) (col st) 255, ([], [], [])))
    as ((Ha1 & Ha2) & kept & Hsub & Hk); [done|].
  fold (walk cfg st (std_sort cnt_gt (tracks st))) in Ha1, Ha2, Hk. fold w in Ha1, Ha2, Hk.
  split; [by destruct w as [m [[a b] c]]|].
  split; [by destruct st|].
  split; [lia|]. split; [lia|].
  unfold tracks. state_simpl. cbn in Hk. by rewrite <- Hk in Hsub.
Qed.

(** The retained ids are ids of the table, each at most as often. *)
Lemma setMask_ids cfg st st' :
  sort_contract std_sort →
  setMask cfg st = Some st' →
  ids st' ⊆+ ids st ∧ n_id st' = n_id st
  ∧ prev_un_pts_map st' = prev_un_pts_map st.
Proof.
  intros Hsort. unfold setMask.
  destruct (build_cnt_pts_id st) as [l|] eqn:Hbuild; [|done]. cbn.
  intros Hst. simplify_eq. state_simpl. split; [|done].
  destruct (walk_foldl_spec (MIN_DIST cfg) (std_sort cnt_gt l)
              (Mat_fill (row st) (col st) 255, ([], [], [])))
    as (Hal & kept & Hsub & Hk); [done|].
  destruct (walk_entries_unzip _ Hal) as (_ & _ & Hids).
  rewrite <- Hids, Hk. cbn.
  transitivity ((λ it : CntPtsId, it.2.2) <$> std_sort cnt_gt l).
  { apply sublist_submseteq. by apply fmap_sublist. }
  destruct (Hsort l) as [Hperm _]. rewrite Hperm.
  rewrite (build_cnt_pts_id_ids st l Hbuild).
  apply sublist_submseteq, sublist_take.
Qed.

Lemma walk_snoc cfg st (l : list CntPtsId) (it : CntPtsId) :
  walk cfg st (l ++ [it]) = mask_visit (MIN_DIST cfg) (walk cfg st l) it.
Proof. unfold walk. by rewrite foldl_app. Qed.

Lemma StronglySorted_weaken {A : Type} (R1 R2 : A → A → Prop) (l : list A) :
  (∀ a b, R1 a b → R2 a b) → StronglySorted R1 l → StronglySorted R2 l.
Proof.
  intros H. induction 1 as [|a l Hl IH Hall]; constructor; [done|].
  eapply Forall_impl; [exact Hall|]. intros b. apply H.
Qed.

Lemma walk_is_aligned cfg st (l : list CntPtsId) : walk_aligned (walk cfg st l).
Proof. unfold walk. by apply walk_foldl_spec. Qed.

(** C2, as the code has it.  [setMask] visits the tracks in the order
    [std::sort] leaves them in: a rearrangement of the tracks in which the
    track count never increases; the order among tracks of equal count is
    whatever [std::sort] produces.  The walk starts from the all-255 mask;
    a visited track is retained exactly when the mask is 255 at its rounded
    pixel, and then a filled circle of radius [MIN_DIST] is drawn in 0
    around it; otherwise mask and retained tracks stay as they are.  The
    tracker ends with the retained tracks, in visiting order, and the
    mask of the walk. *)
Theorem setMask_walk cfg st :
  sort_contract std_sort →
  length (ids st) = length (cur_pts st) →
  length (track_cnt st) = length (cur_pts st) →
  let visited := std_sort cnt_gt (tracks st) in
  ∃ st',
    setMask cfg st = Some st'
    ∧ visited ≡ₚ tracks st
    ∧ StronglySorted (λ a b : CntPtsId, b.1 ≤ a.1) visited
    ∧ walk cfg st [] = (Mat_fill (row st) (col st) 255, ([], [], []))
    ∧ (∀ l1 it l2, visited = l1 ++ it :: l2 →
         let before := walk cfg st l1 in
         let unclaimed := Mat_at before.1 (toPoint2i it.2.1) =? 255 in
         walk_entries (walk cfg st (l1 ++ [it]))
         = walk_entries before ++ (if unclaimed then [it] else [])
         ∧ (walk cfg st (l1 ++ [it])).1
           = (if unclaimed
              then cv_circle before.1 (toPoint2i it.2.1) (MIN_DIST cfg) 0
              else before.1))
    ∧ (mask st', (cur_pts st', ids st', track_cnt st')) = walk cfg st visited
    ∧ tracks st' = walk_entries (walk cfg st visited)
    ∧ tracks st' `sublist_of` visited.
Proof.
  intros Hsort Hi Hc visited.
  destruct (setMask_ok cfg st Hi Hc) as (st' & Hrun & Hw & _ & _ & _ & Hsub).
  destruct (Hsort (tracks st)) as [Hperm Hsorted].
  exists st'. split; [done|]. split; [done|]. split.
  { eapply StronglySorted_weaken; [|exact Hsorted].
    intros a b. unfold cnt_gt. intros H%Z.ltb_ge. done. }
  split; [done|]. split.
  { intros l1 it l2 _. cbn zeta. rewrite walk_snoc.
    destruct (mask_visit_spec (MIN_DIST cfg) (walk cfg st l1) it
                (walk_is_aligned cfg st l1)) as (_ & He & Hm).
    done. }
  split; [done|]. split; [|done].
  fold visited in Hw. rewrite <- Hw. done.
Qed.

(** ** The stages of [trackImage], one by one *)

(** What [reduceVector] returns, whenever it returns. *)
Lemma reduceVector_Some {A : Type} (v r : list A) (status : list uchar) :
  reduceVector v status = Some r →
  r = compact v status ∧ (length v ≤ length status)%nat.
Proof.
  intros H. destruct (decide (length v ≤ length status)%nat) as [Hle|Hgt].
  - rewrite reduceVector_spec in H by done. by simplify_eq.
  - rewrite reduceVector_short in H by lia. done.
Qed.

(** Members that the propagation stage never assigns. *)
Lemma propagate_frame cfg st st' :
  propagate cfg st = Some st' →
  st' = set_track_cnt (track_cnt st') (set_ids (ids st')
          (set_cur_pts (cur_pts st') (set_prev_pts (prev_pts st') st))).
Proof.
  unfold propagate. intros H.
  destruct (0 <? length (prev_pts st))%nat; [|by simplify_eq].
  inv_bind H. by simplify_eq.
Qed.

(** The propagation stage on a tracker whose [cur_pts] was just cleared. *)
Lemma propagate_ok cfg st :
  flow_contract calcOpticalFlowPyrLK → flow_contract cuda_SparsePyrLK →
  length (prev_pts st) = length (ids st) →
  length (track_cnt st) = length (ids st) →
  cur_pts st = [] →
  ∃ st' status,
    propagate cfg st = Some st'
    ∧ ids st' = compact (ids st) status
    ∧ track_cnt st' = compact (track_cnt st) status
    ∧ length (ids st') = length (cur_pts st')
    ∧ length (track_cnt st') = length (cur_pts st')
    ∧ st' = set_track_cnt (track_cnt st') (set_ids (ids st')
              (set_cur_pts (cur_pts st') (set_prev_pts (prev_pts st') st))).
Proof.
  intros H1 H2 Hp Hc Hcur.
  destruct (decide (0 < length (prev_pts st))%nat) as [Hpos|Hzero].
  - destruct (propagate_spec cfg st H1 H2) as
      (fp & fs & status & st' & _ & Hrun & Hlp & _ & Hls & _ & Hcp & Hpp
       & Hids & Hcnt); [lia..|].
    exists st', status. split; [done|]. split; [done|]. split; [done|].
    rewrite Hids, Hcnt, Hcp.
    split; [apply compact_length_eq; lia|].
    split; [apply compact_length_eq; lia|].
    rewrite <- Hids, <- Hcnt, <- Hcp. by apply (propagate_frame cfg).
  - assert (ids st = []) as Ei by (apply nil_length_inv; lia).
    assert (track_cnt st = []) as Ec by (apply nil_length_inv; lia).
    exists st, []. split.
    { unfold propagate.
      by assert ((0 <? length (prev_pts st))%nat = false) as ->
        by (apply Nat.ltb_ge; lia). }
    rewrite !compact_nil_r.
    split; [done|]. split; [done|].
    split; [by rewrite Ei, Hcur|]. split; [by rewrite Ec, Hcur|]. done.
Qed.

(** Ageing. *)
Lemma mapM_int_incr (l : list Z) :
  Forall (λ c, c < INT_MAX) l → mapM int_incr l = Some ((λ c, c + 1) <$> l).
Proof.
  induction 1 as [|c l Hc Hl IH]; [done|]. cbn -[int_incr].
  rewrite IH. unfold int_incr. apply Z.ltb_lt in Hc. by rewrite Hc.
Qed.

Lemma age_tracks_ok st :
  Forall (λ c, c < INT_MAX) (track_cnt st) →
  age_tracks st = Some (set_track_cnt ((λ c, c + 1) <$> track_cnt st) st).
Proof. intros H. unfold age_tracks. by rewrite mapM_int_incr. Qed.

(** Both detector chains test a flag and its negation first; a detector
    returns no more corners than asked for. *)
Lemma detect_arms cfg st :
  detect cfg st
  = set_n_pts
      (if 0 <? MAX_CNT cfg - Z.of_nat (length (cur_pts st)) then
         (if negb (int_true (USE_GPU cfg)) then goodFeaturesToTrack
          else cuda_GoodFeaturesToTrack)
           (cur_img st) (MAX_CNT cfg - Z.of_nat (length (cur_pts st)))
           (MIN_DIST cfg) (mask st)
       else []) st.
Proof.
  unfold detect. destruct (int_true (USE_GPU cfg)); cbn.
  - destruct (0 <? _); [|done]. by destruct (cuda_GoodFeaturesToTrack _ _ _ _).
  - by destruct (0 <? _).
Qed.

Lemma detect_length cfg st :
  detector_contract goodFeaturesToTrack →
  detector_contract cuda_GoodFeaturesToTrack →
  Z.of_nat (length (cur_pts st)) + Z.of_nat (length (n_pts (detect cfg st)))
  ≤ Z.max (MAX_CNT cfg) (Z.of_nat (length (cur_pts st))).
Proof.
  intros Hd1 Hd2. rewrite detect_arms. state_simpl.
  destruct (Z.ltb_spec 0 (MAX_CNT cfg - Z.of_nat (length (cur_pts st))))
    as [Hpos|Hneg]; [|cbn; lia].
  destruct (negb (int_true (USE_GPU cfg))).
  - specialize (Hd1 (cur_img st) _ (MIN_DIST cfg) (mask st) Hpos). lia.
  - specialize (Hd2 (cur_img st) _ (MIN_DIST cfg) (mask st) Hpos). lia.
Qed.

(** Track creation: the new tracks take the ids from the counter on. *)
Lemma addPoints_loop_Some (l : list Point2f) st st' :
  for_each addPoints_body l st = Some st' →
  st' = set_n_id (n_id st + Z.of_nat (length l))
          (set_track_cnt (track_cnt st ++ replicate (length l) 1)
            (set_ids (ids st ++ seqZ (n_id st) (Z.of_nat (length l)))
              (set_cur_pts (cur_pts st ++ l) st)))
  ∧ n_id st + Z.of_nat (length l) ≤ Z.max INT_MAX (n_id st).
Proof.
  revert st. induction l as [|p l IH]; intros st Hrun.
  - cbn in Hrun. simplify_eq. cbn [length replicate].
    change (Z.of_nat 0) with 0. rewrite seqZ_nil by lia.
    rewrite !app_nil_r, Z.add_0_r. split; [done|lia].
  - cbn [for_each] in Hrun.
    destruct (addPoints_body p st) as [st1|] eqn:Hb;
      cbn [mbind option_bind] in Hrun; [|done].
    unfold addPoints_body, int_incr in Hb.
    destruct (Z.ltb_spec (n_id st) INT_MAX) as [Hlt|Hge];
      cbn [mbind option_bind] in Hb; [|done].
    injection Hb as <-.
    apply IH in Hrun as [-> Hle]. state_simpl in Hle.
    split; [|cbn [length]; lia].
    cbn [length replicate].
    rewrite (seqZ_cons (n_id st)) by lia.
    state_eq; try lia; rewrite <- ?app_assoc; cbn [app]; repeat f_equal; lia.
Qed.

Lemma addPoints_loop_ok (l : list Point2f) st :
  n_id st + Z.of_nat (length l) ≤ INT_MAX →
  is_Some (for_each addPoints_body l st).
Proof.
  revert st. induction l as [|p l IH]; intros st Hle; [by eexists|].
  cbn [for_each]. cbn [length] in Hle.
  assert (addPoints_body p st
          = Some (set_n_id (n_id st + 1) (set_track_cnt (track_cnt st ++ [1])
                   (set_ids (ids st ++ [n_id st])
                     (set_cur_pts (cur_pts st ++ [p]) st))))) as ->.
  { unfold addPoints_body, int_incr.
    destruct (Z.ltb_spec (n_id st) INT_MAX) as [Hlt|Hge]; [done|lia]. }
  cbn [mbind option_bind]. apply IH. state_simpl. lia.
Qed.

Lemma addPoints_ok st :
  n_id st + Z.of_nat (length (n_pts st)) ≤ INT_MAX →
  addPoints st
  = Some (set_n_id (n_id st + Z.of_nat (length (n_pts st)))
           (set_track_cnt (track_cnt st ++ replicate (length (n_pts st)) 1)
             (set_ids (ids st
                       ++ seqZ (n_id st) (Z.of_nat (length (n_pts st))))
               (set_cur_pts (cur_pts st ++ n_pts st) st)))).
Proof.
  intros Hle. unfold addPoints.
  destruct (addPoints_loop_ok (n_pts st) st Hle) as [st' Hrun].
  rewrite Hrun. f_equal. by apply addPoints_loop_Some.
Qed.

(** A velocity is the finite difference against the previous map, and zero
    for an id the previous map does not have; this also covers the empty
    previous map. *)
Lemma ptsVelocity_lookup st (l : list Z) (pts vel : list Point2f)
    (prev_id_pts m : gmap Z Point2f) :
  length l = length pts →
  (length pts ≤ length (cur_pts st))%nat →
  ptsVelocity st l pts prev_id_pts = Some (vel, m) →
  (length pts ≤ length vel)%nat
  ∧ ∀ i id p, l !! i = Some id → pts !! i = Some p →
      vel !! i
      = Some (match prev_id_pts !! id with
              | Some it =>
                  mkPoint2f
                    (double_div (pt_x p - pt_x it)
                       (cur_time st - prev_time st))
                    (double_div (pt_y p - pt_y it)
                       (cur_time st - prev_time st))
              | None => Point2f_zero
              end).
Proof.
  intros Hlen Hcur Hrun.
  destruct (ptsVelocity_spec st l pts prev_id_pts Hlen)
    as (vel' & m' & Hrun' & _ & Hempty & Hfull).
  rewrite Hrun in Hrun'. simplify_eq.
  destruct (decide (prev_id_pts = ∅)) as [->|Hne].
  - rewrite (Hempty eq_refl), length_replicate. split; [done|].
    intros i id p Hid Hp. rewrite lookup_empty.
    apply lookup_replicate_2. apply lookup_lt_Some in Hp. lia.
  - destruct (Hfull Hne) as [Hl Hv]. split; [lia|done].
Qed.

Lemma undistortedPts_length (pts : list Point2f) (cam : Camera) :
  length (undistortedPts pts cam) = length pts.
Proof. unfold undistortedPts. apply length_map. Qed.

(** The velocity stage of the left camera. *)
Lemma left_velocity_ok st :
  calibrated st →
  length (ids st) = length (cur_pts st) →
  ∃ st',
    left_velocity st = Some st'
    ∧ st' = set_pts_velocity (pts_velocity st')
              (set_cur_un_pts_map (cur_un_pts_map st')
                (set_cur_un_pts (cur_un_pts st') st))
    ∧ length (cur_un_pts st') = length (cur_pts st)
    ∧ (length (cur_pts st) ≤ length (pts_velocity st'))%nat
    ∧ (∀ id, is_Some (cur_un_pts_map st' !! id) ↔ id ∈ ids st)
    ∧ ∀ i id p, ids st !! i = Some id → cur_un_pts st' !! i = Some p →
        pts_velocity st' !! i
        = Some (match prev_un_pts_map st !! id with
                | Some it =>
                    mkPoint2f
                      (double_div (pt_x p - pt_x it)
                         (cur_time st - prev_time st))
                      (double_div (pt_y p - pt_y it)
                         (cur_time st - prev_time st))
                | None => Point2f_zero
                end).
Proof.
  intros [Hcam _] Hids. unfold left_velocity.
  destruct (lookup_lt_is_Some_2 (m_camera st) 0) as [cam0 Hcam0]; [lia|].
  rewrite Hcam0. cbn. state_simpl.
  set (st1 := set_cur_un_pts (undistortedPts (cur_pts st) cam0) st).
  pose proof (undistortedPts_length (cur_pts st) cam0) as Hun.
  destruct (ptsVelocity_spec st1 (ids st) (undistortedPts (cur_pts st) cam0)
              (prev_un_pts_map st)) as (vel & m & Hrun & Hkeys & _); [lia|].
  rewrite Hrun. cbn. eexists. split; [done|].
  destruct (ptsVelocity_lookup st1 (ids st) (undistortedPts (cur_pts st) cam0)
              vel (prev_un_pts_map st) m) as [Hlv Hv];
    [lia|subst st1; state_simpl; lia|done|].
  subst st1. state_simpl.
  split; [by state_eq|]. split; [done|]. split; [lia|]. split; [done|].
  done.
Qed.

(** ** The stereo stage *)

(** The left-right check keeps the length of the status vector. *)
Lemma stereo_check_length (row col : Z) (statusRightLeft status : list uchar)
    (right left reverseLeftPts : list Point2f) :
  length statusRightLeft = length status →
  length right = length status →
  length left = length status →
  length reverseLeftPts = length status →
  ∃ t, for_loop 0 (length status)
         (stereo_body row col statusRightLeft right left reverseLeftPts) status
       = Some t
       ∧ length t = length status.
Proof.
  intros Hr Hp Hl Hq.
  destruct (for_loop_pointwise
    (stereo_body row col statusRightLeft right left reverseLeftPts)
    (λ i s, if truthy s then
              r ← statusRightLeft !! i;
              if truthy r then
                pr ← right !! i;
                if inBorder row col pr then
                  p ← left !! i; q ← reverseLeftPts !! i;
                  Some (if distance_le p q (1 # 2) then 1 else 0)
                else Some 0
              else Some 0
            else Some 0)
    (length status) status) as (t & Hrun & Hlt & _).
  - intros i t s Hs. unfold stereo_body. rewrite Hs. cbn.
    destruct (truthy s); [|done].
    destruct (statusRightLeft !! i) as [r|]; [|done]. cbn.
    destruct (truthy r); [|done].
    destruct (right !! i) as [pr|]; [|done]. cbn.
    destruct (inBorder row col pr); [|done].
    destruct (left !! i) as [p|]; [|done]. cbn.
    by destruct (reverseLeftPts !! i) as [q|].
  - done.
  - intros i s Hi Hs.
    destruct (lookup_lt_is_Some_2 statusRightLeft i) as [r ->]; [lia|].
    destruct (lookup_lt_is_Some_2 right i) as [pr ->]; [lia|].
    destruct (lookup_lt_is_Some_2 left i) as [p ->]; [lia|].
    destruct (lookup_lt_is_Some_2 reverseLeftPts i) as [q ->]; [lia|].
    cbn. destruct (truthy s), (truthy r), (inBorder row col pr); by eexists.
  - by exists t.
Qed.

Lemma stereo_flow_ok cfg (rightImg : Mat) st :
  flow_contract calcOpticalFlowPyrLK → flow_contract cuda_SparsePyrLK →
  ∃ right status,
    stereo_flow cfg rightImg st = Some (right, status)
    ∧ length right = length (cur_pts st)
    ∧ length status = length (cur_pts st).
Proof.
  intros H1 H2. unfold stereo_flow.
  set (lk := if negb (int_true (USE_GPU_ACC_FLOW cfg))
             then calcOpticalFlowPyrLK else cuda_SparsePyrLK).
  assert (flow_contract lk) as Hlk by (subst lk; by destruct (negb _)).
  cbn zeta.
  destruct (Hlk (cur_img st) rightImg (cur_pts st) (cur_right_pts st) 3 false)
    as [Hf1 Hf2].
  set (fwd := lk (cur_img st) rightImg (cur_pts st) (cur_right_pts st) 3 false)
    in *.
  destruct (int_true (FLOW_BACK cfg)).
  - destruct (Hlk rightImg (cur_img st) fwd.1 [] 3 false) as [Hr1 Hr2].
    destruct (stereo_check_length (row st) (col st)
                (lk rightImg (cur_img st) fwd.1 [] 3 false).2 fwd.2 fwd.1
                (cur_pts st)
                (lk rightImg (cur_img st) fwd.1 [] 3 false).1)
      as (t & Hrun & Hlt); [lia..|].
    rewrite Hrun. cbn. exists fwd.1, t. split; [done|]. split; lia.
  - exists fwd.1, fwd.2. split; [by destruct fwd|]. done.
Qed.

(** The stereo stage does not fail; it assigns only the members of the
    right camera; and when it runs, the ids it keeps are ids of the table
    selected by a status vector, with one right point and at least one
    velocity entry each. *)
Lemma stereo_stage_ok cfg (_img1 : Mat) st :
  flow_contract calcOpticalFlowPyrLK → flow_contract cuda_SparsePyrLK →
  calibrated st →
  length (ids st) = length (cur_pts st) →
  ∃ st',
    stereo_stage cfg _img1 st = Some st'
    ∧ st' = set_prev_un_right_pts_map (prev_un_right_pts_map st')
              (set_cur_un_right_pts_map (cur_un_right_pts_map st')
                (set_right_pts_velocity (right_pts_velocity st')
                  (set_cur_un_right_pts (cur_un_right_pts st')
                    (set_cur_right_pts (cur_right_pts st')
                      (set_ids_right (ids_right st') st)))))
    ∧ (negb (Mat_empty _img1) && stereo_cam st = true →
         (∃ status, ids_right st' = compact (ids st) status)
         ∧ length (cur_right_pts st') = length (ids_right st')
         ∧ length (cur_un_right_pts st') = length (ids_right st')
         ∧ (length (ids_right st') ≤ length (right_pts_velocity st'))%nat
         ∧ (prev_un_right_pts_map st = ∅ →
              right_pts_velocity st'
              = replicate (length (cur_pts st)) Point2f_zero)).
Proof.
  intros H1 H2 [Hcam0 Hcam1] Hids. unfold stereo_stage.
  destruct (negb (Mat_empty _img1) && stereo_cam st) eqn:Hactive.
  2: { exists st. split; [done|]. split; [by destruct st|done]. }
  apply andb_prop in Hactive as [_ Hstereo].
  state_simpl.
  destruct (Nat.eqb_spec (length (cur_pts st)) 0) as [Hz|Hnz]; cbn.
  - eexists. split; [done|]. state_simpl. split; [by destruct st|].
    intros _. split; [exists []; by rewrite compact_nil_r|].
    split; [done|]. split; [done|]. split; [done|].
    intros _. by rewrite Hz.
  - set (st1 := set_cur_un_right_pts_map ∅ (set_right_pts_velocity []
                  (set_cur_un_right_pts [] (set_cur_right_pts []
                    (set_ids_right [] st))))).
    destruct (stereo_flow_ok cfg _img1 st1 H1 H2)
      as (right & status & Hflow & Hlr & Hls).
    subst st1. state_simpl in Hlr. state_simpl in Hls.
    rewrite Hflow. cbn.
    rewrite !reduceVector_spec by lia. cbn.
    destruct (lookup_lt_is_Some_2 (m_camera st) 1) as [cam1 Hc1];
      [by apply Hcam1|].
    rewrite Hc1. cbn.
    pose proof (undistortedPts_length (compact right status) cam1) as Hun.
    pose proof (compact_length_eq right (ids st) status ltac:(lia)) as Hce.
    match goal with
    | |- context [ptsVelocity ?s ?l ?p ?m] =>
        destruct (ptsVelocity_spec s l p m)
          as (vel & mp & Hrun & _ & Hempty & _); [lia|];
        destruct (ptsVelocity_lookup s l p vel m mp) as [Hlv _];
          [lia| |done|]
    end.
    { state_simpl. rewrite Hun, Hce, <- Hids. apply compact_length_le. }
    rewrite Hrun. cbn. eexists. split; [done|]. state_simpl.
    split; [by destruct st|]. intros _.
    split; [by eexists|]. split; [done|]. split; [lia|]. split; [lia|].
    state_simpl in Hempty. done.
Qed.

(** ** Rolling forward and the report *)

Lemma roll_forward_ok st :
  (length (cur_pts st) ≤ length (ids st))%nat →
  ∃ st',
    roll_forward st = Some st'
    ∧ st' = set_prevLeftPtsMap (prevLeftPtsMap st')
              (set_hasPrediction false (set_prev_time (cur_time st)
                (set_prev_un_pts_map (cur_un_pts_map st)
                  (set_prev_un_pts (cur_un_pts st)
                    (set_prev_pts (cur_pts st)
                      (set_prev_img (cur_img st) st)))))).
Proof.
  intros Hlen. unfold roll_forward. state_simpl.
  match goal with
  | |- context [for_loop 0 ?n ?body ∅] =>
      destruct (for_loop_inv (λ _ (_ : gmap Z Point2f), True) body n 0 ∅)
        as (m & Hrun & _)
  end.
  - done.
  - intros i m Hi _. unfold prev_left_body. state_simpl.
    destruct (lookup_lt_is_Some_2 (ids st) i) as [d ->]; [lia|].
    destruct (lookup_lt_is_Some_2 (cur_pts st) i) as [p ->]; [lia|].
    by eexists.
  - rewrite Hrun. cbn. eexists. split; [done|]. by state_eq.
Qed.

Lemma frame_emplace_elem_of (feature_id id : Z) (x o : Observation)
    (ff : FeatureFrame) :
  o ∈ default [] (frame_emplace feature_id x ff !! id)
  ↔ o ∈ default [] (ff !! id) ∨ (id = feature_id ∧ o = x).
Proof.
  unfold frame_emplace. destruct (decide (id = feature_id)) as [->|Hne].
  - rewrite lookup_insert_eq. cbn. rewrite elem_of_app, list_elem_of_singleton.
    naive_solver.
  - rewrite lookup_insert_ne by done. naive_solver.
Qed.

(** One report loop adds, for every position of the id vector, the
    observation assembled from the three vectors at that position. *)
Lemma report_loop_spec (camera_id : Z) (l : list Z) (un pts vel : list Point2f)
    (ff0 : FeatureFrame) :
  (length l ≤ length un)%nat →
  (length l ≤ length pts)%nat →
  (length l ≤ length vel)%nat →
  ∃ ff,
    for_loop 0 (length l) (report_body camera_id l un pts vel) ff0 = Some ff
    ∧ ∀ id o,
        o ∈ default [] (ff !! id)
        ↔ o ∈ default [] (ff0 !! id)
          ∨ ∃ i u p v, l !! i = Some id ∧ un !! i = Some u
                       ∧ pts !! i = Some p ∧ vel !! i = Some v
                       ∧ o = (camera_id, xyz_uv_velocity u p v).
Proof.
  intros Hu Hp Hv.
  destruct (for_loop_inv
    (λ k (ff : FeatureFrame),
       ∀ id o,
         o ∈ default [] (ff !! id)
         ↔ o ∈ default [] (ff0 !! id)
           ∨ ∃ i u p v, (i < k)%nat ∧ l !! i = Some id ∧ un !! i = Some u
                        ∧ pts !! i = Some p ∧ vel !! i = Some v
                        ∧ o = (camera_id, xyz_uv_velocity u p v))
    (report_body camera_id l un pts vel) (length l) 0 ff0)
    as (ff & Hrun & Hff).
  - intros id o. split; [by left|].
    intros [H|(i & ? & ? & ? & Hi & _)]; [done|lia].
  - intros k ff Hk Hff. unfold report_body.
    destruct (lookup_lt_is_Some_2 l k) as [d Hd]; [lia|].
    destruct (lookup_lt_is_Some_2 un k) as [u Hu']; [lia|].
    destruct (lookup_lt_is_Some_2 pts k) as [p Hp']; [lia|].
    destruct (lookup_lt_is_Some_2 vel k) as [v Hv']; [lia|].
    rewrite Hd, Hu', Hp', Hv'. cbn. eexists. split; [done|].
    intros id o. rewrite frame_emplace_elem_of, Hff. split.
    + intros [[H|(i & u' & p' & v' & Hi & H)]|[-> ->]].
      * by left.
      * right. exists i, u', p', v'. split; [lia|done].
      * right. exists k, u, p, v. split; [lia|done].
    + intros [H|(i & u' & p' & v' & Hi & Hl & Hu'' & Hp'' & Hv'' & ->)].
      * by left; left.
      * destruct (decide (i = k)) as [->|Hne].
        -- right. by simplify_eq.
        -- left. right. exists i, u', p', v'. split; [lia|done].
  - exists ff. split; [done|]. intros id o. rewrite Hff. split.
    + intros [H|(i & u & p & v & _ & H)]; [by left|right; by exists i, u, p, v].
    + intros [H|(i & u & p & v & Hl & H)]; [by left|].
      right. exists i, u, p, v. split; [|done].
      apply lookup_lt_Some in Hl. lia.
Qed.

(** The report: one observation of camera 0 per track, and with an active
    stereo stage one observation of camera 1 per right-camera id. *)
Lemma report_ok (_img1 : Mat) st :
  (length (ids st) ≤ length (cur_un_pts st))%nat →
  (length (ids st) ≤ length (cur_pts st))%nat →
  (length (ids st) ≤ length (pts_velocity st))%nat →
  (negb (Mat_empty _img1) && stereo_cam st = true →
     (length (ids_right st) ≤ length (cur_un_right_pts st))%nat
     ∧ (length (ids_right st) ≤ length (cur_right_pts st))%nat
     ∧ (length (ids_right st) ≤ length (right_pts_velocity st))%nat) →
  ∃ ff,
    report _img1 st = Some ff
    ∧ ∀ id o,
        o ∈ default [] (ff !! id)
        ↔ (∃ i u p v, ids st !! i = Some id ∧ cur_un_pts st !! i = Some u
                      ∧ cur_pts st !! i = Some p
                      ∧ pts_velocity st !! i = Some v
                      ∧ o = (0, xyz_uv_velocity u p v))
          ∨ (negb (Mat_empty _img1) && stereo_cam st = true
             ∧ ∃ i u p v, ids_right st !! i = Some id
                          ∧ cur_un_right_pts st !! i = Some u
                          ∧ cur_right_pts st !! i = Some p
                          ∧ right_pts_velocity st !! i = Some v
                          ∧ o = (1, xyz_uv_velocity u p v)).
Proof.
  intros Hu Hp Hv Hright. unfold report.
  destruct (report_loop_spec 0 (ids st) (cur_un_pts st) (cur_pts st)
              (pts_velocity st) ∅ Hu Hp Hv) as (ff0 & Hrun0 & Hff0).
  rewrite Hrun0. cbn.
  destruct (negb (Mat_empty _img1) && stereo_cam st) eqn:Hactive.
  - destruct (Hright eq_refl) as (Hru & Hrp & Hrv).
    destruct (report_loop_spec 1 (ids_right st) (cur_un_right_pts st)
                (cur_right_pts st) (right_pts_velocity st) ff0 Hru Hrp Hrv)
      as (ff & Hrun & Hff).
    exists ff. split; [done|]. intros id o. rewrite Hff, Hff0.
    rewrite lookup_empty. cbn. rewrite elem_of_nil. naive_solver.
  - exists ff0. split; [done|]. intros id o. rewrite Hff0.
    rewrite lookup_empty. cbn. rewrite elem_of_nil. naive_solver.
Qed.

(** ** The frame pipeline *)

Lemma compact_Forall {A : Type} (P : A → Prop) (v : list A) (status : list uchar) :
  Forall P v → Forall P (compact v status).
Proof.
  intros H. revert status.
  induction H as [|x v Hx Hv IH]; intros [|s status]; cbn; try done.
  destruct (truthy s); [by constructor|done].
Qed.

Lemma submseteq_NoDup_l {A : Type} (l k : list A) :
  l ⊆+ k → NoDup k → NoDup l.
Proof.
  intros (k' & Hperm)%submseteq_Permutation Hk. rewrite Hperm in Hk.
  by apply NoDup_app in Hk as (? & _ & _).
Qed.

(** The left-camera part of [trackImage]: under the invariant, with
    cameras, contracts and room below [INT_MAX], it does not fail; the
    tracks that remain keep their ids, the new tracks take the ids from the
    counter on, all per-track vectors of the left camera have one length,
    and a velocity is the finite difference against the previous map, zero
    for an id the previous map does not have. *)
Lemma track_left_ok cfg (_cur_time : Q) (_img : Mat) st :
  flow_contract calcOpticalFlowPyrLK → flow_contract cuda_SparsePyrLK →
  detector_contract goodFeaturesToTrack →
  detector_contract cuda_GoodFeaturesToTrack →
  sort_contract std_sort →
  tracker_inv st → calibrated st →
  Forall (λ c, c < INT_MAX) (track_cnt st) →
  n_id st + Z.max (MAX_CNT cfg) 0 ≤ INT_MAX →
  ∃ st5 kept,
    track_left cfg _cur_time _img st = Some st5
    ∧ kept ⊆+ ids st
    ∧ ids st5 = kept ++ seqZ (n_id st) (n_id st5 - n_id st)
    ∧ n_id st ≤ n_id st5
    ∧ length (cur_pts st5) = length (ids st5)
    ∧ length (track_cnt st5) = length (ids st5)
    ∧ length (cur_un_pts st5) = length (ids st5)
    ∧ (length (ids st5) ≤ length (pts_velocity st5))%nat
    ∧ (∀ id, is_Some (cur_un_pts_map st5 !! id) ↔ id ∈ ids st5)
    ∧ (∀ i id p, ids st5 !! i = Some id → cur_un_pts st5 !! i = Some p →
         pts_velocity st5 !! i
         = Some (match prev_un_pts_map st !! id with
                 | Some it =>
                     mkPoint2f
                       (double_div (pt_x p - pt_x it)
                          (_cur_time - prev_time st))
                       (double_div (pt_y p - pt_y it)
                          (_cur_time - prev_time st))
                 | None => Point2f_zero
                 end))
    ∧ m_camera st5 = m_camera st ∧ stereo_cam st5 = stereo_cam st
    ∧ prev_un_right_pts_map st5 = prev_un_right_pts_map st.
Proof.
  intros Hf1 Hf2 Hd1 Hd2 Hsort (Hip & Hic & Hnd & Hlt & Hmap) Hcal Hcnt Hroom.
  unfold track_left.
  (* propagation *)
  destruct (propagate_ok cfg (begin_frame _cur_time _img st) Hf1 Hf2)
    as (st1 & status & Hrun1 & Hids1 & Hcnt1 & Hl1 & Hl1' & Heq1);
    [done..|].
  unfold begin_frame in Hids1, Hcnt1, Heq1. state_simpl in Hids1.
  state_simpl in Hcnt1. rewrite Hrun1. cbn [mbind option_bind].
  (* ageing *)
  rewrite (age_tracks_ok st1)
    by (rewrite Hcnt1; by apply compact_Forall).
  cbn [mbind option_bind].
  (* coverage mask *)
  destruct (setMask_ok cfg
              (set_track_cnt ((λ c : Z, c + 1) <$> track_cnt st1) st1))
    as (st3 & Hrun3 & _ & Heq3 & Hl3 & Hl3' & _).
  { by state_simpl. }
  { state_simpl. by rewrite length_fmap. }
  destruct (setMask_ids _ _ _ Hsort Hrun3) as (Hids3 & Hn3 & _).
  state_simpl in Hids3. state_simpl in Hn3.
  rewrite Hrun3. cbn [mbind option_bind].
  (* detection and creation *)
  pose proof (detect_length cfg st3 Hd1 Hd2) as Hdet.
  assert (n_id st3 = n_id st) as Hn3'.
  { rewrite Hn3, Heq1. by state_simpl. }
  rewrite detect_arms in *. state_simpl in Hdet.
  match type of Hdet with
  | context [length (if ?c then ?a else ?b)] =>
      remember (if c then a else b) as new_pts eqn:Hnew
  end.
  rewrite addPoints_ok by (state_simpl; lia).
  cbn [mbind option_bind]. state_simpl.
  (* velocity *)
  match goal with
  | |- context [left_velocity ?s] =>
      destruct (left_velocity_ok s)
        as (st5 & Hrun5 & Heq5 & Hl5 & Hl5' & Hkeys5 & Hvel5)
  end.
  { destruct Hcal as [Hc0 Hc1]. unfold calibrated. state_simpl.
    rewrite Heq3. state_simpl. rewrite Heq1. by state_simpl. }
  { state_simpl. rewrite !length_app, length_seqZ, Nat2Z.id. lia. }
  state_simpl in Hl5. state_simpl in Hl5'. state_simpl in Hkeys5.
  state_simpl in Hvel5.
  rewrite Hrun5. exists st5, (ids st3). split; [done|].
  assert (ids st5 = ids st3 ++ seqZ (n_id st3) (n_id st5 - n_id st3)
          ∧ n_id st3 ≤ n_id st5) as [Hids5 Hn5].
  { rewrite Heq5. state_simpl. split; [|lia]. do 2 f_equal. lia. }
  split.
  { etransitivity; [exact Hids3|]. rewrite Hids1.
    apply sublist_submseteq, compact_sublist. }
  rewrite <- Hn3'. split; [done|]. split; [done|].
  assert (length (cur_pts st5) = length (ids st5)
          ∧ length (track_cnt st5) = length (ids st5)) as [Hlc5 Hlt5].
  { rewrite Heq5. state_simpl.
    rewrite !length_app, length_seqZ, Nat2Z.id, length_replicate. lia. }
  split; [done|]. split; [done|].
  assert (length (cur_pts st3 ++ new_pts) = length (ids st5)) as Hlen5.
  { rewrite <- Hlc5, Heq5. by state_simpl. }
  split; [lia|]. split; [lia|].
  split. { intros id. rewrite Hkeys5. rewrite Heq5. by state_simpl. }
  split.
  { intros i id p Hi Hp. rewrite Heq5 in Hi. state_simpl in Hi.
    rewrite (Hvel5 i id p Hi Hp).
    rewrite Heq3. state_simpl. rewrite Heq1. by state_simpl. }
  rewrite Heq5. state_simpl. rewrite Heq3. state_simpl. rewrite Heq1.
  by state_simpl.
Qed.

(** [trackImage] as a whole.  Under the invariant, with cameras, contracts
    and room below [INT_MAX], every stage succeeds; the invariant holds
    again afterwards; the stereo stage and the roll-forward leave the
    left-camera members alone; and the report holds exactly one camera-0
    observation per position of [ids] and, with an active stereo stage, one
    camera-1 observation per position of [ids_right]. *)
Lemma trackImage_ok cfg (_cur_time : Q) (_img _img1 : Mat) st :
  flow_contract calcOpticalFlowPyrLK → flow_contract cuda_SparsePyrLK →
  detector_contract goodFeaturesToTrack →
  detector_contract cuda_GoodFeaturesToTrack →
  sort_contract std_sort →
  tracker_inv st → calibrated st →
  Forall (λ c, c < INT_MAX) (track_cnt st) →
  n_id st + Z.max (MAX_CNT cfg) 0 ≤ INT_MAX →
  ∃ st5 st6 st7 ff kept,
    track_left cfg _cur_time _img st = Some st5
    ∧ stereo_stage cfg _img1 st5 = Some st6
    ∧ roll_forward st6 = Some st7
    ∧ report _img1 st7 = Some ff
    ∧ trackImage cfg _cur_time _img _img1 st = Some (st7, ff)
    ∧ tracker_inv st7 ∧ calibrated st7
    ∧ kept ⊆+ ids st
    ∧ ids st7 = kept ++ seqZ (n_id st) (n_id st7 - n_id st)
    ∧ n_id st ≤ n_id st7
    ∧ (ids st6 = ids st5 ∧ track_cnt st6 = track_cnt st5
       ∧ cur_pts st6 = cur_pts st5 ∧ cur_un_pts st6 = cur_un_pts st5
       ∧ pts_velocity st6 = pts_velocity st5 ∧ n_id st6 = n_id st5)
    ∧ (ids st7 = ids st5 ∧ track_cnt st7 = track_cnt st5
       ∧ cur_pts st7 = cur_pts st5 ∧ cur_un_pts st7 = cur_un_pts st5
       ∧ pts_velocity st7 = pts_velocity st5 ∧ n_id st7 = n_id st5)
    ∧ (length (cur_pts st7) = length (ids st7)
       ∧ length (track_cnt st7) = length (ids st7)
       ∧ length (cur_un_pts st7) = length (ids st7)
       ∧ (length (ids st7) ≤ length (pts_velocity st7))%nat)
    ∧ (∀ i id p, ids st7 !! i = Some id → cur_un_pts st7 !! i = Some p →
         pts_velocity st7 !! i
         = Some (match prev_un_pts_map st !! id with
                 | Some it =>
                     mkPoint2f
                       (double_div (pt_x p - pt_x it)
                          (_cur_time - prev_time st))
                       (double_div (pt_y p - pt_y it)
                          (_cur_time - prev_time st))
                 | None => Point2f_zero
                 end))
    ∧ (stereo_cam st7 = stereo_cam st
       ∧ ids_right st7 = ids_right st6
       ∧ right_pts_velocity st7 = right_pts_velocity st6
       ∧ (negb (Mat_empty _img1) && stereo_cam st = true →
            (∃ status, ids_right st7 = compact (ids st7) status)
            ∧ length (cur_right_pts st7) = length (ids_right st7)
            ∧ length (cur_un_right_pts st7) = length (ids_right st7)
            ∧ (length (ids_right st7) ≤ length (right_pts_velocity st7))%nat
            ∧ (prev_un_right_pts_map st = ∅ →
                 right_pts_velocity st7
                 = replicate (length (cur_pts st7)) Point2f_zero)))
    ∧ (∀ id o,
         o ∈ default [] (ff !! id)
         ↔ (∃ i u p v, ids st7 !! i = Some id ∧ cur_un_pts st7 !! i = Some u
                       ∧ cur_pts st7 !! i = Some p
                       ∧ pts_velocity st7 !! i = Some v
                       ∧ o = (0, xyz_uv_velocity u p v))
           ∨ (negb (Mat_empty _img1) && stereo_cam st7 = true
              ∧ ∃ i u p v, ids_right st7 !! i = Some id
                           ∧ cur_un_right_pts st7 !! i = Some u
                           ∧ cur_right_pts st7 !! i = Some p
                           ∧ right_pts_velocity st7 !! i = Some v
                           ∧ o = (1, xyz_uv_velocity u p v))).
Proof.
  intros Hf1 Hf2 Hd1 Hd2 Hsort Hinv Hcal Hcnt Hroom.
  destruct (track_left_ok cfg _cur_time _img st Hf1 Hf2 Hd1 Hd2 Hsort Hinv
              Hcal Hcnt Hroom)
    as (st5 & kept & Hrun5 & Hkept & Hids5 & Hn5 & Hlc5 & Hlt5 & Hlu5 & Hlv5
        & Hkeys5 & Hvel5 & Hcam5 & Hst5 & Hpr5).
  destruct Hinv as (Hip & Hic & Hnd & Hlt & Hmap).
  assert (calibrated st5) as Hcal5.
  { destruct Hcal as [Hc0 Hc1]. unfold calibrated. by rewrite Hcam5, Hst5. }
  destruct (stereo_stage_ok cfg _img1 st5 Hf1 Hf2 Hcal5)
    as (st6 & Hrun6 & Heq6 & Hright6); [lia|].
  assert (ids st6 = ids st5 ∧ track_cnt st6 = track_cnt st5
          ∧ cur_pts st6 = cur_pts st5 ∧ cur_un_pts st6 = cur_un_pts st5
          ∧ pts_velocity st6 = pts_velocity st5 ∧ n_id st6 = n_id st5
          ∧ cur_un_pts_map st6 = cur_un_pts_map st5
          ∧ m_camera st6 = m_camera st5 ∧ stereo_cam st6 = stereo_cam st5)
    as (Hi6 & Ht6 & Hc6 & Hu6 & Hv6 & Hn6 & Hm6 & Hcam6 & Hst6).
  { rewrite Heq6. by state_simpl. }
  destruct (roll_forward_ok st6) as (st7 & Hrun7 & Heq7); [rewrite Hi6, Hc6; lia|].
  assert (ids st7 = ids st5 ∧ track_cnt st7 = track_cnt st5
          ∧ cur_pts st7 = cur_pts st5 ∧ cur_un_pts st7 = cur_un_pts st5
          ∧ pts_velocity st7 = pts_velocity st5 ∧ n_id st7 = n_id st5)
    as (Hi7 & Ht7 & Hc7 & Hu7 & Hv7 & Hn7).
  { rewrite Heq7. state_simpl. by rewrite Hi6, Ht6, Hc6, Hu6, Hv6, Hn6. }
  assert (prev_pts st7 = cur_pts st5
          ∧ prev_un_pts_map st7 = cur_un_pts_map st5
          ∧ m_camera st7 = m_camera st5 ∧ stereo_cam st7 = stereo_cam st5
          ∧ ids_right st7 = ids_right st6
          ∧ cur_right_pts st7 = cur_right_pts st6
          ∧ cur_un_right_pts st7 = cur_un_right_pts st6
          ∧ right_pts_velocity st7 = right_pts_velocity st6)
    as (Hp7 & Hm7 & Hcam7 & Hst7 & Hir7 & Hcr7 & Hur7 & Hvr7).
  { rewrite Heq7. state_simpl. by rewrite Hc6, Hm6, Hcam6, Hst6. }
  assert (negb (Mat_empty _img1) && stereo_cam st = true →
            (∃ status, ids_right st7 = compact (ids st7) status)
            ∧ length (cur_right_pts st7) = length (ids_right st7)
            ∧ length (cur_un_right_pts st7) = length (ids_right st7)
            ∧ (length (ids_right st7) ≤ length (right_pts_velocity st7))%nat
            ∧ (prev_un_right_pts_map st = ∅ →
                 right_pts_velocity st7
                 = replicate (length (cur_pts st7)) Point2f_zero))
    as Hright7.
  { intros Hactive. rewrite <- Hst5 in Hactive.
    destruct (Hright6 Hactive) as (Hst & Hl1 & Hl2 & Hl3 & Hl4).
    rewrite Hir7, Hcr7, Hur7, Hvr7, Hi7, Hc7, <- Hpr5. done. }
  destruct (report_ok _img1 st7) as (ff & Hrun8 & Hff).
  { rewrite Hi7, Hu7. lia. }
  { rewrite Hi7, Hc7. lia. }
  { rewrite Hi7, Hv7. lia. }
  { intros Hactive. rewrite Hst7, Hst5 in Hactive.
    destruct (Hright7 Hactive) as (_ & Hl1 & Hl2 & Hl3 & _). lia. }
  exists st5, st6, st7, ff, kept.
  split; [done|]. split; [done|]. split; [done|]. split; [done|].
  split.
  { unfold trackImage. rewrite Hrun5. cbn [mbind option_bind].
    rewrite Hrun6. cbn [mbind option_bind].
    rewrite Hrun7. cbn [mbind option_bind]. by rewrite Hrun8. }
  assert (NoDup (ids st5) ∧ ∀ id, id ∈ ids st5 → id < n_id st5) as [Hnd5 Hlt5'].
  { rewrite Hids5. split.
    - apply NoDup_app. split; [by eapply submseteq_NoDup_l|].
      split; [|apply NoDup_seqZ].
      intros id Hin Hseq. apply elem_of_seqZ in Hseq.
      specialize (Hlt id (elem_of_submseteq _ _ _ Hin Hkept)). lia.
    - intros id [Hin|Hin]%elem_of_app.
      + specialize (Hlt id (elem_of_submseteq _ _ _ Hin Hkept)). lia.
      + apply elem_of_seqZ in Hin. lia. }
  split.
  { unfold tracker_inv. rewrite Hp7, Hi7, Ht7, Hn7, Hm7.
    split; [done|]. split; [done|]. split; [done|]. split; [done|].
    intros id Hid. apply Hlt5'. by apply Hkeys5. }
  split.
  { destruct Hcal5 as [Hc0 Hc1]. unfold calibrated. by rewrite Hcam7, Hst7. }
  split; [done|]. split; [by rewrite Hi7, Hn7|]. split; [lia|].
  split; [done|]. split; [done|].
  split; [by rewrite Hi7, Ht7, Hc7, Hu7, Hv7|].
  split. { intros i id p. rewrite Hi7, Hu7, Hv7. apply Hvel5. }
  split; [by rewrite Hst7, Hst5|]. done.
Qed.

(** ** Velocity, stereo and the report: the claims *)

(** C5.  [ptsVelocity] on an id vector and a point vector of one length
    returns.  With an empty previous map every velocity is (0, 0).  With a
    non-empty previous map an id the map lacks gets (0, 0), and, when
    [cur_time] differs from [prev_time], an id the map has gets
    (current - previous) / (cur_time - prev_time); the code does not test
    the two timestamps, and with equal timestamps the velocity of such an
    id is a difference divided by zero, which is not a finite number and
    for which the model has the stand-in [double_div_zero].  In
    [trackImage] the tracks created in the frame are
    those with an id from the old counter on; the previous map has no such
    id, so their velocity and the velocity entries of their camera-0
    observation are (0, 0). *)
Theorem velocity_estimator :
  (∀ st (l : list Z) (pts : list Point2f) (prev_id_pts : gmap Z Point2f),
     length l = length pts →
     ∃ vel m,
       ptsVelocity st l pts prev_id_pts = Some (vel, m)
       ∧ (prev_id_pts = ∅ →
            vel = replicate (length (cur_pts st)) Point2f_zero)
       ∧ (prev_id_pts ≠ ∅ →
            length vel = length pts
            ∧ (∀ i id, l !! i = Some id → prev_id_pts !! id = None →
                 vel !! i = Some Point2f_zero)
            ∧ (¬ (cur_time st == prev_time st)%Q →
               ∀ i id p it,
                 l !! i = Some id → pts !! i = Some p →
                 prev_id_pts !! id = Some it →
                 vel !! i
                 = Some (mkPoint2f
                           ((pt_x p - pt_x it) / (cur_time st - prev_time st))
                           ((pt_y p - pt_y it)
                            / (cur_time st - prev_time st))))
            ∧ ((cur_time st == prev_time st)%Q →
               ∀ i id p it,
                 l !! i = Some id → pts !! i = Some p →
                 prev_id_pts !! id = Some it →
                 vel !! i
                 = Some (mkPoint2f (double_div_zero (pt_x p - pt_x it))
                           (double_div_zero (pt_y p - pt_y it))))))
  ∧ (∀ cfg (_cur_time : Q) (_img _img1 : Mat) st,
       flow_contract calcOpticalFlowPyrLK → flow_contract cuda_SparsePyrLK →
       detector_contract goodFeaturesToTrack →
       detector_contract cuda_GoodFeaturesToTrack →
       sort_contract std_sort →
       tracker_inv st → calibrated st →
       Forall (λ c, c < INT_MAX) (track_cnt st) →
       n_id st + Z.max (MAX_CNT cfg) 0 ≤ INT_MAX →
       ∃ st' ff kept,
         trackImage cfg _cur_time _img _img1 st = Some (st', ff)
         ∧ kept ⊆+ ids st
         ∧ ids st' = kept ++ seqZ (n_id st) (n_id st' - n_id st)
         ∧ (¬ (_cur_time == prev_time st)%Q →
            ∀ i id p it,
              ids st' !! i = Some id → cur_un_pts st' !! i = Some p →
              prev_un_pts_map st !! id = Some it →
              pts_velocity st' !! i
              = Some (mkPoint2f
                        ((pt_x p - pt_x it) / (_cur_time - prev_time st))
                        ((pt_y p - pt_y it) / (_cur_time - prev_time st))))
         ∧ (∀ i id, ids st' !! i = Some id →
              prev_un_pts_map st !! id = None →
              pts_velocity st' !! i = Some Point2f_zero)
         ∧ (∀ i id, ids st' !! i = Some id → n_id st ≤ id →
              pts_velocity st' !! i = Some Point2f_zero)
         ∧ (∀ id o, n_id st ≤ id → o ∈ default [] (ff !! id) → o.1 = 0 →
              ∃ u p, o.2 = xyz_uv_velocity u p Point2f_zero)).
Proof.
  split.
  - intros st l pts prev_id_pts Hlen.
    destruct (ptsVelocity_spec st l pts prev_id_pts Hlen)
      as (vel & m & Hrun & _ & Hempty & Hfull).
    exists vel, m. split; [done|]. split; [done|].
    intros Hne. destruct (Hfull Hne) as [Hl Hv]. split; [done|].
    split; [|split].
    + intros i id Hid Hnone.
      destruct (lookup_lt_is_Some_2 pts i) as [p Hp].
      { apply lookup_lt_Some in Hid. lia. }
      by rewrite (Hv i id p Hid Hp), Hnone.
    + intros Hdt i id p it Hid Hp Hit.
      rewrite (Hv i id p Hid Hp), Hit.
      by rewrite !double_div_nonzero by (by apply Qminus_nonzero).
    + intros Hdt i id p it Hid Hp Hit.
      rewrite (Hv i id p Hid Hp), Hit.
      by rewrite !double_div_by_zero by (by apply Qminus_zero).
  - intros cfg _cur_time _img _img1 st Hf1 Hf2 Hd1 Hd2 Hsort Hinv Hcal Hcnt
      Hroom.
    destruct (trackImage_ok cfg _cur_time _img _img1 st Hf1 Hf2 Hd1 Hd2 Hsort
                Hinv Hcal Hcnt Hroom)
      as (st5 & st6 & st7 & ff & kept & _ & _ & _ & _ & Hrun & _ & _ & Hkept
          & Hids & _ & _ & _ & (Hlc & _ & Hlu & _) & Hvel & _ & Hff).
    destruct Hinv as (_ & _ & _ & _ & Hmap).
    assert (∀ i id, ids st7 !! i = Some id →
              prev_un_pts_map st !! id = None →
              pts_velocity st7 !! i = Some Point2f_zero) as Hlack.
    { intros i id Hi Hnone.
      destruct (lookup_lt_is_Some_2 (cur_un_pts st7) i) as [p Hp].
      { apply lookup_lt_Some in Hi. lia. }
      by rewrite (Hvel i id p Hi Hp), Hnone. }
    assert (∀ i id, ids st7 !! i = Some id → n_id st ≤ id →
              pts_velocity st7 !! i = Some Point2f_zero) as Hbirth.
    { intros i id Hi Hnew. apply (Hlack i id Hi).
      destruct (prev_un_pts_map st !! id) as [it|] eqn:Hprev; [|done].
      specialize (Hmap id ltac:(by eexists)). lia. }
    exists st7, ff, kept. do 3 (split; [done|]). split.
    { intros Hdt i id p it Hi Hp Hit. rewrite (Hvel i id p Hi Hp), Hit.
      by rewrite !double_div_nonzero by (by apply Qminus_nonzero). }
    split; [done|]. split; [done|].
    intros id o Hnew Ho Hcam. apply Hff in Ho as [Hleft|[_ Hright]].
    + destruct Hleft as (i & u & p & v & Hi & _ & _ & Hv & ->).
      rewrite (Hbirth i id Hi Hnew) in Hv. simplify_eq. by exists u, p.
    + by destruct Hright as (i & u & p & v & _ & _ & _ & _ & ->).
Qed.

(** C6.  The stereo stage assigns only members of the right camera: ids,
    track counts, pixel positions, normalised positions, velocities and
    the id counter of the left camera are the same before and after it.
    In the report every id with an observation of camera 1 is an id of
    [ids_right] and of [ids] and also has an observation of camera 0, and
    every id of [ids] has an observation of camera 0. *)
Theorem stereo_additive cfg (_cur_time : Q) (_img _img1 : Mat) st :
  flow_contract calcOpticalFlowPyrLK → flow_contract cuda_SparsePyrLK →
  detector_contract goodFeaturesToTrack →
  detector_contract cuda_GoodFeaturesToTrack →
  sort_contract std_sort →
  tracker_inv st → calibrated st →
  Forall (λ c, c < INT_MAX) (track_cnt st) →
  n_id st + Z.max (MAX_CNT cfg) 0 ≤ INT_MAX →
  ∃ st5 st6 st7 ff,
    track_left cfg _cur_time _img st = Some st5
    ∧ stereo_stage cfg _img1 st5 = Some st6
    ∧ roll_forward st6 = Some st7
    ∧ trackImage cfg _cur_time _img _img1 st = Some (st7, ff)
    ∧ (ids st6 = ids st5 ∧ track_cnt st6 = track_cnt st5
       ∧ cur_pts st6 = cur_pts st5 ∧ cur_un_pts st6 = cur_un_pts st5
       ∧ pts_velocity st6 = pts_velocity st5 ∧ n_id st6 = n_id st5)
    ∧ (ids st7 = ids st5 ∧ track_cnt st7 = track_cnt st5
       ∧ cur_pts st7 = cur_pts st5 ∧ cur_un_pts st7 = cur_un_pts st5
       ∧ pts_velocity st7 = pts_velocity st5 ∧ n_id st7 = n_id st5)
    ∧ (∀ id, id ∈ ids st7 →
         ∃ o0, o0 ∈ default [] (ff !! id) ∧ o0.1 = 0)
    ∧ (∀ id o1, o1 ∈ default [] (ff !! id) → o1.1 = 1 →
         id ∈ ids_right st7 ∧ id ∈ ids st7
         ∧ ∃ o0, o0 ∈ default [] (ff !! id) ∧ o0.1 = 0).
Proof.
  intros Hf1 Hf2 Hd1 Hd2 Hsort Hinv Hcal Hcnt Hroom.
  destruct (trackImage_ok cfg _cur_time _img _img1 st Hf1 Hf2 Hd1 Hd2 Hsort
              Hinv Hcal Hcnt Hroom)
    as (st5 & st6 & st7 & ff & kept & Hrun5 & Hrun6 & Hrun7 & _ & Hrun & _ & _
        & _ & _ & _ & Hframe6 & Hframe7 & (Hlc & _ & Hlu & Hlv) & _
        & (Hst7 & _ & _ & Hright) & Hff).
  exists st5, st6, st7, ff. do 6 (split; [done|]).
  assert (∀ id, id ∈ ids st7 →
            ∃ o0, o0 ∈ default [] (ff !! id) ∧ o0.1 = 0) as Hleft.
  { intros id [i Hi]%list_elem_of_lookup.
    pose proof (lookup_lt_Some _ _ _ Hi) as Hlt.
    destruct (lookup_lt_is_Some_2 (cur_un_pts st7) i) as [u Hu]; [lia|].
    destruct (lookup_lt_is_Some_2 (cur_pts st7) i) as [p Hp]; [lia|].
    destruct (lookup_lt_is_Some_2 (pts_velocity st7) i) as [v Hv]; [lia|].
    exists (0, xyz_uv_velocity u p v). split; [|done].
    apply Hff. left. by exists i, u, p, v. }
  split; [done|].
  intros id o1 Ho1 Hcam. apply Hff in Ho1 as [Hl|[Hactive Hr]].
  - destruct Hl as (i & u & p & v & _ & _ & _ & _ & ->). done.
  - destruct Hr as (i & u & p & v & Hi & _).
    rewrite Hst7 in Hactive.
    destruct (Hright Hactive) as ((status & Hstat) & _).
    assert (id ∈ ids_right st7) as Hin
      by (apply list_elem_of_lookup; by exists i).
    assert (id ∈ ids st7) as Hin'.
    { rewrite Hstat in Hin.
      eapply elem_of_submseteq; [exact Hin|].
      apply sublist_submseteq, compact_sublist. }
    split; [done|]. split; [done|]. by apply Hleft.
Qed.

(** C9.  With an empty previous map [ptsVelocity] returns one (0, 0) per
    element of the member [cur_pts], whatever the length of its [pts]
    argument.  In [trackImage] with an active stereo stage [ids_right] is
    [ids] compacted by a status vector, so it is no longer than [cur_pts];
    [right_pts_velocity] is at least as long as [ids_right], also on the
    first stereo frame, where it has one entry per element of [cur_pts];
    hence every position below [ids_right.size()] is inside
    [right_pts_velocity] and the report is assembled without a failing
    access. *)
Theorem stereo_velocity_in_bounds :
  (∀ st (l : list Z) (pts : list Point2f),
     length l = length pts →
     ∃ m, ptsVelocity st l pts ∅
          = Some (replicate (length (cur_pts st)) Point2f_zero, m))
  ∧ (∀ cfg (_cur_time : Q) (_img _img1 : Mat) st,
       flow_contract calcOpticalFlowPyrLK → flow_contract cuda_SparsePyrLK →
       detector_contract goodFeaturesToTrack →
       detector_contract cuda_GoodFeaturesToTrack →
       sort_contract std_sort →
       tracker_inv st → calibrated st →
       Forall (λ c, c < INT_MAX) (track_cnt st) →
       n_id st + Z.max (MAX_CNT cfg) 0 ≤ INT_MAX →
       negb (Mat_empty _img1) && stereo_cam st = true →
       ∃ st' ff,
         trackImage cfg _cur_time _img _img1 st = Some (st', ff)
         ∧ (∃ status, ids_right st' = compact (ids st') status)
         ∧ (length (ids_right st') ≤ length (cur_pts st'))%nat
         ∧ (length (ids_right st') ≤ length (right_pts_velocity st'))%nat
         ∧ (prev_un_right_pts_map st = ∅ →
              right_pts_velocity st'
              = replicate (length (cur_pts st')) Point2f_zero)
         ∧ (∀ i, (i < length (ids_right st'))%nat →
              is_Some (right_pts_velocity st' !! i))).
Proof.
  split.
  - intros st l pts Hlen.
    destruct (ptsVelocity_spec st l pts ∅ Hlen)
      as (vel & m & Hrun & _ & Hempty & _).
    exists m. by rewrite Hrun, (Hempty eq_refl).
  - intros cfg _cur_time _img _img1 st Hf1 Hf2 Hd1 Hd2 Hsort Hinv Hcal Hcnt
      Hroom Hactive.
    destruct (trackImage_ok cfg _cur_time _img _img1 st Hf1 Hf2 Hd1 Hd2 Hsort
                Hinv Hcal Hcnt Hroom)
      as (st5 & st6 & st7 & ff & kept & _ & _ & _ & _ & Hrun & _ & _ & _ & _
          & _ & _ & _ & (Hlc & _) & _ & (_ & _ & _ & Hright) & _).
    destruct (Hright Hactive) as ((status & Hstat) & _ & _ & Hlv & Hfirst).
    exists st7, ff. split; [done|]. split; [by exists status|].
    split.
    { rewrite Hstat, Hlc. apply compact_length_le. }
    split; [done|]. split; [done|].
    intros i Hi. apply lookup_lt_is_Some_2. lia.
Qed.

(** ** Identities *)

(** What each stage does to [ids] and to the counter, whenever it returns. *)
Lemma propagate_ids cfg st st' :
  propagate cfg st = Some st' →
  ids st' `sublist_of` ids st ∧ n_id st' = n_id st.
Proof.
  unfold propagate. intros H.
  destruct (0 <? length (prev_pts st))%nat; [|by simplify_eq].
  inv_bind H. simplify_eq. state_simpl. split; [|done].
  match goal with
  | H : reduceVector (ids st) _ = Some _ |- _ =>
      apply reduceVector_Some in H as [-> _]
  end.
  apply compact_sublist.
Qed.

Lemma age_tracks_ids st st' :
  age_tracks st = Some st' → ids st' = ids st ∧ n_id st' = n_id st.
Proof. unfold age_tracks. intros H. inv_bind H. by simplify_eq. Qed.

Lemma detect_ids cfg st :
  ids (detect cfg st) = ids st ∧ n_id (detect cfg st) = n_id st.
Proof. by rewrite detect_arms. Qed.

Lemma addPoints_ids st st' :
  addPoints st = Some st' →
  ids st' = ids st ++ seqZ (n_id st) (Z.of_nat (length (n_pts st)))
  ∧ n_id st' = n_id st + Z.of_nat (length (n_pts st)).
Proof.
  unfold addPoints. intros [-> _]%addPoints_loop_Some. by state_simpl.
Qed.

Lemma left_velocity_ids st st' :
  left_velocity st = Some st' → ids st' = ids st ∧ n_id st' = n_id st.
Proof. unfold left_velocity. intros H. inv_bind H. by simplify_eq. Qed.

Lemma stereo_stage_ids cfg (_img1 : Mat) st st' :
  stereo_stage cfg _img1 st = Some st' →
  ids st' = ids st ∧ n_id st' = n_id st.
Proof.
  unfold stereo_stage. intros H.
  destruct (negb (Mat_empty _img1) && stereo_cam st); [|by simplify_eq].
  inv_bind H. simplify_eq. state_simpl.
  match goal with
  | E : (if ?c then _ else _) = Some _ |- _ => destruct c; [inv_bind E|]
  end; by simplify_eq.
Qed.

Lemma roll_forward_ids st st' :
  roll_forward st = Some st' → ids st' = ids st ∧ n_id st' = n_id st.
Proof. unfold roll_forward. intros H. inv_bind H. by simplify_eq. Qed.

Lemma setPrediction_ids (predictPts : gmap Z (Q * Q * Q)) st st' :
  setPrediction predictPts st = Some st' →
  ids st' = ids st ∧ n_id st' = n_id st.
Proof.
  unfold setPrediction. intros H.
  refine (for_loop_inv_Some
    (λ _ (t : State Mat Camera), ids t = ids st ∧ n_id t = n_id st)
    _ _ 0 _ st' _ _ H); [done|].
  intros i t t' _ [Hi Hn] Hb. unfold prediction_body in Hb.
  destruct (ids t !! i); [|done]. cbn in Hb.
  destruct (predictPts !! _); inv_bind Hb; by simplify_eq.
Qed.

Lemma removeOutliers_ids (removePtsIds : gset Z) st st' :
  removeOutliers removePtsIds st = Some st' →
  ids st' `sublist_of` ids st ∧ n_id st' = n_id st.
Proof.
  unfold removeOutliers. intros H. inv_bind H. simplify_eq. state_simpl.
  split; [|done].
  match goal with
  | H : reduceVector (ids st) _ = Some _ |- _ =>
      apply reduceVector_Some in H as [-> _]
  end.
  apply compact_sublist.
Qed.

Lemma readIntrinsicParameter_ids (cams : list Camera) st :
  ids (readIntrinsicParameter cams st) = ids st
  ∧ n_id (readIntrinsicParameter cams st) = n_id st.
Proof. unfold readIntrinsicParameter. by destruct (length cams =? 2)%nat. Qed.

(** The left-camera stages, whenever they return: the ids they leave are
    ids of the table, each at most as often, followed by the values the
    counter ran through. *)
Lemma track_left_ids cfg (_cur_time : Q) (_img : Mat) st st5 :
  sort_contract std_sort →
  track_left cfg _cur_time _img st = Some st5 →
  n_id st ≤ n_id st5
  ∧ ∃ kept, kept ⊆+ ids st
            ∧ ids st5 = kept ++ seqZ (n_id st) (n_id st5 - n_id st).
Proof.
  intros Hsort. unfold track_left. intros H.
  destruct (propagate cfg (begin_frame _cur_time _img st)) as [st1|] eqn:E1;
    cbn [mbind option_bind] in H; [|done].
  destruct (age_tracks st1) as [st2|] eqn:E2;
    cbn [mbind option_bind] in H; [|done].
  destruct (setMask cfg st2) as [st3|] eqn:E3;
    cbn [mbind option_bind] in H; [|done].
  destruct (addPoints (detect cfg st3)) as [st4|] eqn:E4;
    cbn [mbind option_bind] in H; [|done].
  apply propagate_ids in E1 as [Hi1 Hn1]. unfold begin_frame in Hi1, Hn1.
  state_simpl in Hi1. state_simpl in Hn1.
  apply age_tracks_ids in E2 as [Hi2 Hn2].
  apply (setMask_ids _ _ _ Hsort) in E3 as (Hi3 & Hn3 & _).
  apply addPoints_ids in E4 as [Hi4 Hn4].
  destruct (detect_ids cfg st3) as [Hdi Hdn]. rewrite Hdi, Hdn in Hi4.
  rewrite Hdn in Hn4.
  apply left_velocity_ids in H as [Hi5 Hn5].
  assert (n_id st3 = n_id st) as Hn by congruence.
  split; [lia|]. exists (ids st3). split.
  - etransitivity; [exact Hi3|]. rewrite Hi2. by apply sublist_submseteq.
  - rewrite Hi5, Hi4, Hn. do 2 f_equal. lia.
Qed.

Lemma trackImage_ids cfg (_cur_time : Q) (_img _img1 : Mat) st st'
    (ff : FeatureFrame) :
  sort_contract std_sort →
  trackImage cfg _cur_time _img _img1 st = Some (st', ff) →
  n_id st ≤ n_id st'
  ∧ ∃ kept, kept ⊆+ ids st
            ∧ ids st' = kept ++ seqZ (n_id st) (n_id st' - n_id st).
Proof.
  intros Hsort. unfold trackImage. intros H.
  destruct (track_left cfg _cur_time _img st) as [st5|] eqn:E5;
    cbn [mbind option_bind] in H; [|done].
  destruct (stereo_stage cfg _img1 st5) as [st6|] eqn:E6;
    cbn [mbind option_bind] in H; [|done].
  destruct (roll_forward st6) as [st7|] eqn:E7;
    cbn [mbind option_bind] in H; [|done].
  destruct (report _img1 st7) as [ff'|]; cbn [mbind option_bind] in H; [|done].
  simplify_eq.
  apply stereo_stage_ids in E6 as [Hi6 Hn6].
  apply roll_forward_ids in E7 as [Hi7 Hn7].
  destruct (track_left_ids _ _ _ _ _ Hsort E5) as (Hn & kept & Hkept & Hids).
  split; [lia|]. exists kept. split; [done|].
  rewrite Hi7, Hi6, Hn7, Hn6. done.
Qed.

(** One call: the counter does not decrease, and the ids afterwards are
    old ids, each at most as often, followed by the counter values used. *)
Lemma step_ids st st' :
  sort_contract std_sort →
  step st st' →
  n_id st ≤ n_id st'
  ∧ ∃ kept, kept ⊆+ ids st
            ∧ ids st' = kept ++ seqZ (n_id st) (n_id st' - n_id st).
Proof.
  intros Hsort Hstep.
  assert (∀ s s' : State Mat Camera,
            ids s' ⊆+ ids s → n_id s' = n_id s →
            n_id s ≤ n_id s'
            ∧ ∃ kept, kept ⊆+ ids s
                      ∧ ids s' = kept ++ seqZ (n_id s) (n_id s' - n_id s))
    as Hsame.
  { intros s s' Hsub Hn. split; [lia|]. exists (ids s'). split; [done|].
    rewrite Hn, Z.sub_diag, seqZ_nil by lia. by rewrite app_nil_r. }
  destruct Hstep as [cams st|cfg t img img1 st st' ff Hrun|p st st' Hrun
                    |s st st' Hrun].
  - destruct (readIntrinsicParameter_ids cams st) as [Hi Hn].
    apply Hsame; [by rewrite Hi|done].
  - by eapply trackImage_ids.
  - apply setPrediction_ids in Hrun as [Hi Hn].
    apply Hsame; [by rewrite Hi|done].
  - apply removeOutliers_ids in Hrun as [Hi Hn].
    apply Hsame; [by apply sublist_submseteq|done].
Qed.

(** C8.  In every state of a session no id occurs twice in [ids] and every
    id is at least 0 and below the counter.  A call never decreases the
    counter, and an id in the table after the call was in the table before
    it or is one of the counter values the call ran through, which no
    track of the session had before.  [addPoints] gives the new tracks the
    successive counter values and advances the counter by their number. *)
Theorem ids_unique :
  sort_contract std_sort →
  (∀ st, reachable st →
     NoDup (ids st) ∧ (∀ id, id ∈ ids st → 0 ≤ id < n_id st) ∧ 0 ≤ n_id st)
  ∧ (∀ st st', reachable st → step st st' →
       n_id st ≤ n_id st'
       ∧ ∀ id, id ∈ ids st' → id ∈ ids st ∨ n_id st ≤ id < n_id st')
  ∧ (∀ st st', addPoints st = Some st' →
       ids st' = ids st ++ seqZ (n_id st) (Z.of_nat (length (n_pts st)))
       ∧ n_id st' = n_id st + Z.of_nat (length (n_pts st))).
Proof.
  intros Hsort.
  assert (∀ st st', step st st' →
            n_id st ≤ n_id st'
            ∧ ∀ id, id ∈ ids st' → id ∈ ids st ∨ n_id st ≤ id < n_id st')
    as Hstep.
  { intros st st' Hs.
    destruct (step_ids st st' Hsort Hs) as (Hn & kept & Hkept & Hids).
    split; [done|]. intros id. rewrite Hids.
    intros [Hin|Hin]%elem_of_app.
    - left. by eapply elem_of_submseteq.
    - right. apply elem_of_seqZ in Hin. lia. }
  split; [|split].
  - induction 1 as [img0 row0 col0 t0 t1|st st' Hreach IH Hs].
    + cbn. split; [apply NoDup_nil_2|]. split; [|done].
      by intros id ?%elem_of_nil.
    + destruct IH as (Hnd & Hrange & Hpos).
      destruct (step_ids st st' Hsort Hs) as (Hn & kept & Hkept & Hids).
      split; [|split; [|lia]].
      * rewrite Hids. apply NoDup_app.
        split; [by eapply submseteq_NoDup_l|]. split; [|apply NoDup_seqZ].
        intros id Hin Hseq. apply elem_of_seqZ in Hseq.
        specialize (Hrange id (elem_of_submseteq _ _ _ Hin Hkept)). lia.
      * intros id Hin. destruct (Hstep st st' Hs) as [_ Hor].
        destruct (Hor id Hin) as [Hold|Hnew]; [|lia].
        specialize (Hrange id Hold). lia.
  - intros st st' _. apply Hstep.
  - intros st st'. apply addPoints_ids.
Qed.

(** ** The [USE_VPI] arms *)

Lemma flow_dispatch_USE_VPI (v : Z) cfg st :
  flow_dispatch (set_USE_VPI v cfg) st = flow_dispatch cfg st.
Proof. by rewrite !flow_dispatch_arms. Qed.

Lemma propagate_USE_VPI (v : Z) cfg st :
  propagate (set_USE_VPI v cfg) st = propagate cfg st.
Proof. unfold propagate. by rewrite flow_dispatch_USE_VPI. Qed.

Lemma detect_USE_VPI (v : Z) cfg st :
  detect (set_USE_VPI v cfg) st = detect cfg st.
Proof. by rewrite !detect_arms. Qed.

Lemma track_left_USE_VPI (v : Z) cfg (_cur_time : Q) (_img : Mat) st :
  track_left (set_USE_VPI v cfg) _cur_time _img st
  = track_left cfg _cur_time _img st.
Proof.
  unfold track_left. rewrite propagate_USE_VPI.
  destruct (propagate cfg _) as [st1|]; cbn [mbind option_bind]; [|done].
  destruct (age_tracks st1) as [st2|]; cbn [mbind option_bind]; [|done].
  change (setMask (set_USE_VPI v cfg) st2) with (setMask cfg st2).
  destruct (setMask cfg st2) as [st3|]; cbn [mbind option_bind]; [|done].
  by rewrite detect_USE_VPI.
Qed.

(** C10.  In both chains of [trackImage] the first two arms test a flag
    and its negation, so the arm guarded by [USE_VPI] is never taken: the
    flow dispatch is the CPU or the GPU arm and the detector chain is the
    CPU or the GPU detector.  Hence two runs of [trackImage] whose
    configurations differ only in [USE_VPI] return the same tracker and
    the same report (or both fail). *)
Theorem USE_VPI_unreachable (v : Z) cfg (_cur_time : Q) (_img _img1 : Mat) st :
  flow_dispatch cfg st
  = (if negb (int_true (USE_GPU_ACC_FLOW cfg)) then flow_cpu cfg st
     else flow_gpu cfg st)
  ∧ detect cfg st
    = set_n_pts
        (if 0 <? MAX_CNT cfg - Z.of_nat (length (cur_pts st)) then
           (if negb (int_true (USE_GPU cfg)) then goodFeaturesToTrack
            else cuda_GoodFeaturesToTrack)
             (cur_img st) (MAX_CNT cfg - Z.of_nat (length (cur_pts st)))
             (MIN_DIST cfg) (mask st)
         else []) st
  ∧ trackImage (set_USE_VPI v cfg) _cur_time _img _img1 st
    = trackImage cfg _cur_time _img _img1 st.
Proof.
  split; [apply flow_dispatch_arms|]. split; [apply detect_arms|].
  unfold trackImage. rewrite track_left_USE_VPI.
  destruct (track_left cfg _cur_time _img st) as [st5|];
    cbn [mbind option_bind]; [|done].
  by change (stereo_stage (set_USE_VPI v cfg) _img1 st5)
    with (stereo_stage cfg _img1 st5).
Qed.

End Properties.
(** * Collaborators that meet the contracts *)

(** The order-preserving insertion sort is an order [std::sort] may
    produce. *)
Lemma stable_insert_perm (x : CntPtsId) (l : list CntPtsId) :
  stable_insert cnt_gt x l ≡ₚ x :: l.
Proof.
  induction l as [|y l IH]; [done|]. cbn.
  destruct (cnt_gt y x); [|done]. rewrite IH. apply Permutation_swap.
Qed.

Lemma stable_insert_sorted (x : CntPtsId) (l : list CntPtsId) :
  StronglySorted (λ a b, cnt_gt b a = false) l →
  StronglySorted (λ a b, cnt_gt b a = false) (stable_insert cnt_gt x l).
Proof.
  induction 1 as [|y l Hl IH Hall]; cbn; [by repeat constructor|].
  destruct (cnt_gt y x) eqn:Hc.
  - constructor; [done|]. rewrite stable_insert_perm. constructor; [|done].
    unfold cnt_gt in *. apply Z.ltb_lt in Hc. apply Z.ltb_ge. lia.
  - constructor; [by constructor|]. constructor; [done|].
    eapply Forall_impl; [exact Hall|]. intros z Hz. unfold cnt_gt in *.
    apply Z.ltb_ge in Hc, Hz. apply Z.ltb_ge. lia.
Qed.

Lemma stable_sort_contract : sort_contract stable_sort.
Proof.
  intros l. unfold stable_sort. induction l as [|x l [IHp IHs]]; cbn.
  { split; [done|constructor]. }
  split; [by rewrite stable_insert_perm, IHp|by apply stable_insert_sorted].
Qed.

Lemma d_flow_contract (move : Point2f → Point2f) :
  flow_contract (Demo.d_flow move).
Proof.
  intros a b prevPts nextPts maxLevel useInitialFlow. cbn.
  by rewrite !length_map.
Qed.

Lemma d_detect_contract (candidates : list Point2f) :
  detector_contract (Demo.d_detect candidates).
Proof.
  intros img maxCorners minDistance mask Hpos. unfold Demo.d_detect.
  rewrite length_take. lia.
Qed.

(** A fresh tracker satisfies the invariant, and is calibrated when it has
    one or two cameras. *)
Lemma fresh_inv (cams : list unit) : tracker_inv (Demo.fresh cams).
Proof.
  unfold Demo.fresh, readIntrinsicParameter, tracker_inv.
  destruct (length cams =? 2)%nat; cbn;
    (split; [done|]; split; [done|]; split; [apply NoDup_nil_2|]; split;
     [by intros id ?%elem_of_nil|by intros id [? ?%lookup_empty_Some]]).
Qed.

Lemma fresh_calibrated_mono : calibrated (Demo.fresh [tt]).
Proof. split; cbn; [lia|done]. Qed.

Lemma fresh_calibrated_stereo : calibrated (Demo.fresh [tt; tt]).
Proof. split; cbn; [lia|intros _; lia]. Qed.

(** The first frame returns, so the tracker after it is a state of a
    session in either world. *)
Lemma first_frame_run :
  Demo.first_frame = Some (Demo.after_first, Demo.first_report).
Proof. vm_compute. reflexivity. Qed.

Lemma after_first_reachable : reachable (collab := Demo.drifting) Demo.after_first.
Proof.
  eapply reachable_step.
  - eapply reachable_step; [apply reachable_new|].
    apply (step_readIntrinsicParameter [tt]).
  - eapply step_trackImage. exact first_frame_run.
Qed.

(** * The properties on concrete runs *)

(** The propagation stage on the tracker after the first frame, in the
    drifting world. *)
Lemma propagate_border_run :
  (flow_contract (Demo.d_flow Demo.drift)
   ∧ length (ids Demo.after_first) = length (prev_pts Demo.after_first)
   ∧ length (track_cnt Demo.after_first) = length (prev_pts Demo.after_first)
   ∧ (0 < length (prev_pts Demo.after_first))%nat)
  ∧ ∃ st',
      propagate (collab := Demo.drifting) Demo.config Demo.after_first
      = Some st'
      ∧ Forall (λ p, 1 ≤ cvRound (pt_x p) < 99 ∧ (1 # 2 <= pt_x p)%Q)
          (cur_pts st').
Proof.
  split.
  { split; [apply d_flow_contract|]. vm_compute. repeat split; lia. }
  destruct (propagate_border (collab := Demo.drifting) Demo.config
              Demo.after_first (d_flow_contract _) (d_flow_contract _))
    as (fp & fs & status & st' & _ & Hrun & _ & _ & _ & _ & _ & _ & _ & _
        & Hall).
  { vm_compute. reflexivity. }
  { vm_compute. reflexivity. }
  { vm_compute. lia. }
  exists st'. split; [exact Hrun|].
  eapply Forall_impl; [exact Hall|].
  intros p ((Hx & _) & (Hq & _) & _). split; [exact Hx|exact Hq].
Defined.

(** In the second frame of the drifting world the track 0 moves from
    x = 1 to x = 3/4, which rounds to column 1: it passes [inBorder],
    survives the propagation stage and is in the tracker after the frame,
    at a position with x < 1. *)
Lemma border_survivor_below_one :
  inBorder 100 100 (mkPoint2f (3 # 4) 5) = true
  ∧ cur_pts <$> propagate (collab := Demo.drifting) Demo.config
                  (begin_frame (collab := Demo.drifting) (2 # 10) Demo.image
                     Demo.after_first)
    = Some [mkPoint2f (3 # 4) 5; mkPoint2f (199 # 4) 50;
            mkPoint2f (339 # 4) 50]
  ∧ (λ sf : State Demo.DMat unit * FeatureFrame,
       (ids sf.1 !! 0%nat, cur_pts sf.1 !! 0%nat)) <$> Demo.second_drifting
    = Some (Some 0, Some (mkPoint2f (3 # 4) 5))
  ∧ ¬ (1 <= 3 # 4)%Q.
Proof.
  split; [vm_compute; reflexivity|]. split; [vm_compute; reflexivity|].
  split; [vm_compute; reflexivity|]. intros H. vm_compute in H. by apply H.
Qed.

(** [setMask] in the second frame of the squeezing world. *)
Lemma setMask_walk_run :
  (sort_contract stable_sort
   ∧ length (ids Demo.before_mask) = length (cur_pts Demo.before_mask)
   ∧ length (track_cnt Demo.before_mask) = length (cur_pts Demo.before_mask))
  ∧ ∃ st',
      setMask (collab := Demo.squeezing_stable) Demo.config_forward
        Demo.before_mask = Some st'
      ∧ stable_sort cnt_gt (tracks Demo.before_mask)
        ≡ₚ tracks Demo.before_mask
      ∧ tracks st' `sublist_of` stable_sort cnt_gt (tracks Demo.before_mask).
Proof.
  split.
  { split; [apply stable_sort_contract|]. vm_compute. by split. }
  pose proof (setMask_walk (collab := Demo.squeezing_stable)
                Demo.config_forward Demo.before_mask stable_sort_contract)
    as H.
  cbn zeta in H.
  destruct H as (st' & Hrun & Hperm & _ & _ & _ & _ & _ & Hsub).
  { vm_compute. reflexivity. }
  { vm_compute. reflexivity. }
  exists st'. split; [exact Hrun|]. split; [exact Hperm|exact Hsub].
Defined.

(** [removeOutliers] on the tracker after the first frame. *)
Lemma removeOutliers_spec_run :
  (length (prev_pts Demo.after_first) = length (ids Demo.after_first)
   ∧ length (track_cnt Demo.after_first) = length (ids Demo.after_first))
  ∧ ∃ st',
      removeOutliers {[1]} Demo.after_first = Some st'
      ∧ ids st' = filter (λ id, id ∉ ({[1]} : gset Z)) (ids Demo.after_first)
      ∧ length (prev_pts st') = length (ids st')
      ∧ cur_pts st' = cur_pts Demo.after_first
      ∧ pts_velocity st' = pts_velocity Demo.after_first.
Proof.
  split; [vm_compute; by split|].
  destruct (removeOutliers_spec {[1]} Demo.after_first)
    as (st' & Hrun & _ & Hids & Hlen & _ & _ & (Hcur & _ & Hvel & _) & _).
  { vm_compute. reflexivity. }
  { vm_compute. reflexivity. }
  exists st'. split; [exact Hrun|]. split; [exact Hids|].
  split; [exact Hlen|]. split; [exact Hcur|exact Hvel].
Defined.

(** After the first frame the estimator rejects the track 1:
    [removeOutliers] takes it out of [ids], [prev_pts] and [track_cnt],
    which have two entries afterwards, but [cur_pts], [cur_un_pts] and
    [pts_velocity] still have the three entries of the frame, the
    position of the track 1 among them. *)
Lemma removeOutliers_leaves_current :
  (λ st' : State Demo.DMat unit,
     (ids st', prev_pts st', track_cnt st', cur_pts st',
      length (cur_un_pts st'), length (pts_velocity st')))
    <$> removeOutliers {[1]} Demo.after_first
  = Some ([0; 2], [mkPoint2f 1 5; mkPoint2f 85 50], [1; 1],
          [mkPoint2f 1 5; mkPoint2f 50 50; mkPoint2f 85 50], 3%nat, 3%nat).
Proof. vm_compute. reflexivity. Qed.

(** The first frame of a stereo session. *)
Lemma stereo_additive_run :
  (flow_contract (Demo.d_flow Demo.drift)
   ∧ detector_contract (Demo.d_detect Demo.corners)
   ∧ sort_contract stable_sort
   ∧ tracker_inv (Demo.fresh [tt; tt]) ∧ calibrated (Demo.fresh [tt; tt])
   ∧ Forall (λ c, c < INT_MAX) (track_cnt (Demo.fresh [tt; tt]))
   ∧ n_id (Demo.fresh [tt; tt]) + Z.max (MAX_CNT Demo.config) 0 ≤ INT_MAX)
  ∧ ∃ st5 st6 st7 ff,
      track_left (collab := Demo.drifting) Demo.config (1 # 10) Demo.image
        (Demo.fresh [tt; tt]) = Some st5
      ∧ stereo_stage (collab := Demo.drifting) Demo.config Demo.image st5
        = Some st6
      ∧ trackImage (collab := Demo.drifting) Demo.config (1 # 10) Demo.image
          Demo.image (Demo.fresh [tt; tt]) = Some (st7, ff)
      ∧ ids st6 = ids st5 ∧ cur_pts st6 = cur_pts st5
      ∧ ∀ id o1, o1 ∈ default [] (ff !! id) → o1.1 = 1 → id ∈ ids st7.
Proof.
  assert (Forall (λ c, c < INT_MAX) (track_cnt (Demo.fresh [tt; tt]))) as Hcnt
    by constructor.
  assert (n_id (Demo.fresh [tt; tt]) + Z.max (MAX_CNT Demo.config) 0
          ≤ INT_MAX) as Hroom by (vm_compute; discriminate).
  split.
  { split; [apply d_flow_contract|]. split; [apply d_detect_contract|].
    split; [apply stable_sort_contract|]. split; [apply fresh_inv|].
    split; [apply fresh_calibrated_stereo|]. split; [exact Hcnt|exact Hroom]. }
  destruct (stereo_additive (collab := Demo.drifting) Demo.config (1 # 10)%Q
              Demo.image Demo.image (Demo.fresh [tt; tt])
              (d_flow_contract _) (d_flow_contract _)
              (d_detect_contract _) (d_detect_contract _)
              stable_sort_contract (fresh_inv _) fresh_calibrated_stereo
              Hcnt Hroom)
    as (st5 & st6 & st7 & ff & Hrun5 & Hrun6 & _ & Hrun & (Hi & _ & Hc & _)
        & _ & _ & Hright).
  exists st5, st6, st7, ff. split; [exact Hrun5|]. split; [exact Hrun6|].
  split; [exact Hrun|]. split; [exact Hi|]. split; [exact Hc|].
  intros id o1 Ho Hcam. exact (proj1 (proj2 (Hright id o1 Ho Hcam))).
Defined.

(** The table after the first frame of the drifting world. *)
Lemma ids_unique_run :
  sort_contract stable_sort
  ∧ NoDup (ids Demo.after_first)
  ∧ (∀ id, id ∈ ids Demo.after_first → 0 ≤ id < n_id Demo.after_first).
Proof.
  split; [apply stable_sort_contract|].
  destruct (ids_unique (collab := Demo.drifting) stable_sort_contract)
    as (Hreach & _).
  destruct (Hreach Demo.after_first after_first_reachable)
    as (Hnd & Hrange & _).
  split; [exact Hnd|exact Hrange].
Defined.

(** [ptsVelocity] with an empty previous map and a [pts] argument shorter
    than the member [cur_pts], and the first frame of a stereo session. *)
Lemma stereo_velocity_in_bounds_run :
  (length [0] = length [mkPoint2f 2 3]
   ∧ ∃ m, ptsVelocity (collab := Demo.drifting) Demo.after_first [0]
            [mkPoint2f 2 3] ∅
          = Some (replicate (length (cur_pts Demo.after_first)) Point2f_zero,
                  m))
  ∧ ((flow_contract (Demo.d_flow Demo.drift)
      ∧ detector_contract (Demo.d_detect Demo.corners)
      ∧ sort_contract stable_sort
      ∧ tracker_inv (Demo.fresh [tt; tt]) ∧ calibrated (Demo.fresh [tt; tt])
      ∧ Forall (λ c, c < INT_MAX) (track_cnt (Demo.fresh [tt; tt]))
      ∧ n_id (Demo.fresh [tt; tt]) + Z.max (MAX_CNT Demo.config) 0 ≤ INT_MAX
      ∧ negb (Demo.d_empty Demo.image) && stereo_cam (Demo.fresh [tt; tt])
        = true)
     ∧ ∃ st' ff,
         trackImage (collab := Demo.drifting) Demo.config (1 # 10) Demo.image
           Demo.image (Demo.fresh [tt; tt]) = Some (st', ff)
         ∧ (length (ids_right st') ≤ length (right_pts_velocity st'))%nat
         ∧ right_pts_velocity st'
           = replicate (length (cur_pts st')) Point2f_zero).
Proof.
  destruct (stereo_velocity_in_bounds (collab := Demo.drifting))
    as [Hpts Hframe].
  split.
  - split; [reflexivity|].
    exact (Hpts Demo.after_first [0] [mkPoint2f 2 3] eq_refl).
  - assert (Forall (λ c, c < INT_MAX) (track_cnt (Demo.fresh [tt; tt])))
      as Hcnt by constructor.
    assert (n_id (Demo.fresh [tt; tt]) + Z.max (MAX_CNT Demo.config) 0
            ≤ INT_MAX) as Hroom by (vm_compute; discriminate).
    split.
    { split; [apply d_flow_contract|]. split; [apply d_detect_contract|].
      split; [apply stable_sort_contract|]. split; [apply fresh_inv|].
      split; [apply fresh_calibrated_stereo|]. split; [exact Hcnt|].
      split; [exact Hroom|reflexivity]. }
    destruct (Hframe Demo.config (1 # 10)%Q Demo.image Demo.image
                (Demo.fresh [tt; tt]) (d_flow_contract _) (d_flow_contract _)
                (d_detect_contract _) (d_detect_contract _)
                stable_sort_contract (fresh_inv _) fresh_calibrated_stereo
                Hcnt Hroom eq_refl)
      as (st' & ff & Hrun & _ & _ & Hlen & Hfirst & _).
    exists st', ff. split; [exact Hrun|]. split; [exact Hlen|].
    exact (Hfirst eq_refl).
Defined.

(** * What a call that returned has done *)

Section Coverage.

Context {Mat Camera : Type} {collab : Collaborators Mat Camera}.

Implicit Types (st : State Mat Camera) (cfg : Config).

(** A call of [trackImage] that returned went through every stage. *)
Lemma trackImage_stages cfg (_cur_time : Q) (_img _img1 : Mat) st st'
    (ff : FeatureFrame) :
  trackImage cfg _cur_time _img _img1 st = Some (st', ff) →
  ∃ st1 st2 st3 st4 st5 st6,
    propagate cfg (begin_frame _cur_time _img st) = Some st1
    ∧ age_tracks st1 = Some st2
    ∧ setMask cfg st2 = Some st3
    ∧ addPoints (detect cfg st3) = Some st4
    ∧ left_velocity st4 = Some st5
    ∧ stereo_stage cfg _img1 st5 = Some st6
    ∧ roll_forward st6 = Some st'
    ∧ report _img1 st' = Some ff.
Proof.
  unfold trackImage, track_left. intros H.
  destruct (propagate cfg (begin_frame _cur_time _img st)) as [st1|] eqn:E1;
    cbn [mbind option_bind] in H; [|done].
  destruct (age_tracks st1) as [st2|] eqn:E2;
    cbn [mbind option_bind] in H; [|done].
  destruct (setMask cfg st2) as [st3|] eqn:E3;
    cbn [mbind option_bind] in H; [|done].
  destruct (addPoints (detect cfg st3)) as [st4|] eqn:E4;
    cbn [mbind option_bind] in H; [|done].
  destruct (left_velocity st4) as [st5|] eqn:E5;
    cbn [mbind option_bind] in H; [|done].
  destruct (stereo_stage cfg _img1 st5) as [st6|] eqn:E6;
    cbn [mbind option_bind] in H; [|done].
  destruct (roll_forward st6) as [st7|] eqn:E7;
    cbn [mbind option_bind] in H; [|done].
  destruct (report _img1 st7) as [ff'|] eqn:E8;
    cbn [mbind option_bind] in H; [|done].
  simplify_eq. by exists st1, st2, st3, st4, st5, st6.
Qed.

(** ** Compaction *)

Lemma compact_filter {A : Type} (v : list A) (status : list uchar) :
  compact v status = (filter (λ xs : A * uchar, xs.2 ≠ 0) (zip v status)).*1.
Proof.
  revert status. induction v as [|x v IH]; intros [|s status];
    cbn [compact zip zip_with]; try done.
  rewrite filter_cons. cbn [snd]. unfold truthy.
  destruct (Z.eqb_spec s 0) as [->|Hs]; cbn [negb].
  - rewrite decide_False by (intros H; by apply H). apply IH.
  - rewrite decide_True by done. cbn [fmap list_fmap fst]. by rewrite IH.
Qed.

Lemma compact_none {A : Type} (v : list A) (status : list uchar) :
  Forall (λ s, s = 0) status → compact v status = [].
Proof.
  intros H. revert v. induction H as [|s status -> _ IH]; intros [|x v]; cbn; done.
Qed.

Lemma compact_zip_with {A B : Type} (v : list A) (w : list B)
    (status : list uchar) :
  compact (zip v w) status = zip (compact v status) (compact w status).
Proof.
  revert w status. induction v as [|x v IH]; intros [|y w] [|s status];
    cbn; try done.
  - destruct (truthy s); [done|]. by destruct (compact v status).
  - destruct (truthy s); cbn; by rewrite IH.
Qed.

Lemma sublist_StronglySorted {A : Type} (R : relation A) (l k : list A) :
  l `sublist_of` k → StronglySorted R k → StronglySorted R l.
Proof.
  induction 1 as [|x l k Hsub IH|x l k Hsub IH]; intros Hk; [done|..].
  - apply StronglySorted_inv in Hk as [Hk Hall]. constructor; [by apply IH|].
    eapply Forall_forall. intros y Hy.
    eapply Forall_forall in Hall; [exact Hall|].
    eapply elem_of_submseteq; [exact Hy|by apply sublist_submseteq].
  - apply StronglySorted_inv in Hk as [Hk _]. by apply IH.
Qed.

Lemma sublist_Forall {A : Type} (P : A → Prop) (l k : list A) :
  l `sublist_of` k → Forall P k → Forall P l.
Proof.
  intros Hsub Hk. apply Forall_forall. intros x Hx.
  eapply Forall_forall in Hk; [exact Hk|].
  eapply elem_of_submseteq; [exact Hx|by apply sublist_submseteq].
Qed.

(** ** The stages, whenever they return *)

(** Propagation: the table is compacted, or left alone when there is no
    previous point. *)
Lemma propagate_run cfg st st' :
  propagate cfg st = Some st' →
  zip (ids st') (track_cnt st') `sublist_of` zip (ids st) (track_cnt st)
  ∧ ids st' `sublist_of` ids st
  ∧ track_cnt st' `sublist_of` track_cnt st
  ∧ (prev_pts st = [] → st' = st)
  ∧ st' = set_track_cnt (track_cnt st') (set_ids (ids st')
            (set_cur_pts (cur_pts st') (set_prev_pts (prev_pts st') st))).
Proof.
  intros H. pose proof (propagate_frame cfg st st' H) as Hframe.
  unfold propagate in H.
  destruct (prev_pts st) as [|p0 l0] eqn:Hprev; cbn in H.
  { simplify_eq. by repeat split. }
  inv_bind H. simplify_eq. state_simpl.
  repeat match goal with
  | H : reduceVector _ _ = Some _ |- _ =>
      apply reduceVector_Some in H as [-> _]
  end.
  split; [rewrite <- compact_zip_with; apply compact_sublist|].
  split; [apply compact_sublist|]. split; [apply compact_sublist|].
  split; [done|]. exact Hframe.
Qed.

Lemma mapM_int_incr_Some (l k : list Z) :
  mapM int_incr l = Some k →
  k = (λ c, c + 1) <$> l ∧ Forall (λ c, c < INT_MAX) l.
Proof.
  revert k. induction l as [|c l IH]; intros k H; cbn -[int_incr] in H.
  { inversion H. by split. }
  destruct (int_incr c) as [c'|] eqn:Ec; cbn [mbind option_bind] in H; [|done].
  destruct (mapM int_incr l) as [k'|]; cbn [mbind option_bind] in H; [|done].
  destruct (IH k' eq_refl) as [-> Hall]. inversion H.
  unfold int_incr in Ec. destruct (Z.ltb_spec c INT_MAX) as [Hc|Hc]; [|done].
  simplify_eq. split; [done|by constructor].
Qed.

(** Ageing: every count grows by one. *)
Lemma age_tracks_run st st' :
  age_tracks st = Some st' →
  st' = set_track_cnt ((λ c, c + 1) <$> track_cnt st) st
  ∧ Forall (λ c, c < INT_MAX) (track_cnt st).
Proof.
  unfold age_tracks. intros H. inv_bind H. simplify_eq.
  match goal with
  | E : mapM int_incr _ = Some _ |- _ =>
      apply mapM_int_incr_Some in E as [-> Hall]
  end.
  done.
Qed.

(** The pairs the first loop of [setMask] builds. *)
Lemma build_cnt_pts_id_lookup st (l : list CntPtsId) :
  build_cnt_pts_id st = Some l →
  length l = length (cur_pts st)
  ∧ (length (cur_pts st) ≤ length (ids st))%nat
  ∧ (length (cur_pts st) ≤ length (track_cnt st))%nat
  ∧ ∀ i c p d, l !! i = Some (c, (p, d)) ↔
      track_cnt st !! i = Some c ∧ cur_pts st !! i = Some p
      ∧ ids st !! i = Some d.
Proof.
  unfold build_cnt_pts_id. intros Hrun.
  apply (for_loop_collect_Some (cnt_pts_id_body st)
    (λ i, c ← track_cnt st !! i; p ← cur_pts st !! i; d ← ids st !! i;
          Some (c, (p, d)))) in Hrun as [Hl Hlk].
  2:{ intros i acc. unfold cnt_pts_id_body.
      destruct (track_cnt st !! i); [|done]. cbn.
      destruct (cur_pts st !! i); [|done]. cbn.
      by destruct (ids st !! i). }
  split; [done|].
  assert (∀ i, (i < length (cur_pts st))%nat →
            is_Some (track_cnt st !! i) ∧ is_Some (ids st !! i)) as Hin.
  { intros i Hi. destruct (Hlk i Hi) as [_ [x Hx]].
    destruct (track_cnt st !! i); [|done]. cbn in Hx.
    destruct (cur_pts st !! i); [|done]. cbn in Hx.
    destruct (ids st !! i); [|done]. split; by eexists. }
  split.
  { destruct (decide (length (cur_pts st) ≤ length (ids st))%nat); [done|].
    destruct (Hin (length (ids st))) as [_ [? H]]; [lia|].
    apply lookup_lt_Some in H. lia. }
  split.
  { destruct (decide (length (cur_pts st) ≤ length (track_cnt st))%nat);
      [done|].
    destruct (Hin (length (track_cnt st))) as [[? H] _]; [lia|].
    apply lookup_lt_Some in H. lia. }
  intros i c p d.
  destruct (decide (i < length (cur_pts st))%nat) as [Hi|Hi].
  - cut (l !! i = (c0 ← track_cnt st !! i; p0 ← cur_pts st !! i;
                    d0 ← ids st !! i; Some (c0, (p0, d0))));
      [intros ->|by destruct (Hlk i Hi)].
    destruct (track_cnt st !! i); cbn; [|naive_solver].
    destruct (cur_pts st !! i); cbn; [|naive_solver].
    destruct (ids st !! i); cbn; naive_solver.
  - rewrite (lookup_ge_None_2 l) by lia.
    rewrite (lookup_ge_None_2 (cur_pts st)) by lia. naive_solver.
Qed.

(** [setMask]: what it retains is aligned, comes from the table, and is in
    the order of the sort. *)
Lemma setMask_run cfg st st' :
  setMask cfg st = Some st' →
  ∃ l,
    build_cnt_pts_id st = Some l
    ∧ tracks st' `sublist_of` std_sort cnt_gt l
    ∧ length (ids st') = length (cur_pts st')
    ∧ length (track_cnt st') = length (cur_pts st')
    ∧ st' = set_track_cnt (track_cnt st') (set_ids (ids st')
              (set_cur_pts (cur_pts st') (set_mask (mask st') st)))
    ∧ (mask st', (cur_pts st', ids st', track_cnt st'))
      = walk cfg st (std_sort cnt_gt l).
Proof.
  unfold setMask.
  destruct (build_cnt_pts_id st) as [l|] eqn:Hbuild; [|done]. cbn.
  intros Hst. simplify_eq. exists l. split; [done|]. state_simpl.
  fold (walk cfg st (std_sort cnt_gt l)).
  destruct (walk_foldl_spec (MIN_DIST cfg) (std_sort cnt_gt l)
              (Mat_fill (row st) (col st) 255, ([], [], [])))
    as ((Ha1 & Ha2) & kept & Hsub & Hk); [done|].
  fold (walk cfg st (std_sort cnt_gt l)) in Ha1, Ha2, Hk.
  set (w := walk cfg st (std_sort cnt_gt l)) in *.
  split.
  { unfold tracks. state_simpl. cbn in Hk. unfold walk_entries in Hk.
    by rewrite Hk. }
  split; [lia|]. split; [lia|]. split; [by destruct st|].
  by destruct w as [m [[a b] c]].
Qed.

(** The velocity stage of the left camera. *)
Lemma left_velocity_run st st' :
  left_velocity st = Some st' →
  ∃ cam0 vel m,
    m_camera st !! 0%nat = Some cam0
    ∧ ptsVelocity (set_cur_un_pts (undistortedPts (cur_pts st) cam0) st)
        (ids st) (undistortedPts (cur_pts st) cam0) (prev_un_pts_map st)
      = Some (vel, m)
    ∧ st' = set_pts_velocity vel (set_cur_un_pts_map m
              (set_cur_un_pts (undistortedPts (cur_pts st) cam0) st)).
Proof.
  unfold left_velocity. intros H.
  destruct (m_camera st !! 0%nat) as [cam0|]; cbn [mbind option_bind] in H;
    [|done].
  state_simpl in H.
  match type of H with
  | context [ptsVelocity ?a ?b ?c ?d] =>
      destruct (ptsVelocity a b c d) as [[vel m]|] eqn:E;
        cbn [mbind option_bind] in H; [|done]
  end.
  simplify_eq. by exists cam0, vel, m.
Qed.

(** The stereo stage assigns only members of the right camera. *)
Lemma stereo_stage_frame cfg (_img1 : Mat) st st' :
  stereo_stage cfg _img1 st = Some st' →
  st' = set_prev_un_right_pts_map (prev_un_right_pts_map st')
          (set_cur_un_right_pts_map (cur_un_right_pts_map st')
            (set_right_pts_velocity (right_pts_velocity st')
              (set_cur_un_right_pts (cur_un_right_pts st')
                (set_cur_right_pts (cur_right_pts st')
                  (set_ids_right (ids_right st') st))))).
Proof.
  unfold stereo_stage. intros H.
  destruct (negb (Mat_empty _img1) && stereo_cam st).
  - inv_bind H. simplify_eq.
    match goal with
    | E : (if ?c then _ else _) = Some _ |- _ => destruct c; [inv_bind E|]
    end; simplify_eq; by state_eq.
  - simplify_eq. by state_eq.
Qed.

(** Rolling forward. *)
Lemma roll_forward_run st st' :
  roll_forward st = Some st' →
  st' = set_prevLeftPtsMap (prevLeftPtsMap st')
          (set_hasPrediction false (set_prev_time (cur_time st)
            (set_prev_un_pts_map (cur_un_pts_map st)
              (set_prev_un_pts (cur_un_pts st)
                (set_prev_pts (cur_pts st)
                  (set_prev_img (cur_img st) st)))))).
Proof.
  unfold roll_forward. intros H. inv_bind H. simplify_eq. by state_eq.
Qed.

(** ** One frame, whenever it returns *)

(** The tracker a call of [trackImage] returns, member by member, in terms
    of the table [setMask] left ([st3]) and the corners the detector
    returned. *)
Lemma trackImage_run cfg (_cur_time : Q) (_img _img1 : Mat) st st'
    (ff : FeatureFrame) :
  trackImage cfg _cur_time _img _img1 st = Some (st', ff) →
  ∃ st1 st3 st5 st6 cam0 (s : State Mat Camera),
    propagate cfg (begin_frame _cur_time _img st) = Some st1
    ∧ Forall (λ c, c < INT_MAX) (track_cnt st1)
    ∧ setMask cfg (set_track_cnt ((λ c, c + 1) <$> track_cnt st1) st1)
      = Some st3
    ∧ m_camera st !! 0%nat = Some cam0
    ∧ ids st' = ids st3
                ++ seqZ (n_id st)
                     (Z.of_nat (length (n_pts (detect cfg st3))))
    ∧ cur_pts st' = cur_pts st3 ++ n_pts (detect cfg st3)
    ∧ track_cnt st'
      = track_cnt st3 ++ replicate (length (n_pts (detect cfg st3))) 1
    ∧ n_id st' = n_id st + Z.of_nat (length (n_pts (detect cfg st3)))
    ∧ n_id st' ≤ Z.max INT_MAX (n_id st)
    ∧ cur_un_pts st' = undistortedPts (cur_pts st') cam0
    ∧ (cur_time s = _cur_time ∧ prev_time s = prev_time st
       ∧ cur_pts s = cur_pts st'
       ∧ ptsVelocity s (ids st') (cur_un_pts st') (prev_un_pts_map st)
         = Some (pts_velocity st', cur_un_pts_map st'))
    ∧ (prev_pts st' = cur_pts st' ∧ prev_un_pts st' = cur_un_pts st'
       ∧ prev_un_pts_map st' = cur_un_pts_map st'
       ∧ prev_time st' = _cur_time ∧ cur_time st' = _cur_time
       ∧ prev_img st' = _img ∧ cur_img st' = _img
       ∧ row st' = Mat_rows _img ∧ col st' = Mat_cols _img
       ∧ hasPrediction st' = false
       ∧ mask st' = mask st3 ∧ n_pts st' = n_pts (detect cfg st3))
    ∧ (m_camera st' = m_camera st ∧ stereo_cam st' = stereo_cam st)
    ∧ (stereo_stage cfg _img1 st5 = Some st6
       ∧ ids st5 = ids st' ∧ cur_pts st5 = cur_pts st'
       ∧ m_camera st5 = m_camera st ∧ stereo_cam st5 = stereo_cam st
       ∧ cur_img st5 = _img ∧ row st5 = Mat_rows _img
       ∧ col st5 = Mat_cols _img
       ∧ cur_time st5 = _cur_time ∧ prev_time st5 = prev_time st
       ∧ prev_un_right_pts_map st5 = prev_un_right_pts_map st
       ∧ ids_right st' = ids_right st6
       ∧ cur_right_pts st' = cur_right_pts st6
       ∧ cur_un_right_pts st' = cur_un_right_pts st6
       ∧ right_pts_velocity st' = right_pts_velocity st6
       ∧ prev_un_right_pts_map st' = prev_un_right_pts_map st6)
    ∧ report _img1 st' = Some ff.
Proof.
  intros H.
  destruct (trackImage_stages _ _ _ _ _ _ _ H)
    as (st1 & st2 & st3 & st4 & st5 & st6 & E1 & E2 & E3 & E4 & E5 & E6 & E7
        & E8).
  apply age_tracks_run in E2 as [-> Hcnt].
  pose proof (propagate_frame _ _ _ E1) as F1.
  destruct (setMask_run _ _ _ E3) as (l & _ & _ & _ & _ & F3 & _).
  assert (n_id st3 = n_id st ∧ m_camera st3 = m_camera st
          ∧ stereo_cam st3 = stereo_cam st
          ∧ prev_un_pts_map st3 = prev_un_pts_map st
          ∧ prev_time st3 = prev_time st
          ∧ cur_time st3 = _cur_time ∧ cur_img st3 = _img
          ∧ row st3 = Mat_rows _img ∧ col st3 = Mat_cols _img
          ∧ prev_un_right_pts_map st3 = prev_un_right_pts_map st)
    as (Hn3 & Hm3 & Hs3 & Hp3 & Ht3 & Hc3 & Hi3 & Hr3 & Hcol3 & Hpr3).
  { rewrite F3. state_simpl. rewrite F1. unfold begin_frame. by state_simpl. }
  remember (detect cfg st3) as d eqn:Hd.
  assert (d = set_n_pts (n_pts d) st3) as Fd.
  { rewrite Hd, detect_arms. by state_eq. }
  unfold addPoints in E4. apply addPoints_loop_Some in E4 as [F4 Hroom].
  destruct (left_velocity_run _ _ E5) as (cam0 & vel & m & Hcam & Hvel & F5).
  pose proof (stereo_stage_frame _ _ _ _ E6) as F6.
  pose proof (roll_forward_run _ _ E7) as F7.
  assert (ids st4 = ids st3 ++ seqZ (n_id st) (Z.of_nat (length (n_pts d)))
          ∧ cur_pts st4 = cur_pts st3 ++ n_pts d
          ∧ track_cnt st4 = track_cnt st3 ++ replicate (length (n_pts d)) 1
          ∧ n_id st4 = n_id st + Z.of_nat (length (n_pts d))
          ∧ m_camera st4 = m_camera st ∧ stereo_cam st4 = stereo_cam st
          ∧ prev_un_pts_map st4 = prev_un_pts_map st
          ∧ prev_time st4 = prev_time st
          ∧ cur_time st4 = _cur_time ∧ cur_img st4 = _img
          ∧ row st4 = Mat_rows _img ∧ col st4 = Mat_cols _img
          ∧ prev_un_right_pts_map st4 = prev_un_right_pts_map st)
    as (Hi4 & Hc4 & Ht4 & Hn4 & Hm4 & Hs4 & Hp4 & Hpt4 & Hct4 & Him4 & Hr4
        & Hcol4 & Hpr4).
  { rewrite F4. state_simpl. rewrite Fd. state_simpl.
    by rewrite Hn3, Hm3, Hs3, Hp3, Ht3, Hc3, Hi3, Hr3, Hcol3, Hpr3. }
  assert (n_id d = n_id st) as Hnd by (rewrite Fd; state_simpl; done).
  rewrite Hnd in Hroom. rewrite Hm4 in Hcam. rewrite Hp4 in Hvel.
  assert (ids st5 = ids st4 ∧ cur_pts st5 = cur_pts st4
          ∧ track_cnt st5 = track_cnt st4 ∧ n_id st5 = n_id st4
          ∧ cur_un_pts st5 = undistortedPts (cur_pts st4) cam0
          ∧ pts_velocity st5 = vel ∧ cur_un_pts_map st5 = m
          ∧ m_camera st5 = m_camera st4 ∧ stereo_cam st5 = stereo_cam st4
          ∧ prev_time st5 = prev_time st4
          ∧ cur_time st5 = cur_time st4 ∧ cur_img st5 = cur_img st4
          ∧ row st5 = row st4 ∧ col st5 = col st4
          ∧ prev_un_right_pts_map st5 = prev_un_right_pts_map st4)
    as (Hi5 & Hc5 & Ht5 & Hn5 & Hu5 & Hv5 & Hmap5 & Hm5 & Hs5 & Hpt5 & Hct5
        & Him5 & Hr5 & Hcol5 & Hpr5).
  { rewrite F5. by state_simpl. }
  assert (ids st6 = ids st5 ∧ cur_pts st6 = cur_pts st5
          ∧ track_cnt st6 = track_cnt st5 ∧ n_id st6 = n_id st5
          ∧ cur_un_pts st6 = cur_un_pts st5
          ∧ pts_velocity st6 = pts_velocity st5
          ∧ cur_un_pts_map st6 = cur_un_pts_map st5
          ∧ m_camera st6 = m_camera st5 ∧ stereo_cam st6 = stereo_cam st5
          ∧ cur_time st6 = cur_time st5 ∧ cur_img st6 = cur_img st5
          ∧ row st6 = row st5 ∧ col st6 = col st5)
    as (Hi6 & Hc6 & Ht6 & Hn6 & Hu6 & Hv6 & Hmap6 & Hm6 & Hs6 & Hct6 & Him6
        & Hr6 & Hcol6).
  { rewrite F6. by state_simpl. }
  assert (ids st' = ids st6 ∧ cur_pts st' = cur_pts st6
          ∧ track_cnt st' = track_cnt st6 ∧ n_id st' = n_id st6
          ∧ cur_un_pts st' = cur_un_pts st6
          ∧ pts_velocity st' = pts_velocity st6
          ∧ cur_un_pts_map st' = cur_un_pts_map st6
          ∧ m_camera st' = m_camera st6 ∧ stereo_cam st' = stereo_cam st6
          ∧ cur_time st' = cur_time st6 ∧ cur_img st' = cur_img st6
          ∧ row st' = row st6 ∧ col st' = col st6
          ∧ prev_pts st' = cur_pts st6 ∧ prev_un_pts st' = cur_un_pts st6
          ∧ prev_un_pts_map st' = cur_un_pts_map st6
          ∧ prev_time st' = cur_time st6 ∧ prev_img st' = cur_img st6
          ∧ hasPrediction st' = false
          ∧ ids_right st' = ids_right st6
          ∧ cur_right_pts st' = cur_right_pts st6
          ∧ cur_un_right_pts st' = cur_un_right_pts st6
          ∧ right_pts_velocity st' = right_pts_velocity st6
          ∧ prev_un_right_pts_map st' = prev_un_right_pts_map st6)
    as (Hi7 & Hc7 & Ht7 & Hn7 & Hu7 & Hv7 & Hmap7 & Hm7 & Hs7 & Hct7 & Him7
        & Hr7 & Hcol7 & Hpp7 & Hpu7 & Hpm7 & Hpt7 & Hpi7 & Hhp7 & Hir7 & Hcr7
        & Hur7 & Hvr7 & Hpr7).
  { rewrite F7. by state_simpl. }
  exists st1, st3, st5, st6, cam0,
    (set_cur_un_pts (undistortedPts (cur_pts st4) cam0) st4).
  rewrite <- Hd.
  split; [done|]. split; [done|]. split; [done|]. split; [done|].
  split; [by rewrite Hi7, Hi6, Hi5|]. split; [by rewrite Hc7, Hc6, Hc5|].
  split; [by rewrite Ht7, Ht6, Ht5|].
  assert (n_id st' = n_id st + Z.of_nat (length (n_pts d))) as Hn
    by (by rewrite Hn7, Hn6, Hn5).
  split; [done|]. split; [lia|].
  split; [by rewrite Hu7, Hu6, Hu5, Hc7, Hc6, Hc5|].
  split.
  { state_simpl. split; [done|]. split; [done|].
    split; [by rewrite Hc7, Hc6, Hc5|].
    rewrite Hi7, Hi6, Hi5, Hu7, Hu6, Hu5, Hv7, Hv6, Hv5, Hmap7, Hmap6, Hmap5.
    done. }
  split.
  { rewrite Hpp7, Hpu7, Hpm7, Hpt7, Hpi7, Hc7, Hu7, Hmap7, Hct7, Him7, Hr7,
      Hcol7, Hct6, Him6, Hr6, Hcol6, Hct5, Him5, Hr5, Hcol5.
    do 10 (split; [done|]).
    rewrite F7. state_simpl. rewrite F6. state_simpl. rewrite F5. state_simpl.
    rewrite F4. state_simpl. rewrite Fd. by state_simpl. }
  split; [by rewrite Hm7, Hs7, Hm6, Hs6, Hm5, Hs5|].
  split; [|done]. split; [done|].
  rewrite Hi7, Hi6, Hc7, Hc6, Hm5, Hs5, Him5, Hr5, Hcol5, Hct5, Hpt5, Hpr5.
  done.
Qed.


(** ** The id-to-position maps *)

(** The first loop of [ptsVelocity], whenever it returns: [insert] keeps
    the point of the first position an id occurs at. *)
Lemma cur_id_loop_run (l : list Z) (pts : list Point2f) (m : gmap Z Point2f) :
  for_loop 0 (length l) (cur_id_body l pts) ∅ = Some m →
  (length l ≤ length pts)%nat
  ∧ (∀ id, is_Some (m !! id) ↔ id ∈ l)
  ∧ (∀ id p, m !! id = Some p →
       ∃ i, l !! i = Some id ∧ pts !! i = Some p
            ∧ ∀ j, (j < i)%nat → l !! j ≠ Some id).
Proof.
  intros Hrun.
  pose proof (for_loop_inv_Some
    (λ k (t : gmap Z Point2f),
       (k ≤ length l → k ≤ length pts)%nat
       ∧ (∀ id, is_Some (t !! id) ↔ id ∈ take k l)
       ∧ (∀ id p, t !! id = Some p →
            ∃ i, (i < k)%nat ∧ l !! i = Some id ∧ pts !! i = Some p
                 ∧ ∀ j, (j < i)%nat → l !! j ≠ Some id))
    (cur_id_body l pts) (length l) 0 ∅ m) as Hinv.
  destruct Hinv as (Hlen & Hdom & Hval); [| |exact Hrun|].
  - split; [lia|]. split.
    + intros id. rewrite lookup_empty, take_0. split.
      * by intros [? ?].
      * by intros ?%elem_of_nil.
    + intros id p. by rewrite lookup_empty.
  - intros k t t' Hk (Hlen & Hdom & Hval) Hbody. unfold cur_id_body in Hbody.
    destruct (l !! k) as [d|] eqn:Hd; cbn [mbind option_bind] in Hbody;
      [|done].
    destruct (pts !! k) as [p|] eqn:Hp; cbn [mbind option_bind] in Hbody;
      [|done].
    simplify_eq. split; [intros _; apply lookup_lt_Some in Hp; lia|].
    split.
    { intros id. rewrite map_insert_new_is_Some, (take_S_r _ _ d) by done.
      rewrite elem_of_app, list_elem_of_singleton. by rewrite Hdom. }
    intros id q Hq. unfold map_insert_new in Hq.
    destruct (t !! d) as [w|] eqn:Hw.
    + destruct (Hval id q Hq) as (i & Hi & Hrest). exists i. split; [lia|done].
    + destruct (decide (id = d)) as [->|Hne].
      * rewrite lookup_insert_eq in Hq. simplify_eq. exists k.
        split; [lia|]. split; [done|]. split; [done|].
        intros j Hj Hlj.
        assert (is_Some (t !! d)) as [? Hsome]; [|congruence].
        apply Hdom. apply list_elem_of_lookup. exists j.
        by rewrite lookup_take_lt.
      * rewrite lookup_insert_ne in Hq by done.
        destruct (Hval id q Hq) as (i & Hi & Hrest). exists i.
        split; [lia|done].
  - cbn in Hlen, Hdom, Hval. split; [by apply Hlen|]. split.
    + intros id. rewrite Hdom. by rewrite firstn_all.
    + intros id p Hm. destruct (Hval id p Hm) as (i & _ & Hrest).
      by exists i.
Qed.

(** [ptsVelocity], whenever it returns: the ids it recorded. *)
Lemma ptsVelocity_run st (l : list Z) (pts vel : list Point2f)
    (prev_id_pts m : gmap Z Point2f) :
  ptsVelocity st l pts prev_id_pts = Some (vel, m) →
  (length l ≤ length pts)%nat
  ∧ (∀ id, is_Some (m !! id) ↔ id ∈ l)
  ∧ (∀ id p, m !! id = Some p →
       ∃ i, l !! i = Some id ∧ pts !! i = Some p
            ∧ ∀ j, (j < i)%nat → l !! j ≠ Some id).
Proof.
  unfold ptsVelocity. intros H.
  destruct (for_loop 0 (length l) (cur_id_body l pts) ∅) as [m'|] eqn:Hm;
    cbn [mbind option_bind] in H; [|done].
  assert (m' = m) as ->.
  { destruct (negb (size prev_id_pts =? 0)%nat); inv_bind H; by simplify_eq. }
  by apply cur_id_loop_run.
Qed.

(** ** Members a call leaves alone *)

Lemma setPrediction_frame (predictPts : gmap Z (Q * Q * Q)) st st' :
  setPrediction predictPts st = Some st' →
  st' = set_predict_pts (predict_pts st') (set_hasPrediction true st).
Proof.
  unfold setPrediction. intros H.
  refine (for_loop_inv_Some
    (λ _ (t : State Mat Camera),
       t = set_predict_pts (predict_pts t) (set_hasPrediction true st))
    _ _ 0 _ st' _ _ H); [by state_eq|].
  intros i t t' _ Ht Hb. unfold prediction_body in Hb.
  destruct (ids t !! i); [|done]. cbn in Hb.
  destruct (predictPts !! _); inv_bind Hb; simplify_eq; rewrite Ht;
    by state_eq.
Qed.

Lemma replicate_sorted (k : nat) (c : Z) :
  StronglySorted (λ a b, b ≤ a) (replicate k c).
Proof.
  induction k as [|k IH]; cbn; constructor; [done|].
  apply Forall_forall. intros x Hx%elem_of_replicate. lia.
Qed.

(** ** The invariant of a session *)

(** What holds of the table between two calls of a session:
    the invariant of the table, the ages are at least 1 and never increase
    along the table, and a stereo tracker has both cameras. *)
Lemma step_inv st st' :
  sort_contract std_sort →
  step st st' →
  tracker_inv st
  ∧ StronglySorted (λ a b, b ≤ a) (track_cnt st)
  ∧ Forall (λ c, 1 ≤ c) (track_cnt st)
  ∧ (stereo_cam st = true → (2 ≤ length (m_camera st))%nat) →
  tracker_inv st'
  ∧ StronglySorted (λ a b, b ≤ a) (track_cnt st')
  ∧ Forall (λ c, 1 ≤ c) (track_cnt st')
  ∧ (stereo_cam st' = true → (2 ≤ length (m_camera st'))%nat).
Proof.
  intros Hsort Hstep ((Hp & Hc & Hnd & Hlt & Hmap) & Hsorted & Hone & Hcam).
  pose proof (step_ids st st' Hsort Hstep) as (Hn & kept & Hkept & Hids).
  assert (NoDup (ids st') ∧ ∀ id, id ∈ ids st' → id < n_id st')
    as [Hnd' Hlt'].
  { rewrite Hids. split.
    - apply NoDup_app. split; [by eapply submseteq_NoDup_l|].
      split; [|apply NoDup_seqZ].
      intros id Hin Hseq. apply elem_of_seqZ in Hseq.
      specialize (Hlt id (elem_of_submseteq _ _ _ Hin Hkept)). lia.
    - intros id [Hin|Hin]%elem_of_app.
      + specialize (Hlt id (elem_of_submseteq _ _ _ Hin Hkept)). lia.
      + apply elem_of_seqZ in Hin. lia. }
  destruct Hstep as [cams st|cfg t img img1 st st' ff Hrun|p st st' Hrun
                    |s st st' Hrun].
  - unfold readIntrinsicParameter in *.
    destruct (Nat.eqb_spec (length cams) 2) as [Hlen|Hlen];
      state_simpl; state_simpl in Hnd'; state_simpl in Hlt';
      (split; [done|]; split; [done|]; split; [done|]);
      rewrite length_app; [lia|]. intros H. specialize (Hcam H). lia.
  - destruct (trackImage_run _ _ _ _ _ _ _ Hrun)
      as (st1 & st3 & st5 & st6 & cam0 & s0 & E1 & Hcnt1 & E3 & _ & Hi' & Hc'
          & Ht' & _ & _ & _ & (_ & _ & _ & Hvel) & (Hpp & _ & Hpm & _)
          & (Hm' & Hs') & _).
    destruct (setMask_run _ _ _ E3) as (l & Hbuild & Hsub & Hli3 & Hlc3 & _).
    destruct (propagate_run _ _ _ E1) as (_ & _ & Hsub1 & _).
    unfold begin_frame in Hsub1. state_simpl in Hsub1.
    destruct (build_cnt_pts_id_lookup _ _ Hbuild) as (_ & _ & _ & Hl).
    state_simpl in Hl.
    assert (track_cnt st3 = (λ it : CntPtsId, it.1) <$> tracks st3) as Hcnt3.
    { unfold tracks. symmetry. apply unzip_entries; [lia|].
      rewrite Hli3. lia. }
    assert (Forall (λ c, 2 ≤ c) (track_cnt st3)) as Htwo.
    { rewrite Hcnt3. apply Forall_forall. intros c Hin.
      apply list_elem_of_fmap in Hin as ([c' [q d]] & -> & Hin). cbn.
      assert ((c', (q, d)) ∈ l) as Hinl.
      { destruct (Hsort l) as [Hperm _]. rewrite <- Hperm.
        eapply elem_of_submseteq; [exact Hin|by apply sublist_submseteq]. }
      apply list_elem_of_lookup in Hinl as [i Hi].
      apply Hl in Hi as (Hci & _ & _).
      rewrite list_lookup_fmap in Hci.
      destruct (track_cnt st1 !! i) as [c0|] eqn:Hc0; [|done]. cbn in Hci.
      simplify_eq.
      assert (1 ≤ c0); [|lia].
      eapply Forall_forall; [exact (sublist_Forall _ _ _ Hsub1 Hone)|].
      apply list_elem_of_lookup. by exists i. }
    split.
    { unfold tracker_inv. rewrite Hpp, Hc', Hi', Ht', Hpm.
      rewrite !length_app, length_seqZ, Nat2Z.id, length_replicate.
      split; [lia|]. split; [lia|]. rewrite <- Hi'.
      split; [done|]. split; [done|].
      intros id Hid. apply Hlt'.
      by apply (ptsVelocity_run _ _ _ _ _ _ Hvel). }
    rewrite Ht', Hm', Hs'. split.
    { apply StronglySorted_app_2; [| |apply replicate_sorted].
      - intros x1 x2 Hx1 Hx2%elem_of_replicate.
        eapply Forall_forall in Htwo; [|exact Hx1]. lia.
      - rewrite Hcnt3.
        apply (sublist_StronglySorted _ _
                 ((λ it : CntPtsId, it.1) <$> std_sort cnt_gt l)).
        { by apply fmap_sublist. }
        destruct (Hsort l) as [_ Hs].
        eapply StronglySorted_fmap; [|exact Hs].
        intros a b. unfold cnt_gt. intros H%Z.ltb_ge. done. }
    split; [|done].
    apply Forall_app. split.
    + eapply Forall_impl; [exact Htwo|]. intros c ?. cbn in *. lia.
    + apply Forall_forall. intros x Hx%elem_of_replicate. lia.
  - pose proof (setPrediction_frame _ _ _ Hrun) as F.
    assert (prev_pts st' = prev_pts st ∧ ids st' = ids st
            ∧ track_cnt st' = track_cnt st ∧ n_id st' = n_id st
            ∧ prev_un_pts_map st' = prev_un_pts_map st
            ∧ m_camera st' = m_camera st ∧ stereo_cam st' = stereo_cam st)
      as (E1 & E2 & E3 & E4 & E5 & E6 & E7) by (rewrite F; by state_simpl).
    unfold tracker_inv. rewrite E1, E3, E5, E6, E7. rewrite E2 in *.
    rewrite E4 in *. done.
  - pose proof (removeOutliers_frame _ _ _ Hrun) as F.
    assert (prev_un_pts_map st' = prev_un_pts_map st
            ∧ m_camera st' = m_camera st ∧ stereo_cam st' = stereo_cam st)
      as (E5 & E6 & E7) by (rewrite F; by state_simpl).
    unfold removeOutliers in Hrun. inv_bind Hrun. simplify_eq.
    state_simpl. state_simpl in Hnd'. state_simpl in Hlt'.
    state_simpl in E5.
    repeat match goal with
    | H : reduceVector _ _ = Some _ |- _ =>
        apply reduceVector_Some in H as [-> _]
    end.
    split.
    { unfold tracker_inv. state_simpl.
      split; [by apply compact_length_eq|].
      split; [by apply compact_length_eq|]. split; [done|]. split; [done|].
      intros id Hid. specialize (Hmap id Hid). lia. }
    split; [eapply sublist_StronglySorted; [apply compact_sublist|done]|].
    split; [|done]. eapply sublist_Forall; [apply compact_sublist|done].
Qed.

Lemma reachable_inv st :
  sort_contract std_sort →
  reachable st →
  tracker_inv st
  ∧ StronglySorted (λ a b, b ≤ a) (track_cnt st)
  ∧ Forall (λ c, 1 ≤ c) (track_cnt st)
  ∧ (stereo_cam st = true → (2 ≤ length (m_camera st))%nat).
Proof.
  intros Hsort. induction 1 as [img0 row0 col0 t0 t1|st st' Hreach IH Hs].
  - unfold tracker_inv, FeatureTracker_new. state_simpl. split.
    { split; [done|]. split; [done|]. split; [apply NoDup_nil_2|].
      split; [by intros id ?%elem_of_nil|].
      intros id [x Hx]. by rewrite lookup_empty in Hx. }
    split; [constructor|]. split; [constructor|done].
  - by eapply step_inv.
Qed.

(** * Sessions and frames *)

(** X5.  [trackImage] reads [m_camera[0]] when it computes the normalised
    positions (line 669): on a tracker without a camera, that is before
    [readIntrinsicParameter] has read a calibration file, the call does not
    return (the access is out of range), whatever the frame and the
    configuration. *)
Theorem trackImage_needs_camera cfg (_cur_time : Q) (_img _img1 : Mat) st :
  m_camera st = [] →
  trackImage cfg _cur_time _img _img1 st = None.
Proof.
  intros Hcam.
  destruct (trackImage cfg _cur_time _img _img1 st) as [[st' ff]|] eqn:Hrun;
    [|done].
  destruct (trackImage_run _ _ _ _ _ _ _ Hrun)
    as (st1 & st3 & st5 & st6 & cam0 & s0 & _ & _ & _ & Hc & _).
  by rewrite Hcam in Hc.
Qed.

(** X6.  In every state of a session the three vectors carried from frame
    to frame, [prev_pts], [ids] and [track_cnt], have one length, and every
    id that the previous id-to-position map holds is below the id counter. *)
Theorem session_table_aligned st :
  sort_contract std_sort →
  reachable st →
  length (prev_pts st) = length (ids st)
  ∧ length (track_cnt st) = length (ids st)
  ∧ ∀ id, is_Some (prev_un_pts_map st !! id) → id < n_id st.
Proof.
  intros Hsort Hreach.
  destruct (reachable_inv st Hsort Hreach) as ((Hp & Hc & _ & _ & Hmap) & _).
  done.
Qed.

(** X7.  In every state of a session the table is ordered by age: along
    [track_cnt] the count never increases, and every count is at least 1. *)
Theorem session_age_order st :
  sort_contract std_sort →
  reachable st →
  StronglySorted (λ a b, b ≤ a) (track_cnt st)
  ∧ Forall (λ c, 1 ≤ c) (track_cnt st).
Proof.
  intros Hsort Hreach.
  destruct (reachable_inv st Hsort Hreach) as (_ & Hs & Hone & _). done.
Qed.

(** X8.  Only [readIntrinsicParameter] touches the cameras: every call of
    a session keeps the cameras it found and adds any new ones after them,
    and never clears [stereo_cam]; in every state of a session a stereo
    tracker has at least two cameras, so that [m_camera[1]] of the stereo
    stage is in range. *)
Theorem session_cameras :
  (∀ st st', step st st' →
     m_camera st `prefix_of` m_camera st'
     ∧ (stereo_cam st = true → stereo_cam st' = true))
  ∧ (∀ st, reachable st →
       stereo_cam st = true → (2 ≤ length (m_camera st))%nat).
Proof.
  assert (∀ st st', step st st' →
            (m_camera st `prefix_of` m_camera st'
             ∧ (stereo_cam st = true → stereo_cam st' = true))
            ∧ ((stereo_cam st = true → (2 ≤ length (m_camera st))%nat) →
               stereo_cam st' = true → (2 ≤ length (m_camera st'))%nat))
    as Hstep.
  { intros st st' Hs.
    destruct Hs as [cams st|cfg t img img1 st st' ff Hrun|p st st' Hrun
                   |s st st' Hrun].
    - unfold readIntrinsicParameter.
      destruct (Nat.eqb_spec (length cams) 2) as [Hlen|Hlen]; state_simpl.
      + split; [split; [by apply prefix_app_r|done]|].
        intros _ _. rewrite length_app. lia.
      + split; [split; [by apply prefix_app_r|done]|].
        intros H Hst. specialize (H Hst). rewrite length_app. lia.
    - destruct (trackImage_run _ _ _ _ _ _ _ Hrun)
        as (st1 & st3 & st5 & st6 & cam0 & s0 & _ & _ & _ & _ & _ & _ & _ & _
            & _ & _ & _ & _ & (Hm & Hs) & _).
      rewrite Hm, Hs. done.
    - pose proof (setPrediction_frame _ _ _ Hrun) as F.
      assert (m_camera st' = m_camera st ∧ stereo_cam st' = stereo_cam st)
        as [Hm Hs] by (rewrite F; by state_simpl).
      rewrite Hm, Hs. done.
    - pose proof (removeOutliers_frame _ _ _ Hrun) as F.
      assert (m_camera st' = m_camera st ∧ stereo_cam st' = stereo_cam st)
        as [Hm Hs] by (rewrite F; by state_simpl).
      rewrite Hm, Hs. done. }
  split; [intros st st' Hs; by apply Hstep|].
  induction 1 as [img0 row0 col0 t0 t1|st st' Hreach IH Hs]; [done|].
  by apply (Hstep st st' Hs).
Qed.

(** X9.  A frame of a session does not fail: from any state of a session
    that has a camera, as long as the counts and the id counter stay below
    [INT_MAX], and with backends that return one point and one flag per
    input point and at most [maxCorners] corners, [trackImage] returns a
    tracker and a report; no vector is read or written out of range. *)
Theorem trackImage_total_in_session cfg (_cur_time : Q) (_img _img1 : Mat) st :
  flow_contract calcOpticalFlowPyrLK → flow_contract cuda_SparsePyrLK →
  detector_contract goodFeaturesToTrack →
  detector_contract cuda_GoodFeaturesToTrack →
  sort_contract std_sort →
  reachable st →
  (1 ≤ length (m_camera st))%nat →
  Forall (λ c, c < INT_MAX) (track_cnt st) →
  n_id st + Z.max (MAX_CNT cfg) 0 ≤ INT_MAX →
  ∃ st' ff,
    trackImage cfg _cur_time _img _img1 st = Some (st', ff)
    ∧ reachable st'.
Proof.
  intros Hf1 Hf2 Hd1 Hd2 Hsort Hreach Hcam Hcnt Hroom.
  destruct (reachable_inv st Hsort Hreach) as (Hinv & _ & _ & Hst).
  destruct (trackImage_ok cfg _cur_time _img _img1 st Hf1 Hf2 Hd1 Hd2 Hsort
              Hinv (conj Hcam Hst) Hcnt Hroom)
    as (st5 & st6 & st7 & ff & kept & _ & _ & _ & _ & Hrun & _).
  exists st7, ff. split; [done|].
  eapply reachable_step; [exact Hreach|]. by eapply step_trackImage.
Qed.

(** X10.  A frame never grows the table beyond [MAX_CNT]: after a call of
    [trackImage] the table has at most [MAX_CNT] tracks, or at most as many
    as before the call when that was more; in particular a table within
    [MAX_CNT] stays within [MAX_CNT]. *)
Theorem trackImage_capacity cfg (_cur_time : Q) (_img _img1 : Mat) st st'
    (ff : FeatureFrame) :
  detector_contract goodFeaturesToTrack →
  detector_contract cuda_GoodFeaturesToTrack →
  sort_contract std_sort →
  trackImage cfg _cur_time _img _img1 st = Some (st', ff) →
  Z.of_nat (length (ids st'))
  ≤ Z.max (MAX_CNT cfg) (Z.of_nat (length (ids st))).
Proof.
  intros Hd1 Hd2 Hsort Hrun.
  destruct (trackImage_run _ _ _ _ _ _ _ Hrun)
    as (st1 & st3 & st5 & st6 & cam0 & s0 & E1 & _ & E3 & _ & Hi' & _).
  destruct (setMask_run _ _ _ E3) as (l & _ & _ & Hli3 & _).
  destruct (setMask_ids _ _ _ Hsort E3) as (Hsub3 & _).
  state_simpl in Hsub3.
  destruct (propagate_run _ _ _ E1) as (_ & Hsub1 & _).
  unfold begin_frame in Hsub1. state_simpl in Hsub1.
  pose proof (detect_length cfg st3 Hd1 Hd2) as Hdet.
  apply submseteq_length in Hsub3. apply sublist_length in Hsub1.
  rewrite Hi', length_app, length_seqZ, Nat2Z.id. lia.
Qed.

(** X11.  Ages count frames.  After a call of [trackImage] every track of
    the table either was in the table before the call, with a count one
    less, or was created by the call: then its id is at least the old id
    counter and its count is 1. *)
Theorem trackImage_ages cfg (_cur_time : Q) (_img _img1 : Mat) st st'
    (ff : FeatureFrame) :
  sort_contract std_sort →
  trackImage cfg _cur_time _img _img1 st = Some (st', ff) →
  length (track_cnt st') = length (ids st')
  ∧ ∀ i id c, ids st' !! i = Some id → track_cnt st' !! i = Some c →
      (∃ j, ids st !! j = Some id ∧ track_cnt st !! j = Some (c - 1))
      ∨ (n_id st ≤ id ∧ c = 1).
Proof.
  intros Hsort Hrun.
  destruct (trackImage_run _ _ _ _ _ _ _ Hrun)
    as (st1 & st3 & st5 & st6 & cam0 & s0 & E1 & _ & E3 & _ & Hi' & _ & Ht'
        & _).
  destruct (setMask_run _ _ _ E3) as (l & Hbuild & Hsub & Hli3 & Hlc3 & _).
  destruct (propagate_run _ _ _ E1) as (Hzip & _).
  unfold begin_frame in Hzip. state_simpl in Hzip.
  destruct (build_cnt_pts_id_lookup _ _ Hbuild) as (_ & _ & _ & Hl).
  state_simpl in Hl.
  split.
  { rewrite Ht', Hi', !length_app, length_seqZ, Nat2Z.id, length_replicate.
    lia. }
  intros i id c. rewrite Hi', Ht'.
  destruct (decide (i < length (ids st3))%nat) as [Hlt|Hge].
  - rewrite !lookup_app_l by lia. intros Hid Hc. left.
    destruct (lookup_lt_is_Some_2 (cur_pts st3) i) as [p Hp]; [lia|].
    assert ((c, (p, id)) ∈ l) as Hin.
    { destruct (Hsort l) as [Hperm _]. rewrite <- Hperm.
      eapply elem_of_submseteq; [|by apply sublist_submseteq].
      apply list_elem_of_lookup. exists i. unfold tracks.
      rewrite !lookup_zip_with, Hc. cbn. by rewrite Hp, Hid. }
    apply list_elem_of_lookup in Hin as [k Hk].
    apply Hl in Hk as (Hck & _ & Hdk).
    rewrite list_lookup_fmap in Hck.
    destruct (track_cnt st1 !! k) as [c0|] eqn:Hc0; [|done]. cbn in Hck.
    simplify_eq.
    assert ((id, c0) ∈ zip (ids st) (track_cnt st)) as Hin0.
    { eapply elem_of_submseteq; [|apply sublist_submseteq; exact Hzip].
      apply list_elem_of_lookup. exists k.
      by rewrite lookup_zip_with, Hdk, Hc0. }
    apply list_elem_of_lookup in Hin0 as [j Hj].
    rewrite lookup_zip_with in Hj.
    destruct (ids st !! j) as [d|] eqn:Hdj; [|done]. cbn in Hj.
    destruct (track_cnt st !! j) as [c1|] eqn:Hcj; [|done]. cbn in Hj.
    simplify_eq. exists j. split; [done|]. rewrite Hcj. f_equal. lia.
  - rewrite !lookup_app_r by lia. intros Hid Hc. right.
    apply lookup_seqZ in Hid as [-> _].
    apply lookup_replicate in Hc as [-> _]. split; [lia|done].
Qed.

(** X12.  A frame on a tracker without previous points (the first frame
    of a session): whenever the call returns, the mask is all 255 and the
    table is exactly what the detector returns for the new image with
    [MAX_CNT] corners, in its order, with the ids from the id counter on
    and the counts 1; with [MAX_CNT <= 0] the table is empty. *)
Theorem trackImage_first_frame cfg (_cur_time : Q) (_img _img1 : Mat) st st'
    (ff : FeatureFrame) :
  sort_contract std_sort →
  prev_pts st = [] →
  trackImage cfg _cur_time _img _img1 st = Some (st', ff) →
  let corners :=
    if 0 <? MAX_CNT cfg then
      (if negb (int_true (USE_GPU cfg)) then goodFeaturesToTrack
       else cuda_GoodFeaturesToTrack)
        _img (MAX_CNT cfg) (MIN_DIST cfg)
        (Mat_fill (Mat_rows _img) (Mat_cols _img) 255)
    else [] in
  mask st' = Mat_fill (Mat_rows _img) (Mat_cols _img) 255
  ∧ cur_pts st' = corners
  ∧ ids st' = seqZ (n_id st) (Z.of_nat (length corners))
  ∧ track_cnt st' = replicate (length corners) 1
  ∧ n_id st' = n_id st + Z.of_nat (length corners).
Proof.
  intros Hsort Hprev Hrun corners.
  destruct (trackImage_run _ _ _ _ _ _ _ Hrun)
    as (st1 & st3 & st5 & st6 & cam0 & s0 & E1 & _ & E3 & _ & Hi' & Hc' & Ht'
        & Hn' & _ & _ & _ & (_ & _ & _ & _ & _ & _ & _ & _ & _ & _ & Hmask & _)
        & _).
  destruct (propagate_run _ _ _ E1) as (_ & _ & _ & Hsame & _).
  rewrite Hsame in E3 by (unfold begin_frame; by state_simpl).
  destruct (setMask_run _ _ _ E3) as (l & Hbuild & _ & _ & _ & F3 & Hwalk).
  destruct (build_cnt_pts_id_lookup _ _ Hbuild) as (Hlen & _).
  unfold begin_frame in Hlen. state_simpl in Hlen.
  apply nil_length_inv in Hlen. subst l.
  assert (std_sort cnt_gt [] = []) as Hnil.
  { destruct (Hsort []) as [Hperm _]. by apply Permutation_nil_r. }
  rewrite Hnil in Hwalk. unfold walk, begin_frame in Hwalk. cbn in Hwalk.
  state_simpl in Hwalk. injection Hwalk as Hm3 Hc3 Hi3 Ht3.
  assert (cur_img st3 = _img) as Himg.
  { rewrite F3. unfold begin_frame. by state_simpl. }
  assert (n_pts (detect cfg st3) = corners) as Hdet.
  { rewrite detect_arms. state_simpl. rewrite Hc3, Hm3, Himg. cbn [length].
    rewrite Z.sub_0_r. done. }
  rewrite Hdet in Hi', Hc', Ht', Hn'.
  rewrite Hi3 in Hi'. rewrite Hc3 in Hc'. rewrite Ht3 in Ht'.
  split; [by rewrite Hmask|done].
Qed.

(** X16.  Along any sequence of calls the id counter never decreases, and
    an id in the table at the end was in the table at the start or is at
    least the id counter of the start: the calls bring no id below the
    counter into the table. *)
Theorem ids_never_return st st' :
  sort_contract std_sort →
  rtc step st st' →
  n_id st ≤ n_id st'
  ∧ ∀ id, id ∈ ids st' → id ∈ ids st ∨ n_id st ≤ id.
Proof.
  intros Hsort. induction 1 as [st|st st1 st' Hs _ IH].
  { split; [lia|]. intros id Hid. by left. }
  destruct IH as [Hn IH].
  destruct (step_ids st st1 Hsort Hs) as (Hn1 & kept & Hkept & Hids).
  split; [lia|]. intros id Hid.
  destruct (IH id Hid) as [Hin|Hnew]; [|right; lia].
  rewrite Hids in Hin. apply elem_of_app in Hin as [Hin|Hin].
  - left. by eapply elem_of_submseteq.
  - right. apply elem_of_seqZ in Hin. lia.
Qed.

(** * The stereo stage and the report, whenever they return *)

Lemma undistortedPts_lookup (pts : list Point2f) (cam : Camera) (i : nat) :
  undistortedPts pts cam !! i
  = (λ p, let b := liftProjective cam (pt_x p, pt_y p) in
          mkPoint2f (double_div b.1.1 b.2) (double_div b.1.2 b.2))
      <$> pts !! i.
Proof.
  unfold undistortedPts. revert i.
  induction pts as [|p pts IH]; intros [|i]; cbn; done || apply IH.
Qed.

(** A loop that rewrites one flag per iteration, whenever it returns. *)
Lemma for_loop_pointwise_Some (body : nat → list uchar → option (list uchar))
    (g : nat → uchar → option uchar) (n : nat) (status t : list uchar) :
  (∀ i t s, t !! i = Some s → body i t = y ← g i s; Some (<[i := y]> t)) →
  (∀ i t, t !! i = None → body i t = None) →
  for_loop 0 n body status = Some t →
  (n ≤ length status)%nat
  ∧ length t = length status
  ∧ (∀ i, (i < n)%nat → ∃ s, status !! i = Some s ∧ t !! i = g i s)
  ∧ (∀ i, (n ≤ i)%nat → t !! i = status !! i).
Proof.
  intros Hbody Hnone Hrun.
  pose proof (for_loop_inv_Some
    (λ k (t : list uchar),
       (k ≤ n → k ≤ length status)%nat
       ∧ length t = length status
       ∧ (∀ i, (i < k)%nat → ∃ s, status !! i = Some s ∧ t !! i = g i s)
       ∧ (∀ i, (k ≤ i)%nat → t !! i = status !! i))
    body n 0 status t) as Hinv.
  destruct Hinv as (Hn & Hlen & Hlt & Hge); [| |exact Hrun|].
  - split; [lia|]. split; [done|]. split; [intros i Hi; lia|done].
  - intros k u u' Hk (Hn & Hlen & Hlt & Hge) Hb.
    destruct (u !! k) as [s|] eqn:Hs; [|by rewrite Hnone in Hb].
    rewrite (Hbody k u s Hs) in Hb.
    destruct (g k s) as [y|] eqn:Hy; cbn [mbind option_bind] in Hb; [|done].
    simplify_eq.
    pose proof (lookup_lt_Some _ _ _ Hs) as Hks.
    split; [lia|]. split; [by rewrite length_insert|]. split.
    + intros i Hi. destruct (decide (i = k)) as [->|Hne].
      * exists s. rewrite <- Hge by lia. split; [done|].
        by rewrite list_lookup_insert_eq by lia.
      * rewrite list_lookup_insert_ne by done. apply Hlt. lia.
    + intros i Hi. rewrite list_lookup_insert_ne by lia. apply Hge. lia.
  - cbn in Hn, Hlt, Hge. split; [by apply Hn|]. done.
Qed.


(** The flow of the stereo stage, whenever it returns: the right points
    are what the left-to-right flow returned; without [FLOW_BACK] the flags
    are its flags, with [FLOW_BACK] every flag is rewritten by the
    left-right check. *)
Lemma stereo_flow_run cfg (rightImg : Mat) st (right : list Point2f)
    (status : list uchar) :
  stereo_flow cfg rightImg st = Some (right, status) →
  let fwd := selected_lk cfg (cur_img st) rightImg (cur_pts st)
               (cur_right_pts st) 3 false in
  let rev := selected_lk cfg rightImg (cur_img st) fwd.1 [] 3 false in
  right = fwd.1
  ∧ (int_true (FLOW_BACK cfg) = false → status = fwd.2)
  ∧ (int_true (FLOW_BACK cfg) = true →
       length status = length fwd.2
       ∧ ∀ i, (i < length fwd.2)%nat →
           ∃ s, fwd.2 !! i = Some s
                ∧ status !! i
                  = stereo_flag (row st) (col st) rev.2 fwd.1 (cur_pts st)
                      rev.1 i s).
Proof.
  unfold stereo_flow, selected_lk. cbn zeta.
  set (lk := if negb (int_true (USE_GPU_ACC_FLOW cfg))
             then calcOpticalFlowPyrLK else cuda_SparsePyrLK).
  destruct (int_true (FLOW_BACK cfg)).
  - intros H. inv_bind H. simplify_eq. split; [done|]. split; [done|].
    intros _.
    match goal with
    | E : for_loop 0 _ ?body ?s = Some ?t |- _ =>
        apply (for_loop_pointwise_Some body
                 (stereo_flag (row st) (col st)
                    (lk rightImg (cur_img st)
                       (lk (cur_img st) rightImg (cur_pts st)
                          (cur_right_pts st) 3 false).1 [] 3 false).2
                    (lk (cur_img st) rightImg (cur_pts st)
                       (cur_right_pts st) 3 false).1
                    (cur_pts st)
                    (lk rightImg (cur_img st)
                       (lk (cur_img st) rightImg (cur_pts st)
                          (cur_right_pts st) 3 false).1 [] 3 false).1))
          in E as (_ & Hlen & Hlt & _)
    end.
    + split; [done|]. exact Hlt.
    + intros i t s Hs. unfold stereo_body, stereo_flag. rewrite Hs. cbn.
      destruct (truthy s); [|done].
      match goal with |- context [?l !! i] =>
        destruct (l !! i) as [r|]; [|done] end. cbn.
      destruct (truthy r); [|done].
      match goal with |- context [?l !! i ≫= _] =>
        destruct (l !! i) as [pr|]; [|done] end. cbn.
      destruct (inBorder (row st) (col st) pr); [|done].
      destruct (cur_pts st !! i) as [p|]; [|done]. cbn.
      match goal with |- context [?l !! i ≫= _] =>
        destruct (l !! i) as [q|]; [|done] end. cbn.
      by destruct (distance_le p q (1 # 2)).
    + intros i t Hnone. unfold stereo_body. by rewrite Hnone.
  - intros [= H]. rewrite H. cbn. done.
Qed.

(** The stereo stage with a right image on a stereo tracker, whenever it
    returns. *)
Lemma stereo_stage_run cfg (_img1 : Mat) st st' :
  stereo_stage cfg _img1 st = Some st' →
  negb (Mat_empty _img1) && stereo_cam st = true →
  prev_un_right_pts_map st' = cur_un_right_pts_map st'
  ∧ ((cur_pts st = [] ∧ ids_right st' = [] ∧ cur_right_pts st' = []
      ∧ cur_un_right_pts st' = [] ∧ right_pts_velocity st' = []
      ∧ cur_un_right_pts_map st' = ∅)
     ∨ (∃ (fl : list Point2f * list uchar) (cam1 : Camera)
          (s : State Mat Camera),
          stereo_flow cfg _img1 (set_cur_right_pts [] st) = Some fl
          ∧ m_camera st !! 1%nat = Some cam1
          ∧ (length fl.1 ≤ length fl.2)%nat
          ∧ (length (ids st) ≤ length fl.2)%nat
          ∧ ids_right st' = compact (ids st) fl.2
          ∧ cur_right_pts st' = compact fl.1 fl.2
          ∧ cur_un_right_pts st' = undistortedPts (cur_right_pts st') cam1
          ∧ cur_time s = cur_time st ∧ prev_time s = prev_time st
          ∧ cur_pts s = cur_pts st
          ∧ ptsVelocity s (ids_right st') (cur_un_right_pts st')
              (prev_un_right_pts_map st)
            = Some (right_pts_velocity st', cur_un_right_pts_map st'))).
Proof.
  unfold stereo_stage. intros H Hactive. rewrite Hactive in H.
  inv_bind H. simplify_eq. state_simpl. split; [done|].
  match goal with
  | E : (if ?c then _ else _) = Some _ |- _ => destruct c eqn:Hc
  end.
  - right.
    match goal with E : _ = Some _ |- _ => rename E into E0 end.
    state_simpl in E0.
    destruct (stereo_flow cfg _img1 _) as [fl|] eqn:Hfl;
      cbn [mbind option_bind] in E0; [|done].
    destruct (reduceVector fl.1 fl.2) as [r1|] eqn:Hr1;
      cbn [mbind option_bind] in E0; [|done].
    destruct (reduceVector (ids st) fl.2) as [r2|] eqn:Hr2;
      cbn [mbind option_bind] in E0; [|done].
    destruct (m_camera st !! 1%nat) as [cam1|] eqn:Hcam;
      cbn [mbind option_bind] in E0; [|done].
    match type of E0 with
    | context [ptsVelocity ?a ?b ?c ?d] =>
        destruct (ptsVelocity a b c d) as [[vel m]|] eqn:Hvel;
          cbn [mbind option_bind] in E0; [|done]
    end.
    simplify_eq. state_simpl.
    apply reduceVector_Some in Hr1 as [-> Hl1].
    apply reduceVector_Some in Hr2 as [-> Hl2].
    eexists fl, cam1, _. split.
    { rewrite <- Hfl. unfold stereo_flow. by state_simpl. }
    split; [done|]. split; [done|]. split; [done|].
    split; [done|]. split; [done|]. split; [done|].
    split; [|split; [|split; [|exact Hvel]]]; by state_simpl.
  - left. simplify_eq. state_simpl. state_simpl in Hc.
    apply negb_false_iff, Nat.eqb_eq, nil_length_inv in Hc. done.
Qed.

(** ** The report, whenever it is assembled *)

(** One report loop over an id vector without repetition: every id of the
    vector gets one more observation, at the end of its entry; the other
    entries stay. *)
Lemma report_loop_run (camera_id : Z) (l : list Z) (un pts vel : list Point2f)
    (ff0 ff : FeatureFrame) :
  NoDup l →
  for_loop 0 (length l) (report_body camera_id l un pts vel) ff0 = Some ff →
  (∀ id, id ∉ l → ff !! id = ff0 !! id)
  ∧ ∀ i id, l !! i = Some id →
      ∃ u p v, un !! i = Some u ∧ pts !! i = Some p ∧ vel !! i = Some v
               ∧ ff !! id
                 = Some (default [] (ff0 !! id)
                         ++ [(camera_id, xyz_uv_velocity u p v)]).
Proof.
  intros Hnd Hrun.
  pose proof (for_loop_inv_Some
    (λ k (t : FeatureFrame),
       (∀ id, id ∉ take k l → t !! id = ff0 !! id)
       ∧ ∀ i id, (i < k)%nat → l !! i = Some id →
           ∃ u p v, un !! i = Some u ∧ pts !! i = Some p ∧ vel !! i = Some v
                    ∧ t !! id
                      = Some (default [] (ff0 !! id)
                              ++ [(camera_id, xyz_uv_velocity u p v)]))
    (report_body camera_id l un pts vel) (length l) 0 ff0 ff) as Hinv.
  destruct Hinv as (Hout & Hin); [| |exact Hrun|].
  - split; [done|]. intros i id Hi. lia.
  - intros k t t' Hk (Hout & Hin) Hb. unfold report_body in Hb.
    destruct (l !! k) as [d|] eqn:Hd; cbn [mbind option_bind] in Hb; [|done].
    destruct (un !! k) as [u|] eqn:Hu; cbn [mbind option_bind] in Hb; [|done].
    destruct (pts !! k) as [p|] eqn:Hp; cbn [mbind option_bind] in Hb;
      [|done].
    destruct (vel !! k) as [v|] eqn:Hv; cbn [mbind option_bind] in Hb;
      [|done].
    simplify_eq. unfold frame_emplace.
    assert (d ∉ take k l) as Hfresh.
    { intros [j Hj]%list_elem_of_lookup.
      pose proof (lookup_lt_Some _ _ _ Hj) as Hjk.
      rewrite length_take in Hjk. rewrite lookup_take_lt in Hj by lia.
      pose proof (NoDup_lookup _ _ _ _ Hnd Hj Hd). lia. }
    split.
    + intros id Hid. rewrite (take_S_r _ _ d) in Hid by done.
      rewrite elem_of_app, list_elem_of_singleton in Hid.
      rewrite lookup_insert_ne by (intros ->; apply Hid; by right).
      apply Hout. intros ?. apply Hid. by left.
    + intros i id Hi Hli. destruct (decide (i = k)) as [->|Hne].
      * simplify_eq. exists u, p, v. do 3 (split; [done|]).
        rewrite lookup_insert_eq. by rewrite (Hout d Hfresh).
      * assert (id ≠ d) as Hidd.
        { intros ->. pose proof (NoDup_lookup _ _ _ _ Hnd Hli Hd). lia. }
        rewrite lookup_insert_ne by done. apply Hin; [lia|done].
  - cbn in Hout, Hin. split.
    + intros id Hid. apply Hout. by rewrite firstn_all.
    + intros i id Hli. apply Hin; [|done]. by eapply lookup_lt_Some.
Qed.

(** The loop of lines 778-779 over ids without repetition: the map holds
    exactly the pairs of the table. *)
Lemma prev_left_loop_run st (m : gmap Z Point2f) :
  NoDup (ids st) →
  for_loop 0 (length (cur_pts st)) (prev_left_body st) ∅ = Some m →
  (length (cur_pts st) ≤ length (ids st))%nat
  ∧ ∀ id p, m !! id = Some p ↔
      ∃ i, ids st !! i = Some id ∧ cur_pts st !! i = Some p.
Proof.
  intros Hnd Hrun.
  pose proof (for_loop_inv_Some
    (λ k (t : gmap Z Point2f),
       (k ≤ length (cur_pts st) → k ≤ length (ids st))%nat
       ∧ ∀ id p, t !! id = Some p ↔
           ∃ i, (i < k)%nat ∧ ids st !! i = Some id
                ∧ cur_pts st !! i = Some p)
    (prev_left_body st) (length (cur_pts st)) 0 ∅ m) as Hinv.
  destruct Hinv as (Hlen & Hm); [| |exact Hrun|].
  - split; [lia|]. intros id p. rewrite lookup_empty. split; [done|].
    intros (i & Hi & _). lia.
  - intros k t t' Hk (Hlen & Hm) Hb. unfold prev_left_body in Hb.
    destruct (ids st !! k) as [d|] eqn:Hd; cbn [mbind option_bind] in Hb;
      [|done].
    destruct (cur_pts st !! k) as [q|] eqn:Hq; cbn [mbind option_bind] in Hb;
      [|done].
    simplify_eq. split; [intros _; apply lookup_lt_Some in Hd; lia|].
    intros id p. destruct (decide (id = d)) as [->|Hne].
    + rewrite lookup_insert_eq. split.
      * intros ?. simplify_eq. exists k. split; [lia|done].
      * intros (i & Hi & Hid & Hp).
        pose proof (NoDup_lookup _ _ _ _ Hnd Hid Hd). simplify_eq.
        congruence.
    + rewrite lookup_insert_ne by done. rewrite Hm. split.
      * intros (i & Hi & Hrest). exists i. split; [lia|done].
      * intros (i & Hi & Hid & Hp). exists i. split; [|done].
        destruct (decide (i = k)) as [->|]; [congruence|lia].
  - cbn in Hlen, Hm. split; [by apply Hlen|]. intros id p. rewrite Hm.
    split.
    + intros (i & _ & Hrest). by exists i.
    + intros (i & Hid & Hp). exists i. split; [|done].
      by eapply lookup_lt_Some.
Qed.
(** * The report and the state a frame leaves *)

(** The two loops of the report of a frame, and what they run over. *)
Lemma trackImage_report cfg (_cur_time : Q) (_img _img1 : Mat) st st'
    (ff : FeatureFrame) :
  sort_contract std_sort →
  NoDup (ids st) → (∀ id, id ∈ ids st → id < n_id st) →
  trackImage cfg _cur_time _img _img1 st = Some (st', ff) →
  NoDup (ids st')
  ∧ (∃ cam0, m_camera st !! 0%nat = Some cam0
             ∧ cur_un_pts st' = undistortedPts (cur_pts st') cam0)
  ∧ ∃ ff1,
      for_loop 0 (length (ids st'))
        (report_body 0 (ids st') (cur_un_pts st') (cur_pts st')
           (pts_velocity st')) ∅ = Some ff1
      ∧ ((negb (Mat_empty _img1) && stereo_cam st = false ∧ ff = ff1)
         ∨ (negb (Mat_empty _img1) && stereo_cam st = true
            ∧ NoDup (ids_right st')
            ∧ ids_right st' `sublist_of` ids st'
            ∧ (ids_right st' = [] ∨
               ∃ cam1, m_camera st !! 1%nat = Some cam1
                       ∧ cur_un_right_pts st'
                         = undistortedPts (cur_right_pts st') cam1)
            ∧ for_loop 0 (length (ids_right st'))
                (report_body 1 (ids_right st') (cur_un_right_pts st')
                   (cur_right_pts st') (right_pts_velocity st')) ff1
              = Some ff)).
Proof.
  intros Hsort Hnd Hlt Hrun.
  destruct (trackImage_ids _ _ _ _ _ _ _ Hsort Hrun)
    as (Hn & kept & Hkept & Hids).
  assert (NoDup (ids st')) as Hnd'.
  { rewrite Hids. apply NoDup_app. split; [by eapply submseteq_NoDup_l|].
    split; [|apply NoDup_seqZ].
    intros id Hin Hseq. apply elem_of_seqZ in Hseq.
    specialize (Hlt id (elem_of_submseteq _ _ _ Hin Hkept)). lia. }
  destruct (trackImage_run _ _ _ _ _ _ _ Hrun)
    as (st1 & st3 & st5 & st6 & cam0 & s0 & _ & _ & _ & Hcam0 & _ & _ & _ & _
        & _ & Hun & _ & _ & (_ & Hs') & Hstereo & Hrep).
  destruct Hstereo as (E6 & Hi5 & _ & Hm5 & Hs5 & _ & _ & _ & _ & _ & _ & Hir
                       & Hcr & Hur & _).
  split; [done|]. split; [by exists cam0|].
  unfold report in Hrep.
  match type of Hrep with
  | context [for_loop 0 ?n ?b ∅] =>
      destruct (for_loop 0 n b ∅) as [ff1|] eqn:Hff1;
        cbn [mbind option_bind] in Hrep; [|done]
  end.
  exists ff1. split; [done|]. rewrite Hs' in Hrep.
  destruct (negb (Mat_empty _img1) && stereo_cam st) eqn:Hactive.
  - right. split; [done|].
    rewrite <- Hs5 in Hactive.
    destruct (stereo_stage_run _ _ _ _ E6 Hactive) as (_ & [Hempty|Hfull]).
    + destruct Hempty as (_ & Hnil & _). rewrite <- Hir in Hnil.
      rewrite Hnil in *. split; [constructor|]. split; [apply sublist_nil_l|].
      split; [by left|done].
    + destruct Hfull as (fl & cam1 & s1 & _ & Hcam1 & _ & _ & Hidr & Hcrp
                         & Hurp & _).
      assert (ids_right st' `sublist_of` ids st') as Hsub.
      { rewrite Hir, Hidr, <- Hi5. apply compact_sublist. }
      split; [by eapply sublist_NoDup|]. split; [done|]. split; [|done].
      right. exists cam1. rewrite <- Hm5. split; [done|].
      by rewrite Hur, Hcr.
  - left. split; [done|]. by simplify_eq.
Qed.

(** X13.  The entries of the report.  After a frame on a table without
    repeated ids, the report has no entry for an id outside [ids]; the
    entry of an id of [ids] starts with its camera-0 observation, built
    from the same position of [cur_un_pts], [cur_pts] and [pts_velocity];
    it ends there unless the stereo stage ran and the id is in
    [ids_right], and then the camera-1 observation, built from the
    position of the id in [ids_right], follows as second and last. *)
Theorem report_entries cfg (_cur_time : Q) (_img _img1 : Mat) st st'
    (ff : FeatureFrame) :
  sort_contract std_sort →
  NoDup (ids st) → (∀ id, id ∈ ids st → id < n_id st) →
  trackImage cfg _cur_time _img _img1 st = Some (st', ff) →
  (∀ id, id ∉ ids st' → ff !! id = None)
  ∧ ∀ i id, ids st' !! i = Some id →
      ∃ u p v,
        cur_un_pts st' !! i = Some u ∧ cur_pts st' !! i = Some p
        ∧ pts_velocity st' !! i = Some v
        ∧ (negb (Mat_empty _img1) && stereo_cam st = false
           ∨ id ∉ ids_right st' →
           ff !! id = Some [(0, xyz_uv_velocity u p v)])
        ∧ (negb (Mat_empty _img1) && stereo_cam st = true →
           ∀ j, ids_right st' !! j = Some id →
             ∃ ur pr vr,
               cur_un_right_pts st' !! j = Some ur
               ∧ cur_right_pts st' !! j = Some pr
               ∧ right_pts_velocity st' !! j = Some vr
               ∧ ff !! id = Some [(0, xyz_uv_velocity u p v);
                                  (1, xyz_uv_velocity ur pr vr)]).
Proof.
  intros Hsort Hnd Hlt Hrun.
  destruct (trackImage_report _ _ _ _ _ _ _ Hsort Hnd Hlt Hrun)
    as (Hnd' & _ & ff1 & Hff1 & Hright).
  destruct (report_loop_run _ _ _ _ _ _ _ Hnd' Hff1) as [Hout1 Hin1].
  split.
  - intros id Hid. destruct Hright as [[_ ->]|(_ & Hndr & Hsub & _ & Hff)].
    + by rewrite Hout1, lookup_empty.
    + destruct (report_loop_run _ _ _ _ _ _ _ Hndr Hff) as [Hout _].
      rewrite Hout, Hout1, ?lookup_empty; [done|done|].
      intros Hin. apply Hid.
      eapply elem_of_submseteq; [exact Hin|by apply sublist_submseteq].
  - intros i id Hi. destruct (Hin1 i id Hi) as (u & p & v & Hu & Hp & Hv & He).
    rewrite lookup_empty in He. cbn in He.
    exists u, p, v. do 3 (split; [done|]).
    destruct Hright as [[Hoff ->]|(Hon & Hndr & Hsub & _ & Hff)].
    + split; [done|]. intros Hon. congruence.
    + destruct (report_loop_run _ _ _ _ _ _ _ Hndr Hff) as [Hout Hin].
      split.
      * intros [Hoff|Hnotin]; [congruence|]. by rewrite Hout.
      * intros _ j Hj.
        destruct (Hin j id Hj) as (ur & pr & vr & Hur & Hpr & Hvr & He').
        exists ur, pr, vr. do 3 (split; [done|]). by rewrite He', He.
Qed.

(** X14.  Every observation of the report is consistent with the camera
    it names: it belongs to camera 0 or camera 1, that camera exists, its
    third entry is 1, and its first two entries are the normalised ray
    [undistortedPts] computes with that camera for the pixel position in
    its fourth and fifth entry. *)
Theorem report_normalised cfg (_cur_time : Q) (_img _img1 : Mat) st st'
    (ff : FeatureFrame) :
  sort_contract std_sort →
  NoDup (ids st) → (∀ id, id ∈ ids st → id < n_id st) →
  trackImage cfg _cur_time _img _img1 st = Some (st', ff) →
  ∀ id o, o ∈ default [] (ff !! id) →
    ∃ cam u p v,
      (o.1 = 0 ∨ o.1 = 1)
      ∧ m_camera st !! Z.to_nat o.1 = Some cam
      ∧ undistortedPts [p] cam = [u]
      ∧ o.2 = [pt_x u; pt_y u; 1%Q; pt_x p; pt_y p; pt_x v; pt_y v].
Proof.
  intros Hsort Hnd Hlt Hrun id o Ho.
  destruct (trackImage_report _ _ _ _ _ _ _ Hsort Hnd Hlt Hrun)
    as (Hnd' & (cam0 & Hcam0 & Hun) & ff1 & Hff1 & Hright).
  destruct (report_loop_run _ _ _ _ _ _ _ Hnd' Hff1) as [Hout1 Hin1].
  assert (∀ o1, o1 ∈ default [] (ff1 !! id) →
            ∃ cam u p v,
              (o1.1 = 0 ∨ o1.1 = 1)
              ∧ m_camera st !! Z.to_nat o1.1 = Some cam
              ∧ undistortedPts [p] cam = [u]
              ∧ o1.2 = [pt_x u; pt_y u; 1%Q; pt_x p; pt_y p; pt_x v; pt_y v])
    as Hleft.
  { intros o1 Ho1. destruct (decide (id ∈ ids st')) as [Hin|Hnot].
    - apply list_elem_of_lookup in Hin as [i Hi].
      destruct (Hin1 i id Hi) as (u & p & v & Hu & Hp & Hv & He).
      rewrite He, lookup_empty in Ho1. cbn in Ho1.
      apply list_elem_of_singleton in Ho1 as ->. cbn.
      exists cam0, u, p, v. split; [by left|]. split; [done|].
      split; [|done].
      rewrite Hun, undistortedPts_lookup, Hp in Hu. cbn in Hu.
      unfold undistortedPts. cbn. by simplify_eq.
    - rewrite Hout1, lookup_empty in Ho1 by done. by apply elem_of_nil in Ho1. }
  destruct Hright as [[_ ->]|(_ & Hndr & Hsub & Hcam1 & Hff)]; [by apply Hleft|].
  destruct (report_loop_run _ _ _ _ _ _ _ Hndr Hff) as [Hout Hin].
  destruct (decide (id ∈ ids_right st')) as [Hinr|Hnot].
  - apply list_elem_of_lookup in Hinr as [j Hj].
    destruct (Hin j id Hj) as (ur & pr & vr & Hur & Hpr & Hvr & He).
    rewrite He in Ho. cbn in Ho. apply elem_of_app in Ho as [Ho|Ho];
      [by apply Hleft|].
    apply list_elem_of_singleton in Ho as ->. cbn.
    destruct Hcam1 as [Hnil|(cam1 & Hc1 & Hunr)].
    { rewrite Hnil in Hj. done. }
    exists cam1, ur, pr, vr. split; [by right|]. split; [done|].
    split; [|done].
    rewrite Hunr, undistortedPts_lookup, Hpr in Hur. cbn in Hur.
    unfold undistortedPts. cbn. by simplify_eq.
  - rewrite Hout in Ho by done. by apply Hleft.
Qed.

(** X15.  A frame rolls the tracker forward: afterwards the previous
    image, points, normalised points, normalised map and time are the
    current ones, the prediction flag is cleared, and, the table having no
    repeated id, both id-to-position maps hold exactly the pairs of the
    table: [prev_un_pts_map] the normalised and [prevLeftPtsMap] the pixel
    position of every id. *)
Theorem trackImage_rolls_forward cfg (_cur_time : Q) (_img _img1 : Mat) st st'
    (ff : FeatureFrame) :
  sort_contract std_sort →
  NoDup (ids st) → (∀ id, id ∈ ids st → id < n_id st) →
  trackImage cfg _cur_time _img _img1 st = Some (st', ff) →
  (prev_img st' = cur_img st' ∧ prev_pts st' = cur_pts st'
   ∧ prev_un_pts st' = cur_un_pts st'
   ∧ prev_un_pts_map st' = cur_un_pts_map st'
   ∧ prev_time st' = cur_time st' ∧ cur_time st' = _cur_time
   ∧ hasPrediction st' = false)
  ∧ (∀ id u, prev_un_pts_map st' !! id = Some u ↔
       ∃ i, ids st' !! i = Some id ∧ cur_un_pts st' !! i = Some u)
  ∧ (∀ id p, prevLeftPtsMap st' !! id = Some p ↔
       ∃ i, ids st' !! i = Some id ∧ cur_pts st' !! i = Some p).
Proof.
  intros Hsort Hnd Hlt Hrun.
  destruct (trackImage_report _ _ _ _ _ _ _ Hsort Hnd Hlt Hrun)
    as (Hnd' & _).
  destruct (trackImage_run _ _ _ _ _ _ _ Hrun)
    as (st1 & st3 & st5 & st6 & cam0 & s0 & _ & _ & _ & _ & _ & Hc' & _ & _
        & _ & Hun & (_ & _ & _ & Hvel)
        & (Hpp & Hpu & Hpm & Hpt & Hct & Hpi & Hci & _ & _ & Hhp & _) & _).
  split; [by rewrite Hpi, Hci, Hpt, Hct|]. split.
  - intros id u. rewrite Hpm.
    destruct (ptsVelocity_run _ _ _ _ _ _ Hvel) as (_ & Hdom & Hval). split.
    + intros Hm. destruct (Hval id u Hm) as (i & Hi & Hu & _). by exists i.
    + intros (i & Hi & Hu).
      destruct (proj2 (Hdom id)) as [u' Hu'].
      { apply list_elem_of_lookup. by exists i. }
      destruct (Hval id u' Hu') as (i' & Hi' & Hui' & _).
      pose proof (NoDup_lookup _ _ _ _ Hnd' Hi Hi'). simplify_eq. congruence.
  - destruct (trackImage_stages _ _ _ _ _ _ _ Hrun)
      as (t1 & t2 & t3 & t4 & t5 & t6 & _ & _ & _ & _ & _ & _ & E7 & _).
    pose proof (roll_forward_run _ _ E7) as F7.
    assert (ids st' = ids t6 ∧ cur_pts st' = cur_pts t6) as [Hi6 Hc6]
      by (rewrite F7; by state_simpl).
    unfold roll_forward in E7.
    match type of E7 with
    | context [for_loop 0 ?n (prev_left_body ?s) ∅] =>
        destruct (for_loop 0 n (prev_left_body s) ∅) as [m|] eqn:Hm;
          cbn [mbind option_bind] in E7; [|done];
        destruct (prev_left_loop_run s m) as [_ Hmap]
    end.
    { state_simpl. by rewrite <- Hi6. }
    { exact Hm. }
    simplify_eq. state_simpl. state_simpl in Hmap. exact Hmap.
Qed.

(** X17.  The right points are tested against the border only by the
    left-right check.  With [FLOW_BACK] set every point the stereo stage
    keeps in [cur_right_pts] passes [inBorder]; without [FLOW_BACK] the
    stage keeps every point whose left-to-right flow flag is set, wherever
    the flow put it. *)
Theorem stereo_border_check cfg (_img1 : Mat) st st' :
  stereo_stage cfg _img1 st = Some st' →
  negb (Mat_empty _img1) && stereo_cam st = true →
  (int_true (FLOW_BACK cfg) = true →
     Forall (λ p, inBorder (row st) (col st) p = true) (cur_right_pts st'))
  ∧ (int_true (FLOW_BACK cfg) = false → cur_pts st ≠ [] →
       let fwd := selected_lk cfg (cur_img st) _img1 (cur_pts st) [] 3 false in
       cur_right_pts st' = compact fwd.1 fwd.2
       ∧ ids_right st' = compact (ids st) fwd.2).
Proof.
  intros Hrun Hactive.
  destruct (stereo_stage_run _ _ _ _ Hrun Hactive) as (_ & [Hempty|Hfull]).
  { destruct Hempty as (Hnil & _ & Hr & _). rewrite Hr.
    split; [by constructor|]. intros _ Hne. done. }
  destruct Hfull as (fl & cam1 & s1 & Hfl & _ & _ & _ & Hidr & Hcr & _).
  destruct fl as [right status].
  destruct (stereo_flow_run _ _ _ _ _ Hfl) as (Hright & Hoff & Hon).
  state_simpl in Hright. state_simpl in Hoff. state_simpl in Hon.
  cbn [fst snd] in Hidr, Hcr. split.
  - intros Hfb. destruct (Hon Hfb) as [Hlen Hflag].
    rewrite Hcr. apply Forall_forall. intros p Hp.
    apply list_elem_of_lookup in Hp as [k Hk].
    destruct (compact_lookup _ _ _ _ Hk) as (i & a & Hpi & Hai & Hta & _).
    destruct (Hflag i) as (s & Hs & Hst).
    { rewrite <- Hlen. by eapply lookup_lt_Some. }
    rewrite Hai in Hst. unfold stereo_flag in Hst.
    rewrite <- Hright in Hst.
    destruct (truthy s); [|by simplify_eq].
    match type of Hst with context [?l !! i ≫= _] =>
      destruct (l !! i) as [r|]; [|done] end.
    cbn in Hst. destruct (truthy r); [|by simplify_eq].
    rewrite Hpi in Hst. cbn in Hst.
    destruct (inBorder (row st) (col st) p); [done|by simplify_eq].
  - intros Hfb _. cbn zeta. rewrite Hcr, Hidr, Hright, (Hoff Hfb). done.
Qed.

(** * The operations one by one *)

(** X1.  [reduceVector] as a filter: when [status] has at least as many
    flags as [v] has elements, the call leaves in [v] exactly the elements
    whose flag is not 0, in their order, and ignores the flags past the end
    of [v]; when [status] is shorter than [v] the loop reads a flag out of
    range. *)
Theorem reduceVector_filter {A : Type} (v : list A) (status : list uchar) :
  reduceVector v status
  = if decide (length v ≤ length status)%nat
    then Some ((filter (λ xs : A * uchar, xs.2 ≠ 0) (zip v status)).*1)
    else None.
Proof.
  destruct (decide (length v ≤ length status)%nat) as [Hle|Hgt].
  - by rewrite reduceVector_spec, compact_filter.
  - apply reduceVector_short. lia.
Qed.

(** [removeOutliers] on a table with aligned vectors. *)
Lemma removeOutliers_ok (removePtsIds : gset Z) st :
  length (prev_pts st) = length (ids st) →
  length (track_cnt st) = length (ids st) →
  removeOutliers removePtsIds st
  = Some (set_track_cnt
            (compact (track_cnt st) (outlier_status removePtsIds (ids st)))
            (set_ids (compact (ids st) (outlier_status removePtsIds (ids st)))
              (set_prev_pts
                 (compact (prev_pts st)
                    (outlier_status removePtsIds (ids st))) st))).
Proof.
  intros Hp Hc. unfold removeOutliers.
  pose proof (outlier_status_length removePtsIds (ids st)) as Hs.
  by rewrite !reduceVector_spec by lia.
Qed.

Lemma compact_outlier_union {T : Type} (v : list T) (l : list Z)
    (A B : gset Z) :
  compact (compact v (outlier_status A l))
    (outlier_status B (compact l (outlier_status A l)))
  = compact v (outlier_status (A ∪ B) l).
Proof.
  rewrite !outlier_status_map. revert v.
  induction l as [|id l IH]; intros [|x v]; try (cbn; done).
  cbn [map compact].
  - destruct (decide (id ∈ A)) as [Ha|Ha].
    + rewrite (bool_decide_eq_true_2 (id ∈ A)) by done.
      rewrite (bool_decide_eq_true_2 (id ∈ A ∪ B)) by set_solver. cbn.
      by rewrite ?IH.
    + rewrite (bool_decide_eq_false_2 (id ∈ A)) by done. cbn.
      destruct (decide (id ∈ B)) as [Hb|Hb].
      * rewrite (bool_decide_eq_true_2 (id ∈ B)) by done.
        rewrite (bool_decide_eq_true_2 (id ∈ A ∪ B)) by set_solver. cbn.
        by rewrite ?IH.
      * rewrite (bool_decide_eq_false_2 (id ∈ B)) by done.
        rewrite (bool_decide_eq_false_2 (id ∈ A ∪ B)) by set_solver. cbn.
        by rewrite ?IH.
Qed.

(** X2.  Two calls of [removeOutliers] in a row amount to one call with
    the union of the two sets; in particular a second call with the same
    set changes nothing.  Both sides return on a table whose [prev_pts],
    [ids] and [track_cnt] have one length. *)
Theorem removeOutliers_union (A B : gset Z) st :
  length (prev_pts st) = length (ids st) →
  length (track_cnt st) = length (ids st) →
  is_Some (removeOutliers (A ∪ B) st)
  ∧ (st1 ← removeOutliers A st; removeOutliers B st1)
    = removeOutliers (A ∪ B) st
  ∧ (st1 ← removeOutliers A st; removeOutliers A st1) = removeOutliers A st.
Proof.
  intros Hp Hc.
  assert (∀ C : gset Z,
            (st1 ← removeOutliers A st; removeOutliers C st1)
            = removeOutliers (A ∪ C) st) as Hunion.
  { intros C. rewrite (removeOutliers_ok A st Hp Hc). cbn [mbind option_bind].
    rewrite removeOutliers_ok
      by (state_simpl; apply compact_length_eq; done).
    rewrite (removeOutliers_ok (A ∪ C) st Hp Hc). state_simpl.
    f_equal. rewrite !compact_outlier_union. by state_eq. }
  split; [rewrite removeOutliers_ok by done; by eexists|].
  split; [apply Hunion|].
  rewrite Hunion. by replace (A ∪ A) with A by set_solver.
Qed.

(** X3.  [addPoints] and the id counter.  With the counter in the range
    of [int], the call returns exactly when counting one id per new point
    does not pass [INT_MAX]; and then it appends the new points to
    [cur_pts] and a count of 1 per new point to [track_cnt], so the three
    vectors of the table grow by the same number. *)
Theorem addPoints_overflow st :
  n_id st ≤ INT_MAX →
  (is_Some (addPoints st)
   ↔ n_id st + Z.of_nat (length (n_pts st)) ≤ INT_MAX)
  ∧ ∀ st', addPoints st = Some st' →
      cur_pts st' = cur_pts st ++ n_pts st
      ∧ track_cnt st' = track_cnt st ++ replicate (length (n_pts st)) 1
      ∧ length (ids st') = (length (ids st) + length (n_pts st))%nat.
Proof.
  intros Hn. split.
  - split.
    + intros [st' Hrun]. unfold addPoints in Hrun.
      apply addPoints_loop_Some in Hrun as [_ Hle]. lia.
    + intros Hle. by apply addPoints_loop_ok.
  - intros st' Hrun. unfold addPoints in Hrun.
    apply addPoints_loop_Some in Hrun as [-> _]. state_simpl.
    split; [done|]. split; [done|].
    by rewrite length_app, length_seqZ, Nat2Z.id.
Qed.

(** X4.  [setPrediction] on a tracker with a camera whose [prev_pts] is
    at least as long as [ids]: it returns, sets [hasPrediction], leaves
    every member but [predict_pts] alone, and [predict_pts] gets one point
    per id of the table: the projection of the predicted point by camera 0
    for an id the map has, the previous point of the track otherwise. *)
Theorem setPrediction_spec (predictPts : gmap Z (Q * Q * Q)) st :
  (length (ids st) ≤ length (prev_pts st))%nat →
  (1 ≤ length (m_camera st))%nat →
  ∃ st' cam0,
    m_camera st !! 0%nat = Some cam0
    ∧ setPrediction predictPts st = Some st'
    ∧ st' = set_predict_pts (predict_pts st') (set_hasPrediction true st)
    ∧ length (predict_pts st') = length (ids st)
    ∧ ∀ i id, ids st !! i = Some id →
        predict_pts st' !! i
        = match predictPts !! id with
          | Some ray => Some (mkPoint2f (spaceToPlane cam0 ray).1
                                (spaceToPlane cam0 ray).2)
          | None => prev_pts st !! i
          end.
Proof.
  intros Hlen Hcam.
  destruct (lookup_lt_is_Some_2 (m_camera st) 0) as [cam0 Hcam0]; [lia|].
  unfold setPrediction. state_simpl.
  destruct (for_loop_inv
    (λ k (t : State Mat Camera),
       t = set_predict_pts (predict_pts t) (set_hasPrediction true st)
       ∧ length (predict_pts t) = k
       ∧ ∀ i id, (i < k)%nat → ids st !! i = Some id →
           predict_pts t !! i
           = match predictPts !! id with
             | Some ray => Some (mkPoint2f (spaceToPlane cam0 ray).1
                                   (spaceToPlane cam0 ray).2)
             | None => prev_pts st !! i
             end)
    (prediction_body predictPts) (length (ids st)) 0
    (set_predict_pts [] (set_hasPrediction true st)))
    as (st' & Hrun & Hframe & Hl & Hpts).
  - split; [by state_eq|]. split; [done|]. intros i id Hi. lia.
  - intros k t Hk (Ht & Hl & Hpts).
    assert (ids t = ids st ∧ m_camera t = m_camera st
            ∧ prev_pts t = prev_pts st) as (Hi & Hm & Hp)
      by (rewrite Ht; by state_simpl).
    destruct (lookup_lt_is_Some_2 (ids st) k) as [d Hd]; [lia|].
    destruct (lookup_lt_is_Some_2 (prev_pts st) k) as [q Hq]; [lia|].
    unfold prediction_body. rewrite Hi, Hd, Hm, Hcam0, Hp, Hq.
    cbn [mbind option_bind].
    destruct (predictPts !! d) as [ray|] eqn:Hray; cbn [mbind option_bind];
      (eexists; split; [done|]); state_simpl;
      (split; [rewrite Ht; by state_eq|]);
      (split; [rewrite length_app; cbn; lia|]);
      intros i id Hik Hid;
      (destruct (decide (i = k)) as [->|Hne];
       [rewrite lookup_app_r by lia; rewrite Hl, Nat.sub_diag; simplify_eq;
        by rewrite Hray
       |rewrite lookup_app_l by lia; apply Hpts; [lia|done]]).
  - exists st', cam0. split; [done|]. split; [done|]. split; [done|].
    split; [done|]. intros i id Hid. apply Hpts; [|done].
    by eapply lookup_lt_Some.
Qed.

(** X18.  [setMask] keeps a track of greatest age, first.  On a table
    that is not empty, whose points round to pixels of the image, the first
    track after the call is a track of the table before the call whose
    count no count of the table exceeds. *)
Theorem setMask_keeps_oldest cfg st :
  sort_contract std_sort → fill_contract →
  length (ids st) = length (cur_pts st) →
  length (track_cnt st) = length (cur_pts st) →
  cur_pts st ≠ [] →
  Forall (λ p, 0 ≤ cvRound (pt_x p) < col st ∧ 0 ≤ cvRound (pt_y p) < row st)
    (cur_pts st) →
  ∃ st' it rest,
    setMask cfg st = Some st'
    ∧ tracks st' = it :: rest
    ∧ it ∈ tracks st
    ∧ ∀ c, c ∈ track_cnt st → c ≤ it.1.
Proof.
  intros Hsort Hfill Hi Hc Hne Himg.
  destruct (setMask_ok cfg st Hi Hc) as (st' & Hrun & Hw & _ & Hli & Hlc & _).
  destruct (Hsort (tracks st)) as [Hperm Hsorted].
  destruct (unzip_entries (track_cnt st) (cur_pts st) (ids st))
    as (Hcnts & Hpts & _); [lia|lia|]. fold (tracks st) in Hcnts, Hpts.
  destruct (std_sort cnt_gt (tracks st)) as [|it rest0] eqn:Hs.
  { apply Permutation_nil_l in Hperm. exfalso. apply Hne.
    rewrite <- Hpts, <- Hperm. done. }
  assert (it ∈ tracks st) as Hin by (rewrite <- Hperm; left).
  assert (Mat_at (Mat_fill (row st) (col st) 255) (toPoint2i it.2.1) = 255)
    as Hfree.
  { assert (it.2.1 ∈ cur_pts st) as Hp.
    { rewrite <- Hpts. apply list_elem_of_fmap. by exists it. }
    eapply Forall_forall in Himg; [|exact Hp].
    apply Hfill; unfold toPoint2i; cbn; lia. }
  unfold walk in Hw. cbn [foldl] in Hw.
  destruct (mask_visit_spec (MIN_DIST cfg)
              (Mat_fill (row st) (col st) 255, ([], [], [])) it)
    as (Hal1 & He1 & _); [done|].
  cbn [fst] in He1. rewrite Hfree, Z.eqb_refl in He1.
  change (walk_entries (Mat_fill (row st) (col st) 255, ([], [], [])))
    with (@nil CntPtsId) in He1.
  destruct (walk_foldl_spec (MIN_DIST cfg) rest0 _ Hal1)
    as (_ & kept & _ & Hk).
  rewrite He1 in Hk. rewrite <- Hw in Hk. unfold walk_entries in Hk.
  cbn in Hk.
  exists st', it, kept. split; [done|]. split; [exact Hk|]. split; [done|].
  intros c Hcin. rewrite <- Hcnts in Hcin.
  apply list_elem_of_fmap in Hcin as (x & -> & Hx).
  rewrite <- Hperm in Hx. apply elem_of_cons in Hx as [->|Hx]; [lia|].
  apply StronglySorted_inv in Hsorted as [_ Hall].
  eapply Forall_forall in Hall; [|exact Hx]. unfold cnt_gt in Hall.
  apply Z.ltb_ge in Hall. done.
Qed.

(** X19.  An image with fewer than three columns or fewer than three rows
    has no pixel inside the border: [inBorder] is false everywhere, and
    the propagation stage on such an image, with a previous frame, leaves
    the table empty. *)
Theorem propagate_small_image cfg st :
  flow_contract calcOpticalFlowPyrLK → flow_contract cuda_SparsePyrLK →
  length (ids st) = length (prev_pts st) →
  length (track_cnt st) = length (prev_pts st) →
  (0 < length (prev_pts st))%nat →
  col st ≤ 2 ∨ row st ≤ 2 →
  (∀ p, inBorder (row st) (col st) p = false)
  ∧ ∃ st',
      propagate cfg st = Some st'
      ∧ prev_pts st' = [] ∧ cur_pts st' = [] ∧ ids st' = []
      ∧ track_cnt st' = [].
Proof.
  intros H1 H2 Hids Hcnt Hpos Hsmall.
  assert (∀ p, inBorder (row st) (col st) p = false) as Hout.
  { intros p. destruct (inBorder (row st) (col st) p) eqn:Hin; [|done].
    apply inBorder_true in Hin. lia. }
  split; [done|].
  destruct (propagate_spec cfg st H1 H2 Hids Hcnt Hpos)
    as (fp & fs & t & st' & _ & Hrun & Hlp & Hls & Hlt & Ht & Hc & Hp & Hi
        & Hcn).
  exists st'. split; [done|].
  assert (Forall (λ s, s = 0) t) as Hzero.
  { apply Forall_forall. intros a [i Ha]%list_elem_of_lookup.
    pose proof (lookup_lt_Some _ _ _ Ha) as Hlti.
    destruct (lookup_lt_is_Some_2 fs i) as [s Hs]; [lia|].
    destruct (lookup_lt_is_Some_2 fp i) as [p Hpi]; [lia|].
    rewrite (Ht i s p Hs Hpi), Hout in Ha. cbn in Ha.
    rewrite andb_true_r in Ha. unfold truthy in Ha.
    destruct (Z.eqb_spec s 0); cbn in Ha; by simplify_eq. }
  rewrite Hp, Hc, Hi, Hcn. by rewrite !compact_none.
Qed.

(** * The functions outside the frame pipeline *)

(** ** [rejectWithF] *)

Section RejectWithF_props.

Variables (FOCAL_LENGTH F_THRESHOLD : Q).
Variable findFundamentalMat : list Point2f → list Point2f → Q → list uchar.

(** The loop of lines 836-848 fills both vectors with the pinhole
    projections. *)
Lemma rejectWithF_loop st (cam0 : Camera) :
  m_camera st !! 0%nat = Some cam0 →
  length (prev_pts st) = length (cur_pts st) →
  for_loop 0 (length (cur_pts st)) (rejectWithF_body FOCAL_LENGTH st)
    (replicate (length (cur_pts st)) Point2f_zero,
     replicate (length (prev_pts st)) Point2f_zero)
  = Some (pinhole FOCAL_LENGTH (row st) (col st) cam0 <$> cur_pts st,
          pinhole FOCAL_LENGTH (row st) (col st) cam0 <$> prev_pts st).
Proof.
  intros Hcam Hlen.
  set (f := pinhole FOCAL_LENGTH (row st) (col st) cam0).
  destruct (for_loop_inv
    (λ k (un : list Point2f * list Point2f),
       length un.1 = length (cur_pts st)
       ∧ length un.2 = length (cur_pts st)
       ∧ (∀ i, (i < k)%nat → un.1 !! i = f <$> cur_pts st !! i)
       ∧ (∀ i, (i < k)%nat → un.2 !! i = f <$> prev_pts st !! i))
    (rejectWithF_body FOCAL_LENGTH st) (length (cur_pts st)) 0
    (replicate (length (cur_pts st)) Point2f_zero,
     replicate (length (prev_pts st)) Point2f_zero))
    as ([u1 u2] & Hrun & Hl1 & Hl2 & Hv1 & Hv2).
  - cbn. rewrite !length_replicate. split; [done|]. split; [done|].
    split; intros i Hi; lia.
  - intros k [u1 u2] Hk (Hl1 & Hl2 & Hv1 & Hv2). cbn in Hl1, Hl2, Hv1, Hv2.
    destruct (lookup_lt_is_Some_2 (cur_pts st) k) as [c Hc]; [lia|].
    destruct (lookup_lt_is_Some_2 (prev_pts st) k) as [p Hp]; [lia|].
    unfold rejectWithF_body, vector_set. rewrite Hcam, Hc, Hp.
    cbn [mbind option_bind fst snd].
    assert ((k <? length u1)%nat = true) as -> by (apply Nat.ltb_lt; lia).
    cbn [mbind option_bind fst snd].
    assert ((k <? length u2)%nat = true) as -> by (apply Nat.ltb_lt; lia).
    cbn [mbind option_bind fst snd]. eexists. split; [done|].
    cbn [fst snd]. rewrite !length_insert.
    split; [done|]. split; [done|]. fold f.
    split; intros i Hi; (destruct (decide (i = k)) as [->|Hne];
      [rewrite list_lookup_insert_eq by lia; by rewrite ?Hc, ?Hp
      |rewrite list_lookup_insert_ne by done; auto with lia]).
  - rewrite Hrun. cbn in Hl1, Hl2, Hv1, Hv2. f_equal. f_equal.
    + apply list_eq. intros i. rewrite list_lookup_fmap.
      destruct (decide (i < length (cur_pts st))%nat) as [Hi|Hi].
      * apply Hv1. lia.
      * by rewrite !lookup_ge_None_2 by lia.
    + apply list_eq. intros i. rewrite list_lookup_fmap.
      destruct (decide (i < length (cur_pts st))%nat) as [Hi|Hi].
      * apply Hv2. lia.
      * by rewrite !lookup_ge_None_2 by lia.
Qed.

(** X20.  [rejectWithF] on a table whose five vectors have one length, with
    a camera and a [findFundamentalMat] that returns one flag per pair:
    with fewer than 8 points it leaves the tracker alone; otherwise it asks
    for the inliers of the pinhole projections of the current and previous
    points and compacts [prev_pts], [cur_pts], [cur_un_pts], [ids] and
    [track_cnt] by these flags, which keeps them aligned, and assigns no
    other member. *)
Theorem rejectWithF_spec st :
  fundamental_contract findFundamentalMat →
  (1 ≤ length (m_camera st))%nat →
  length (prev_pts st) = length (cur_pts st) →
  length (cur_un_pts st) = length (cur_pts st) →
  length (ids st) = length (cur_pts st) →
  length (track_cnt st) = length (cur_pts st) →
  ∃ st' cam0,
    m_camera st !! 0%nat = Some cam0
    ∧ rejectWithF FOCAL_LENGTH F_THRESHOLD findFundamentalMat st = Some st'
    ∧ ((length (cur_pts st) < 8)%nat → st' = st)
    ∧ ((8 ≤ length (cur_pts st))%nat →
         let status :=
           findFundamentalMat
             (pinhole FOCAL_LENGTH (row st) (col st) cam0 <$> cur_pts st)
             (pinhole FOCAL_LENGTH (row st) (col st) cam0 <$> prev_pts st)
             F_THRESHOLD in
         prev_pts st' = compact (prev_pts st) status
         ∧ cur_pts st' = compact (cur_pts st) status
         ∧ cur_un_pts st' = compact (cur_un_pts st) status
         ∧ ids st' = compact (ids st) status
         ∧ track_cnt st' = compact (track_cnt st) status
         ∧ st' = set_track_cnt (track_cnt st') (set_ids (ids st')
                   (set_cur_un_pts (cur_un_pts st')
                     (set_cur_pts (cur_pts st')
                       (set_prev_pts (prev_pts st') st)))))
    ∧ length (prev_pts st') = length (cur_pts st')
    ∧ length (cur_un_pts st') = length (cur_pts st')
    ∧ length (ids st') = length (cur_pts st')
    ∧ length (track_cnt st') = length (cur_pts st').
Proof.
  intros Hf Hcam Hp Hu Hi Hc.
  destruct (lookup_lt_is_Some_2 (m_camera st) 0) as [cam0 Hcam0]; [lia|].
  unfold rejectWithF.
  destruct (Nat.leb_spec 8 (length (cur_pts st))) as [Hge|Hlt].
  - rewrite (rejectWithF_loop st cam0 Hcam0 Hp). cbn [mbind option_bind].
    cbn [fst snd].
    set (status := findFundamentalMat _ _ _).
    assert (length status = length (cur_pts st)) as Hs.
    { unfold status. rewrite Hf; rewrite !length_fmap; [done|lia]. }
    rewrite !reduceVector_spec by lia. cbn [mbind option_bind].
    eexists _, cam0. split; [done|]. split; [done|]. state_simpl.
    split; [intros ?; lia|].
    split; [intros _; do 5 (split; [done|]); by state_eq|].
    split; [by apply compact_length_eq|]. split; [by apply compact_length_eq|].
    split; by apply compact_length_eq.
  - exists st, cam0. split; [done|]. split; [done|]. split; [done|].
    split; [intros ?; lia|]. done.
Qed.

(** X21.  [rejectWithF] requires [cur_un_pts] to be as short as the flags:
    when [cur_un_pts] is longer than [cur_pts], as it is in the middle of a
    frame that has lost a track, and at least 8 points are left, the third
    [reduceVector] reads a flag out of range and the call does not
    return. *)
Theorem rejectWithF_stale st :
  fundamental_contract findFundamentalMat →
  (1 ≤ length (m_camera st))%nat →
  length (prev_pts st) = length (cur_pts st) →
  (8 ≤ length (cur_pts st))%nat →
  (length (cur_pts st) < length (cur_un_pts st))%nat →
  rejectWithF FOCAL_LENGTH F_THRESHOLD findFundamentalMat st = None.
Proof.
  intros Hf Hcam Hp Hge Hstale.
  destruct (lookup_lt_is_Some_2 (m_camera st) 0) as [cam0 Hcam0]; [lia|].
  unfold rejectWithF.
  assert ((8 <=? length (cur_pts st))%nat = true) as ->
    by (by apply Nat.leb_le).
  rewrite (rejectWithF_loop st cam0 Hcam0 Hp). cbn [mbind option_bind].
  cbn [fst snd].
  set (status := findFundamentalMat _ _ _).
  assert (length status = length (cur_pts st)) as Hs.
  { unfold status. rewrite Hf; rewrite !length_fmap; [done|lia]. }
  rewrite (reduceVector_spec (prev_pts st)) by lia.
  rewrite (reduceVector_spec (cur_pts st)) by lia.
  cbn [mbind option_bind].
  by rewrite (reduceVector_short (cur_un_pts st)) by lia.
Qed.

End RejectWithF_props.

(** ** Drawing *)

Section Drawing_props.

Variable cv_hconcat : Mat → Mat → Mat.
Variable cv_cvtColor : Mat → Mat.
Variable cv_circle_color : Mat → Point2i → Z → Scalar → Z → Mat.
Variable cv_arrowedLine : Mat → Point2i → Point2i → Scalar → Mat.
Variable cv_line : Mat → Point2i → Point2i → Scalar → Z → Mat.

(** [drawTrack] reads [track_cnt[j]] for every left point and
    [curLeftPts[i]] for every id with a previous position. *)
Lemma drawTrack_ok st (imLeft imRight : Mat) (curLeftIds : list Z)
    (curLeftPts curRightPts : list Point2f) (prevLeftPtsMap : gmap Z Point2f) :
  (length curLeftPts ≤ length (track_cnt st))%nat →
  (length curLeftIds ≤ length curLeftPts)%nat →
  is_Some (drawTrack cv_hconcat cv_cvtColor cv_circle_color cv_arrowedLine
             st imLeft imRight curLeftIds curLeftPts curRightPts
             prevLeftPtsMap).
Proof.
  intros Hc Hi. unfold drawTrack. cbn zeta.
  match goal with
  | |- context [for_loop 0 (length curLeftPts) ?body ?s] =>
      destruct (for_loop_inv (λ _ (_ : Mat), True) body (length curLeftPts)
                  0 s) as (im1 & -> & _)
  end.
  { done. }
  { intros j im Hj _.
    destruct (lookup_lt_is_Some_2 (track_cnt st) j) as [c ->]; [lia|].
    destruct (lookup_lt_is_Some_2 curLeftPts j) as [p ->]; [lia|].
    by eexists. }
  cbn [mbind option_bind].
  assert (∃ im2,
    (if negb (Mat_empty imRight) && stereo_cam st then
       for_loop 0 (length curRightPts)
         (λ i im, p ← curRightPts !! i;
                  Some (cv_circle_color im
                          (toPoint2i (mkPoint2f
                             (pt_x p + inject_Z (Mat_cols imLeft)) (pt_y p)))
                          2 (0%Q, 255%Q, 0%Q) 2)) im1
     else Some im1) = Some im2) as [im2 ->].
  { destruct (negb (Mat_empty imRight) && stereo_cam st); [|by eexists].
    match goal with
    | |- context [for_loop 0 ?n ?body ?s] =>
        destruct (for_loop_inv (λ _ (_ : Mat), True) body n 0 s)
          as (im2 & Hrun & _)
    end.
    - done.
    - intros i im Hlt _.
      destruct (lookup_lt_is_Some_2 curRightPts i) as [p ->]; [lia|].
      by eexists.
    - by exists im2. }
  cbn [mbind option_bind].
  match goal with
  | |- context [for_loop 0 ?n ?body ?s] =>
      destruct (for_loop_inv (λ _ (_ : Mat), True) body n 0 s)
        as (im3 & Hrun & _)
  end.
  - done.
  - intros i im Hlt _.
    destruct (lookup_lt_is_Some_2 curLeftIds i) as [id ->]; [lia|].
    cbn [mbind option_bind].
    destruct (prevLeftPtsMap !! id) as [q|]; [|by eexists].
    destruct (lookup_lt_is_Some_2 curLeftPts i) as [p ->]; [lia|].
    by eexists.
  - by exists im3.
Qed.

(** X22.  The call of [drawTrack] in [trackImage] (line 768) reads no
    vector out of range: on the tracker that the stereo stage of a frame
    leaves, [drawTrack(cur_img, rightImg, ids, cur_pts, cur_right_pts,
    prevLeftPtsMap)] returns. *)
Theorem drawTrack_in_frame cfg (_cur_time : Q) (_img _img1 : Mat) st :
  flow_contract calcOpticalFlowPyrLK → flow_contract cuda_SparsePyrLK →
  detector_contract goodFeaturesToTrack →
  detector_contract cuda_GoodFeaturesToTrack →
  sort_contract std_sort →
  tracker_inv st → calibrated st →
  Forall (λ c, c < INT_MAX) (track_cnt st) →
  n_id st + Z.max (MAX_CNT cfg) 0 ≤ INT_MAX →
  ∃ st5 st6,
    track_left cfg _cur_time _img st = Some st5
    ∧ stereo_stage cfg _img1 st5 = Some st6
    ∧ is_Some (drawTrack cv_hconcat cv_cvtColor cv_circle_color
                 cv_arrowedLine st6 (cur_img st6) _img1 (ids st6)
                 (cur_pts st6) (cur_right_pts st6) (prevLeftPtsMap st6)).
Proof.
  intros Hf1 Hf2 Hd1 Hd2 Hsort Hinv Hcal Hcnt Hroom.
  destruct (trackImage_ok cfg _cur_time _img _img1 st Hf1 Hf2 Hd1 Hd2 Hsort
              Hinv Hcal Hcnt Hroom)
    as (st5 & st6 & st7 & ff & kept & Hrun5 & Hrun6 & _ & _ & _ & _ & _ & _
        & _ & _ & (Hi6 & Ht6 & Hc6 & _) & (Hi7 & Ht7 & Hc7 & _)
        & (Hlc & Hlt & _) & _).
  exists st5, st6. split; [done|]. split; [done|].
  apply drawTrack_ok; rewrite ?Hi6, ?Ht6, ?Hc6, <- ?Hi7, <- ?Ht7, <- ?Hc7; lia.
Qed.

(** X23.  [UpdateMask] returns the number of tracked key points: with a
    flag and a colour for every key point (and a previous point, when
    previous features are given), it returns, and the number is that of
    the flags equal to 0 among the flags of the key points. *)
Theorem UpdateMask_count (cvMask : Mat) (trackColors : list Scalar)
    (prevFeatures : option (list Point2f)) (curFeatures : list Point2f)
    (status : list uchar) :
  (length curFeatures ≤ length status)%nat →
  (length curFeatures ≤ length trackColors)%nat →
  (∀ prev, prevFeatures = Some prev →
     (length curFeatures ≤ length prev)%nat) →
  ∃ m,
    UpdateMask cv_circle_color cv_line cvMask trackColors prevFeatures
      curFeatures status
    = Some (m, Z.of_nat (length (filter (λ s, s = 0)
                                   (take (length curFeatures) status))))
    ∧ 0 ≤ Z.of_nat (length (filter (λ s, s = 0)
                              (take (length curFeatures) status)))
      ≤ Z.of_nat (length curFeatures).
Proof.
  intros Hs Hcol Hprev. unfold UpdateMask.
  destruct (for_loop_inv
    (λ k (acc : Mat * Z),
       acc.2 = Z.of_nat (length (filter (λ s, s = 0) (take k status))))
    (UpdateMask_body cv_circle_color cv_line trackColors prevFeatures
       curFeatures status)
    (length curFeatures) 0 (cvMask, 0)) as ([m n] & Hrun & Hn).
  - done.
  - intros k [m n] Hk Hn. cbn in Hn.
    destruct (lookup_lt_is_Some_2 status k) as [s Hsk]; [lia|].
    destruct (lookup_lt_is_Some_2 curFeatures k) as [cur Hcur]; [lia|].
    destruct (lookup_lt_is_Some_2 trackColors k) as [color Hcolor]; [lia|].
    unfold UpdateMask_body. rewrite Hsk. cbn [mbind option_bind].
    rewrite (take_S_r _ _ s) by done. rewrite filter_app, length_app.
    rewrite filter_cons, filter_nil.
    destruct (Z.eqb_spec s 0) as [->|Hne].
    + rewrite decide_True by done. rewrite Hcur, Hcolor.
      cbn [mbind option_bind fst snd].
      destruct prevFeatures as [prev|].
      * destruct (lookup_lt_is_Some_2 prev k) as [pp ->];
          [specialize (Hprev prev eq_refl); lia|].
        cbn [mbind option_bind]. eexists. split; [done|]. cbn. lia.
      * cbn [mbind option_bind]. eexists. split; [done|]. cbn. lia.
    + rewrite decide_False by done. eexists. split; [done|]. cbn. lia.
  - cbn in Hn. subst n. exists m. split; [exact Hrun|].
    split; [lia|].
    pose proof (length_filter (λ s, s = 0) (take (length curFeatures) status)).
    rewrite length_take in *. lia.
Qed.

End Drawing_props.

(** ** [showUndistortion] *)

Section ShowUndistortion_props.

Variable FOCAL_LENGTH : Q.
Variable Mat_set : Mat → Z → Z → uchar → Mat.

(** A value that passes the bounds test converts to an index inside the
    bounds. *)
Lemma c_trunc_bounds (q : Q) (n : Z) :
  Qle_bool 0 q = true → Qlt_bool q (inject_Z n) = true →
  0 ≤ c_trunc q < n.
Proof.
  unfold c_trunc, Qlt_bool. intros H0 Hn. rewrite H0.
  apply Qle_bool_iff in H0. apply negb_true_iff in Hn.
  assert (q < inject_Z n)%Q as Hlt.
  { apply Qnot_le_lt. intros Hle. apply Qle_bool_iff in Hle. congruence. }
  split.
  - change 0 with (Qfloor 0). by apply Qfloor_resp_le.
  - apply Z.nle_gt. intros Hge.
    apply (Qlt_irrefl q). eapply Qlt_le_trans; [exact Hlt|].
    eapply Qle_trans; [|apply Qfloor_le]. by rewrite <- Zle_Qle.
Qed.

(** The two vectors of the first loops have one length. *)
Lemma show_lift_ok st :
  (1 ≤ length (m_camera st))%nat →
  ∃ pts, show_lift st = Some pts ∧ length pts.1 = length pts.2.
Proof.
  intros Hcam.
  destruct (lookup_lt_is_Some_2 (m_camera st) 0) as [cam0 Hcam0]; [lia|].
  unfold show_lift.
  destruct (for_loop_inv
    (λ _ (acc : list (Q * Q) * list (Q * Q)), length acc.1 = length acc.2)
    (λ i acc,
       for_loop 0 (Z.to_nat (row st))
         (λ j acc,
            cam0 ← m_camera st !! 0%nat;
            let a := (inject_Z (Z.of_nat i), inject_Z (Z.of_nat j)) in
            let b := liftProjective cam0 a in
            Some (acc.1 ++ [a],
                  acc.2 ++ [(double_div b.1.1 b.2, double_div b.1.2 b.2)]))
         acc)
    (Z.to_nat (col st)) 0 ([], [])) as (pts & Hrun & Hlen).
  - done.
  - intros i acc _ Hacc.
    match goal with
    | |- context [for_loop 0 ?n ?body acc] =>
        destruct (for_loop_inv
          (λ _ (acc : list (Q * Q) * list (Q * Q)),
             length acc.1 = length acc.2) body n 0 acc)
          as (acc' & Hrun' & Hacc')
    end.
    + done.
    + intros j a _ Ha. rewrite Hcam0. cbn. eexists. split; [done|]. cbn.
      rewrite !length_app. cbn. lia.
    + by exists acc'.
  - by exists pts.
Qed.

(** X24.  [showUndistortion] writes inside its canvas.  With a camera
    the call reads its two vectors in range and writes no pixel outside the
    canvas of [row + 600] rows and [col + 600] columns: the bounds test of
    line 898 lets a pixel through only if both coordinates, moved by 300,
    convert to a row and a column of the canvas, whatever ray the camera
    model returns; the other pixels are skipped. *)
Theorem showUndistortion_in_canvas st :
  (1 ≤ length (m_camera st))%nat →
  is_Some (showUndistortion FOCAL_LENGTH Mat_set st).
Proof.
  intros Hcam. unfold showUndistortion.
  destruct (show_lift_ok st Hcam) as (pts & -> & Hlen).
  cbn [mbind option_bind].
  match goal with
  | |- context [for_loop 0 ?n ?body ?s] =>
      destruct (for_loop_inv (λ _ (_ : Mat), True) body n 0 s)
        as (img & Hrun & _)
  end.
  - done.
  - intros i img Hi _. unfold show_body.
    destruct (lookup_lt_is_Some_2 pts.2 i) as [u ->]; [lia|].
    cbn [mbind option_bind]. cbn zeta.
    match goal with
    | |- context [if ?c then _ else _] => destruct c eqn:Hguard
    end; [|by eexists].
    apply andb_true_iff in Hguard as [Hguard H4].
    apply andb_true_iff in Hguard as [Hguard H3].
    apply andb_true_iff in Hguard as [H1 H2].
    destruct (lookup_lt_is_Some_2 pts.1 i) as [d ->]; [lia|].
    cbn [mbind option_bind].
    pose proof (c_trunc_bounds _ _ H1 H2) as Hb1.
    pose proof (c_trunc_bounds _ _ H3 H4) as Hb2.
    match goal with
    | |- context [if ?c then _ else _] =>
        assert (c = true) as ->; [|by eexists]
    end.
    rewrite !andb_true_iff, !Z.leb_le, !Z.ltb_lt. lia.
  - rewrite Hrun. by eexists.
Qed.

End ShowUndistortion_props.

End Coverage.

(** * More concrete runs *)

Lemma second_run :
  Demo.second_drifting = Some (Scenes.after_second, Scenes.second_report).
Proof. vm_compute. reflexivity. Qed.

Lemma after_second_reachable :
  reachable (collab := Demo.drifting) Scenes.after_second.
Proof.
  eapply reachable_step; [exact after_first_reachable|].
  eapply step_trackImage. exact second_run.
Qed.

Lemma after_first_table :
  NoDup (ids Demo.after_first)
  ∧ (∀ id, id ∈ ids Demo.after_first → id < n_id Demo.after_first)
  ∧ tracker_inv Demo.after_first.
Proof.
  destruct (reachable_inv (collab := Demo.drifting) Demo.after_first
              stable_sort_contract after_first_reachable)
    as (Hinv & _).
  destruct Hinv as (Hp & Hc & Hnd & Hlt & Hmap). by repeat split.
Qed.

Lemma after_first_counts :
  Forall (λ c, c < INT_MAX) (track_cnt Demo.after_first).
Proof.
  assert (track_cnt Demo.after_first = [1; 1; 1]) as ->
    by (vm_compute; reflexivity).
  repeat (constructor; [unfold INT_MAX; lia|]). constructor.
Qed.

Lemma d_fill_contract (move : Point2f → Point2f) (candidates : list Point2f)
    (sort : (CntPtsId → CntPtsId → bool) → list CntPtsId → list CntPtsId) :
  fill_contract (collab := Demo.collaborators move candidates sort).
Proof. intros rows cols v p _ _. reflexivity. Qed.

Lemma d_findF_contract : fundamental_contract Scenes.d_findF.
Proof.
  intros points1 points2 threshold Hlen. unfold Scenes.d_findF.
  rewrite length_zip_with. lia.
Qed.

Lemma stereo_left_run :
  track_left (collab := Demo.drifting) Demo.config (1 # 10) Demo.image
    (Demo.fresh [tt; tt]) = Some Scenes.stereo_left
  ∧ stereo_stage (collab := Demo.drifting) Demo.config Demo.image
      Scenes.stereo_left = Some Scenes.stereo_after.
Proof. split; vm_compute; reflexivity. Qed.

(** Two sets removed one after the other from the table of the first
    frame. *)
Lemma removeOutliers_union_run :
  (length (prev_pts Demo.after_first) = length (ids Demo.after_first)
   ∧ length (track_cnt Demo.after_first) = length (ids Demo.after_first))
  ∧ (st1 ← removeOutliers {[1]} Demo.after_first; removeOutliers {[2]} st1)
    = removeOutliers ({[1]} ∪ {[2]}) Demo.after_first.
Proof.
  split; [vm_compute; by split|].
  destruct (removeOutliers_union {[1]} {[2]} Demo.after_first)
    as (_ & H & _); [vm_compute; reflexivity..|exact H].
Defined.

(** Three new points on a fresh tracker. *)
Lemma addPoints_overflow_run :
  n_id Scenes.with_corners ≤ INT_MAX
  ∧ is_Some (addPoints Scenes.with_corners).
Proof.
  split; [vm_compute; discriminate|].
  destruct (addPoints_overflow Scenes.with_corners) as [Hiff _];
    [vm_compute; discriminate|].
  apply Hiff. vm_compute. discriminate.
Defined.

(** A prediction for the track 1 after the first frame. *)
Lemma setPrediction_spec_run :
  ((length (ids Demo.after_first) ≤ length (prev_pts Demo.after_first))%nat
   ∧ (1 ≤ length (m_camera Demo.after_first))%nat)
  ∧ ∃ st',
      setPrediction (collab := Demo.drifting) {[1 := (1%Q, 2%Q, 1%Q)]}
        Demo.after_first = Some st'
      ∧ length (predict_pts st') = length (ids Demo.after_first).
Proof.
  split; [vm_compute; split; lia|].
  destruct (setPrediction_spec (collab := Demo.drifting)
              {[1 := (1%Q, 2%Q, 1%Q)]} Demo.after_first)
    as (st' & cam0 & _ & Hrun & _ & Hlen & _); [vm_compute; lia..|].
  exists st'. split; [exact Hrun|exact Hlen].
Defined.

(** A frame before any calibration file was read. *)
Lemma trackImage_needs_camera_run :
  m_camera (Demo.fresh []) = []
  ∧ trackImage (collab := Demo.drifting) Demo.config (1 # 10) Demo.image
      Demo.no_image (Demo.fresh []) = None.
Proof.
  split; [reflexivity|].
  apply (trackImage_needs_camera (collab := Demo.drifting)). reflexivity.
Defined.

(** The table after the first frame. *)
Lemma session_table_aligned_run :
  (sort_contract stable_sort
   ∧ reachable (collab := Demo.drifting) Demo.after_first)
  ∧ length (prev_pts Demo.after_first) = length (ids Demo.after_first)
  ∧ length (track_cnt Demo.after_first) = length (ids Demo.after_first).
Proof.
  split; [split; [apply stable_sort_contract|apply after_first_reachable]|].
  destruct (session_table_aligned (collab := Demo.drifting) Demo.after_first
              stable_sort_contract after_first_reachable) as (Hp & Hc & _).
  split; [exact Hp|exact Hc].
Defined.

Lemma session_age_order_run :
  (sort_contract stable_sort
   ∧ reachable (collab := Demo.drifting) Scenes.after_second)
  ∧ Forall (λ c, 1 ≤ c) (track_cnt Scenes.after_second).
Proof.
  split; [split; [apply stable_sort_contract|apply after_second_reachable]|].
  destruct (session_age_order (collab := Demo.drifting) Scenes.after_second
              stable_sort_contract after_second_reachable) as (_ & H).
  exact H.
Defined.

Lemma session_cameras_run :
  (step (collab := Demo.drifting) Demo.after_first Scenes.after_second
   ∧ reachable (collab := Demo.drifting) Demo.after_first)
  ∧ m_camera Demo.after_first `prefix_of` m_camera Scenes.after_second
  ∧ (stereo_cam Demo.after_first = true →
     (2 ≤ length (m_camera Demo.after_first))%nat).
Proof.
  assert (step (collab := Demo.drifting) Demo.after_first Scenes.after_second)
    as Hstep by (eapply step_trackImage; exact second_run).
  split; [split; [exact Hstep|apply after_first_reachable]|].
  destruct (session_cameras (collab := Demo.drifting)) as [Hs Hr].
  split; [exact (proj1 (Hs _ _ Hstep))|].
  exact (Hr _ after_first_reachable).
Defined.

(** The second frame of the drifting world returns. *)
Lemma trackImage_total_in_session_run :
  (flow_contract (Demo.d_flow Demo.drift)
   ∧ detector_contract (Demo.d_detect Demo.corners)
   ∧ sort_contract stable_sort
   ∧ reachable (collab := Demo.drifting) Demo.after_first
   ∧ (1 ≤ length (m_camera Demo.after_first))%nat
   ∧ Forall (λ c, c < INT_MAX) (track_cnt Demo.after_first)
   ∧ n_id Demo.after_first + Z.max (MAX_CNT Demo.config) 0 ≤ INT_MAX)
  ∧ ∃ st' ff,
      trackImage (collab := Demo.drifting) Demo.config (2 # 10) Demo.image
        Demo.no_image Demo.after_first = Some (st', ff).
Proof.
  assert (n_id Demo.after_first + Z.max (MAX_CNT Demo.config) 0 ≤ INT_MAX)
    as Hroom by (vm_compute; discriminate).
  assert (1 ≤ length (m_camera Demo.after_first))%nat as Hcam
    by (vm_compute; lia).
  split.
  { split; [apply d_flow_contract|]. split; [apply d_detect_contract|].
    split; [apply stable_sort_contract|].
    split; [apply after_first_reachable|]. split; [exact Hcam|].
    split; [apply after_first_counts|exact Hroom]. }
  destruct (trackImage_total_in_session (collab := Demo.drifting) Demo.config
              (2 # 10)%Q Demo.image Demo.no_image Demo.after_first
              (d_flow_contract _) (d_flow_contract _) (d_detect_contract _)
              (d_detect_contract _) stable_sort_contract
              after_first_reachable Hcam after_first_counts Hroom)
    as (st' & ff & Hrun & _).
  exists st', ff. exact Hrun.
Defined.

Lemma trackImage_capacity_run :
  (detector_contract (Demo.d_detect Demo.corners)
   ∧ sort_contract stable_sort
   ∧ trackImage (collab := Demo.drifting) Demo.config (2 # 10) Demo.image
       Demo.no_image Demo.after_first
     = Some (Scenes.after_second, Scenes.second_report))
  ∧ Z.of_nat (length (ids Scenes.after_second))
    ≤ Z.max (MAX_CNT Demo.config) (Z.of_nat (length (ids Demo.after_first))).
Proof.
  split.
  { split; [apply d_detect_contract|]. split; [apply stable_sort_contract|].
    exact second_run. }
  exact (trackImage_capacity (collab := Demo.drifting) _ _ _ _ _ _ _
           (d_detect_contract _) (d_detect_contract _) stable_sort_contract
           second_run).
Defined.

Lemma trackImage_ages_run :
  (sort_contract stable_sort
   ∧ trackImage (collab := Demo.drifting) Demo.config (2 # 10) Demo.image
       Demo.no_image Demo.after_first
     = Some (Scenes.after_second, Scenes.second_report))
  ∧ length (track_cnt Scenes.after_second)
    = length (ids Scenes.after_second).
Proof.
  split; [split; [apply stable_sort_contract|exact second_run]|].
  exact (proj1 (trackImage_ages (collab := Demo.drifting) _ _ _ _ _ _ _
                  stable_sort_contract second_run)).
Defined.

Lemma trackImage_first_frame_run :
  (sort_contract stable_sort
   ∧ prev_pts (Demo.fresh [tt]) = []
   ∧ trackImage (collab := Demo.drifting) Demo.config (1 # 10) Demo.image
       Demo.no_image (Demo.fresh [tt])
     = Some (Demo.after_first, Demo.first_report))
  ∧ track_cnt Demo.after_first
    = replicate (length (cur_pts Demo.after_first)) 1.
Proof.
  split.
  { split; [apply stable_sort_contract|]. split; [reflexivity|].
    exact first_frame_run. }
  pose proof (trackImage_first_frame (collab := Demo.drifting) Demo.config
                (1 # 10)%Q Demo.image Demo.no_image (Demo.fresh [tt])
                Demo.after_first Demo.first_report stable_sort_contract
                eq_refl first_frame_run) as H.
  cbn zeta in H. destruct H as (_ & Hc & _ & Ht & _).
  rewrite Hc. exact Ht.
Defined.

Lemma report_entries_run :
  (sort_contract stable_sort
   ∧ NoDup (ids Demo.after_first)
   ∧ (∀ id, id ∈ ids Demo.after_first → id < n_id Demo.after_first)
   ∧ trackImage (collab := Demo.drifting) Demo.config (2 # 10) Demo.image
       Demo.no_image Demo.after_first
     = Some (Scenes.after_second, Scenes.second_report))
  ∧ ∀ id, id ∉ ids Scenes.after_second → Scenes.second_report !! id = None.
Proof.
  destruct after_first_table as (Hnd & Hlt & _).
  split.
  { split; [apply stable_sort_contract|]. split; [exact Hnd|].
    split; [exact Hlt|exact second_run]. }
  exact (proj1 (report_entries (collab := Demo.drifting) _ _ _ _ _ _ _
                  stable_sort_contract Hnd Hlt second_run)).
Defined.

Lemma report_normalised_run :
  (sort_contract stable_sort
   ∧ NoDup (ids Demo.after_first)
   ∧ (∀ id, id ∈ ids Demo.after_first → id < n_id Demo.after_first)
   ∧ trackImage (collab := Demo.drifting) Demo.config (2 # 10) Demo.image
       Demo.no_image Demo.after_first
     = Some (Scenes.after_second, Scenes.second_report))
  ∧ ∀ id o, o ∈ default [] (Scenes.second_report !! id) →
      o.1 = 0 ∨ o.1 = 1.
Proof.
  destruct after_first_table as (Hnd & Hlt & _).
  split.
  { split; [apply stable_sort_contract|]. split; [exact Hnd|].
    split; [exact Hlt|exact second_run]. }
  intros id o Ho.
  destruct (report_normalised (collab := Demo.drifting) _ _ _ _ _ _ _
              stable_sort_contract Hnd Hlt second_run id o Ho)
    as (cam & u & p & v & Hcam & _).
  exact Hcam.
Defined.

Lemma trackImage_rolls_forward_run :
  (sort_contract stable_sort
   ∧ NoDup (ids Demo.after_first)
   ∧ (∀ id, id ∈ ids Demo.after_first → id < n_id Demo.after_first)
   ∧ trackImage (collab := Demo.drifting) Demo.config (2 # 10) Demo.image
       Demo.no_image Demo.after_first
     = Some (Scenes.after_second, Scenes.second_report))
  ∧ prev_pts Scenes.after_second = cur_pts Scenes.after_second
  ∧ hasPrediction Scenes.after_second = false.
Proof.
  destruct after_first_table as (Hnd & Hlt & _).
  split.
  { split; [apply stable_sort_contract|]. split; [exact Hnd|].
    split; [exact Hlt|exact second_run]. }
  destruct (trackImage_rolls_forward (collab := Demo.drifting) _ _ _ _ _ _ _
              stable_sort_contract Hnd Hlt second_run)
    as ((_ & Hp & _ & _ & _ & _ & Hh) & _).
  split; [exact Hp|exact Hh].
Defined.

Lemma ids_never_return_run :
  (sort_contract stable_sort
   ∧ rtc (step (collab := Demo.drifting)) Demo.after_first
       Scenes.after_second)
  ∧ n_id Demo.after_first ≤ n_id Scenes.after_second.
Proof.
  assert (rtc (step (collab := Demo.drifting)) Demo.after_first
            Scenes.after_second) as Hrtc.
  { apply rtc_once. eapply step_trackImage. exact second_run. }
  split; [split; [apply stable_sort_contract|exact Hrtc]|].
  exact (proj1 (ids_never_return (collab := Demo.drifting) _ _
                  stable_sort_contract Hrtc)).
Defined.

(** The stereo stage of the first frame of a stereo session, with the
    left-right check. *)
Lemma stereo_border_check_run :
  (stereo_stage (collab := Demo.drifting) Demo.config Demo.image
     Scenes.stereo_left = Some Scenes.stereo_after
   ∧ negb (Demo.d_empty Demo.image) && stereo_cam Scenes.stereo_left = true
   ∧ int_true (FLOW_BACK Demo.config) = true)
  ∧ Forall (λ p, inBorder (row Scenes.stereo_left) (col Scenes.stereo_left) p
                 = true)
      (cur_right_pts Scenes.stereo_after).
Proof.
  destruct stereo_left_run as [_ Hrun].
  assert (negb (Demo.d_empty Demo.image) && stereo_cam Scenes.stereo_left
          = true) as Hactive by (vm_compute; reflexivity).
  split; [split; [exact Hrun|split; [exact Hactive|reflexivity]]|].
  destruct (stereo_border_check (collab := Demo.drifting) _ _ _ _ Hrun
              Hactive) as [Hon _].
  exact (Hon eq_refl).
Defined.

(** [setMask] in the second frame of the squeezing world. *)
Lemma setMask_keeps_oldest_run :
  (sort_contract stable_sort
   ∧ fill_contract (collab := Demo.squeezing_stable)
   ∧ length (ids Demo.before_mask) = length (cur_pts Demo.before_mask)
   ∧ length (track_cnt Demo.before_mask) = length (cur_pts Demo.before_mask)
   ∧ cur_pts Demo.before_mask ≠ []
   ∧ Forall (λ p, 0 ≤ cvRound (pt_x p) < col Demo.before_mask
                  ∧ 0 ≤ cvRound (pt_y p) < row Demo.before_mask)
       (cur_pts Demo.before_mask))
  ∧ ∃ st' it rest,
      setMask (collab := Demo.squeezing_stable) Demo.config_forward
        Demo.before_mask = Some st'
      ∧ tracks st' = it :: rest.
Proof.
  assert (cur_pts Demo.before_mask ≠ []) as Hne by (vm_compute; discriminate).
  assert (Forall (λ p, 0 ≤ cvRound (pt_x p) < col Demo.before_mask
                       ∧ 0 ≤ cvRound (pt_y p) < row Demo.before_mask)
            (cur_pts Demo.before_mask)) as Himg.
  { assert (cur_pts Demo.before_mask
            = [mkPoint2f (51 # 2) 5; mkPoint2f (100 # 2) 50;
               mkPoint2f (135 # 2) 50]) as -> by (vm_compute; reflexivity).
    assert (col Demo.before_mask = 100) as -> by (vm_compute; reflexivity).
    assert (row Demo.before_mask = 100) as -> by (vm_compute; reflexivity).
    repeat (constructor; [vm_compute; repeat split; discriminate|]).
    constructor. }
  split.
  { split; [apply stable_sort_contract|]. split; [apply d_fill_contract|].
    split; [vm_compute; reflexivity|]. split; [vm_compute; reflexivity|].
    split; [exact Hne|exact Himg]. }
  destruct (setMask_keeps_oldest (collab := Demo.squeezing_stable)
              Demo.config_forward Demo.before_mask stable_sort_contract
              (d_fill_contract _ _ _))
    as (st' & it & rest & Hrun & Ht & _);
    [vm_compute; reflexivity|vm_compute; reflexivity|exact Hne|exact Himg|].
  exists st', it, rest. split; [exact Hrun|exact Ht].
Defined.

(** The table of the first frame on an image of two columns. *)
Lemma propagate_small_image_run :
  (flow_contract (Demo.d_flow Demo.drift)
   ∧ length (ids (set_col 2 Demo.after_first))
     = length (prev_pts (set_col 2 Demo.after_first))
   ∧ length (track_cnt (set_col 2 Demo.after_first))
     = length (prev_pts (set_col 2 Demo.after_first))
   ∧ (0 < length (prev_pts (set_col 2 Demo.after_first)))%nat
   ∧ (col (set_col 2 Demo.after_first) ≤ 2
      ∨ row (set_col 2 Demo.after_first) ≤ 2))
  ∧ ∃ st',
      propagate (collab := Demo.drifting) Demo.config
        (set_col 2 Demo.after_first) = Some st'
      ∧ ids st' = [].
Proof.
  assert (col (set_col 2 Demo.after_first) ≤ 2
          ∨ row (set_col 2 Demo.after_first) ≤ 2) as Hsmall
    by (left; vm_compute; discriminate).
  split.
  { split; [apply d_flow_contract|]. split; [vm_compute; reflexivity|].
    split; [vm_compute; reflexivity|]. split; [vm_compute; lia|exact Hsmall]. }
  destruct (propagate_small_image (collab := Demo.drifting) Demo.config
              (set_col 2 Demo.after_first) (d_flow_contract _)
              (d_flow_contract _))
    as (_ & st' & Hrun & _ & _ & Hids & _);
    [vm_compute; reflexivity|vm_compute; reflexivity|vm_compute; lia
    |exact Hsmall|].
  exists st'. split; [exact Hrun|exact Hids].
Defined.

(** Eight tracks, one of them off its row. *)
Lemma rejectWithF_spec_run :
  (fundamental_contract Scenes.d_findF
   ∧ (1 ≤ length (m_camera Scenes.crowded))%nat
   ∧ length (prev_pts Scenes.crowded) = length (cur_pts Scenes.crowded)
   ∧ length (cur_un_pts Scenes.crowded) = length (cur_pts Scenes.crowded)
   ∧ length (ids Scenes.crowded) = length (cur_pts Scenes.crowded)
   ∧ length (track_cnt Scenes.crowded) = length (cur_pts Scenes.crowded))
  ∧ ∃ st',
      rejectWithF (collab := Demo.drifting) 460 1 Scenes.d_findF
        Scenes.crowded = Some st'
      ∧ length (ids st') = length (cur_pts st').
Proof.
  split.
  { split; [apply d_findF_contract|]. vm_compute. repeat split; lia. }
  destruct (rejectWithF_spec (collab := Demo.drifting) 460 1 Scenes.d_findF
              Scenes.crowded d_findF_contract)
    as (st' & cam0 & _ & Hrun & _ & _ & _ & _ & Hi & _);
    [vm_compute; lia|vm_compute; reflexivity..|].
  exists st'. split; [exact Hrun|exact Hi].
Defined.

Lemma rejectWithF_stale_run :
  (fundamental_contract Scenes.d_findF
   ∧ (1 ≤ length (m_camera Scenes.crowded_stale))%nat
   ∧ length (prev_pts Scenes.crowded_stale)
     = length (cur_pts Scenes.crowded_stale)
   ∧ (8 ≤ length (cur_pts Scenes.crowded_stale))%nat
   ∧ (length (cur_pts Scenes.crowded_stale)
      < length (cur_un_pts Scenes.crowded_stale))%nat)
  ∧ rejectWithF (collab := Demo.drifting) 460 1 Scenes.d_findF
      Scenes.crowded_stale = None.
Proof.
  split.
  { split; [apply d_findF_contract|]. vm_compute. repeat split; lia. }
  apply (rejectWithF_stale (collab := Demo.drifting) 460 1 Scenes.d_findF
           Scenes.crowded_stale d_findF_contract);
    [vm_compute; lia|vm_compute; reflexivity|vm_compute; lia..].
Defined.

(** The drawing of the first frame. *)
Lemma drawTrack_in_frame_run :
  (flow_contract (Demo.d_flow Demo.drift)
   ∧ detector_contract (Demo.d_detect Demo.corners)
   ∧ sort_contract stable_sort
   ∧ tracker_inv (Demo.fresh [tt]) ∧ calibrated (Demo.fresh [tt])
   ∧ Forall (λ c, c < INT_MAX) (track_cnt (Demo.fresh [tt]))
   ∧ n_id (Demo.fresh [tt]) + Z.max (MAX_CNT Demo.config) 0 ≤ INT_MAX)
  ∧ ∃ st6,
      is_Some (drawTrack (collab := Demo.drifting) Scenes.d_hconcat
                 Scenes.d_cvtColor Scenes.d_circle_color Scenes.d_arrowedLine
                 st6 (cur_img st6) Demo.no_image (ids st6) (cur_pts st6)
                 (cur_right_pts st6) (prevLeftPtsMap st6)).
Proof.
  assert (Forall (λ c, c < INT_MAX) (track_cnt (Demo.fresh [tt]))) as Hcnt
    by constructor.
  assert (n_id (Demo.fresh [tt]) + Z.max (MAX_CNT Demo.config) 0 ≤ INT_MAX)
    as Hroom by (vm_compute; discriminate).
  split.
  { split; [apply d_flow_contract|]. split; [apply d_detect_contract|].
    split; [apply stable_sort_contract|]. split; [apply fresh_inv|].
    split; [apply fresh_calibrated_mono|]. split; [exact Hcnt|exact Hroom]. }
  destruct (drawTrack_in_frame (collab := Demo.drifting) Scenes.d_hconcat
              Scenes.d_cvtColor Scenes.d_circle_color Scenes.d_arrowedLine
              Demo.config (1 # 10)%Q Demo.image Demo.no_image
              (Demo.fresh [tt]) (d_flow_contract _) (d_flow_contract _)
              (d_detect_contract _) (d_detect_contract _)
              stable_sort_contract (fresh_inv _) fresh_calibrated_mono
              Hcnt Hroom)
    as (st5 & st6 & _ & _ & Hdraw).
  exists st6. exact Hdraw.
Defined.

(** Three key points, two of them tracked. *)
Lemma UpdateMask_count_run :
  ((length [mkPoint2f 1 1; mkPoint2f 2 2; mkPoint2f 3 3]
    ≤ length [0; 1; 0; 7])%nat
   ∧ (length [mkPoint2f 1 1; mkPoint2f 2 2; mkPoint2f 3 3]
      ≤ length [(0%Q, 0%Q, 0%Q); (0%Q, 0%Q, 0%Q); (0%Q, 0%Q, 0%Q)])%nat
   ∧ ∀ prev,
       Some [mkPoint2f 0 1; mkPoint2f 2 1; mkPoint2f 3 4] = Some prev →
       (length [mkPoint2f 1 1; mkPoint2f 2 2; mkPoint2f 3 3]
        ≤ length prev)%nat)
  ∧ ∃ m n,
      UpdateMask Scenes.d_circle_color Scenes.d_line Demo.image
        [(0%Q, 0%Q, 0%Q); (0%Q, 0%Q, 0%Q); (0%Q, 0%Q, 0%Q)]
        (Some [mkPoint2f 0 1; mkPoint2f 2 1; mkPoint2f 3 4])
        [mkPoint2f 1 1; mkPoint2f 2 2; mkPoint2f 3 3] [0; 1; 0; 7]
      = Some (m, n)
      ∧ 0 ≤ n ≤ 3.
Proof.
  assert (∀ prev,
            Some [mkPoint2f 0 1; mkPoint2f 2 1; mkPoint2f 3 4] = Some prev →
            (length [mkPoint2f 1 1; mkPoint2f 2 2; mkPoint2f 3 3]
             ≤ length prev)%nat) as Hprev.
  { intros prev [= <-]. cbn. lia. }
  split; [split; [cbn; lia|split; [cbn; lia|exact Hprev]]|].
  destruct (UpdateMask_count Scenes.d_circle_color Scenes.d_line Demo.image
              [(0%Q, 0%Q, 0%Q); (0%Q, 0%Q, 0%Q); (0%Q, 0%Q, 0%Q)]
              (Some [mkPoint2f 0 1; mkPoint2f 2 1; mkPoint2f 3 4])
              [mkPoint2f 1 1; mkPoint2f 2 2; mkPoint2f 3 3] [0; 1; 0; 7])
    as (m & Hrun & Hn); [cbn; lia|cbn; lia|exact Hprev|].
  exists m. eexists. split; [exact Hrun|exact Hn].
Defined.

Lemma showUndistortion_in_canvas_run :
  (1 ≤ length (m_camera Demo.after_first))%nat
  ∧ is_Some (showUndistortion (collab := Demo.drifting) 460 Scenes.d_set
               Demo.after_first).
Proof.
  assert (1 ≤ length (m_camera Demo.after_first))%nat as Hcam
    by (vm_compute; lia).
  split; [exact Hcam|].
  exact (showUndistortion_in_canvas (collab := Demo.drifting) 460
           Scenes.d_set Demo.after_first Hcam).
Defined.

(** * More runs: the sort, the reverse check, velocity and prediction *)

Lemma d_search_contract (target : Point2f → Point2f) :
  flow_contract (Scenes.d_search target).
Proof.
  intros a b prevPts nextPts maxLevel useInitialFlow. unfold Scenes.d_search.
  cbn zeta. cbn [fst snd]. by rewrite !length_fmap, !length_imap.
Qed.

Lemma Some_pair_fst {A B : Type} (a c : A) (b d : B) :
  Some (a, b) = Some (c, d) → a = c.
Proof. by intros [= -> _]. Qed.

Lemma after_first_calibrated : calibrated Demo.after_first.
Proof. split; [vm_compute; lia|]. intros H. vm_compute in H. discriminate H. Qed.

(** Seventeen tracks of count 2 enter [setMask], the ids 0 to 16 in this
    order; the tracks 1 and 2 are 10 pixels apart, every other pair at
    least 40.  [std::sort] of libstdc++ partitions an array of more than 16
    elements around a pivot and swaps elements that compare equivalent: it
    leaves the ids in the order 8, 16, 15, ..., 9, 0, 7, ..., 1, in which
    the track 2 comes before the track 1.  [setMask] therefore retains the
    track 2 and drops the track 1, where a walk in the original order
    retains the track 1 and drops the track 2; after the frame the tracker
    holds the track 2 and not the track 1, and under the order-preserving
    sort it would hold the track 1, not the track 2, and a new track 17. *)
Lemma setMask_tie_order :
  (tracks Scenes.grid_before_mask).*1 = replicate 17 2
  ∧ ids Scenes.grid_before_mask = seqZ 0 17
  ∧ cur_pts Scenes.grid_before_mask !! 1%nat = Some (mkPoint2f 60 20)
  ∧ cur_pts Scenes.grid_before_mask !! 2%nat = Some (mkPoint2f 70 20)
  ∧ fmap (M := list) (λ it : CntPtsId, it.2.2)
      <$> libstdcxx.sort cnt_gt (tracks Scenes.grid_before_mask)
    = Some [8; 16; 15; 14; 13; 12; 11; 10; 9; 0; 7; 6; 5; 4; 3; 2; 1]
  ∧ stable_sort cnt_gt (tracks Scenes.grid_before_mask)
    = tracks Scenes.grid_before_mask
  ∧ ids <$> setMask (collab := Scenes.grid_gnu) Demo.config_forward
              Scenes.grid_before_mask
    = Some [8; 16; 15; 14; 13; 12; 11; 10; 9; 0; 7; 6; 5; 4; 3; 2]
  ∧ ids <$> setMask (collab := Scenes.grid_stable) Demo.config_forward
              Scenes.grid_before_mask
    = Some [0; 1; 3; 4; 5; 6; 7; 8; 9; 10; 11; 12; 13; 14; 15; 16]
  ∧ (λ sf : State Demo.DMat unit * FeatureFrame, ids sf.1)
      <$> trackImage (collab := Scenes.grid_gnu) Demo.config_forward (2 # 10)
            Scenes.wide Demo.no_image Scenes.after_grid
    = Some [8; 16; 15; 14; 13; 12; 11; 10; 9; 0; 7; 6; 5; 4; 3; 2]
  ∧ (λ sf : State Demo.DMat unit * FeatureFrame, ids sf.1)
      <$> trackImage (collab := Scenes.grid_stable) Demo.config_forward
            (2 # 10) Scenes.wide Demo.no_image Scenes.after_grid
    = Some [0; 1; 3; 4; 5; 6; 7; 8; 9; 10; 11; 12; 13; 14; 15; 16; 17].
Proof. repeat split; vm_compute; reflexivity. Qed.

(** The propagation stage of the second frame of the contracting world,
    with the reverse check.  The track 0 moves from x = 1 to x = 25.5 and
    is mapped back to x = 37.75, the track 2 from x = 85 to x = 67.5 and
    back to x = 58.75: both are more than 0.5 pixel from where they were
    and are dropped.  The track 1 stays at x = 50 in both passes and is
    kept. *)
Lemma forward_backward_gate_run :
  (flow_contract (Demo.d_flow Demo.squeeze)
   ∧ length (ids Scenes.squeezed_start)
     = length (prev_pts Scenes.squeezed_start)
   ∧ length (track_cnt Scenes.squeezed_start)
     = length (prev_pts Scenes.squeezed_start)
   ∧ (0 < length (prev_pts Scenes.squeezed_start))%nat
   ∧ int_true (FLOW_BACK Demo.config) = true)
  ∧ ∃ status st',
      propagate (collab := Demo.squeezing_stable) Demo.config
        Scenes.squeezed_start = Some st'
      ∧ status !! 0%nat = Some 0
      ∧ status !! 1%nat = Some 1
      ∧ ids st' = compact (ids Scenes.squeezed_start) status
      ∧ ids st' = [1].
Proof.
  split.
  { split; [apply d_flow_contract|]. vm_compute. repeat split; lia. }
  pose proof (forward_backward_gate (collab := Demo.squeezing_stable)
                Demo.config Scenes.squeezed_start (d_flow_contract _)
                (d_flow_contract _)) as H.
  cbn zeta in H.
  destruct H as (status & st' & Hrun & _ & Hflags & _ & _ & Hids & _);
    [vm_compute; reflexivity|vm_compute; reflexivity|vm_compute; lia
    |reflexivity|].
  exists status, st'. split; [exact Hrun|]. split.
  { destruct (Hflags 0%nat) as (s & r & p & q & c & a & _ & _ & Hp & Hq & _
                                & Ha & Hbin & Hiff & _); [vm_compute; lia|].
    vm_compute in Hp. vm_compute in Hq.
    injection Hp as <-. injection Hq as <-.
    rewrite Ha. destruct Hbin as [-> | ->]; [|reflexivity].
    destruct (proj1 Hiff eq_refl) as (_ & _ & Hle & _).
    vm_compute in Hle. destruct (Hle eq_refl). }
  split.
  { destruct (Hflags 1%nat) as (s & r & p & q & c & a & Hs & Hr & Hp & Hq & Hc
                                & Ha & _ & Hiff & _); [vm_compute; lia|].
    vm_compute in Hs. vm_compute in Hr. vm_compute in Hp. vm_compute in Hq.
    vm_compute in Hc.
    injection Hs as <-. injection Hr as <-. injection Hp as <-.
    injection Hq as <-. injection Hc as <-.
    rewrite Ha. f_equal. apply Hiff.
    split; [discriminate|]. split; [discriminate|].
    split; [vm_compute; discriminate|vm_compute; reflexivity]. }
  split; [exact Hids|].
  assert (ids <$> propagate (collab := Demo.squeezing_stable) Demo.config
                    Scenes.squeezed_start = Some [1]) as Hcomp
    by (vm_compute; reflexivity).
  rewrite Hrun in Hcomp. injection Hcomp as Hcomp. exact Hcomp.
Defined.

(** The propagation stage of the third frame of the drifting world, with
    the reverse check.  The track 0 was at x = 3/4; the forward pass finds
    it at x = 1/2 and sets its flag, the backward pass maps it back to
    x = 1/4 and sets its flag, and 1/4 is 0.5 pixel from 3/4: the three
    tests of the reverse check hold and the check leaves the flag 1.  But
    x = 1/2 rounds to the column 0, outside the border: the border loop
    clears the flag and the stage drops the track, which the frame then
    replaces by a new track 3. *)
Lemma gate_accepts_border_rejects :
  let fwd := selected_forward (collab := Demo.drifting) Demo.config
               Scenes.third_start in
  let rev := selected_lk (collab := Demo.drifting) Demo.config
               (cur_img Scenes.third_start) (prev_img Scenes.third_start)
               fwd.1 (prev_pts Scenes.third_start) 1 true in
  int_true (FLOW_BACK Demo.config) = true
  ∧ ids Scenes.third_start = [0; 1; 2]
  ∧ prev_pts Scenes.third_start !! 0%nat = Some (mkPoint2f (3 # 4) 5)
  ∧ fwd.1 !! 0%nat = Some (mkPoint2f (8 # 16) 5)
  ∧ fwd.2 !! 0%nat = Some 1
  ∧ rev.1 !! 0%nat = Some (mkPoint2f (16 # 64) 5)
  ∧ rev.2 !! 0%nat = Some 1
  ∧ (((3 # 4) - (16 # 64)) * ((3 # 4) - (16 # 64)) + (5 - 5) * (5 - 5)
     <= 1 # 4)%Q
  ∧ snd <$> flow_dispatch (collab := Demo.drifting) Demo.config
              Scenes.third_start = Some [1; 1; 1]
  ∧ (8 # 16 == 1 # 2)%Q
  ∧ cvRound (8 # 16) = 0
  ∧ inBorder 100 100 (mkPoint2f (8 # 16) 5) = false
  ∧ ids <$> propagate (collab := Demo.drifting) Demo.config
              Scenes.third_start = Some [1; 2]
  ∧ (λ sf : State Demo.DMat unit * FeatureFrame, ids sf.1)
      <$> trackImage (collab := Demo.drifting) Demo.config (3 # 10)
            Demo.image Demo.no_image Scenes.after_second
    = Some [1; 2; 3].
Proof.
  cbn zeta. repeat split; try (vm_compute; reflexivity).
  vm_compute. discriminate.
Qed.

(** [ptsVelocity] between the times 1/10 and 2/10, with a previous map
    that has the id 0 at (1, 1) and lacks the id 7: the track 0, now at
    (2, 3), gets the velocity (10, 20) and the track 7 gets (0, 0).  The
    same call on a tracker whose two timestamps are 1/10: the velocity of
    the track 0 is the stand-in for its two differences divided by zero.
    And the second frame of the drifting world, at time 2/10: the track 0
    has moved from x = 1 to x = 3/4 and gets the velocity (-5/2, 0). *)
Lemma velocity_estimator_run :
  (length [0; 7] = length [mkPoint2f 2 3; mkPoint2f 4 4]
   ∧ ¬ (cur_time Scenes.squeezed_start == prev_time Scenes.squeezed_start)%Q
   ∧ (∃ vel m v,
        ptsVelocity (collab := Demo.drifting) Scenes.squeezed_start [0; 7]
          [mkPoint2f 2 3; mkPoint2f 4 4] {[0 := mkPoint2f 1 1]}
        = Some (vel, m)
        ∧ length vel = 2%nat
        ∧ vel !! 0%nat = Some v
        ∧ v = mkPoint2f ((2 - 1) / ((2 # 10) - (1 # 10)))
                ((3 - 1) / ((2 # 10) - (1 # 10)))
        ∧ (pt_x v == 10)%Q ∧ (pt_y v == 20)%Q
        ∧ vel !! 1%nat = Some Point2f_zero)
   ∧ (cur_time Demo.after_first == prev_time Demo.after_first)%Q
   ∧ ∃ vel m,
       ptsVelocity (collab := Demo.drifting) Demo.after_first [0; 7]
         [mkPoint2f 2 3; mkPoint2f 4 4] {[0 := mkPoint2f 1 1]}
       = Some (vel, m)
       ∧ vel !! 0%nat
         = Some (mkPoint2f
                   (double_div_zero (Collaborators := Demo.drifting) (2 - 1))
                   (double_div_zero (Collaborators := Demo.drifting) (3 - 1)))
       ∧ vel !! 1%nat = Some Point2f_zero)
  ∧ ((flow_contract (Demo.d_flow Demo.drift)
      ∧ detector_contract (Demo.d_detect Demo.corners)
      ∧ sort_contract stable_sort
      ∧ tracker_inv Demo.after_first ∧ calibrated Demo.after_first
      ∧ Forall (λ c, c < INT_MAX) (track_cnt Demo.after_first)
      ∧ n_id Demo.after_first + Z.max (MAX_CNT Demo.config) 0 ≤ INT_MAX
      ∧ ¬ (2 # 10 == prev_time Demo.after_first)%Q)
     ∧ ∃ st' ff v,
         trackImage (collab := Demo.drifting) Demo.config (2 # 10) Demo.image
           Demo.no_image Demo.after_first = Some (st', ff)
         ∧ ids st' !! 0%nat = Some 0
         ∧ pts_velocity st' !! 0%nat = Some v
         ∧ v = mkPoint2f (((3 # 4) - 1) / ((2 # 10) - (1 # 10)))
                 ((5 - 5) / ((2 # 10) - (1 # 10)))
         ∧ (pt_x v == - (5 # 2))%Q ∧ (pt_y v == 0)%Q).
Proof.
  destruct (velocity_estimator (collab := Demo.drifting)) as [Hpts Hframe].
  assert (¬ (cur_time Scenes.squeezed_start
             == prev_time Scenes.squeezed_start)%Q) as Hdt.
  { intros H. vm_compute in H. discriminate H. }
  assert (¬ (2 # 10 == prev_time Demo.after_first)%Q) as Hdt2.
  { intros H. vm_compute in H. discriminate H. }
  split.
  - split; [reflexivity|]. split; [exact Hdt|]. split.
    { destruct (Hpts Scenes.squeezed_start [0; 7]
                  [mkPoint2f 2 3; mkPoint2f 4 4] {[0 := mkPoint2f 1 1]}
                  eq_refl)
        as (vel & m & Hrun & _ & Hfull).
      destruct (Hfull (map_non_empty_singleton _ _))
        as (Hlen & Hlack & Hvel & _).
      exists vel, m. eexists. split; [exact Hrun|]. split; [exact Hlen|].
      split; [exact (Hvel Hdt 0%nat 0 (mkPoint2f 2 3) (mkPoint2f 1 1) eq_refl
                       eq_refl eq_refl)|].
      split; [reflexivity|]. split; [reflexivity|]. split; [reflexivity|].
      exact (Hlack 1%nat 7 eq_refl eq_refl). }
    assert (cur_time Demo.after_first == prev_time Demo.after_first)%Q
      as Hsame by (vm_compute; reflexivity).
    split; [exact Hsame|].
    destruct (Hpts Demo.after_first [0; 7]
                [mkPoint2f 2 3; mkPoint2f 4 4] {[0 := mkPoint2f 1 1]} eq_refl)
      as (vel & m & Hrun & _ & Hfull).
    destruct (Hfull (map_non_empty_singleton _ _))
      as (_ & Hlack & _ & Hzero).
    exists vel, m. split; [exact Hrun|].
    split; [exact (Hzero Hsame 0%nat 0 (mkPoint2f 2 3) (mkPoint2f 1 1) eq_refl
                     eq_refl eq_refl)|].
    exact (Hlack 1%nat 7 eq_refl eq_refl).
  - destruct after_first_table as (_ & _ & Hinv).
    assert (n_id Demo.after_first + Z.max (MAX_CNT Demo.config) 0 ≤ INT_MAX)
      as Hroom by (vm_compute; discriminate).
    split.
    { split; [apply d_flow_contract|]. split; [apply d_detect_contract|].
      split; [apply stable_sort_contract|]. split; [exact Hinv|].
      split; [apply after_first_calibrated|].
      split; [apply after_first_counts|]. split; [exact Hroom|exact Hdt2]. }
    destruct (Hframe Demo.config (2 # 10)%Q Demo.image Demo.no_image
                Demo.after_first (d_flow_contract _) (d_flow_contract _)
                (d_detect_contract _) (d_detect_contract _)
                stable_sort_contract Hinv after_first_calibrated
                after_first_counts Hroom)
      as (st' & ff & kept & Hrun & _ & _ & Hvel & _).
    pose proof second_run as Hsecond. unfold Demo.second_drifting in Hsecond.
    rewrite Hrun in Hsecond. apply Some_pair_fst in Hsecond as Hst.
    exists st', ff. eexists. split; [exact Hrun|].
    split; [rewrite Hst; vm_compute; reflexivity|].
    split.
    { apply (Hvel Hdt2 0%nat 0 (mkPoint2f (3 # 4) 5) (mkPoint2f 1 5));
        [rewrite Hst; vm_compute; reflexivity
        |rewrite Hst; vm_compute; reflexivity|vm_compute; reflexivity]. }
    split; [reflexivity|]. split; reflexivity.
Defined.

(** The propagation stage with a staged prediction, twice.  In the scene
    that moves 50 pixels the prediction is 230 pixels off: the pass seeded
    with it finds no point, fewer than 10, and the pass without the seed
    replaces it and finds all ten at the column 70.  In the scene that
    moves 100 pixels the prediction is 15 pixels off: the seeded pass finds
    all ten at the column 120 and no second pass is made. *)
Lemma prediction_fallback_run :
  ((flow_contract (Scenes.d_search Scenes.near)
    ∧ length (ids Scenes.guessed_badly)
      = length (prev_pts Scenes.guessed_badly)
    ∧ length (track_cnt Scenes.guessed_badly)
      = length (prev_pts Scenes.guessed_badly)
    ∧ (0 < length (prev_pts Scenes.guessed_badly))%nat)
   ∧ hasPrediction Scenes.guessed_badly = true
   ∧ (calcOpticalFlowPyrLK (Collaborators := Scenes.searching Scenes.near)
        (prev_img Scenes.guessed_badly) (cur_img Scenes.guessed_badly)
        (prev_pts Scenes.guessed_badly) (predict_pts Scenes.guessed_badly)
        1 true).2 = replicate 10 0
   ∧ ∃ st',
       propagate (collab := Scenes.searching Scenes.near)
         Demo.config_forward Scenes.guessed_badly = Some st'
       ∧ cur_pts st' = Scenes.near <$> Scenes.column
       ∧ ids st' = seqZ 0 10)
  ∧ ((flow_contract (Scenes.d_search Scenes.far)
      ∧ length (ids Scenes.guessed_well)
        = length (prev_pts Scenes.guessed_well)
      ∧ length (track_cnt Scenes.guessed_well)
        = length (prev_pts Scenes.guessed_well)
      ∧ (0 < length (prev_pts Scenes.guessed_well))%nat)
     ∧ hasPrediction Scenes.guessed_well = true
     ∧ (calcOpticalFlowPyrLK (Collaborators := Scenes.searching Scenes.far)
          (prev_img Scenes.guessed_well) (cur_img Scenes.guessed_well)
          (prev_pts Scenes.guessed_well) (predict_pts Scenes.guessed_well)
          1 true).2 = replicate 10 1
     ∧ ∃ st',
         propagate (collab := Scenes.searching Scenes.far)
           Demo.config_forward Scenes.guessed_well = Some st'
         ∧ cur_pts st' = Scenes.far <$> Scenes.column
         ∧ ids st' = seqZ 0 10).
Proof.
  split.
  - split.
    { split; [apply d_search_contract|]. vm_compute. repeat split; lia. }
    split; [vm_compute; reflexivity|]. split; [vm_compute; reflexivity|].
    pose proof (prediction_fallback (collab := Scenes.searching Scenes.near)
                  Demo.config_forward Scenes.guessed_badly
                  (d_search_contract _) (d_search_contract _)) as H.
    cbn zeta in H.
    destruct H as (fs & status & st' & _ & _ & _ & Hrun & _);
      [vm_compute; reflexivity|vm_compute; reflexivity|vm_compute; lia|].
    exists st'. split; [exact Hrun|].
    assert ((λ s : State Demo.DMat unit, (cur_pts s, ids s))
              <$> propagate (collab := Scenes.searching Scenes.near)
                    Demo.config_forward Scenes.guessed_badly
            = Some (Scenes.near <$> Scenes.column, seqZ 0 10)) as Hcomp
      by (vm_compute; reflexivity).
    rewrite Hrun in Hcomp. injection Hcomp as Hc Hi. split; [exact Hc|exact Hi].
  - split.
    { split; [apply d_search_contract|]. vm_compute. repeat split; lia. }
    split; [vm_compute; reflexivity|]. split; [vm_compute; reflexivity|].
    pose proof (prediction_fallback (collab := Scenes.searching Scenes.far)
                  Demo.config_forward Scenes.guessed_well
                  (d_search_contract _) (d_search_contract _)) as H.
    cbn zeta in H.
    destruct H as (fs & status & st' & _ & _ & _ & Hrun & _);
      [vm_compute; reflexivity|vm_compute; reflexivity|vm_compute; lia|].
    exists st'. split; [exact Hrun|].
    assert ((λ s : State Demo.DMat unit, (cur_pts s, ids s))
              <$> propagate (collab := Scenes.searching Scenes.far)
                    Demo.config_forward Scenes.guessed_well
            = Some (Scenes.far <$> Scenes.column, seqZ 0 10)) as Hcomp
      by (vm_compute; reflexivity).
    rewrite Hrun in Hcomp. injection Hcomp as Hc Hi. split; [exact Hc|exact Hi].
Defined.

(** The first pass after a prediction is not a search on a single
    resolution level.  In the scene that moves 100 pixels, with a
    prediction 15 pixels short, the forward pass is the call with
    [maxLevel = 1] and the prediction as initial flow, and it finds all ten
    points, which the stage keeps at the column 120.  The same call with
    [maxLevel = 0], the search on one level, finds none of them, and
    neither does the [maxLevel = 3] search without the prediction: a
    propagator that first searched on a single level would fall back and
    lose all ten tracks. *)
Lemma fast_pass_two_levels :
  let st := Scenes.guessed_well in
  let lk := calcOpticalFlowPyrLK (Collaborators := Scenes.searching Scenes.far) in
  hasPrediction st = true
  ∧ length (prev_pts st) = 10%nat
  ∧ forward_cpu (collab := Scenes.searching Scenes.far) st
    = lk (prev_img st) (cur_img st) (prev_pts st) (predict_pts st) 1 true
  ∧ (lk (prev_img st) (cur_img st) (prev_pts st) (predict_pts st) 1 true).2
    = replicate 10 1
  ∧ (lk (prev_img st) (cur_img st) (prev_pts st) (predict_pts st) 0 true).2
    = replicate 10 0
  ∧ (lk (prev_img st) (cur_img st) (prev_pts st)
       (lk (prev_img st) (cur_img st) (prev_pts st) (predict_pts st) 0
          true).1 3 false).2
    = replicate 10 0
  ∧ (λ s : State Demo.DMat unit, (ids s, cur_pts s))
      <$> propagate (collab := Scenes.searching Scenes.far)
            Demo.config_forward st
    = Some (seqZ 0 10, Scenes.far <$> Scenes.column).
Proof. cbn zeta. repeat split; vm_compute; reflexivity. Qed.

